(** * PathFinding.js-MinimalTurns: the A* finder and its path utilities

    A shallow embedding of [src/finders/AStarFinder.js] (the iterative A*
    engine with turn penalties, momentum and tie resolution) and of the path
    utilities of [core/Util.js] (backtrace, interpolate, expandPath,
    smoothenPath, compressPath, bestPath, resolveTies), followed by the
    properties established about them.

    Conventions of the embedding.
    - A JavaScript number is an element of a [JsNumber] structure.  The
      instance [FloatNumber] is IEEE-754 binary64, the arithmetic the code
      runs on; the instance [RationalNumber] (rationals and NaN, no
      rounding) satisfies the laws of [ExactArith], under which the
      search is analysed.  The statements about the cost of the path
      findPath returns set the run of the program beside its run on the
      rationals.
    - Grid coordinates are integers ([Z]); a grid node is identified with its
      coordinate pair, its mutable search fields live in the grid's store.
    - [undefined] fields are [option] values; the conversions the code
      performs implicitly (truthiness, ToNumber) are written out.
    - A thrown exception is the outcome [Throw]; a loop that has not
      finished within the fuel it was given is the outcome [Timeout]. *)

From Stdlib Require Import QArith Qcanon.
From Stdlib Require Import ZArith List Bool Lia PeanoNat.
From Stdlib Require Import PrimFloat Uint63.
Import ListNotations.

Set Implicit Arguments.
Local Open Scope Z_scope.

(* ===================================================================== *)
(** ** JavaScript numbers *)
(* ===================================================================== *)

Class JsNumber := {
  num : Type;
  NaN : num;
  of_Z : Z -> num;
  SQRT2 : num;                       (* Math.SQRT2 *)
  nadd : num -> num -> num;          (* a + b *)
  nsub : num -> num -> num;          (* a - b *)
  nmul : num -> num -> num;          (* a * b *)
  ndiv : num -> num -> num;          (* a / b *)
  nlt : num -> num -> bool;          (* a < b *)
  neq : num -> num -> bool;          (* a === b *)
  ntruthy : num -> bool              (* ToBoolean(a) *)
}.

Declare Scope js_scope.
Delimit Scope js_scope with js.
Infix "+" := nadd : js_scope.
Infix "-" := nsub : js_scope.
Infix "*" := nmul : js_scope.
Infix "/" := ndiv : js_scope.
Infix "<?" := nlt : js_scope.
Infix "===" := neq (at level 70, no associativity) : js_scope.

(** [Math.sqrt], for the number systems that have it. *)
Class JsSqrt `{JsNumber} := {
  nsqrt : num -> num
}.

(** [a > b] is [b < a]. *)
Definition ngt `{JsNumber} (a b : num) : bool := nlt b a.

(** binary64, the numbers of the running program. *)
Definition float_of_Z (z : Z) : float :=
  if (z <? 0)%Z then PrimFloat.opp (PrimFloat.of_uint63 (Uint63.of_Z (Z.abs z)))
  else PrimFloat.of_uint63 (Uint63.of_Z z).

Definition float_truthy (a : float) : bool :=
  negb (PrimFloat.eqb a 0%float) && PrimFloat.eqb a a.

#[export] Instance FloatNumber : JsNumber := {|
  num := float;
  NaN := PrimFloat.nan;
  of_Z := float_of_Z;
  SQRT2 := PrimFloat.sqrt (float_of_Z 2);
  nadd := PrimFloat.add;
  nsub := PrimFloat.sub;
  nmul := PrimFloat.mul;
  ndiv := PrimFloat.div;
  nlt := PrimFloat.ltb;
  neq := PrimFloat.eqb;
  ntruthy := float_truthy
|}.

#[export] Instance FloatSqrt : JsSqrt (H := FloatNumber) := {|
  nsqrt := PrimFloat.sqrt
|}.

(** Exact arithmetic: the rationals, with NaN but without rounding and
    without infinities (a division by zero is NaN).  [SQRT2] is the
    rational that the binary64 constant Math.SQRT2 denotes. *)
Definition rat_lift2 (op : Qc -> Qc -> Qc) (a b : option Qc) : option Qc :=
  match a, b with
  | Some x, Some y => Some (op x y)
  | _, _ => None
  end.

Definition rat_div (a b : option Qc) : option Qc :=
  match a, b with
  | Some x, Some y => if Qeq_bool y 0 then None else Some (Qcdiv x y)
  | _, _ => None
  end.

Definition rat_lt (a b : option Qc) : bool :=
  match a, b with
  | Some x, Some y => negb (Qle_bool y x)
  | _, _ => false
  end.

Definition rat_eq (a b : option Qc) : bool :=
  match a, b with
  | Some x, Some y => Qeq_bool x y
  | _, _ => false
  end.

Definition rat_truthy (a : option Qc) : bool :=
  match a with
  | Some x => negb (Qeq_bool x 0)
  | None => false
  end.

Definition RationalNumber : JsNumber := {|
  num := option Qc;
  NaN := None;
  of_Z := fun z => Some (Q2Qc (inject_Z z));
  SQRT2 := Some (Q2Qc (6369051672525773 # 4503599627370496));
  nadd := rat_lift2 Qcplus;
  nsub := rat_lift2 Qcminus;
  nmul := rat_lift2 Qcmult;
  ndiv := rat_div;
  nlt := rat_lt;
  neq := rat_eq;
  ntruthy := rat_truthy
|}.

(* ===================================================================== *)
(** ** The fragment of JavaScript semantics the code relies on *)
(* ===================================================================== *)

Section JsValues.
Context `{JsNumber}.

(** ToNumber of a boolean. *)
Definition num_of_bool (b : bool) : num := if b then of_Z 1 else of_Z 0.

(** ToNumber of a value that is a number or [undefined]. *)
Definition toNumber (v : option num) : num :=
  match v with Some a => a | None => NaN end.

(** ToNumber of a value that is a boolean or [undefined]. *)
Definition toNumber_flag (v : option bool) : num :=
  match v with Some b => num_of_bool b | None => NaN end.

(** ToBoolean of a value that is a boolean or [undefined]. *)
Definition truthy_flag (v : option bool) : bool :=
  match v with Some b => b | None => false end.

(** [a === b] for values that are numbers or [undefined]. *)
Definition strict_eq (a b : option num) : bool :=
  match a, b with
  | Some u, Some v => neq u v
  | None, None => true
  | _, _ => false
  end.

(** [a === b] for values that are integers or [undefined]. *)
Definition strict_eqZ (a b : option Z) : bool :=
  match a, b with
  | Some u, Some v => Z.eqb u v
  | None, None => true
  | _, _ => false
  end.

(** [Math.abs(a - b)] where [a] is an integer and [b] an integer or
    [undefined]: the difference with [undefined] is NaN. *)
Definition abs_diff (a : Z) (b : option Z) : num :=
  match b with
  | Some v => of_Z (Z.abs (a - v))
  | None => NaN
  end.
End JsValues.

(** Outcome of a computation that may throw or run out of fuel. *)
Inductive JsError := TypeError.

Inductive outcome (A : Type) :=
| Ok (a : A)
| Throw (e : JsError)
| Timeout.
Arguments Ok {A} a.
Arguments Throw {A} e.
Arguments Timeout {A}.

Definition bind {A B} (m : outcome A) (k : A -> outcome B) : outcome B :=
  match m with
  | Ok a => k a
  | Throw e => Throw e
  | Timeout => Timeout
  end.

Notation "x <- m ;; k" := (bind m (fun x => k))
  (at level 61, m at next level, right associativity).

(* ===================================================================== *)
(** ** Nodes and the grid *)
(* ===================================================================== *)

Definition coord := (Z * Z)%type.     (* (x, y) *)

Definition coord_eqb (a b : coord) : bool :=
  (fst a =? fst b) && (snd a =? snd b).

(** Diagonal-movement policies (core/DiagonalMovement). *)
Inductive DiagonalMovement := Always | Never | IfAtMostOneObstacle | OnlyWhenNoObstacles.

Section Grid.
Context `{JsNumber}.

(** The fields of a node other than its coordinates.  [walkable] belongs
    to the grid; the others are the search-scoped fields findPath and
    resolveTies read and write. *)
Record Node := mkNode {
  walkable : bool;
  g : option num;
  h : option num;
  f : option num;
  opened : bool;
  closed : bool;
  parent : option coord;
  lastTurn : bool;
  lastTurnX : option Z;
  lastTurnY : option Z;
  direction : option Z
}.

Definition set_walkable v (n : Node) :=
  mkNode v (g n) (h n) (f n) (opened n) (closed n) (parent n)
         (lastTurn n) (lastTurnX n) (lastTurnY n) (direction n).
Definition set_g v (n : Node) :=
  mkNode (walkable n) v (h n) (f n) (opened n) (closed n) (parent n)
         (lastTurn n) (lastTurnX n) (lastTurnY n) (direction n).
Definition set_h v (n : Node) :=
  mkNode (walkable n) (g n) v (f n) (opened n) (closed n) (parent n)
         (lastTurn n) (lastTurnX n) (lastTurnY n) (direction n).
Definition set_f v (n : Node) :=
  mkNode (walkable n) (g n) (h n) v (opened n) (closed n) (parent n)
         (lastTurn n) (lastTurnX n) (lastTurnY n) (direction n).
Definition set_opened v (n : Node) :=
  mkNode (walkable n) (g n) (h n) (f n) v (closed n) (parent n)
         (lastTurn n) (lastTurnX n) (lastTurnY n) (direction n).
Definition set_closed v (n : Node) :=
  mkNode (walkable n) (g n) (h n) (f n) (opened n) v (parent n)
         (lastTurn n) (lastTurnX n) (lastTurnY n) (direction n).
Definition set_parent v (n : Node) :=
  mkNode (walkable n) (g n) (h n) (f n) (opened n) (closed n) v
         (lastTurn n) (lastTurnX n) (lastTurnY n) (direction n).
Definition set_lastTurn v (n : Node) :=
  mkNode (walkable n) (g n) (h n) (f n) (opened n) (closed n) (parent n)
         v (lastTurnX n) (lastTurnY n) (direction n).
Definition set_lastTurnXY vx vy (n : Node) :=
  mkNode (walkable n) (g n) (h n) (f n) (opened n) (closed n) (parent n)
         (lastTurn n) vx vy (direction n).

(** A node no search has touched. *)
Definition fresh_node (w : bool) : Node :=
  mkNode w None None None false false None false None None None.

(** The node store: the objects [grid.nodes[y][x]]. *)
Definition Store := coord -> Node.

Definition upd (s : Store) (c : coord) (n : Node) : Store :=
  fun c' => if coord_eqb c c' then n else s c'.

Definition modify (s : Store) (c : coord) (fn : Node -> Node) : Store :=
  upd s c (fn (s c)).

Record Grid := mkGrid {
  width : Z;
  height : Z;
  nodes : Store
}.

Definition with_nodes (gr : Grid) (s : Store) : Grid :=
  mkGrid (width gr) (height gr) s.

Definition isInside (gr : Grid) (c : coord) : bool :=
  (0 <=? fst c) && (fst c <? width gr) && (0 <=? snd c) && (snd c <? height gr).

(** Modelled from the spec: Grid.isWalkableAt, whose code is not part of
    the sources at hand; a cell is walkable when it lies inside the grid
    and its node is marked walkable. *)
Definition isWalkableAt (gr : Grid) (c : coord) : bool :=
  isInside gr c && walkable (nodes gr c).

(** Modelled from the spec: Grid.getNodeAt; the lookup fails on
    coordinates outside the grid. *)
Definition getNodeAt (gr : Grid) (c : coord) : outcome coord :=
  if isInside gr c then Ok c else Throw TypeError.

(** Modelled from the spec: Grid.setWalkableAt. *)
Definition setWalkableAt (gr : Grid) (c : coord) (w : bool) : outcome Grid :=
  if isInside gr c then Ok (with_nodes gr (modify (nodes gr) c (set_walkable w)))
  else Throw TypeError.
End Grid.

Arguments Node {_}.
Arguments Store {_}.
Arguments Grid {_}.

(* ===================================================================== *)
(** ** core/Util.js: the path utilities *)
(* ===================================================================== *)

Section Util.
Context `{JsNumber}.

(** *** backtrace

    [path = [[node.x, node.y]]; while (node.parent) { node = node.parent;
    path.push(...) }; return path.reverse()].  The loop follows the
    parent references found in the store [s]; [fuel] bounds the number of
    references followed. *)
Fixpoint backtrace_loop (s : Store) (fuel : nat) (node : coord)
         (path : list coord) : outcome (list coord) :=
  match parent (s node) with
  | None => Ok path
  | Some p =>
      match fuel with
      | O => Timeout
      | S k => backtrace_loop s k p (path ++ [p])
      end
  end.

Definition backtrace (s : Store) (fuel : nat) (node : coord)
  : outcome (list coord) :=
  path <- backtrace_loop s fuel node [node] ;;
  Ok (rev path).

(** *** biBacktrace

    [pathA.concat(pathB.reverse())] *)
Definition biBacktrace (s : Store) (fuel : nat) (nodeA nodeB : coord)
  : outcome (list coord) :=
  pathA <- backtrace s fuel nodeA ;;
  pathB <- backtrace s fuel nodeB ;;
  Ok (pathA ++ rev pathB).

(** *** interpolate (Bresenham)

    The points are produced in the order the loop pushes them. *)
Fixpoint interpolate_loop (fuel : nat) (x0 y0 x1 y1 sx sy dx dy err : Z)
  : outcome (list coord) :=
  if (x0 =? x1) && (y0 =? y1) then Ok [(x0, y0)]
  else
    match fuel with
    | O => Timeout
    | S k =>
        let e2 := 2 * err in
        let err1 := if e2 >? - dy then err - dy else err in
        let x0' := if e2 >? - dy then x0 + sx else x0 in
        let err2 := if e2 <? dx then err1 + dx else err1 in
        let y0' := if e2 <? dx then y0 + sy else y0 in
        rest <- interpolate_loop k x0' y0' x1 y1 sx sy dx dy err2 ;;
        Ok ((x0, y0) :: rest)
    end.

Definition interpolate (a b : coord) : outcome (list coord) :=
  let '(x0, y0) := a in
  let '(x1, y1) := b in
  let dx := Z.abs (x1 - x0) in
  let dy := Z.abs (y1 - y0) in
  let sx := if x0 <? x1 then 1 else -1 in
  let sy := if y0 <? y1 then 1 else -1 in
  interpolate_loop (Z.to_nat (dx + dy)) x0 y0 x1 y1 sx sy dx dy (dx - dy).

(** *** expandPath *)
Fixpoint expand_segments (path : list coord) : outcome (list coord) :=
  match path with
  | [] => Ok []
  | a :: rest =>
      match rest with
      | [] => Ok [a]                      (* expanded.push(path[len - 1]) *)
      | b :: _ =>
          interpolated <- interpolate a b ;;
          expanded <- expand_segments rest ;;
          Ok (removelast interpolated ++ expanded)
      end
  end.

Definition expandPath (path : list coord) : outcome (list coord) :=
  if (Z.of_nat (length path) <? 2) then Ok [] else expand_segments path.

(** *** smoothenPath

    [s] is the current anchor [(sx, sy)], [prev] is [path[i - 1]] and
    [rest] is [path[i..]]. *)
Definition line_blocked (gr : Grid) (line : list coord) : bool :=
  existsb (fun t => negb (isWalkableAt gr t)) (tl line).

Fixpoint smoothen_loop (gr : Grid) (s prev : coord) (rest : list coord)
         (newPath : list coord) : outcome (list coord) :=
  match rest with
  | [] => Ok newPath
  | c :: rest' =>
      line <- interpolate s c ;;
      if line_blocked gr line
      then smoothen_loop gr prev c rest' (newPath ++ [prev])
      else smoothen_loop gr s c rest' newPath
  end.

Definition smoothenPath (gr : Grid) (path : list coord)
  : outcome (list coord) :=
  match path with
  | [] => Throw TypeError                 (* path[0][0] of an empty array *)
  | p0 :: t =>
      let pend := last path p0 in
      newPath <- match t with
                 | [] => Ok [p0]
                 | p1 :: rest => smoothen_loop gr p0 p1 rest [p0]
                 end ;;
      Ok (newPath ++ [pend])
  end.

(** *** bestPath

    A candidate is the clone [structuredClone(endNode)]: a copy of the
    end node together with everything reachable from it through parent
    references, that is a snapshot of the store and the end coordinate. *)
Definition Candidate := (Store * coord)%type.

Definition cand_f (c : Candidate) : option num := f (fst c (snd c)).

Fixpoint bestPath_loop (currentBestPath : Candidate) (rest : list Candidate)
  : Candidate :=
  match rest with
  | [] => currentBestPath
  | p :: rest' =>
      if (toNumber (cand_f p) <? toNumber (cand_f currentBestPath))%js
      then bestPath_loop p rest'
      else bestPath_loop currentBestPath rest'
  end.

(** [paths[0]] of an empty array is [undefined], here [None]. *)
Definition bestPath (paths : list Candidate) : option Candidate :=
  match paths with
  | [] => None
  | p :: rest => Some (bestPath_loop p rest)
  end.

(** *** resolveTies

    [turnPenalty] is the free variable the function reads,
    [preferences] may be [undefined] and so may each of its entries. *)
Fixpoint threeWayTie (s : Store) (minFVal : option num) (l : list coord)
         (j : nat) : bool :=
  match l with
  | [] => false
  | c :: rest =>
      let j' := if strict_eq minFVal (f (s c)) then S j else j in
      if (2 <? j')%nat then true else threeWayTie s minFVal rest j'
  end.

Definition tied (s : Store) (minFVal : option num) (three : bool)
           (a b : coord) : bool :=
  strict_eq (f (s a)) (f (s b)) && strict_eq (f (s a)) minFVal
  && (if three then (fst a =? fst b) || (snd a =? snd b) else true).

Fixpoint find_pair (s : Store) (minFVal : option num) (three : bool)
         (l : list coord) : option (coord * coord) :=
  match l with
  | [] => None
  | a :: rest =>
      match find (tied s minFVal three a) rest with
      | Some b => Some (a, b)
      | None => find_pair s minFVal three rest
      end
  end.

Definition dirs_are (da db : option Z) (u v : Z) : bool :=
  (strict_eqZ da (Some u) && strict_eqZ db (Some v))
  || (strict_eqZ da (Some v) && strict_eqZ db (Some u)).

Definition tieCase_of (da db : option Z) : option nat :=
  let t := None in
  let t := if dirs_are da db 0 1 then Some 0%nat else t in
  let t := if dirs_are da db 0 2 then Some 1%nat else t in
  let t := if dirs_are da db 0 3 then Some 2%nat else t in
  let t := if dirs_are da db 1 2 then Some 3%nat else t in
  let t := if dirs_are da db 3 1 then Some 4%nat else t in
  let t := if dirs_are da db 2 3 then Some 5%nat else t in
  t.

(** [preferences[tieCase]]; indexing [undefined] throws. *)
Definition preference_at (preferences : option (list (option Z)))
           (tieCase : nat) : outcome (option Z) :=
  match preferences with
  | None => Throw TypeError
  | Some l => Ok (match nth_error l tieCase with Some v => v | None => None end)
  end.

(** [n.g -= TIE_BREAKER] *)
Definition nudge (TIE_BREAKER : num) (n : Node) : Node :=
  set_g (Some (toNumber (g n) - TIE_BREAKER)%js) n.

Definition resolveTies (turnPenalty : num) (s : Store) (l : list coord)
           (minFVal : option num) (preferences : option (list (option Z)))
  : outcome Store :=
  let TIE_BREAKER := (turnPenalty / of_Z 100)%js in
  let three := threeWayTie s minFVal l 0 in
  match find_pair s minFVal three l with
  | None => Ok s                                   (* !tieExists *)
  | Some (neighborA, neighborB) =>
      match tieCase_of (direction (s neighborA)) (direction (s neighborB)) with
      | None => Ok s                               (* default: return *)
      | Some tieCase =>
          pref <- preference_at preferences tieCase ;;
          if strict_eqZ (direction (s neighborA)) pref
          then Ok (modify s neighborA (nudge TIE_BREAKER))
          else if strict_eqZ (direction (s neighborB)) pref
          then Ok (modify s neighborB (nudge TIE_BREAKER))
          else Ok s
      end
  end.
End Util.

Section Compress.
Context `{JsSqrt}.

(** *** compressPath *)
Definition normalize (dx dy : Z) : num * num :=
  let sq := nsqrt (of_Z dx * of_Z dx + of_Z dy * of_Z dy)%js in
  ((of_Z dx / sq)%js, (of_Z dy / sq)%js).

Definition dir_changed (d ld : num * num) : bool :=
  negb (neq (fst d) (fst ld)) || negb (neq (snd d) (snd ld)).

(** [p] is [(px, py)], [d] is [(dx, dy)], [rest] is [path[i..]]. *)
Fixpoint compress_loop (p : coord) (d : num * num) (rest : list coord)
         (compressed : list coord) : list coord :=
  match rest with
  | [] => compressed ++ [p]
  | q :: rest' =>
      let l := p in
      let ld := d in
      let d' := normalize (fst q - fst l) (snd q - snd l) in
      if dir_changed d' ld
      then compress_loop q d' rest' (compressed ++ [l])
      else compress_loop q d' rest' compressed
  end.

Definition compressPath (path : list coord) : list coord :=
  match path with
  | s :: p :: (_ :: _) as rest =>
      compress_loop p (normalize (fst p - fst s) (snd p - snd s)) rest [s]
  | _ => path                              (* path.length < 3 *)
  end.
End Compress.

(* ===================================================================== *)
(** ** Collaborators of the finder: heuristics, open list, grid services *)
(* ===================================================================== *)

Section Collaborators.
Context `{JsNumber}.

(** Modelled from the spec: Heuristic.manhattan and Heuristic.octile of
    core/Heuristic, whose code is not part of the sources at hand. *)
Definition manhattan (dx dy : num) : num := (dx + dy)%js.

Definition octile (dx dy : num) : num :=
  let F := (SQRT2 - of_Z 1)%js in
  if (dx <? dy)%js then (F * dx + dy)%js else (F * dy + dx)%js.

(** Modelled from the spec: the open list, a min-priority queue of node
    references ordered by ascending f (the comparator of findPath),
    whose code (the heap package) is not part of the sources at hand.
    The queue is kept in insertion order; [pop] extracts the first node
    whose f no other queued node undercuts, which is the stable ordering
    among equal keys.  Since the f of a queued node is read when nodes
    are compared, [updateItem] has nothing to do. *)
Definition heap_push (open : list coord) (c : coord) : list coord := open ++ [c].

Fixpoint heap_min (s : Store) (best : coord) (rest : list coord) : coord :=
  match rest with
  | [] => best
  | c :: rest' =>
      if (toNumber (f (s c)) <? toNumber (f (s best)))%js
      then heap_min s c rest'
      else heap_min s best rest'
  end.

Fixpoint remove_first (c : coord) (l : list coord) : list coord :=
  match l with
  | [] => []
  | d :: l' => if coord_eqb c d then l' else d :: remove_first c l'
  end.

Definition heap_pop (s : Store) (open : list coord) : option (coord * list coord) :=
  match open with
  | [] => None
  | c :: rest => let m := heap_min s c rest in Some (m, remove_first m open)
  end.

(** Modelled from the spec: Grid.cleanUp(dirtyCoords, exceptCoord), whose
    code is not part of the sources at hand.  [dirtyCoords] is the flat
    array findPath fills with a [y] followed by an [x] per touched node,
    the start node first.  The search-scoped fields of every listed node
    are reset to their uninitialized state, except for the start node
    and for the protected coordinate. *)
Definition reset_node (n : Node) : Node :=
  mkNode (walkable n) None None None false false None false None None (direction n).

Fixpoint dirty_coords (dirty : list Z) : list coord :=
  match dirty with
  | y :: x :: rest => (x, y) :: dirty_coords rest
  | _ => []
  end.

Definition protected (except : option coord) (c : coord) : bool :=
  match except with
  | Some e => coord_eqb e c
  | None => false
  end.

Definition cleanUp (gr : Grid) (dirty : list Z) (except : option coord) : Grid :=
  let touched := tl (dirty_coords dirty) in
  with_nodes gr
    (fun c => if existsb (coord_eqb c) touched && negb (protected except c)
              then reset_node (nodes gr c) else nodes gr c).

(** Modelled from the spec: Grid.getNeighbors(node, diagonalMovement),
    whose code is not part of the sources at hand: the walkable cells
    among the orthogonal neighbours, in the order up, right, down, left,
    followed by the walkable diagonal neighbours the policy admits. *)
Definition Grid_getNeighbors (gr : Grid) (c : coord) (dm : DiagonalMovement)
  : list coord :=
  let '(x, y) := c in
  let s0 := isWalkableAt gr (x, y - 1) in
  let s1 := isWalkableAt gr (x + 1, y) in
  let s2 := isWalkableAt gr (x, y + 1) in
  let s3 := isWalkableAt gr (x - 1, y) in
  let keep (b : bool) (p : coord) := if b then [p] else [] in
  let straight :=
    keep s0 (x, y - 1) ++ keep s1 (x + 1, y) ++ keep s2 (x, y + 1) ++ keep s3 (x - 1, y) in
  let '(d0, d1, d2, d3) :=
    match dm with
    | Never => (false, false, false, false)
    | OnlyWhenNoObstacles => (s3 && s0, s0 && s1, s1 && s2, s2 && s3)
    | IfAtMostOneObstacle => (s3 || s0, s0 || s1, s1 || s2, s2 || s3)
    | Always => (true, true, true, true)
    end in
  straight
    ++ keep (d0 && isWalkableAt gr (x - 1, y - 1)) (x - 1, y - 1)
    ++ keep (d1 && isWalkableAt gr (x + 1, y - 1)) (x + 1, y - 1)
    ++ keep (d2 && isWalkableAt gr (x + 1, y + 1)) (x + 1, y + 1)
    ++ keep (d3 && isWalkableAt gr (x - 1, y + 1)) (x - 1, y + 1).
End Collaborators.

(* ===================================================================== *)
(** ** finders/AStarFinder.js *)
(* ===================================================================== *)

Section AStarFinder.
Context `{JsNumber}.

(** The option object; an omitted option is [None]. *)
Record Options := mkOptions {
  opt_allowDiagonal : option bool;
  opt_dontCrossCorners : option bool;
  opt_heuristic : option (num -> num -> num);
  opt_weight : option num;
  opt_diagonalMovement : option DiagonalMovement;
  opt_avoidStaircase : option bool;
  opt_turnPenalty : option num;
  opt_useMomentum : option bool;
  opt_momentum : option num;
  opt_breakTies : option bool;
  opt_ignoreStartTies : option bool;
  opt_preferences : option (list (option Z))
}.

(** The options object [{}]. *)
Definition no_options : Options :=
  mkOptions None None None None None None None None None None None None.

Record Finder := mkFinder {
  allowDiagonal : option bool;
  dontCrossCorners : option bool;
  heuristic : num -> num -> num;
  weight : num;
  diagonalMovement : DiagonalMovement;
  avoidStaircase : option bool;
  turnPenalty : num;
  useMomentum : option bool;
  momentum : num;
  breakTies : option bool;
  ignoreStartTies : option bool;
  preferences : option (list (option Z));
  maxIterations : num
}.

(** [v || d] for a [v] that is a number or [undefined]. *)
Definition num_or (v : option num) (d : num) : num :=
  match v with
  | Some a => if ntruthy a then a else d
  | None => d
  end.

(** [a && b] for an [a] that is a boolean or [undefined] and a boolean [b]. *)
Definition flag_and (a : option bool) (b : bool) : option bool :=
  if truthy_flag a then Some b else a.

(** The literals 0.001 and 0.0001: the quotients below are these decimal
    numbers, rounded as the literals are (see [float_literals]). *)
Definition lit_0_001 : num := (of_Z 1 / of_Z 1000)%js.
Definition lit_0_0001 : num := (of_Z 1 / of_Z 10000)%js.

Definition AStarFinder (opt : Options) : Finder :=
  let breakTies := opt_breakTies opt in
  let ignoreStartTies := opt_ignoreStartTies opt in
  let maxIterations :=
    (of_Z 2 + toNumber_flag (flag_and breakTies (negb (truthy_flag ignoreStartTies))))%js in
  let diagonalMovement :=
    match opt_diagonalMovement opt with
    | Some dm => dm
    | None =>
        if negb (truthy_flag (opt_allowDiagonal opt)) then Never
        else if truthy_flag (opt_dontCrossCorners opt) then OnlyWhenNoObstacles
        else IfAtMostOneObstacle
    end in
  let heuristic :=
    match opt_heuristic opt with
    | Some hf => hf
    | None => match diagonalMovement with Never => manhattan | _ => octile end
    end in
  mkFinder (opt_allowDiagonal opt) (opt_dontCrossCorners opt)
           heuristic
           (num_or (opt_weight opt) (of_Z 1))
           diagonalMovement
           (opt_avoidStaircase opt)
           (num_or (opt_turnPenalty opt) lit_0_001)
           (opt_useMomentum opt)
           (num_or (opt_momentum opt) lit_0_0001)
           breakTies ignoreStartTies (opt_preferences opt)
           maxIterations.
End AStarFinder.

Arguments Options {_}.
Arguments Finder {_}.

Section FindPath.
Context `{JsNumber}.

(** The grid's neighbour enumeration, a service of the Grid collaborator
    ([Grid_getNeighbors] is the library's). *)
Variable getNeighbors : Grid -> coord -> DiagonalMovement -> list coord.

(** The global variable [turnPenalty] that resolveTies reads. *)
Variable global_turnPenalty : num.

(** A record of one call of resolveTies, kept for the statements about
    when the engine resolves ties: the node being expanded, the value of
    [atStartNode] and the candidates passed. *)
Record TieCall := mkTieCall {
  tc_node : coord;
  tc_atStartNode : bool;
  tc_candidates : list coord
}.

(** [(x - node.x === 0 || y - node.y === 0) ? 1 : SQRT2] *)
Definition step_cost (node neighbor : coord) : num :=
  if (fst neighbor - fst node =? 0) || (snd neighbor - snd node =? 0)
  then of_Z 1 else SQRT2.

(** [turned]: 0 when the node has no parent, else whether the step to
    the neighbour differs from the step that entered the node. *)
Definition turned_at (s : Store) (node neighbor : coord) : bool :=
  match parent (s node) with
  | None => false
  | Some p =>
      negb (fst node - fst p =? fst neighbor - fst node)
      || negb (snd node - snd p =? snd neighbor - snd node)
  end.

(** The bookkeeping of the last turn (lines 239-252); the condition
    [node.lastTurn = true] is an assignment and always holds. *)
Definition record_turn (s : Store) (node neighbor : coord) (turned : bool) : Store :=
  if turned
  then modify s neighbor
         (fun n => set_lastTurnXY (Some (fst node)) (Some (snd node)) (set_lastTurn true n))
  else
    let s1 := modify s node (set_lastTurn true) in
    modify s1 neighbor (set_lastTurnXY (lastTurnX (s1 node)) (lastTurnY (s1 node))).

(** The momentum terms of lines 254-259, on the store after
    [record_turn]. *)
Definition momentum_reward (fd : Finder) (turned : bool) : num :=
  (momentum fd * num_of_bool (negb turned) * toNumber_flag (useMomentum fd))%js.

Definition momentum_reset (fd : Finder) (s : Store) (node neighbor : coord)
           (turned : bool) : num :=
  (momentum fd * num_of_bool turned
   * heuristic fd (abs_diff (fst node) (lastTurnX (s neighbor)))
                  (abs_diff (snd node) (lastTurnY (s neighbor)))
   * toNumber_flag (useMomentum fd))%js.

(** Lines 229-260: the tentative g of [neighbor] reached from [node],
    with the store after the bookkeeping of turns. *)
Definition tentative_g (fd : Finder) (s : Store) (node neighbor : coord)
  : Store * num :=
  let ng := (toNumber (g (s node)) + step_cost node neighbor)%js in
  if truthy_flag (avoidStaircase fd) then
    let turned := turned_at s node neighbor in
    let ng := (ng + turnPenalty fd * num_of_bool turned)%js in
    let s' := record_turn s node neighbor turned in
    let ng := (ng - momentum_reward fd turned)%js in
    let ng := (ng + momentum_reset fd s' node neighbor turned)%js in
    (s', ng)
  else (s, ng).

(** The state of the loop over the neighbours of the expanded node. *)
Record Relax := mkRelax {
  rx_nodes : Store;
  rx_open : list coord;              (* openList *)
  rx_dirty : list Z;                 (* dirtyNodes *)
  rx_added : list coord;             (* neighborsAddedToList *)
  rx_prevF : option num;             (* prevFVal *)
  rx_minF : option num               (* minFVal *)
}.

(** [neighbor.h || weight * heuristic(abs(x - endX), abs(y - endY))] *)
Definition h_of (fd : Finder) (endc : coord) (s : Store) (neighbor : coord) : num :=
  let fresh := (weight fd * heuristic fd (of_Z (Z.abs (fst neighbor - fst endc)))
                                        (of_Z (Z.abs (snd neighbor - snd endc))))%js in
  match h (s neighbor) with
  | Some v => if ntruthy v then v else fresh
  | None => fresh
  end.

(** One turn of the loop of lines 217-293. *)
Definition relax (fd : Finder) (endc node : coord) (st : Relax) (neighbor : coord)
  : Relax :=
  if closed (rx_nodes st neighbor) then st
  else
    let '(s, ng) := tentative_g fd (rx_nodes st) node neighbor in
    if negb (opened (s neighbor)) || (ng <? toNumber (g (s neighbor)))%js then
      let hv := h_of fd endc s neighbor in
      let fv := (ng + hv)%js in
      let was_opened := opened (s neighbor) in
      let s := modify s neighbor
                 (fun n => set_parent (Some node)
                             (set_f (Some fv) (set_h (Some hv) (set_g (Some ng) n)))) in
      let minF := if ngt (toNumber (rx_prevF st)) fv
                     || match rx_prevF st with None => true | Some _ => false end
                  then Some fv else rx_minF st in
      if negb was_opened then
        mkRelax (modify s neighbor (set_opened true))
                (heap_push (rx_open st) neighbor)
                (rx_dirty st ++ [snd neighbor; fst neighbor])
                (rx_added st ++ [neighbor])
                (Some fv) minF
      else
        mkRelax s (rx_open st) (rx_dirty st) (rx_added st) (Some fv) minF
    else
      mkRelax s (rx_open st) (rx_dirty st) (rx_added st) (rx_prevF st) (rx_minF st).

(** Lines 295-306: the two branches that call resolveTies. *)
Definition break_ties (fd : Finder) (atStartNode : bool) (s : Store)
           (added : list coord) (minFVal : option num)
  : outcome (Store * bool) :=
  if truthy_flag (breakTies fd) && truthy_flag (ignoreStartTies fd) && negb atStartNode
  then s' <- resolveTies global_turnPenalty s added minFVal (preferences fd) ;;
       Ok (s', true)
  else if truthy_flag (breakTies fd)
  then s' <- resolveTies global_turnPenalty s added minFVal (preferences fd) ;;
       Ok (s', true)
  else Ok (s, false).

(** The state of the while loop of lines 165-310. *)
Record Search := mkSearch {
  st_grid : Grid;
  st_open : list coord;
  st_dirty : list Z;
  st_minF : option num;
  st_atStartNode : bool;
  st_ties : list TieCall
}.

Inductive LoopExit :=
| Found (st : Search)        (* the end node was popped *)
| Exhausted (st : Search).   (* the open list is empty *)

Fixpoint search_loop (fuel : nat) (fd : Finder) (endc : coord) (st : Search)
  : outcome LoopExit :=
  match heap_pop (nodes (st_grid st)) (st_open st) with
  | None => Ok (Exhausted st)
  | Some (node, open) =>
      match fuel with
      | O => Timeout
      | S k =>
          let gr := with_nodes (st_grid st)
                      (modify (nodes (st_grid st)) node (set_closed true)) in
          if coord_eqb node endc
          then Ok (Found (mkSearch gr open (st_dirty st) (st_minF st)
                                   (st_atStartNode st) (st_ties st)))
          else
            let neighbors := getNeighbors gr node (diagonalMovement fd) in
            let rx := fold_left (relax fd endc node) neighbors
                        (mkRelax (nodes gr) open (st_dirty st) [] None (st_minF st)) in
            r <- break_ties fd (st_atStartNode st) (rx_nodes rx) (rx_added rx)
                            (rx_minF rx) ;;
            let '(s, called) := r in
            let ties := if called
                        then st_ties st ++ [mkTieCall node (st_atStartNode st) (rx_added rx)]
                        else st_ties st in
            search_loop k fd endc
              (mkSearch (with_nodes gr s) (rx_open rx) (rx_dirty rx) (rx_minF rx)
                        false ties)
      end
  end.

(** What a call of findPath yields: the returned path and the calls of
    resolveTies it made. *)
Record Run := mkRun {
  run_path : list coord;
  run_ties : list TieCall
}.

(** [Util.backtrace(bestPath(paths))]; [bestPath] of an empty array is
    [undefined], whose [x] cannot be read. *)
Definition backtrace_best (fuel : nat) (paths : list Candidate)
  : outcome (list coord) :=
  match bestPath paths with
  | Some bestPathFound => backtrace (fst bestPathFound) fuel (snd bestPathFound)
  | None => Throw TypeError
  end.

(** [!iterations] *)
Definition no_iterations (iterations : option Z) : bool :=
  match iterations with
  | None => true
  | Some n => n =? 0
  end.

(** findPath(startX, startY, endX, endY, grid, paths, firstTileTaken,
    iterations).  [depth] bounds the nesting of the recursive calls and
    [fuel] the turns of each loop. *)
Fixpoint findPath (depth fuel : nat) (fd : Finder) (start endc : coord) (gr : Grid)
         (paths : option (list Candidate)) (firstTileTaken : option coord)
         (iterations : option Z) : outcome Run :=
  startNode <- getNodeAt gr start ;;
  endNode <- getNodeAt gr endc ;;
  gr <- match paths with
        | Some _ =>
            match firstTileTaken with
            | Some t => setWalkableAt gr t false
            | None => Throw TypeError            (* firstTileTaken[0] *)
            end
        | None => Ok gr
        end ;;
  let paths := if no_iterations iterations then Some [] else paths in
  let iterations := if no_iterations iterations then 1
                    else match iterations with Some n => n | None => 1 end in
  let s := modify (nodes gr) startNode
             (fun n => set_opened true (set_f (Some (of_Z 0)) (set_g (Some (of_Z 0)) n))) in
  let st := mkSearch (with_nodes gr s) (heap_push [] startNode)
                     [snd startNode; fst startNode] None true [] in
  exit <- search_loop fuel fd endNode st ;;
  match exit with
  | Found st =>
      let iterations := iterations + 1 in
      match paths with
      | None => Throw TypeError                  (* paths.push of undefined *)
      | Some ps =>
          let ps := ps ++ [(nodes (st_grid st), endNode)] in
          if (maxIterations fd <? of_Z iterations)%js
          then p <- backtrace_best fuel ps ;;
               Ok (mkRun p (st_ties st))
          else
            thisPath <- backtrace (nodes (st_grid st)) fuel endNode ;;
            if (Z.of_nat (length thisPath) =? 2) then Ok (mkRun thisPath (st_ties st))
            else
              let firstTileTaken := nth_error thisPath 1 in
              let gr := cleanUp (st_grid st) (st_dirty st) firstTileTaken in
              match depth with
              | O => Timeout
              | S d =>
                  r <- findPath d fuel fd start endc gr (Some ps) firstTileTaken
                                (Some iterations) ;;
                  Ok (mkRun (run_path r) (st_ties st ++ run_ties r))
              end
      end
  | Exhausted st =>
      match paths with
      | Some ps => p <- backtrace_best fuel ps ;; Ok (mkRun p (st_ties st))
      | None => Ok (mkRun [] (st_ties st))       (* return [] *)
      end
  end.
End FindPath.

(* ===================================================================== *)
(** ** The single-pass finder

    The second [AStarFinder.prototype.findPath] of the sources
    ([findPath(startX, startY, endX, endY, grid)], with the same
    constructor): one search, no momentum, no tie resolution. *)
(* ===================================================================== *)

Module SinglePass.
Section FindPath.
Context `{JsNumber}.
Variable getNeighbors : Grid -> coord -> DiagonalMovement -> list coord.

(** One turn of the loop over the neighbours: the store and the open
    list. *)
Definition relax (fd : Finder) (endc node : coord) (st : Store * list coord)
           (neighbor : coord) : Store * list coord :=
  let '(s, open) := st in
  if closed (s neighbor) then st
  else
    let ng := (toNumber (g (s node)) + step_cost node neighbor)%js in
    let ng := if truthy_flag (avoidStaircase fd)
              then (ng + turnPenalty fd * num_of_bool (turned_at s node neighbor))%js
              else ng in
    if negb (opened (s neighbor)) || (ng <? toNumber (g (s neighbor)))%js then
      let hv := h_of fd endc s neighbor in
      let fv := (ng + hv)%js in
      let was_opened := opened (s neighbor) in
      let s := modify s neighbor
                 (fun n => set_parent (Some node)
                             (set_f (Some fv) (set_h (Some hv) (set_g (Some ng) n)))) in
      if negb was_opened
      then (modify s neighbor (set_opened true), heap_push open neighbor)
      else (s, open)
    else st.

(** The while loop; [fuel] bounds its turns and [bfuel] the references
    backtrace follows. *)
Fixpoint search_loop (fuel bfuel : nat) (fd : Finder) (endc : coord) (gr : Grid)
         (open : list coord) : outcome (list coord) :=
  match heap_pop (nodes gr) open with
  | None => Ok []                                  (* fail to find the path *)
  | Some (node, open) =>
      match fuel with
      | O => Timeout
      | S k =>
          let gr := with_nodes gr (modify (nodes gr) node (set_closed true)) in
          if coord_eqb node endc then backtrace (nodes gr) bfuel endc
          else
            let neighbors := getNeighbors gr node (diagonalMovement fd) in
            let st := fold_left (relax fd endc node) neighbors (nodes gr, open) in
            search_loop k bfuel fd endc (with_nodes gr (fst st)) (snd st)
      end
  end.

Definition findPath (fuel : nat) (fd : Finder) (start endc : coord) (gr : Grid)
  : outcome (list coord) :=
  startNode <- getNodeAt gr start ;;
  endNode <- getNodeAt gr endc ;;
  let s := modify (nodes gr) startNode
             (fun n => set_opened true (set_f (Some (of_Z 0)) (set_g (Some (of_Z 0)) n))) in
  search_loop fuel fuel fd endNode (with_nodes gr s) (heap_push [] startNode).
End FindPath.
End SinglePass.

(* ===================================================================== *)
(** ** Concrete grids *)
(* ===================================================================== *)

(** Modelled from the spec: a grid as the Grid constructor builds it, of
    the given size, with the listed cells unwalkable and no search field
    set. *)
Definition new_Grid `{JsNumber} (w h : Z) (blocked : list coord) : Grid :=
  mkGrid w h (fun c => fresh_node (negb (existsb (coord_eqb c) blocked))).

(* ===================================================================== *)
(** ** Vocabulary of the statements *)
(* ===================================================================== *)

Section Vocabulary.
Context `{JsNumber}.

(** [chain s node root d]: following the parent references of the store
    from [node] reaches, after [d] references, the node [root], which
    has no parent. *)
Inductive chain (s : Store) : coord -> coord -> nat -> Prop :=
| chain_root : forall n, parent (s n) = None -> chain s n n 0
| chain_step : forall n p r d,
    parent (s n) = Some p -> chain s p r d -> chain s n r (S d).

(** Read from its last element to its first, each node of the list has
    the next one as its parent. *)
Fixpoint parent_linked (s : Store) (l : list coord) : Prop :=
  match l with
  | a :: (b :: _) as t => parent (s a) = Some b /\ parent_linked s t
  | _ => True
  end.

(** The direction values resolveTies knows: 0, 1, 2 and 3. *)
Definition encoded_direction (d : option Z) : bool :=
  match d with
  | Some z => (0 <=? z) && (z <=? 3)
  | None => false
  end.

(** [f === g + h] on a node of the store. *)
Definition f_is_g_plus_h (s : Store) (c : coord) : bool :=
  strict_eq (f (s c)) (Some (toNumber (g (s c)) + toNumber (h (s c)))%js).

(** Two nodes that differ at most in their g. *)
Definition same_but_g (n m : Node) : Prop :=
  walkable n = walkable m /\ h n = h m /\ f n = f m /\ opened n = opened m
  /\ closed n = closed m /\ parent n = parent m /\ lastTurn n = lastTurn m
  /\ lastTurnX n = lastTurnX m /\ lastTurnY n = lastTurnY m
  /\ direction n = direction m.
End Vocabulary.


(** *** Lines and turn points *)

Definition shift (c u : coord) : coord := (fst c + fst u, snd c + snd u).

(** The cell [c] followed by [k] further cells, each one step [u] after
    the previous one. *)
Fixpoint line_from (c u : coord) (k : nat) : list coord :=
  match k with
  | O => [c]
  | S k' => c :: line_from (shift c u) u k'
  end.

(** The eight compass steps. *)
Definition compass (u : coord) : Prop :=
  -1 <= fst u <= 1 /\ -1 <= snd u <= 1 /\ u <> (0, 0).

(** [b] lies [n >= 1] compass steps [u] after [a]: the segment from [a]
    to [b] is horizontal, vertical or diagonal and not degenerate. *)
Definition compass_segment (a b u : coord) (n : nat) : Prop :=
  compass u /\ (1 <= n)%nat
  /\ fst b = fst a + Z.of_nat n * fst u /\ snd b = snd a + Z.of_nat n * snd u.

(** A path given by its turn points: every segment is a compass segment
    and no two consecutive segments have the same direction. [u0] is the
    direction of the segment that leads to the first point, if any. *)
Fixpoint turn_points (u0 : option coord) (p : list coord) : Prop :=
  match p with
  | a :: (b :: _) as t =>
      exists u n, compass_segment a b u n /\ u0 <> Some u /\ turn_points (Some u) t
  | _ => True
  end.

Section Segments.
Context `{JsNumber}.

(** The Bresenham line from [a] to [b] exists and every cell of it, both
    ends included, is walkable. *)
Definition clear_segment (gr : Grid) (a b : coord) : Prop :=
  exists line, interpolate a b = Ok line /\ forallb (isWalkableAt gr) line = true.

(** Every segment between consecutive points of the path is clear. *)
Fixpoint segments_clear (gr : Grid) (p : list coord) : Prop :=
  match p with
  | a :: (b :: _) as t => clear_segment gr a b /\ segments_clear gr t
  | _ => True
  end.
End Segments.


(** *** Paths as runs

    A path given by its first point and its runs, a run being a compass
    step and the number of times it is taken. *)
Definition run := (coord * nat)%type.

Definition shift_n (c u : coord) (n : nat) : coord :=
  (fst c + Z.of_nat n * fst u, snd c + Z.of_nat n * snd u).

(** The [k] cells after [c] in direction [u]. *)
Fixpoint steps (c u : coord) (k : nat) : list coord :=
  match k with
  | O => []
  | S k' => shift c u :: steps (shift c u) u k'
  end.

(** The turn points of the path. *)
Fixpoint vertices (a : coord) (runs : list run) : list coord :=
  match runs with
  | [] => [a]
  | (u, n) :: rest => a :: vertices (shift_n a u n) rest
  end.

(** The cells of the path after its first one. *)
Fixpoint cells_after (a : coord) (runs : list run) : list coord :=
  match runs with
  | [] => []
  | (u, n) :: rest => steps a u n ++ cells_after (shift_n a u n) rest
  end.

(** Every run takes a compass step at least once, and no run continues
    in the direction [prev] of the run before it. *)
Fixpoint wf_runs (prev : option coord) (runs : list run) : Prop :=
  match runs with
  | [] => True
  | (u, n) :: rest =>
      compass u /\ (1 <= n)%nat /\ prev <> Some u /\ wf_runs (Some u) rest
  end.


(** *** Exact arithmetic

    [nle a b] is "not [b < a]".  The laws below are those of the
    non-NaN numbers when no operation rounds; they say nothing of NaN. *)
Definition nle `{JsNumber} (a b : num) : Prop := nlt b a = false.

Class ExactArith `{JsNumber} := {
  finite : num -> Prop;
  finite_of_Z : forall z, finite (of_Z z);
  finite_SQRT2 : finite SQRT2;
  finite_add : forall a b, finite a -> finite b -> finite (a + b)%js;
  nle_refl : forall a, finite a -> nle a a;
  nle_trans : forall a b c,
      finite a -> finite b -> finite c -> nle a b -> nle b c -> nle a c;
  nlt_nle : forall a b, finite a -> finite b -> nlt a b = true -> nle a b;
  nadd_le_mono_l : forall a b c,
      finite a -> finite b -> finite c -> nle a b -> nle (c + a)%js (c + b)%js;
  nadd_le_mono_r : forall a b c,
      finite a -> finite b -> finite c -> nle a b -> nle (a + c)%js (b + c)%js;
  nadd_le_cancel_r : forall a b c,
      finite a -> finite b -> finite c -> nle (a + c)%js (b + c)%js -> nle a b;
  nadd_assoc : forall a b c,
      finite a -> finite b -> finite c -> (a + b + c)%js = (a + (b + c))%js;
  nadd_comm : forall a b, finite a -> finite b -> (a + b)%js = (b + a)%js;
  nadd_0_l : forall a, finite a -> (of_Z 0 + a)%js = a;
  nmul_1_l : forall a, (of_Z 1 * a)%js = a;
  nle_0_1 : nle (of_Z 0) (of_Z 1);
  nle_1_SQRT2 : nle (of_Z 1) SQRT2;
  nle_SQRT2_2 : nle SQRT2 (of_Z 1 + of_Z 1)%js
}.

(** *** Paths on the grid *)

Section Paths.
Context `{JsNumber}.
Variable getNeighbors : Grid -> coord -> DiagonalMovement -> list coord.

(** Each point of the path is a neighbour, as the grid enumerates them,
    of the point before it. *)
Fixpoint valid_path (gr : Grid) (dm : DiagonalMovement) (p : list coord) : Prop :=
  match p with
  | a :: (b :: _) as t => In b (getNeighbors gr a dm) /\ valid_path gr dm t
  | _ => True
  end.

(** The path starts at [a] and ends at [b]. *)
Definition joins (a b : coord) (p : list coord) : Prop :=
  hd_error p = Some a /\ last p a = b.

(** The cost of a path: 1 per orthogonal step and SQRT2 per diagonal
    step, summed from the start as findPath sums them. *)
Fixpoint cost_from (acc : num) (p : list coord) : num :=
  match p with
  | a :: (b :: _) as t => cost_from (acc + step_cost a b)%js t
  | _ => acc
  end.

Definition path_cost (p : list coord) : num := cost_from (of_Z 0) p.

(** The estimate the heuristic of the finder gives at a cell. *)
Definition hvalue (fd : Finder) (endc c : coord) : num :=
  heuristic fd (of_Z (Z.abs (fst c - fst endc))) (of_Z (Z.abs (snd c - snd endc))).


(** No search has touched the grid. *)
Definition untouched (gr : Grid) : Prop :=
  forall c,
    opened (nodes gr c) = false /\ closed (nodes gr c) = false
    /\ h (nodes gr c) = None /\ parent (nodes gr c) = None
    /\ encoded_direction (direction (nodes gr c)) = false.

(** What the searches rely on in the neighbour enumeration: it yields
    walkable cells of the grid, it depends on the size of the grid and on
    the walkability of its cells only, and making cells unwalkable does
    not add neighbours. *)
Record neighbour_service : Prop := {
  gn_walkable : forall gr a dm b,
      In b (getNeighbors gr a dm) -> isWalkableAt gr b = true;
  gn_ext : forall gr gr' a dm,
      width gr = width gr' -> height gr = height gr' ->
      (forall c, walkable (nodes gr c) = walkable (nodes gr' c)) ->
      getNeighbors gr a dm = getNeighbors gr' a dm;
  gn_mono : forall gr gr' a dm,
      width gr = width gr' -> height gr = height gr' ->
      (forall c, walkable (nodes gr' c) = true -> walkable (nodes gr c) = true) ->
      incl (getNeighbors gr' a dm) (getNeighbors gr a dm)
}.
End Paths.

Section Consistency.
Context `{ExactArith}.
Variable getNeighbors : Grid -> coord -> DiagonalMovement -> list coord.

(** The heuristic is finite and consistent: its estimate at a cell is at
    most the cost of a step to a neighbour plus the estimate there. *)
Definition consistent (fd : Finder) (gr : Grid) (endc : coord) : Prop :=
  (forall c, finite (hvalue fd endc c))
  /\ forall a b,
      In b (getNeighbors gr a (diagonalMovement fd)) ->
      nle (hvalue fd endc a) (step_cost a b + hvalue fd endc b)%js.
End Consistency.

(** The cells of the grid. *)
Definition zrange (n : Z) : list Z := map Z.of_nat (seq 0 (Z.to_nat n)).

Definition all_cells `{JsNumber} (gr : Grid) : list coord :=
  flat_map (fun y => map (fun x => (x, y)) (zrange (width gr))) (zrange (height gr)).

(** *** More vocabulary for the path utilities *)

(** Consecutive points are distinct neighbours, diagonal ones included. *)
Fixpoint neighbouring (p : list coord) : Prop :=
  match p with
  | a :: (b :: _) as t =>
      Z.abs (fst b - fst a) <= 1 /\ Z.abs (snd b - snd a) <= 1 /\ a <> b
      /\ neighbouring t
  | _ => True
  end.

(** [c] lies in the rectangle spanned by [a] and [b]. *)
Definition in_box (a b c : coord) : Prop :=
  Z.min (fst a) (fst b) <= fst c <= Z.max (fst a) (fst b)
  /\ Z.min (snd a) (snd b) <= snd c <= Z.max (snd a) (snd b).

(** The number of king moves between two cells. *)
Definition chebyshev (a b : coord) : Z :=
  Z.max (Z.abs (fst b - fst a)) (Z.abs (snd b - snd a)).

(** The sum of the king-move distances between consecutive points. *)
Fixpoint king_length (p : list coord) : Z :=
  match p with
  | a :: (b :: _) as t => chebyshev a b + king_length t
  | _ => 0
  end.

(** [l] is [m] with some elements left out. *)
Inductive subseq {A : Type} : list A -> list A -> Prop :=
| subseq_nil : subseq [] []
| subseq_skip : forall x l m, subseq l m -> subseq l (x :: m)
| subseq_keep : forall x l m, subseq l m -> subseq (x :: l) (x :: m).

(* ===================================================================== *)
(** ** Basic facts *)
(* ===================================================================== *)

Lemma coord_eqb_spec (a b : coord) : reflect (a = b) (coord_eqb a b).
Proof.
  destruct a as [ax ay], b as [bx by_]; unfold coord_eqb; simpl.
  destruct (Z.eqb_spec ax bx), (Z.eqb_spec ay by_); simpl; constructor; congruence.
Qed.

Lemma coord_eqb_refl (a : coord) : coord_eqb a a = true.
Proof. destruct (coord_eqb_spec a a); congruence. Qed.

Lemma coord_eqb_neq (a b : coord) : a <> b -> coord_eqb a b = false.
Proof. destruct (coord_eqb_spec a b); congruence. Qed.

Section StoreFacts.
Context `{JsNumber}.

Lemma upd_same (s : Store) c n : upd s c n c = n.
Proof. unfold upd. now rewrite coord_eqb_refl. Qed.

Lemma upd_other (s : Store) c n c' : c <> c' -> upd s c n c' = s c'.
Proof. intros Hne. unfold upd. now rewrite coord_eqb_neq. Qed.

Lemma modify_same (s : Store) c fn : modify s c fn c = fn (s c).
Proof. apply upd_same. Qed.

Lemma modify_other (s : Store) c fn c' : c <> c' -> modify s c fn c' = s c'.
Proof. apply upd_other. Qed.
End StoreFacts.

(* ===================================================================== *)
(** ** backtrace *)
(* ===================================================================== *)

Section Backtrace.
Context `{JsNumber}.

Lemma last_cons_default (A : Type) (a : A) (l : list A) (d d' : A) :
  last (a :: l) d = last (a :: l) d'.
Proof.
  revert a. induction l as [|b l IH]; intros a; [reflexivity|].
  change (last (b :: l) d = last (b :: l) d'). apply IH.
Qed.

(** The loop appends to the path the ancestors of the node, nearest
    first. *)
Lemma backtrace_loop_chain (s : Store) node root d :
  chain s node root d ->
  forall fuel acc, (d <= fuel)%nat ->
  exists tail,
    backtrace_loop s fuel node acc = Ok (acc ++ tail)
    /\ length tail = d
    /\ last (node :: tail) node = root
    /\ parent_linked s (node :: tail).
Proof.
  induction 1 as [n Hn | n p r d Hp Hch IH]; intros fuel acc Hle.
  - exists []. destruct fuel; simpl; rewrite Hn, app_nil_r; auto.
  - destruct fuel as [|fuel]; [lia|].
    destruct (IH fuel (acc ++ [p])) as (tail & Hrun & Hlen & Hlast & Hlink); [lia|].
    exists (p :: tail). simpl backtrace_loop. rewrite Hp, Hrun, <- app_assoc.
    split; [reflexivity|]. split; [simpl; now rewrite Hlen|].
    split; [|split; [exact Hp|exact Hlink]].
    change (last (p :: tail) n = r). now rewrite (last_cons_default p tail n p).
Qed.

Lemma hd_error_rev_last (A : Type) (l : list A) (d : A) :
  l <> [] -> hd_error (rev l) = Some (last l d).
Proof.
  intros Hne. destruct (exists_last Hne) as (l' & a & ->).
  now rewrite rev_app_distr, last_last.
Qed.

Lemma last_rev_hd (A : Type) (a : A) (l : list A) (d : A) :
  last (rev (a :: l)) d = a.
Proof. simpl. apply last_last. Qed.
End Backtrace.

(** C9. For a node whose parent references form a finite chain of [d]
    links ending at a root without parent, backtrace (given fuel for [d]
    links) returns a path that starts at the root, ends at the node, has
    [d + 1] points and in which every point is the parent of the next:
    the parent chain in start-to-goal order, both ends included. *)
Theorem backtrace_root_to_node `{JsNumber} (s : Store) (node root : coord)
        (d fuel : nat) :
  chain s node root d ->
  (d <= fuel)%nat ->
  exists path,
    backtrace s fuel node = Ok path
    /\ hd_error path = Some root
    /\ last path root = node
    /\ length path = S d
    /\ parent_linked s (rev path).
Proof.
  intros Hch Hle.
  destruct (backtrace_loop_chain Hch [node] Hle) as (tail & Hrun & Hlen & Hlast & Hlink).
  exists (rev (node :: tail)). unfold backtrace. rewrite Hrun. simpl bind.
  change ([node] ++ tail) with (node :: tail).
  repeat split.
  - rewrite (hd_error_rev_last node) by discriminate. now rewrite Hlast.
  - apply last_rev_hd.
  - rewrite length_rev. simpl. now rewrite Hlen.
  - now rewrite rev_involutive.
Qed.

(** A node two links below its root. *)
Definition chain_store : Store (H := FloatNumber) :=
  fun c =>
    if coord_eqb c (2, 0) then set_parent (Some (1, 0)) (fresh_node true)
    else if coord_eqb c (1, 0) then set_parent (Some (0, 0)) (fresh_node true)
    else fresh_node true.

Lemma backtrace_root_to_node_witness :
  exists path,
    backtrace chain_store 2 (2, 0) = Ok path
    /\ hd_error path = Some (0, 0)
    /\ last path (0, 0) = (2, 0)
    /\ length path = 3%nat
    /\ parent_linked chain_store (rev path).
Proof.
  apply (@backtrace_root_to_node FloatNumber chain_store (2, 0) (0, 0) 2 2).
  - apply chain_step with (p := (1, 0)); [reflexivity|].
    apply chain_step with (p := (0, 0)); [reflexivity|].
    apply chain_root. reflexivity.
  - lia.
Defined.

(* ===================================================================== *)
(** ** resolveTies *)
(* ===================================================================== *)

Section ResolveTies.
Context `{JsNumber}.

Lemma find_pair_In (s : Store) minFVal three l a b :
  find_pair s minFVal three l = Some (a, b) ->
  In a l /\ In b l /\ tied s minFVal three a b = true.
Proof.
  induction l as [|c l IH]; simpl; [discriminate|].
  destruct (find (tied s minFVal three c) l) as [b'|] eqn:Hf.
  - intros [= <- <-]. apply find_some in Hf. tauto.
  - intros Hp. destruct (IH Hp) as (Ha & Hb & Ht). tauto.
Qed.

Lemma dirs_are_not_encoded da db u v :
  encoded_direction da = false \/ encoded_direction db = false ->
  0 <= u <= 3 -> 0 <= v <= 3 ->
  dirs_are da db u v = false.
Proof.
  intros Hd Hu Hv. unfold dirs_are.
  assert (Hne : forall d w, encoded_direction d = false -> 0 <= w <= 3 ->
                            strict_eqZ d (Some w) = false).
  { intros [z|] w He Hw; simpl in *; [|reflexivity].
    destruct (Z.eqb_spec z w); [subst|reflexivity].
    apply andb_false_iff in He. destruct He as [He|He];
      [apply Z.leb_gt in He | apply Z.leb_gt in He]; lia. }
  destruct Hd as [Hd|Hd].
  - rewrite (Hne da u Hd Hu), (Hne da v Hd Hv). reflexivity.
  - rewrite (Hne db v Hd Hv), (Hne db u Hd Hu).
    now rewrite !andb_false_r.
Qed.

Lemma tieCase_of_not_encoded da db :
  encoded_direction da = false \/ encoded_direction db = false ->
  tieCase_of da db = None.
Proof.
  intros Hd. unfold tieCase_of.
  rewrite !(dirs_are_not_encoded _ _ Hd) by lia. reflexivity.
Qed.

Lemma tieCase_of_encoded da db k :
  tieCase_of da db = Some k ->
  encoded_direction da = true /\ encoded_direction db = true.
Proof.
  intros Hk.
  destruct (encoded_direction da) eqn:Ha, (encoded_direction db) eqn:Hb; auto;
    rewrite tieCase_of_not_encoded in Hk by auto; discriminate.
Qed.

(** Without an encoded direction among the candidates no tie case is
    recognised and the store is returned as it was. *)
Lemma resolveTies_unchanged tp (s : Store) l minFVal prefs :
  (forall c, In c l -> encoded_direction (direction (s c)) = false) ->
  resolveTies tp s l minFVal prefs = Ok s.
Proof.
  intros Hdir. unfold resolveTies.
  destruct (find_pair s minFVal _ l) as [[a b]|] eqn:Hp; [|reflexivity].
  apply find_pair_In in Hp. destruct Hp as (Ha & _ & _).
  rewrite tieCase_of_not_encoded; [reflexivity|]. left. auto.
Qed.

Lemma nudge_same_but_g eps (n : Node) : same_but_g (nudge eps n) n.
Proof. unfold same_but_g, nudge, set_g; simpl. tauto. Qed.

Lemma same_but_g_refl (n : Node) : same_but_g n n.
Proof. unfold same_but_g. tauto. Qed.

Lemma dirs_are_same (d : option Z) (u v : Z) : u <> v -> dirs_are d d u v = false.
Proof.
  intros Huv. unfold dirs_are. destruct d as [z|]; simpl; [|reflexivity].
  destruct (Z.eqb_spec z u), (Z.eqb_spec z v); simpl; try reflexivity. congruence.
Qed.

(** A tie case is recognised only between two different directions. *)
Lemma tieCase_of_distinct da db k : tieCase_of da db = Some k -> da <> db.
Proof.
  intros Hk Heq. subst db. unfold tieCase_of in Hk.
  rewrite !dirs_are_same in Hk by lia. discriminate.
Qed.

Lemma strict_eqZ_encoded (d pref : option Z) :
  encoded_direction d = true -> strict_eqZ d pref = true ->
  exists w, d = Some w /\ pref = Some w /\ 0 <= w <= 3.
Proof.
  destruct d as [z|]; simpl; [|discriminate]. intros He Heq.
  destruct pref as [w|]; simpl in Heq; [|discriminate].
  apply Z.eqb_eq in Heq. subst w. exists z.
  apply andb_true_iff in He. destruct He as [H0 H3].
  apply Z.leb_le in H0, H3. auto.
Qed.

(** What a call that returns can have done: nothing, or the [g] of one
    candidate lowered by the epsilon.  That candidate is one of a pair
    [a], [b] of candidates tied at the minimum whose directions form the
    tie case [k], and its direction is the entry [k] of the preference
    table. *)
Lemma resolveTies_cases tp (s : Store) l minFVal prefs s' :
  resolveTies tp s l minFVal prefs = Ok s' ->
  s' = s \/
  exists a b w k pl dw,
    In a l /\ In b l
    /\ strict_eq (f (s a)) (f (s b)) = true /\ strict_eq (f (s a)) minFVal = true
    /\ tieCase_of (direction (s a)) (direction (s b)) = Some k
    /\ (w = a \/ w = b)
    /\ direction (s w) = Some dw /\ 0 <= dw <= 3
    /\ prefs = Some pl /\ nth_error pl k = Some (Some dw)
    /\ s' = modify s w (nudge (tp / of_Z 100)%js).
Proof.
  unfold resolveTies.
  destruct (find_pair s minFVal _ l) as [[a b]|] eqn:Hp; [|intros [= <-]; auto].
  apply find_pair_In in Hp. destruct Hp as (Ha & Hb & Ht).
  unfold tied in Ht. apply andb_true_iff in Ht. destruct Ht as [Ht _].
  apply andb_true_iff in Ht. destruct Ht as [Hab Hmin].
  destruct (tieCase_of _ _) as [k|] eqn:Hk; [|intros [= <-]; auto].
  assert (Henc := Hk). apply tieCase_of_encoded in Henc. destruct Henc as (Hea & Heb).
  destruct prefs as [pl|]; simpl; [|discriminate].
  assert (Hnth : forall d, encoded_direction d = true ->
             strict_eqZ d (match nth_error pl k with Some v => v | None => None end) = true ->
             exists dw, d = Some dw /\ 0 <= dw <= 3 /\ nth_error pl k = Some (Some dw)).
  { intros d He Heq. destruct (strict_eqZ_encoded _ _ He Heq) as (dw & Hd & Hpref & Hr).
    exists dw. split; [assumption|]. split; [assumption|].
    destruct (nth_error pl k) as [v|]; [congruence|discriminate]. }
  destruct (strict_eqZ (direction (s a)) _) eqn:Hpa.
  - intros [= <-]. right.
    destruct (Hnth _ Hea Hpa) as (dw & Hd & Hr & Hn).
    exists a, b, a, k, pl, dw. repeat split; auto; lia.
  - destruct (strict_eqZ (direction (s b)) _) eqn:Hpb; intros [= <-]; auto.
    right. destruct (Hnth _ Heb Hpb) as (dw & Hd & Hr & Hn).
    exists a, b, b, k, pl, dw. repeat split; auto; lia.
Qed.
End ResolveTies.

(** C10. When no candidate carries one of the encoded directions 0, 1, 2,
    3, resolveTies returns normally and leaves the store, hence the g and
    the f of every candidate, as it found them. *)
Theorem resolveTies_without_direction `{JsNumber} (tp : num) (s : Store)
        (l : list coord) (minFVal : option num)
        (prefs : option (list (option Z))) :
  (forall c, In c l -> encoded_direction (direction (s c)) = false) ->
  exists s', resolveTies tp s l minFVal prefs = Ok s'
             /\ forall c, g (s' c) = g (s c) /\ f (s' c) = f (s c).
Proof.
  intros Hdir. exists s. split; [|auto].
  now apply resolveTies_unchanged.
Qed.

(** C4 (amended). A call of resolveTies that returns has either changed
    nothing or lowered, by turnPenalty / 100, the g of exactly one
    candidate: the preferred one of two tied candidates.  The two are
    candidates [a] and [b] whose f both equal minFVal and whose
    directions are two different encoded directions, forming a tie case
    [k]; the adjusted one, [w], is the one of them whose direction is
    entry [k] of the preference table.  The f, the h and every other
    field of every node are left as they were: f is not recomputed. *)
Theorem resolveTies_adjusts_g_only `{JsNumber} (tp : num) (s s' : Store)
        (l : list coord) (minFVal : option num)
        (prefs : option (list (option Z))) :
  resolveTies tp s l minFVal prefs = Ok s' ->
  (forall c, same_but_g (s' c) (s c))
  /\ (s' = s
      \/ exists a b w k pl dw,
           In a l /\ In b l
           /\ strict_eq (f (s a)) (f (s b)) = true
           /\ strict_eq (f (s a)) minFVal = true
           /\ encoded_direction (direction (s a)) = true
           /\ encoded_direction (direction (s b)) = true
           /\ direction (s a) <> direction (s b)
           /\ tieCase_of (direction (s a)) (direction (s b)) = Some k
           /\ (w = a \/ w = b)
           /\ direction (s w) = Some dw
           /\ prefs = Some pl /\ nth_error pl k = Some (Some dw)
           /\ g (s' w) = Some (toNumber (g (s w)) - tp / of_Z 100)%js
           /\ f (s' w) = f (s w) /\ h (s' w) = h (s w)
           /\ forall c, c <> w -> s' c = s c).
Proof.
  intros Hrun.
  destruct (resolveTies_cases _ _ _ _ _ Hrun)
    as [-> | (a & b & w & k & pl & dw & Ha & Hb & Hab & Hmin & Hk & Hw & Hd & Hr & Hp
              & Hn & ->)].
  - split; [intros; apply same_but_g_refl | now left].
  - split.
    + intros c. destruct (coord_eqb_spec w c) as [<-|Hne].
      * rewrite modify_same. apply nudge_same_but_g.
      * rewrite modify_other by assumption. apply same_but_g_refl.
    + right. exists a, b, w, k, pl, dw.
      assert (Henc := Hk). apply tieCase_of_encoded in Henc. destruct Henc as (Hea & Heb).
      assert (Hdiff := Hk). apply tieCase_of_distinct in Hdiff.
      rewrite modify_same.
      repeat (split; [assumption || reflexivity|]).
      intros c Hne. apply modify_other. congruence.
Qed.

(** Two tied neighbours of (0, 0): the one to the right and the one
    below, both with g = 1, h = 1 and f = 2, and the preference table of
    the documentation of resolveTies. *)
Definition tie_node (d : Z) : Node (H := FloatNumber) :=
  mkNode true (Some (float_of_Z 1)) (Some (float_of_Z 1)) (Some (float_of_Z 2))
         true false (Some (0, 0)) false None None (Some d).

Definition tie_store : Store (H := FloatNumber) :=
  fun c =>
    if coord_eqb c (1, 0) then tie_node 1
    else if coord_eqb c (0, 1) then tie_node 2
    else fresh_node true.

Definition doc_preferences : option (list (option Z)) :=
  Some [Some 0; Some 0; Some 0; Some 2; Some 1; Some 2].

(** C4, counterexample: both candidates satisfy f = g + h before the call;
    the call lowers the g of the preferred one (the lower neighbour) and
    leaves its f, which then differs from g + h. *)
Lemma resolveTies_leaves_f_stale :
  f_is_g_plus_h tie_store (1, 0) = true
  /\ f_is_g_plus_h tie_store (0, 1) = true
  /\ match resolveTies (H := FloatNumber) lit_0_001 tie_store [(1, 0); (0, 1)]
                       (Some (float_of_Z 2)) doc_preferences with
     | Ok s' => f_is_g_plus_h s' (0, 1) = false
     | _ => False
     end.
Proof. vm_compute. auto. Qed.

(** The call on the two tied neighbours: the lower one, whose direction
    2 the table prefers in the case of right against down, is adjusted. *)
Lemma resolveTies_adjusts_g_only_witness :
  let s' := modify tie_store (0, 1) (nudge (H := FloatNumber) (lit_0_001 / of_Z 100)%js) in
  (forall c, same_but_g (s' c) (tie_store c))
  /\ (s' = tie_store
      \/ exists a b w k pl dw,
           In a [(1, 0); (0, 1)] /\ In b [(1, 0); (0, 1)]
           /\ strict_eq (f (tie_store a)) (f (tie_store b)) = true
           /\ strict_eq (f (tie_store a)) (Some (float_of_Z 2)) = true
           /\ encoded_direction (direction (tie_store a)) = true
           /\ encoded_direction (direction (tie_store b)) = true
           /\ direction (tie_store a) <> direction (tie_store b)
           /\ tieCase_of (direction (tie_store a)) (direction (tie_store b)) = Some k
           /\ (w = a \/ w = b)
           /\ direction (tie_store w) = Some dw
           /\ doc_preferences = Some pl /\ nth_error pl k = Some (Some dw)
           /\ g (s' w) = Some (toNumber (g (tie_store w)) - lit_0_001 / of_Z 100)%js
           /\ f (s' w) = f (tie_store w) /\ h (s' w) = h (tie_store w)
           /\ forall c, c <> w -> s' c = tie_store c).
Proof.
  cbv zeta.
  apply (@resolveTies_adjusts_g_only FloatNumber lit_0_001 tie_store _
           [(1, 0); (0, 1)] (Some (float_of_Z 2)) doc_preferences).
  reflexivity.
Defined.

Lemma resolveTies_without_direction_witness :
  exists s', resolveTies (H := FloatNumber) lit_0_001 (fun _ => fresh_node true)
                         [(1, 0); (0, 1)] None doc_preferences = Ok s'
             /\ forall c, g (s' c) = g (fresh_node true) /\ f (s' c) = f (fresh_node true).
Proof.
  apply (@resolveTies_without_direction FloatNumber lit_0_001 (fun _ => fresh_node true)
           [(1, 0); (0, 1)] None doc_preferences).
  intros c _. reflexivity.
Defined.

(* ===================================================================== *)
(** ** The constructor and the control flow of findPath *)
(* ===================================================================== *)

(** The literals of the constructor, in binary64. *)
#[local] Set Warnings "-inexact-float".
Lemma float_literals :
  lit_0_001 (H := FloatNumber) = 0.001%float
  /\ lit_0_0001 (H := FloatNumber) = 0.0001%float.
Proof. split; vm_compute; reflexivity. Qed.
#[local] Set Warnings "inexact-float".

Section Constructor.
Context `{JsNumber}.

(** With a boolean [breakTies] the bound is 2 plus 0 or 1. *)
Lemma maxIterations_boolean (opt : Options) (b : bool) :
  opt_breakTies opt = Some b ->
  maxIterations (AStarFinder opt)
  = (of_Z 2 + num_of_bool (b && negb (truthy_flag (opt_ignoreStartTies opt))))%js.
Proof.
  intros Hb. unfold AStarFinder; simpl. rewrite Hb. unfold flag_and; simpl.
  destruct b; reflexivity.
Qed.

(** With [breakTies] omitted the bound is 2 + undefined. *)
Lemma maxIterations_omitted (opt : Options) :
  opt_breakTies opt = None ->
  maxIterations (AStarFinder opt) = (of_Z 2 + NaN)%js.
Proof. intros Hb. unfold AStarFinder; simpl. now rewrite Hb. Qed.
End Constructor.

(** The finder the library builds from the options object [{}], and the
    one built with [breakTies: false]. *)
Definition default_finder : Finder (H := FloatNumber) := AStarFinder no_options.

Definition plain_finder : Finder (H := FloatNumber) :=
  AStarFinder (mkOptions None None None None None None None None None (Some false) None None).

(** The search on the library's grid, with the global [turnPenalty] at
    its default. *)
Definition run_findPath (depth fuel : nat) (fd : Finder (H := FloatNumber))
           (start endc : coord) (gr : Grid) : outcome Run :=
  findPath Grid_getNeighbors lit_0_001 depth fuel fd start endc gr None None None.

(** C6, at the failing input [new AStarFinder({})]: maxIterations is NaN,
    neither 2 nor 3.  The test [iterations > maxIterations] then never
    holds: on the open 3 x 3 grid the default finder needs a third search
    (two nested calls), where the finder built with [breakTies: false],
    whose bound is 2, stops after the second. *)
Theorem default_maxIterations_is_NaN :
  neq (maxIterations default_finder) (maxIterations default_finder) = false
  /\ neq (maxIterations default_finder) (of_Z 2) = false
  /\ neq (maxIterations default_finder) (of_Z 3) = false
  /\ neq (maxIterations plain_finder) (of_Z 2) = true
  /\ run_findPath 1 20 plain_finder (0, 0) (2, 2) (new_Grid 3 3 [])
     = Ok (mkRun [(0, 0); (1, 0); (2, 0); (2, 1); (2, 2)] [])
  /\ run_findPath 1 20 default_finder (0, 0) (2, 2) (new_Grid 3 3 []) = Timeout
  /\ run_findPath 2 20 default_finder (0, 0) (2, 2) (new_Grid 3 3 [])
     = Ok (mkRun [(0, 0); (1, 0); (2, 0); (2, 1); (2, 2)] []).
Proof. repeat split; vm_compute; reflexivity. Qed.

Section TieDispatch.
Context `{JsNumber}.
Variable tp : num.

(** Whenever [breakTies] is set, resolveTies is called, whatever
    [ignoreStartTies] and [atStartNode] are: the second branch catches
    what the first one lets through. *)
Lemma break_ties_calls (fd : Finder) atStartNode (s : Store) added minFVal :
  truthy_flag (breakTies fd) = true ->
  break_ties tp fd atStartNode s added minFVal
  = (s' <- resolveTies tp s added minFVal (preferences fd) ;; Ok (s', true)).
Proof.
  intros Hb. unfold break_ties. rewrite Hb.
  destruct (truthy_flag (ignoreStartTies fd)), atStartNode; reflexivity.
Qed.

Lemma break_ties_off (fd : Finder) atStartNode (s : Store) added minFVal :
  truthy_flag (breakTies fd) = false ->
  break_ties tp fd atStartNode s added minFVal = Ok (s, false).
Proof. intros Hb. unfold break_ties. now rewrite Hb. Qed.
End TieDispatch.

(** A finder with [breakTies] and [ignoreStartTies] both enabled and the
    preference table of the documentation. *)
Definition ignoring_finder : Finder (H := FloatNumber) :=
  AStarFinder (mkOptions None None None None None None None None None
                         (Some true) (Some true) doc_preferences).

(** C3, at a failing input: with [breakTies] and [ignoreStartTies] both
    enabled, the search from (0, 0) to (2, 2) around the blocked centre of
    a 3 x 3 grid calls resolveTies while expanding the start node, with
    the two neighbours of the start as candidates. *)
Theorem start_ties_resolved_despite_ignoreStartTies :
  truthy_flag (breakTies ignoring_finder) = true
  /\ truthy_flag (ignoreStartTies ignoring_finder) = true
  /\ match run_findPath 1 20 ignoring_finder (0, 0) (2, 2) (new_Grid 3 3 [(1, 1)]) with
     | Ok r => hd_error (run_ties r) = Some (mkTieCall (0, 0) true [(1, 0); (0, 1)])
     | _ => False
     end.
Proof. split; [reflexivity|]. split; [reflexivity|]. vm_compute. reflexivity. Qed.

(** C2, at two failing inputs.  On the 3 x 1 grid whose middle cell is
    blocked the goal (2, 0) cannot be reached from (0, 0): the open list
    empties, [paths] is the empty array, which is truthy, bestPath
    returns its first element, [undefined], and backtrace throws on
    reading its [x].  With start equal to end the path found has one
    point, [firstTileTaken] is [undefined] and the nested call throws on
    reading its first component. *)
Theorem no_path_throws :
  (forall depth fuel,
      run_findPath depth (S fuel) default_finder (0, 0) (2, 0) (new_Grid 3 1 [(1, 0)])
      = Throw TypeError)
  /\ (forall depth fuel,
         run_findPath (S depth) (S fuel) default_finder (0, 0) (0, 0) (new_Grid 3 1 [])
         = Throw TypeError).
Proof.
  split; intros depth fuel.
  - destruct depth, fuel; reflexivity.
  - destruct depth, fuel; reflexivity.
Qed.

(* ===================================================================== *)
(** ** interpolate *)
(* ===================================================================== *)

Ltac case_ltb :=
  repeat match goal with
         | |- context [Z.gtb ?a ?b] => rewrite (Z.gtb_ltb a b)
         end;
  repeat match goal with
         | |- context [Z.ltb ?a ?b] => destruct (Z.ltb_spec a b); try lia
         end.

Ltac case_eqb :=
  repeat match goal with
         | |- context [Z.eqb ?a ?b] => destruct (Z.eqb_spec a b); try lia
         end.

(** The loop on a compass segment: the error term stays at [dx - dy] and
    every turn advances by the step of the segment. *)
Lemma interpolate_loop_compass (k : nat) :
  forall fuel x0 y0 x1 y1 sx sy dx dy err ux uy n,
    compass (ux, uy) ->
    x1 = x0 + Z.of_nat k * ux -> y1 = y0 + Z.of_nat k * uy ->
    (k <= fuel)%nat -> Z.of_nat k <= n ->
    dx = n * Z.abs ux -> dy = n * Z.abs uy -> err = dx - dy ->
    (ux <> 0 -> sx = ux) -> (uy <> 0 -> sy = uy) ->
    interpolate_loop fuel x0 y0 x1 y1 sx sy dx dy err
    = Ok (line_from (x0, y0) (ux, uy) k).
Proof.
  induction k as [|k IH];
    intros fuel x0 y0 x1 y1 sx sy dx dy err ux uy n Hu Hx Hy Hf Hn Hdx Hdy Herr Hsx Hsy.
  - assert (Hx0 : x1 = x0) by lia. assert (Hy0 : y1 = y0) by lia.
    clear Hx Hy. subst x1 y1.
    destruct fuel; simpl; now rewrite !Z.eqb_refl.
  - destruct fuel as [|fuel]; [lia|].
    destruct Hu as (Hux & Huy & Hne); simpl in Hux, Huy.
    assert (Hnz : ux <> 0 \/ uy <> 0).
    { destruct (Z.eq_dec ux 0), (Z.eq_dec uy 0); subst; auto; now contradict Hne. }
    assert (Hends : (x0 =? x1) && (y0 =? y1) = false).
    { apply andb_false_iff. destruct Hnz; [left|right]; apply Z.eqb_neq; nia. }
    cbn [interpolate_loop]. rewrite Hends.
    assert (Hcu : compass (ux, uy)) by (repeat split; simpl; auto; lia).
    assert (Hcases : (ux = -1 \/ ux = 0 \/ ux = 1) /\ (uy = -1 \/ uy = 0 \/ uy = 1)) by lia.
    destruct Hcases as [[-> | [-> | ->]] [-> | [-> | ->]]];
      try (now contradict Hne);
      simpl Z.abs in *; rewrite ?Z.mul_0_r, ?Z.mul_1_r in *;
      try (specialize (Hsx ltac:(lia))); try (specialize (Hsy ltac:(lia)));
      subst; case_ltb;
      match goal with
      | |- bind (interpolate_loop ?f ?a ?b ?c ?d ?e1 ?e2 ?e3 ?e4 ?e) _ = _ =>
          rewrite (IH f a b c d e1 e2 e3 e4 e _ _ n Hcu)
      end; simpl; try lia;
      unfold shift; simpl; repeat f_equal; lia.
Qed.

(** interpolate on a compass segment yields the cells of the segment. *)
Lemma interpolate_compass (a u : coord) (n : nat) :
  compass u -> (1 <= n)%nat ->
  interpolate a (fst a + Z.of_nat n * fst u, snd a + Z.of_nat n * snd u)
  = Ok (line_from a u n).
Proof.
  intros Hu Hn. destruct a as [x0 y0], u as [ux uy]. unfold interpolate. simpl fst; simpl snd.
  assert (Hu' := Hu). destruct Hu' as (Hux & Huy & Hne); simpl in Hux, Huy.
  assert (Hcases : (ux = -1 \/ ux = 0 \/ ux = 1) /\ (uy = -1 \/ uy = 0 \/ uy = 1)) by lia.
  apply interpolate_loop_compass with (n := Z.of_nat n); auto; try lia;
    destruct Hcases as [[-> | [-> | ->]] [-> | [-> | ->]]];
    try (now contradict Hne); try lia; intros _; case_ltb.
Qed.

Lemma interpolate_same (a : coord) : interpolate a a = Ok [a].
Proof.
  destruct a as [x y]. unfold interpolate.
  replace (Z.abs (x - x) + Z.abs (y - y)) with 0 by lia. simpl.
  now rewrite !Z.eqb_refl.
Qed.

(** Two neighbouring cells are joined by the two-cell line. *)
Lemma interpolate_neighbour (a b : coord) :
  Z.abs (fst b - fst a) <= 1 -> Z.abs (snd b - snd a) <= 1 -> a <> b ->
  interpolate a b = Ok [a; b].
Proof.
  intros Hx Hy Hne.
  pose (u := (fst b - fst a, snd b - snd a)).
  assert (Hu : compass u).
  { unfold compass, u; simpl. repeat split; try lia.
    intros [= H1 H2]. apply Hne. destruct a, b; simpl in *. f_equal; lia. }
  assert (Hb : b = (fst a + Z.of_nat 1 * fst u, snd a + Z.of_nat 1 * snd u)).
  { subst u. destruct a, b; cbn [fst snd] in *. f_equal; lia. }
  rewrite Hb at 1. rewrite (interpolate_compass a Hu (le_n 1)).
  cbn [line_from]. unfold shift. subst u. destruct a, b; cbn [fst snd] in *.
  repeat f_equal; lia.
Qed.

(** The loop terminates: with [rx] and [ry] the steps still to take along
    each axis, the error term is [dx - dy + rx * dy - ry * dx], a step
    along an axis is taken only while steps remain on it, and every turn
    away from the target takes at least one step. *)
Lemma interpolate_loop_total (fuel : nat) :
  forall x0 y0 x1 y1 sx sy dx dy err rx ry,
    sx = 1 \/ sx = -1 -> sy = 1 \/ sy = -1 ->
    x1 = x0 + sx * rx -> y1 = y0 + sy * ry ->
    0 <= rx <= dx -> 0 <= ry <= dy ->
    err = dx - dy + rx * dy - ry * dx ->
    rx + ry <= Z.of_nat fuel ->
    exists l, interpolate_loop fuel x0 y0 x1 y1 sx sy dx dy err = Ok ((x0, y0) :: l).
Proof.
  induction fuel as [|fuel IH];
    intros x0 y0 x1 y1 sx sy dx dy err rx ry Hsx Hsy Hx Hy Hrx Hry Herr Hf.
  - assert (rx = 0) by lia. assert (ry = 0) by lia. subst rx ry.
    assert (Hx0 : x1 = x0) by lia. assert (Hy0 : y1 = y0) by lia. clear Hx Hy.
    subst x1 y1. exists []. simpl. now rewrite !Z.eqb_refl.
  - cbn [interpolate_loop].
    destruct ((x0 =? x1) && (y0 =? y1)) eqn:Hends; [now exists []|].
    assert (Hpos : 1 <= rx + ry).
    { apply andb_false_iff in Hends.
      destruct Hends as [Hne|Hne]; apply Z.eqb_neq in Hne; nia. }
    assert (Hxstep : - dy < 2 * err -> 1 <= rx).
    { intros Hlt. destruct (Z.eq_dec rx 0) as [->|]; [|lia].
      assert (0 <= (ry - 1) * dx) by nia. nia. }
    assert (Hystep : 2 * err < dx -> 1 <= ry).
    { intros Hlt. destruct (Z.eq_dec ry 0) as [->|]; [|lia].
      assert (0 <= (rx - 1) * dy) by nia. nia. }
    assert (Hsome : - dy < 2 * err \/ 2 * err < dx) by nia.
    rewrite (Z.gtb_ltb (2 * err) (- dy)).
    destruct (Z.ltb_spec (- dy) (2 * err)) as [Hxs|Hxs];
      destruct (Z.ltb_spec (2 * err) dx) as [Hys|Hys]; try lia.
    + destruct (IH (x0 + sx) (y0 + sy) x1 y1 sx sy dx dy (err - dy + dx) (rx - 1) (ry - 1))
        as [l Hl]; auto; try nia.
      rewrite Hl. simpl. eauto.
    + destruct (IH (x0 + sx) y0 x1 y1 sx sy dx dy (err - dy) (rx - 1) ry)
        as [l Hl]; auto; try nia.
      rewrite Hl. simpl. eauto.
    + destruct (IH x0 (y0 + sy) x1 y1 sx sy dx dy (err + dx) rx (ry - 1))
        as [l Hl]; auto; try nia.
      rewrite Hl. simpl. eauto.
Qed.

(** interpolate returns a line, which starts at its first argument. *)
Lemma interpolate_total (a b : coord) :
  exists l, interpolate a b = Ok (a :: l).
Proof.
  destruct a as [x0 y0], b as [x1 y1]. unfold interpolate.
  apply interpolate_loop_total
    with (rx := Z.abs (x1 - x0)) (ry := Z.abs (y1 - y0)); try lia; case_ltb.
Qed.

(* ===================================================================== *)
(** ** smoothenPath *)
(* ===================================================================== *)

Section Smoothen.
Context `{JsNumber}.
Variable gr : Grid.

Let walk (c : coord) : Prop := isWalkableAt gr c = true.

Lemma clear_neighbours (a b : coord) :
  walk a -> walk b ->
  Z.abs (fst b - fst a) <= 1 -> Z.abs (snd b - snd a) <= 1 ->
  clear_segment gr a b.
Proof.
  intros Ha Hb Hx Hy. unfold clear_segment.
  destruct (coord_eqb_spec a b) as [<-|Hne].
  - exists [a]. rewrite interpolate_same. simpl. now rewrite Ha.
  - exists [a; b]. rewrite interpolate_neighbour by assumption. simpl.
    now rewrite Ha, Hb.
Qed.

Lemma segments_clear_snoc (l : list coord) (a b : coord) :
  segments_clear gr (l ++ [a]) -> clear_segment gr a b ->
  segments_clear gr ((l ++ [a]) ++ [b]).
Proof.
  intros Hl Hab. induction l as [|c l IH]; simpl in *; [tauto|].
  destruct (l ++ [a]) as [|d l'] eqn:Hd.
  - destruct l; discriminate.
  - simpl. destruct Hl as [Hcd Hl]. split; [assumption|]. now apply IH.
Qed.

Lemma not_blocked_clear (s : coord) (l : list coord) :
  walk s -> line_blocked gr (s :: l) = false ->
  forallb (isWalkableAt gr) (s :: l) = true.
Proof.
  intros Hs Hb. unfold line_blocked in Hb. simpl in *. rewrite Hs. simpl.
  induction l as [|c l IH]; simpl in *; [reflexivity|].
  apply orb_false_iff in Hb. destruct Hb as [Hc Hl].
  apply negb_false_iff in Hc. rewrite Hc. auto.
Qed.

Lemma clear_segment_first (a b : coord) : clear_segment gr a b -> walk a.
Proof.
  intros (line & Hl & Hw). destruct (interpolate_total a b) as [l Hl'].
  rewrite Hl' in Hl. injection Hl as <-. simpl in Hw.
  apply andb_true_iff in Hw. apply Hw.
Qed.

(** The invariant of the loop: the new path ends with the anchor, its
    segments are clear, and the line from the anchor to the last path
    point examined is clear. *)
Lemma smoothen_loop_clear (rest : list coord) :
  forall s prev np,
    walk s -> segments_clear gr (prev :: rest) ->
    clear_segment gr s prev -> segments_clear gr (np ++ [s]) ->
    exists out,
      smoothen_loop gr s prev rest (np ++ [s]) = Ok out
      /\ hd_error out = hd_error (np ++ [s])
      /\ out <> []
      /\ segments_clear gr (out ++ [last (prev :: rest) prev]).
Proof.
  induction rest as [|c rest IH]; intros s prev np Hs Hseg Hsp Hnp.
  - exists (np ++ [s]). simpl. repeat split; auto.
    + destruct np; discriminate.
    + now apply segments_clear_snoc.
  - destruct Hseg as [Hpc Hseg].
    destruct (interpolate_total s c) as [l Hl].
    cbn [smoothen_loop]. rewrite Hl. cbn [bind].
    assert (Hlast : last (prev :: c :: rest) prev = last (c :: rest) c).
    { change (last (c :: rest) prev = last (c :: rest) c). apply last_cons_default. }
    rewrite Hlast.
    destruct (line_blocked gr (s :: l)) eqn:Hb.
    + destruct (IH prev c (np ++ [s])) as (out & Hrun & Hhd & Hne & Hclear); auto.
      * now apply clear_segment_first with (b := c).
      * now apply segments_clear_snoc.
      * exists out. repeat split; auto.
        rewrite Hhd. destruct np; reflexivity.
    + destruct (IH s c np) as (out & Hrun & Hhd & Hne & Hclear); auto.
      * exists (s :: l). split; [assumption|]. now apply not_blocked_clear.
      * exists out. auto.
Qed.

(** On any input the loop returns, and keeps the first point of the new
    path. *)
Lemma smoothen_loop_runs (rest : list coord) :
  forall s prev np,
    np <> [] ->
    exists out,
      smoothen_loop gr s prev rest np = Ok out
      /\ hd_error out = hd_error np /\ out <> [].
Proof.
  induction rest as [|c rest IH]; intros s prev np Hnp.
  - exists np. simpl. auto.
  - destruct (interpolate_total s c) as [l Hl].
    cbn [smoothen_loop]. rewrite Hl. cbn [bind].
    destruct (line_blocked gr (s :: l)).
    + destruct (IH prev c (np ++ [prev])) as (out & Hrun & Hhd & Hne).
      { destruct np; discriminate. }
      exists out. repeat split; auto. rewrite Hhd. destruct np; [congruence|reflexivity].
    + apply IH. assumption.
Qed.
End Smoothen.

(** C7 (amended). For every grid and every non-empty path, smoothenPath
    returns a path that begins with the first and ends with the last
    point of the input.  When moreover the first point of the input is a
    walkable cell and the Bresenham line of every segment of the input
    runs over walkable cells only, so does the Bresenham line of every
    segment of the returned path. *)
Theorem smoothenPath_clear_segments `{JsNumber} (gr : Grid) (path : list coord)
        (d : coord) :
  path <> [] ->
  exists out,
    smoothenPath gr path = Ok out
    /\ hd_error out = hd_error path
    /\ last out d = last path d
    /\ (isWalkableAt gr (hd d path) = true ->
        segments_clear gr path ->
        segments_clear gr out).
Proof.
  intros Hne. destruct path as [|p0 t]; [congruence|].
  unfold smoothenPath. destruct t as [|p1 rest].
  - exists [p0; p0]. simpl. split; [reflexivity|]. split; [reflexivity|].
    split; [reflexivity|]. intros Hw _. split; [|exact I].
    apply clear_neighbours; try assumption; rewrite Z.sub_diag; simpl; lia.
  - destruct (@smoothen_loop_runs _ gr rest p0 p1 [p0]) as (out & Hrun & Hhd & Hout);
      [discriminate|].
    rewrite Hrun. cbn [bind].
    exists (out ++ [last (p0 :: p1 :: rest) p0]). repeat split.
    + destruct out; [congruence|]. simpl in *. congruence.
    + rewrite last_last. exact (last_cons_default p0 (p1 :: rest) p0 d).
    + intros Hw [H01 Hseg]. cbn [hd] in Hw.
      destruct (@smoothen_loop_clear _ gr rest p0 p1 []) as (out' & Hrun' & _ & _ & Hclear);
        auto; simpl; auto.
      simpl app in Hrun'. rewrite Hrun in Hrun'. injection Hrun' as <-.
      rewrite (last_cons_default p1 rest p1 p0) in Hclear. exact Hclear.
Qed.

(** The 3 x 1 grid whose middle cell is blocked. *)
Definition corridor_blocked : Grid (H := FloatNumber) := new_Grid 3 1 [(1, 0)].

(** C7, counterexample.  The path from (0, 0) to (2, 0), both walkable
    cells of the grid, is returned as it is, and the line of its only
    segment crosses the blocked cell (1, 0): a path of fewer than three
    points is never tested.  So is the path that steps through the
    blocked cell, whose consecutive points are neighbours. *)
Lemma smoothenPath_crosses_blocked_cell :
  (smoothenPath corridor_blocked [(0, 0); (2, 0)] = Ok [(0, 0); (2, 0)]
   /\ isWalkableAt corridor_blocked (0, 0) = true
   /\ isWalkableAt corridor_blocked (2, 0) = true
   /\ ~ segments_clear corridor_blocked [(0, 0); (2, 0)])
  /\ (smoothenPath corridor_blocked [(0, 0); (1, 0); (2, 0)] = Ok [(0, 0); (1, 0); (2, 0)]
      /\ ~ segments_clear corridor_blocked [(0, 0); (1, 0); (2, 0)]).
Proof.
  split; [split; [reflexivity | split; [reflexivity | split; [reflexivity|]]]
         | split; [reflexivity|]].
  - intros [(line & Hl & Hw) _]. vm_compute in Hl. injection Hl as <-.
    vm_compute in Hw. discriminate.
  - intros [(line & Hl & Hw) _]. vm_compute in Hl. injection Hl as <-.
    vm_compute in Hw. discriminate.
Qed.

(** A grid of three columns and two rows whose cell (1, 0) is blocked,
    and the walk around that cell from (0, 0) to (2, 0). *)
Definition notched : Grid (H := FloatNumber) := new_Grid 3 2 [(1, 0)].

Lemma smoothenPath_clear_segments_witness :
  exists out,
    smoothenPath notched [(0, 0); (0, 1); (1, 1); (2, 1); (2, 0)] = Ok out
    /\ hd_error out = Some (0, 0)
    /\ last out (0, 0) = (2, 0)
    /\ segments_clear notched out.
Proof.
  destruct (@smoothenPath_clear_segments FloatNumber notched
              [(0, 0); (0, 1); (1, 1); (2, 1); (2, 0)] (0, 0))
    as (out & Hrun & Hhd & Hlast & Hclear).
  - discriminate.
  - exists out. repeat split; auto. apply Hclear.
    + reflexivity.
    + repeat split; eexists; (split; [reflexivity | reflexivity]).
Defined.

(* ===================================================================== *)
(** ** expandPath and compressPath *)
(* ===================================================================== *)

Lemma shift_n_0 (c u : coord) : shift_n c u 0 = c.
Proof. destruct c. unfold shift_n; simpl. f_equal; lia. Qed.

Lemma shift_n_S (c u : coord) (k : nat) : shift_n (shift c u) u k = shift_n c u (S k).
Proof. unfold shift_n, shift; cbn [fst snd]. f_equal; lia. Qed.

Lemma shift_n_1 (c u : coord) : shift_n c u 1 = shift c u.
Proof. unfold shift_n, shift; cbn [fst snd]. f_equal; lia. Qed.

Lemma shift_fst (c u : coord) : fst (shift c u) - fst c = fst u.
Proof. unfold shift; simpl. lia. Qed.

Lemma shift_snd (c u : coord) : snd (shift c u) - snd c = snd u.
Proof. unfold shift; simpl. lia. Qed.

Lemma line_from_steps (c u : coord) (k : nat) : line_from c u k = c :: steps c u k.
Proof.
  revert c. induction k as [|k IH]; intros c; simpl; [reflexivity|].
  now rewrite IH.
Qed.

Lemma steps_last (c u : coord) (k : nat) :
  steps c u (S k) = steps c u k ++ [shift_n c u (S k)].
Proof.
  revert c. induction k as [|k IH]; intros c.
  - simpl. now rewrite shift_n_1.
  - change (steps c u (S (S k))) with (shift c u :: steps (shift c u) u (S k)).
    rewrite IH, shift_n_S. reflexivity.
Qed.

Lemma vertices_hd (a : coord) (runs : list run) :
  exists t, vertices a runs = a :: t.
Proof. destruct runs as [|[u n] rest]; simpl; eauto. Qed.

Lemma expand_segments_cons (a b : coord) (t : list coord) :
  expand_segments (a :: b :: t)
  = (interpolated <- interpolate a b ;;
     expanded <- expand_segments (b :: t) ;;
     Ok (removelast interpolated ++ expanded)).
Proof. reflexivity. Qed.

(** expandPath on the turn points yields the cells of the path. *)
Lemma expand_segments_vertices (runs : list run) :
  forall a prev, wf_runs prev runs ->
  expand_segments (vertices a runs) = Ok (a :: cells_after a runs).
Proof.
  induction runs as [|[u n] rest IH]; intros a prev Hwf; [reflexivity|].
  destruct Hwf as (Hu & Hn & _ & Hrest).
  cbn [vertices cells_after].
  destruct (vertices_hd (shift_n a u n) rest) as [t Ht].
  rewrite Ht, expand_segments_cons, <- Ht.
  unfold shift_n at 1. rewrite (interpolate_compass a Hu Hn).
  rewrite (IH _ _ Hrest). cbn [bind].
  destruct n as [|n]; [lia|].
  rewrite line_from_steps, steps_last.
  change (a :: steps a u n ++ [shift_n a u (S n)])
    with ((a :: steps a u n) ++ [shift_n a u (S n)]).
  rewrite removelast_last, <- app_assoc. reflexivity.
Qed.

(** The normalized compass steps, in binary64: two of them are told
    apart exactly when the steps differ. *)
Lemma dir_changed_compass (u v : coord) :
  compass u -> compass v ->
  dir_changed (H := FloatNumber) (normalize (fst v) (snd v)) (normalize (fst u) (snd u))
  = negb (coord_eqb u v).
Proof.
  intros (Hux & Huy & Hu) (Hvx & Hvy & Hv).
  destruct u as [ux uy], v as [vx vy]; simpl in Hux, Huy, Hvx, Hvy.
  assert (Hcu : (ux = -1 \/ ux = 0 \/ ux = 1) /\ (uy = -1 \/ uy = 0 \/ uy = 1)) by lia.
  assert (Hcv : (vx = -1 \/ vx = 0 \/ vx = 1) /\ (vy = -1 \/ vy = 0 \/ vy = 1)) by lia.
  destruct Hcu as [[-> | [-> | ->]] [-> | [-> | ->]]]; try (now contradict Hu);
    destruct Hcv as [[-> | [-> | ->]] [-> | [-> | ->]]]; try (now contradict Hv);
    vm_compute; reflexivity.
Qed.

(** The loop of compressPath in the middle of a run: [k] cells of the
    run in direction [u] lie ahead, followed by the runs [rest]. *)
Lemma compress_loop_runs (rest : list run) :
  forall (k : nat) c u b acc,
    compass u -> wf_runs (Some u) rest -> b = shift_n c u k ->
    compress_loop (H := FloatNumber) c (normalize (fst u) (snd u))
                  (steps c u k ++ cells_after b rest) acc
    = acc ++ vertices b rest.
Proof.
  induction rest as [|[v n] rest IH].
  - induction k as [|k IHk]; intros c u b acc Hu Hwf Hb.
    + rewrite shift_n_0 in Hb. subst b. reflexivity.
    + cbn [steps app compress_loop].
      rewrite !shift_fst, !shift_snd.
      rewrite (dir_changed_compass Hu Hu), coord_eqb_refl. cbn [negb].
      apply IHk; auto. now rewrite shift_n_S.
  - induction k as [|k IHk]; intros c u b acc Hu Hwf Hb.
    + rewrite shift_n_0 in Hb. subst b.
      destruct Hwf as (Hv & Hn & Hne & Hrest).
      destruct n as [|n]; [lia|].
      cbn [steps app cells_after vertices compress_loop].
      rewrite !shift_fst, !shift_snd.
      rewrite (dir_changed_compass Hu Hv).
      destruct (coord_eqb_spec u v) as [->|_]; [congruence|]. cbn [negb].
      rewrite (@IH n (shift c v) v (shift_n c v (S n)) (acc ++ [c]) Hv Hrest).
      * now rewrite <- app_assoc.
      * now rewrite shift_n_S.
    + cbn [steps app compress_loop].
      rewrite !shift_fst, !shift_snd.
      rewrite (dir_changed_compass Hu Hu), coord_eqb_refl. cbn [negb].
      apply IHk; auto. now rewrite shift_n_S.
Qed.

(** compressPath on the cells of a path recovers its turn points. *)
Lemma compressPath_cells (a : coord) (runs : list run) :
  runs <> [] -> wf_runs None runs ->
  compressPath (H := FloatNumber) (a :: cells_after a runs) = vertices a runs.
Proof.
  intros Hne Hwf. destruct runs as [|[u n] rest]; [congruence|].
  destruct Hwf as (Hu & Hn & _ & Hrest).
  destruct n as [|n]; [lia|].
  cbn [cells_after steps app vertices].
  destruct (steps (shift a u) u n ++ cells_after (shift_n a u (S n)) rest) as [|q l] eqn:Hq.
  - destruct n; [|discriminate].
    destruct rest as [|[v m] rest].
    + simpl. now rewrite shift_n_1.
    + destruct Hrest as (_ & Hm & _). destruct m; [lia|discriminate].
  - cbn [compressPath]. rewrite <- Hq.
    rewrite !shift_fst, !shift_snd.
    rewrite (@compress_loop_runs rest n (shift a u) u (shift_n a u (S n)) [a] Hu Hrest);
      [reflexivity|].
    now rewrite shift_n_S.
Qed.

(** Turn points are the vertices of well-formed runs. *)
Lemma turn_points_runs (p : list coord) :
  forall a t prev, p = a :: t -> turn_points prev p ->
  exists runs, p = vertices a runs /\ wf_runs prev runs /\ length p = S (length runs).
Proof.
  induction p as [|a' p IH]; intros a t prev Hp Htp; [discriminate|].
  injection Hp as -> ->.
  destruct t as [|b t].
  - exists []. simpl. auto.
  - destruct Htp as (u & n & (Hu & Hn & Hx & Hy) & Hne & Htp).
    destruct (IH b t (Some u) eq_refl Htp) as (runs & Hruns & Hwf & Hlen).
    exists ((u, n) :: runs). cbn [vertices wf_runs].
    assert (Hb : shift_n a u n = b).
    { unfold shift_n. destruct b; simpl in *. f_equal; lia. }
    rewrite Hb, <- Hruns. split; [reflexivity|]. split; [tauto|].
    simpl in *. lia.
Qed.

(** C8 (amended). For a path of at least two turn points in which every
    segment is horizontal, vertical or diagonal and not degenerate and in
    which no two consecutive segments have the same direction,
    compressPath applied to the result of expandPath gives the path
    back. *)
Theorem compress_expand_turn_points (p : list coord) :
  (2 <= length p)%nat ->
  turn_points None p ->
  exists e, expandPath p = Ok e /\ compressPath (H := FloatNumber) e = p.
Proof.
  intros Hlen Htp. destruct p as [|a t]; [simpl in Hlen; lia|].
  destruct (turn_points_runs (t := t) None eq_refl Htp) as (runs & Hp & Hwf & Hl).
  exists (a :: cells_after a runs). split.
  - unfold expandPath.
    destruct (Z.ltb_spec (Z.of_nat (length (a :: t))) 2) as [Hlt|_]; [lia|].
    rewrite Hp. now apply expand_segments_vertices with (prev := None).
  - rewrite Hp. apply compressPath_cells; [|assumption].
    destruct runs; [simpl in *; lia | discriminate].
Qed.

(** C8, counterexample.  The two points (0, 0) and (2, 1) have no
    interior point between them, yet the Bresenham line between them
    turns at (1, 0), and compressPath keeps that cell. *)
Lemma compress_expand_adds_turn :
  expandPath [(0, 0); (2, 1)] = Ok [(0, 0); (1, 0); (2, 1)]
  /\ compressPath (H := FloatNumber) [(0, 0); (1, 0); (2, 1)] = [(0, 0); (1, 0); (2, 1)]
  /\ [(0, 0); (1, 0); (2, 1)] <> [(0, 0); (2, 1)].
Proof. split; [reflexivity|]. split; [vm_compute; reflexivity | discriminate]. Qed.

(** A path that goes three cells right, three cells down and two cells
    diagonally. *)
Lemma compress_expand_turn_points_witness :
  exists e, expandPath [(0, 0); (3, 0); (3, 3); (5, 5)] = Ok e
            /\ compressPath (H := FloatNumber) e = [(0, 0); (3, 0); (3, 3); (5, 5)].
Proof.
  apply (compress_expand_turn_points [(0, 0); (3, 0); (3, 3); (5, 5)]).
  - simpl. lia.
  - exists (1, 0), 3%nat. split; [|split; [discriminate|]].
    { repeat split; simpl; try lia. discriminate. }
    exists (0, 1), 3%nat. split; [|split; [discriminate|]].
    { repeat split; simpl; try lia. discriminate. }
    exists (1, 1), 2%nat. split; [|split; [discriminate|exact I]].
    repeat split; simpl; try lia. discriminate.
Defined.

(* ===================================================================== *)
(** ** Turn penalty and momentum *)
(* ===================================================================== *)

Section Momentum.
Context `{JsNumber}.

(** After the bookkeeping of a turn the neighbour records the current
    node as the place of its last turn. *)
Lemma record_turn_turned (s : Store) (node neighbor : coord) :
  lastTurnX (record_turn s node neighbor true neighbor) = Some (fst node)
  /\ lastTurnY (record_turn s node neighbor true neighbor) = Some (snd node).
Proof. unfold record_turn. rewrite modify_same. split; reflexivity. Qed.

(** Hence the distance the reset term measures on a turn is the one from
    the current node to itself, whatever place of the last turn the
    current node had recorded. *)
Lemma momentum_reset_on_turn (fd : Finder) (s : Store) (node neighbor : coord) :
  momentum_reset fd (record_turn s node neighbor true) node neighbor true
  = (momentum fd * num_of_bool true * heuristic fd (of_Z 0) (of_Z 0)
     * toNumber_flag (useMomentum fd))%js.
Proof.
  unfold momentum_reset.
  destruct (record_turn_turned s node neighbor) as [-> ->].
  unfold abs_diff. now rewrite !Z.sub_diag.
Qed.

(** The tentative g with [avoidStaircase] set, term by term. *)
Lemma tentative_g_shaped (fd : Finder) (s : Store) (node neighbor : coord) :
  truthy_flag (avoidStaircase fd) = true ->
  let turned := turned_at s node neighbor in
  let s' := record_turn s node neighbor turned in
  tentative_g fd s node neighbor
  = (s', (toNumber (g (s node)) + step_cost node neighbor
          + turnPenalty fd * num_of_bool turned
          - momentum_reward fd turned
          + momentum_reset fd s' node neighbor turned)%js).
Proof. intros Ha. unfold tentative_g. now rewrite Ha. Qed.
End Momentum.

(** A finder with [avoidStaircase] and [useMomentum] set, the Manhattan
    heuristic and the default penalty 0.001 and momentum 0.0001. *)
Definition momentum_finder : Finder (H := FloatNumber) :=
  AStarFinder (mkOptions None None None None None (Some true) None (Some true) None
                         None None None).

(** The node (3, 0), reached from (2, 0) with g = 3 on a run whose last
    turn is recorded at [(lx, ly)]; every other node is untouched. *)
Definition run_store (lx ly : option Z) : Store (H := FloatNumber) :=
  fun c =>
    if coord_eqb c (3, 0)
    then mkNode true (Some (float_of_Z 3)) (Some (float_of_Z 0)) (Some (float_of_Z 3))
                true true (Some (2, 0)) true lx ly None
    else fresh_node true.

(** C5, at a failing input.  Turning from (3, 0) down to (3, 1) after a
    straight run from (0, 0), the code overwrites the neighbour's record
    of the last turn with the current node before it measures the
    distance to it: the term added back is momentum x heuristic(0, 0) = 0
    and the tentative g is 3 + 1 + 0.001, whatever the recorded place
    [(lx, ly)] of the last turn was; the distance from (3, 0) to the
    recorded (0, 0), which is 3, plays no part. *)
Theorem turn_adds_back_nothing :
  forall lx ly : option Z,
    turned_at (run_store lx ly) (3, 0) (3, 1) = true
    /\ snd (tentative_g momentum_finder (run_store lx ly) (3, 0) (3, 1))
       = (of_Z 3 + of_Z 1 + lit_0_001)%js
    /\ neq (snd (tentative_g momentum_finder (run_store (Some 0) (Some 0)) (3, 0) (3, 1)))
           (of_Z 3 + of_Z 1 + lit_0_001
            + lit_0_0001 * manhattan (of_Z 3) (of_Z 0))%js = false.
Proof. intros lx ly. repeat split; vm_compute; reflexivity. Qed.

(** On the first step away from a start node that has no last turn
    recorded, the reset term multiplies 0 by the heuristic of NaN
    distances: the tentative g is NaN instead of 1 - momentum. *)
Lemma straight_step_from_fresh_start_is_NaN :
  let s : Store (H := FloatNumber) :=
    modify (fun _ => fresh_node true) (0, 0) (set_g (Some (of_Z 0))) in
  let ng := snd (tentative_g momentum_finder s (0, 0) (1, 0)) in
  turned_at s (0, 0) (1, 0) = false /\ neq ng ng = false.
Proof. split; vm_compute; reflexivity. Qed.

(* ===================================================================== *)
(** ** Exact arithmetic: the rationals satisfy the laws *)
(* ===================================================================== *)

(** Math.SQRT2 of binary64 is the rational of [RationalNumber]. *)
Lemma SQRT2_is_dyadic :
  SQRT2 (JsNumber := FloatNumber)
  = PrimFloat.div (float_of_Z 6369051672525773) (float_of_Z 4503599627370496).
Proof. vm_compute. reflexivity. Qed.

Definition rat_finite (a : option Qc) : Prop :=
  match a with
  | Some _ => True
  | None => False
  end.

Lemma rat_nle_iff (a b : Qc) :
  nle (H := RationalNumber) (Some a) (Some b) <-> (a <= b)%Qc.
Proof.
  unfold nle; simpl. rewrite negb_false_iff. apply Qle_bool_iff.
Qed.

Lemma rat_nlt_iff (a b : Qc) :
  nlt (JsNumber := RationalNumber) (Some a) (Some b) = true <-> (a < b)%Qc.
Proof.
  simpl. rewrite negb_true_iff. split.
  - intros Hb. apply Qcnot_le_lt. intros Hle. apply Qle_bool_iff in Hle. congruence.
  - intros Hlt. destruct (Qle_bool b a) eqn:Hb; [|reflexivity].
    apply Qle_bool_iff in Hb. now apply Qclt_not_le in Hlt.
Qed.

Lemma Qcplus_le_cancel_r (a b c : Qc) : (a + c <= b + c)%Qc -> (a <= b)%Qc.
Proof.
  intros Hle.
  assert (Ha : a = (a + c + - c)%Qc) by ring.
  assert (Hb : b = (b + c + - c)%Qc) by ring.
  rewrite Ha, Hb. apply Qcplus_le_compat; [assumption | apply Qcle_refl].
Qed.

Section RationalLaws.
Local Abbreviation Rle := (nle (H := RationalNumber)).
Local Abbreviation Radd := (nadd (JsNumber := RationalNumber)).

Lemma rat_finite_add a b : rat_finite a -> rat_finite b -> rat_finite (Radd a b).
Proof. destruct a, b; simpl; tauto. Qed.

Lemma rat_nle_refl a : rat_finite a -> Rle a a.
Proof. destruct a as [a|]; [|contradiction]. intros _. apply rat_nle_iff, Qcle_refl. Qed.

Lemma rat_nle_trans a b c :
  rat_finite a -> rat_finite b -> rat_finite c -> Rle a b -> Rle b c -> Rle a c.
Proof.
  destruct a as [a|], b as [b|], c as [c|]; try contradiction. intros _ _ _.
  rewrite !rat_nle_iff. apply Qcle_trans.
Qed.

Lemma rat_nlt_nle a b :
  rat_finite a -> rat_finite b -> nlt (JsNumber := RationalNumber) a b = true -> Rle a b.
Proof.
  destruct a as [a|], b as [b|]; try contradiction. intros _ _.
  rewrite rat_nlt_iff, rat_nle_iff. apply Qclt_le_weak.
Qed.

Lemma rat_nadd_le_mono_l a b c :
  rat_finite a -> rat_finite b -> rat_finite c -> Rle a b -> Rle (Radd c a) (Radd c b).
Proof.
  destruct a as [a|], b as [b|], c as [c|]; try contradiction. intros _ _ _.
  change (Rle (Some a) (Some b) -> Rle (Some (c + a)%Qc) (Some (c + b)%Qc)).
  rewrite !rat_nle_iff. intros Hle. apply Qcplus_le_compat; [apply Qcle_refl|assumption].
Qed.

Lemma rat_nadd_le_mono_r a b c :
  rat_finite a -> rat_finite b -> rat_finite c -> Rle a b -> Rle (Radd a c) (Radd b c).
Proof.
  destruct a as [a|], b as [b|], c as [c|]; try contradiction. intros _ _ _.
  change (Rle (Some a) (Some b) -> Rle (Some (a + c)%Qc) (Some (b + c)%Qc)).
  rewrite !rat_nle_iff. intros Hle. apply Qcplus_le_compat; [assumption|apply Qcle_refl].
Qed.

Lemma rat_nadd_le_cancel_r a b c :
  rat_finite a -> rat_finite b -> rat_finite c -> Rle (Radd a c) (Radd b c) -> Rle a b.
Proof.
  destruct a as [a|], b as [b|], c as [c|]; try contradiction. intros _ _ _.
  change (Rle (Some (a + c)%Qc) (Some (b + c)%Qc) -> Rle (Some a) (Some b)).
  rewrite !rat_nle_iff. apply Qcplus_le_cancel_r.
Qed.

Lemma rat_nadd_assoc a b c :
  rat_finite a -> rat_finite b -> rat_finite c ->
  Radd (Radd a b) c = Radd a (Radd b c).
Proof.
  destruct a as [a|], b as [b|], c as [c|]; try contradiction. intros _ _ _.
  simpl. f_equal. symmetry. apply Qcplus_assoc.
Qed.

Lemma rat_nadd_comm a b : rat_finite a -> rat_finite b -> Radd a b = Radd b a.
Proof.
  destruct a as [a|], b as [b|]; try contradiction. intros _ _.
  simpl. f_equal. apply Qcplus_comm.
Qed.

Lemma rat_nadd_0_l a : rat_finite a -> Radd (of_Z (JsNumber := RationalNumber) 0) a = a.
Proof. destruct a as [a|]; [|contradiction]. intros _. simpl. f_equal. apply Qcplus_0_l. Qed.

Lemma rat_nmul_1_l a :
  nmul (JsNumber := RationalNumber) (of_Z (JsNumber := RationalNumber) 1) a = a.
Proof. destruct a as [a|]; [|reflexivity]. simpl. f_equal. apply Qcmult_1_l. Qed.

Lemma rat_constants :
  Rle (of_Z 0) (of_Z 1) /\ Rle (of_Z 1) SQRT2 /\ Rle SQRT2 (Radd (of_Z 1) (of_Z 1)).
Proof. repeat split; vm_compute; reflexivity. Qed.
End RationalLaws.

#[export] Instance RationalExact : ExactArith (H := RationalNumber) :=
  @Build_ExactArith RationalNumber rat_finite
    (fun _ => I) I rat_finite_add rat_nle_refl rat_nle_trans rat_nlt_nle
    rat_nadd_le_mono_l rat_nadd_le_mono_r rat_nadd_le_cancel_r rat_nadd_assoc
    rat_nadd_comm rat_nadd_0_l rat_nmul_1_l
    (proj1 rat_constants) (proj1 (proj2 rat_constants)) (proj2 (proj2 rat_constants)).

(* ===================================================================== *)
(** ** Costs of paths in exact arithmetic *)
(* ===================================================================== *)

Section PathCosts.
Context `{ExactArith}.

Lemma finite_step_cost (a b : coord) : finite (step_cost a b).
Proof.
  unfold step_cost. destruct (_ || _); [apply finite_of_Z | apply finite_SQRT2].
Qed.

Lemma nle_1_step_cost (a b : coord) : nle (of_Z 1) (step_cost a b).
Proof.
  unfold step_cost. destruct (_ || _).
  - apply nle_refl, finite_of_Z.
  - apply nle_1_SQRT2.
Qed.

Lemma nle_0_step_cost (a b : coord) : nle (of_Z 0) (step_cost a b).
Proof.
  apply nle_trans with (b := of_Z 1);
    auto using finite_of_Z, finite_step_cost, nle_0_1, nle_1_step_cost.
Qed.

Lemma nle_add_r (a b : num) :
  finite a -> finite b -> nle (of_Z 0) b -> nle a (a + b)%js.
Proof.
  intros Ha Hb Hpos.
  assert (Hle : nle (a + of_Z 0)%js (a + b)%js)
    by (apply nadd_le_mono_l; auto using finite_of_Z).
  rewrite (nadd_comm a (of_Z 0)), nadd_0_l in Hle; auto using finite_of_Z.
Qed.

Lemma finite_cost_from (p : list coord) :
  forall acc, finite acc -> finite (cost_from acc p).
Proof.
  induction p as [|a p IH]; intros acc Hacc; [assumption|].
  destruct p as [|b p]; [assumption|].
  change (finite (cost_from (acc + step_cost a b)%js (b :: p))).
  apply IH. auto using finite_add, finite_step_cost.
Qed.

Lemma finite_path_cost (p : list coord) : finite (path_cost p).
Proof. apply finite_cost_from, finite_of_Z. Qed.

(** A path costs at least what was accumulated before it. *)
Lemma cost_from_ge (p : list coord) :
  forall acc, finite acc -> nle acc (cost_from acc p).
Proof.
  induction p as [|a p IH]; intros acc Hacc; [now apply nle_refl|].
  destruct p as [|b p]; [now apply nle_refl|].
  change (nle acc (cost_from (acc + step_cost a b)%js (b :: p))).
  assert (Hs := finite_step_cost a b).
  apply nle_trans with (b := (acc + step_cost a b)%js);
    auto using finite_add, finite_cost_from.
  apply nle_add_r; auto using nle_0_step_cost.
Qed.

(** The cost of a path extended by one step. *)
Lemma cost_from_snoc (p : list coord) :
  forall acc a n,
    cost_from acc ((a :: p) ++ [n])
    = (cost_from acc (a :: p) + step_cost (last (a :: p) a) n)%js.
Proof.
  induction p as [|b p IH]; intros acc a n; [reflexivity|].
  change (cost_from (acc + step_cost a b)%js ((b :: p) ++ [n])
          = (cost_from (acc + step_cost a b)%js (b :: p)
             + step_cost (last (b :: p) a) n)%js).
  rewrite IH. now rewrite (last_cons_default b p a b).
Qed.

End PathCosts.

(* ===================================================================== *)
(** ** The library's neighbour enumeration *)
(* ===================================================================== *)

Section GridNeighbours.
Context `{JsNumber}.

(** Whether the policy lets a diagonal step pass between the two
    orthogonal neighbours [s] and [s'] it touches. *)
Definition diagonal_open (dm : DiagonalMovement) (s s' : bool) : bool :=
  match dm with
  | Never => false
  | OnlyWhenNoObstacles => s && s'
  | IfAtMostOneObstacle => s || s'
  | Always => true
  end.

Lemma In_keep (b : bool) (p q : coord) :
  In q (if b then [p] else []) <-> b = true /\ q = p.
Proof. destruct b; simpl; intuition congruence. Qed.

Lemma In_Grid_getNeighbors (gr : Grid) (x y : Z) (dm : DiagonalMovement) (b : coord) :
  let w := isWalkableAt gr in
  In b (Grid_getNeighbors gr (x, y) dm) <->
  (w (x, y - 1) = true /\ b = (x, y - 1))
  \/ (w (x + 1, y) = true /\ b = (x + 1, y))
  \/ (w (x, y + 1) = true /\ b = (x, y + 1))
  \/ (w (x - 1, y) = true /\ b = (x - 1, y))
  \/ (diagonal_open dm (w (x - 1, y)) (w (x, y - 1)) && w (x - 1, y - 1) = true
      /\ b = (x - 1, y - 1))
  \/ (diagonal_open dm (w (x, y - 1)) (w (x + 1, y)) && w (x + 1, y - 1) = true
      /\ b = (x + 1, y - 1))
  \/ (diagonal_open dm (w (x + 1, y)) (w (x, y + 1)) && w (x + 1, y + 1) = true
      /\ b = (x + 1, y + 1))
  \/ (diagonal_open dm (w (x, y + 1)) (w (x - 1, y)) && w (x - 1, y + 1) = true
      /\ b = (x - 1, y + 1)).
Proof.
  intros w. unfold Grid_getNeighbors. fold w.
  destruct dm; cbn [diagonal_open]; rewrite !in_app_iff, !In_keep; tauto.
Qed.

Lemma Grid_getNeighbors_walkable (gr : Grid) (a : coord) dm (b : coord) :
  In b (Grid_getNeighbors gr a dm) -> isWalkableAt gr b = true.
Proof.
  destruct a as [x y]. rewrite In_Grid_getNeighbors. cbv zeta.
  intros Hin. repeat destruct Hin as [Hin|Hin]; destruct Hin as [Hw ->]; auto;
    apply andb_true_iff in Hw; tauto.
Qed.

Lemma Grid_getNeighbors_adjacent (gr : Grid) (a : coord) dm (b : coord) :
  In b (Grid_getNeighbors gr a dm) ->
  Z.abs (fst b - fst a) <= 1 /\ Z.abs (snd b - snd a) <= 1.
Proof.
  destruct a as [x y]. rewrite In_Grid_getNeighbors. cbv zeta.
  intros Hin. repeat destruct Hin as [Hin|Hin]; destruct Hin as [_ ->]; simpl; lia.
Qed.

Lemma isWalkableAt_ext (gr gr' : Grid) :
  width gr = width gr' -> height gr = height gr' ->
  (forall c, walkable (nodes gr c) = walkable (nodes gr' c)) ->
  forall c, isWalkableAt gr c = isWalkableAt gr' c.
Proof.
  intros Hw Hh Hn c. unfold isWalkableAt, isInside. now rewrite Hw, Hh, Hn.
Qed.

Lemma isWalkableAt_mono (gr gr' : Grid) :
  width gr = width gr' -> height gr = height gr' ->
  (forall c, walkable (nodes gr' c) = true -> walkable (nodes gr c) = true) ->
  forall c, isWalkableAt gr' c = true -> isWalkableAt gr c = true.
Proof.
  intros Hw Hh Hn c. unfold isWalkableAt, isInside. rewrite Hw, Hh.
  rewrite !andb_true_iff. intuition.
Qed.

Lemma diagonal_open_mono dm (s t s' t' : bool) :
  (s' = true -> s = true) -> (t' = true -> t = true) ->
  diagonal_open dm s' t' = true -> diagonal_open dm s t = true.
Proof. destruct dm, s', t', s, t; simpl; intuition congruence. Qed.

Lemma diagonal_step_mono dm (w w' : coord -> bool) (p q r : coord) :
  (forall c, w' c = true -> w c = true) ->
  diagonal_open dm (w' p) (w' q) && w' r = true ->
  diagonal_open dm (w p) (w q) && w r = true.
Proof.
  intros Hm Hc. apply andb_true_iff in Hc. destruct Hc as [Hd Hr].
  apply andb_true_iff. split; [|auto].
  revert Hd. apply diagonal_open_mono; apply Hm.
Qed.

Lemma Grid_getNeighbors_service : neighbour_service Grid_getNeighbors.
Proof.
  split.
  - intros gr a dm b. apply Grid_getNeighbors_walkable.
  - intros gr gr' [x y] dm Hw Hh Hn. unfold Grid_getNeighbors.
    now rewrite !(isWalkableAt_ext gr gr' Hw Hh Hn).
  - intros gr gr' [x y] dm Hw Hh Hn b.
    assert (Hm := isWalkableAt_mono gr gr' Hw Hh Hn).
    rewrite !In_Grid_getNeighbors. cbv zeta.
    intros Hin.
    repeat destruct Hin as [Hin|Hin]; destruct Hin as [Hc ->];
      first [ apply (diagonal_step_mono dm (isWalkableAt gr) (isWalkableAt gr') _ _ _ Hm) in Hc
            | apply Hm in Hc ];
      intuition.
Qed.
End GridNeighbours.

(* ===================================================================== *)
(** ** An admissible heuristic that is not consistent *)
(* ===================================================================== *)

Section StepCounts.
Context `{ExactArith}.




End StepCounts.





(** Two rows of eight cells.  The upper row is open; of the lower row
    only (1, 1), (2, 1) and (3, 1) are: a detour below (2, 0). *)
Definition two_routes `{JsNumber} : Grid :=
  new_Grid 8 2 [(0, 1); (4, 1); (5, 1); (6, 1); (7, 1)].


Definition straight_row : list coord :=
  [(0, 0); (1, 0); (2, 0); (3, 0); (4, 0); (5, 0); (6, 0); (7, 0)].


(* ===================================================================== *)
(** ** The search with a consistent heuristic: one relaxation *)
(* ===================================================================== *)

Section RelaxCases.
Context `{ExactArith}.
Variable fd : Finder.
Hypothesis no_staircase : truthy_flag (avoidStaircase fd) = false.
Hypothesis weight_one : weight fd = of_Z 1.
Variable endc : coord.

Lemma tentative_g_plain (s : Store) (node n : coord) :
  tentative_g fd s node n = (s, (toNumber (g (s node)) + step_cost node n)%js).
Proof. unfold tentative_g. now rewrite no_staircase. Qed.

(** The h a relaxation stores is the estimate of the heuristic, whether
    the node had none yet or had that very estimate. *)
Lemma h_of_hvalue (s : Store) (n : coord) :
  h (s n) = None \/ h (s n) = Some (hvalue fd endc n) ->
  h_of fd endc s n = hvalue fd endc n.
Proof.
  unfold h_of, hvalue. rewrite weight_one, nmul_1_l.
  intros [-> | ->]; [reflexivity|]. now destruct (ntruthy _).
Qed.

(** The node a relaxation writes. *)
Definition relaxed (node n : coord) (ng : num) (nd : Node) : Node :=
  set_parent (Some node)
    (set_f (Some (ng + hvalue fd endc n)%js)
       (set_h (Some (hvalue fd endc n)) (set_g (Some ng) nd))).

Lemma relax_closed (node n : coord) (st : Relax) :
  closed (rx_nodes st n) = true -> relax fd endc node st n = st.
Proof. intros Hc. unfold relax. now rewrite Hc. Qed.

Lemma relax_fresh (node n : coord) (st : Relax) :
  closed (rx_nodes st n) = false -> opened (rx_nodes st n) = false ->
  h (rx_nodes st n) = None ->
  let ng := (toNumber (g (rx_nodes st node)) + step_cost node n)%js in
  let fv := (ng + hvalue fd endc n)%js in
  exists prevF minF,
    relax fd endc node st n
    = mkRelax (modify (modify (rx_nodes st) n (relaxed node n ng)) n (set_opened true))
              (heap_push (rx_open st) n)
              (rx_dirty st ++ [snd n; fst n])
              (rx_added st ++ [n]) prevF minF.
Proof.
  intros Hc Ho Hh ng fv. unfold relax.
  rewrite Hc, tentative_g_plain, Ho. cbn [negb orb].
  rewrite h_of_hvalue by auto. cbn [negb].
  eexists _, _. reflexivity.
Qed.

Lemma relax_improve (node n : coord) (st : Relax) :
  closed (rx_nodes st n) = false -> opened (rx_nodes st n) = true ->
  h (rx_nodes st n) = Some (hvalue fd endc n) ->
  let ng := (toNumber (g (rx_nodes st node)) + step_cost node n)%js in
  nlt ng (toNumber (g (rx_nodes st n))) = true ->
  exists prevF minF,
    relax fd endc node st n
    = mkRelax (modify (rx_nodes st) n (relaxed node n ng))
              (rx_open st) (rx_dirty st) (rx_added st) prevF minF.
Proof.
  intros Hc Ho Hh ng Hlt. unfold relax.
  rewrite Hc, tentative_g_plain, Ho. cbn [negb orb]. fold ng. rewrite Hlt.
  rewrite h_of_hvalue by auto. cbn [negb].
  eexists _, _. reflexivity.
Qed.

Lemma relax_keep (node n : coord) (st : Relax) :
  closed (rx_nodes st n) = false -> opened (rx_nodes st n) = true ->
  let ng := (toNumber (g (rx_nodes st node)) + step_cost node n)%js in
  nlt ng (toNumber (g (rx_nodes st n))) = false ->
  relax fd endc node st n
  = mkRelax (rx_nodes st) (rx_open st) (rx_dirty st) (rx_added st)
            (rx_prevF st) (rx_minF st).
Proof.
  intros Hc Ho ng Hlt. unfold relax.
  rewrite Hc, tentative_g_plain, Ho. cbn [negb orb]. fold ng. now rewrite Hlt.
Qed.
End RelaxCases.

(* ===================================================================== *)
(** ** The search with a consistent heuristic: the invariant *)
(* ===================================================================== *)

(** [dirtyNodes] for a list of touched nodes: a [y] and an [x] each. *)
Definition pairs (T : list coord) : list Z :=
  flat_map (fun c => [snd c; fst c]) T.

Lemma dirty_coords_pairs (T : list coord) : dirty_coords (pairs T) = T.
Proof.
  induction T as [|[x y] T IH]; [reflexivity|]. simpl. now rewrite IH.
Qed.

Lemma pairs_snoc (T : list coord) (n : coord) :
  pairs T ++ [snd n; fst n] = pairs (T ++ [n]).
Proof. unfold pairs. rewrite flat_map_app. reflexivity. Qed.

Section Invariant.
Context `{ExactArith}.
Variable gn : Grid -> coord -> DiagonalMovement -> list coord.
Variable fd : Finder.
Variables start endc : coord.
Variable gb : Grid.

Definition gval (s : Store) (c : coord) : num := toNumber (g (s c)).

(** [p] is the path from the start to [c] that the parent references
    describe; its cost is the g of [c], and all its points but the last
    are closed. *)
Definition tree_path (s : Store) (T : list coord) (c : coord) (p : list coord) : Prop :=
  joins start c p
  /\ parent_linked s (rev p)
  /\ valid_path gn gb (diagonalMovement fd) p
  /\ g (s c) = Some (path_cost p)
  /\ NoDup p
  /\ (forall x, In x p -> In x T)
  /\ (forall x, In x (removelast p) -> closed (s x) = true).

(** What holds of a node the search has touched. *)
Definition node_ok (s : Store) (T : list coord) (c : coord) : Prop :=
  isInside gb c = true
  /\ opened (s c) = true
  /\ (exists p, tree_path s T c p)
  /\ (c <> start ->
      h (s c) = Some (hvalue fd endc c)
      /\ f (s c) = Some (gval s c + hvalue fd endc c)%js).

(** The invariant of the search: [T] lists the nodes touched so far,
    [pending] is the closed node whose neighbours are being relaxed. *)
Record Inv (s : Store) (open T : list coord) (pending : option coord) : Prop := {
  inv_start : parent (s start) = None /\ In start T /\ closed (s start) = true
              /\ g (s start) = Some (of_Z 0);
  inv_nodes : forall c, In c T -> node_ok s T c;
  inv_fresh : forall c, ~ In c T -> isWalkableAt gb c = true ->
              opened (s c) = false /\ closed (s c) = false /\ h (s c) = None;
  inv_open : NoDup open /\ forall c, In c open <-> (In c T /\ closed (s c) = false);
  inv_opt : forall c q, In c T -> closed (s c) = true ->
            valid_path gn gb (diagonalMovement fd) q -> joins start c q ->
            nle (gval s c) (path_cost q);
  inv_nb : forall u n, In u T -> closed (s u) = true -> Some u <> pending ->
           In n (gn gb u (diagonalMovement fd)) ->
           In n T /\ nle (gval s n) (gval s u + step_cost u n)%js;
  inv_end : In endc T -> closed (s endc) = false;
  inv_dir : forall c, encoded_direction (direction (s c)) = false;
  inv_walk : forall c, walkable (s c) = walkable (nodes gb c)
}.

Lemma parent_linked_frame (s s' : Store) (l : list coord) :
  (forall x, In x l -> parent (s' x) = parent (s x)) ->
  parent_linked s l -> parent_linked s' l.
Proof.
  induction l as [|a l IH]; intros Hsame Hl; [exact I|].
  destruct l as [|b l]; [exact I|].
  destruct Hl as [Ha Hl]. split.
  - rewrite Hsame by (left; reflexivity). assumption.
  - apply IH; [|assumption]. intros x Hx. apply Hsame. now right.
Qed.

Lemma tree_path_frame (s s' : Store) (T T' : list coord) (c : coord) (p : list coord) :
  tree_path s T c p ->
  (forall x, In x p -> parent (s' x) = parent (s x)) ->
  g (s' c) = g (s c) ->
  (forall x, In x (removelast p) -> closed (s x) = true -> closed (s' x) = true) ->
  incl T T' ->
  tree_path s' T' c p.
Proof.
  intros (Hj & Hl & Hv & Hg & Hnd & HT & Hcl) Hpar Hgc Hclosed Hincl.
  repeat split; auto; try apply Hj.
  - apply parent_linked_frame with (s := s); [|assumption].
    intros x Hx. apply Hpar. now apply in_rev.
  - congruence.
Qed.

(** The points of a tree path are closed, the last one possibly
    excepted. *)
Lemma tree_path_closed (s : Store) T c p x :
  tree_path s T c p -> In x p -> x <> c -> closed (s x) = true.
Proof.
  intros (Hj & _ & _ & _ & _ & _ & Hcl) Hx Hne. apply Hcl.
  destruct Hj as [Hhd Hlast].
  destruct p as [|a p]; [contradiction|].
  destruct (exists_last (l := a :: p)) as (l' & z & Hp); [discriminate|].
  rewrite Hp in *. rewrite removelast_last.
  rewrite last_last in Hlast. subst z.
  apply in_app_or in Hx. destruct Hx as [Hx|[Hx|[]]]; [assumption|congruence].
Qed.

Lemma valid_path_snoc (p : list coord) (a u n : coord) :
  valid_path gn gb (diagonalMovement fd) (a :: p) ->
  last (a :: p) a = u -> In n (gn gb u (diagonalMovement fd)) ->
  valid_path gn gb (diagonalMovement fd) ((a :: p) ++ [n]).
Proof.
  revert a. induction p as [|b p IH]; intros a Hv Hlast Hn.
  - simpl in *. subst. auto.
  - destruct Hv as [Hab Hv]. split; [assumption|].
    apply IH; auto. rewrite <- Hlast. exact (last_cons_default b p b a).
Qed.

(** Extending the tree path of the expanded node [u] by a neighbour. *)
Lemma tree_path_extend (s s' : Store) (T T' : list coord) (u n : coord) (p : list coord) :
  tree_path s T u p ->
  closed (s u) = true -> closed (s n) = false ->
  In n (gn gb u (diagonalMovement fd)) ->
  (forall x, x <> n -> s' x = s x) ->
  parent (s' n) = Some u ->
  g (s' n) = Some (gval s u + step_cost u n)%js ->
  incl T T' -> In n T' ->
  tree_path s' T' n (p ++ [n]).
Proof.
  intros Hp Hcu Hcn Hnb Hother Hpar Hg Hincl HnT.
  assert (Hnp : ~ In n p).
  { intros Hin. destruct (coord_eqb_spec n u) as [->|Hne]; [congruence|].
    rewrite (tree_path_closed Hp Hin Hne) in Hcn. discriminate. }
  assert (Hall : forall x, In x p -> closed (s x) = true).
  { intros x Hx. destruct (coord_eqb_spec x u) as [->|Hne]; [assumption|].
    exact (tree_path_closed Hp Hx Hne). }
  destruct Hp as ((Hhd & Hlast) & Hl & Hv & Hgu & Hnd & HT & Hcl).
  destruct p as [|a p]; [discriminate|].
  assert (Ha : a = start) by (simpl in Hhd; congruence).
  rewrite <- Ha in Hlast.
  assert (Hsame : forall x, In x (a :: p) -> s' x = s x).
  { intros x Hx. apply Hother. intros ->. contradiction. }
  repeat split.
  - assumption.
  - now rewrite last_last.
  - rewrite rev_app_distr.
    change (rev [n] ++ rev (a :: p)) with (n :: rev (a :: p)).
    assert (Hrev : exists l, rev (a :: p) = u :: l).
    { destruct (rev (a :: p)) as [|z l] eqn:Hr.
      - apply (f_equal (@length _)) in Hr. rewrite length_rev in Hr. discriminate.
      - exists l. f_equal.
        rewrite <- Hlast, <- (rev_involutive (a :: p)), Hr. simpl. now rewrite last_last. }
    destruct Hrev as [l Hr]. rewrite Hr. split; [assumption|]. rewrite <- Hr.
    apply parent_linked_frame with (s := s); [|assumption].
    intros x Hx. rewrite Hsame; [reflexivity|]. now apply in_rev.
  - now apply valid_path_snoc with (u := u).
  - rewrite Hg. unfold gval. rewrite Hgu. cbn [toNumber]. unfold path_cost.
    now rewrite cost_from_snoc, Hlast.
  - apply NoDup_app; [assumption | repeat constructor; auto | ].
    intros x Hx [<-|[]]. contradiction.
  - intros x Hx. apply in_app_or in Hx. destruct Hx as [Hx|[<-|[]]]; auto.
  - intros x Hx. rewrite removelast_last in Hx. rewrite Hsame by assumption. auto.
Qed.
End Invariant.

(* ===================================================================== *)
(** ** The search with a consistent heuristic: relaxing the neighbours *)
(* ===================================================================== *)

Lemma coord_eq_dec (a b : coord) : {a = b} + {a <> b}.
Proof. destruct (coord_eqb_spec a b); [left|right]; assumption. Qed.

Section RelaxStep.
Context `{ExactArith}.
Variable gn : Grid -> coord -> DiagonalMovement -> list coord.
Hypothesis gn_ok : neighbour_service gn.
Variable fd : Finder.
Hypothesis no_staircase : truthy_flag (avoidStaircase fd) = false.
Hypothesis weight_one : weight fd = of_Z 1.
Variables start endc : coord.
Variable gb : Grid.

Local Abbreviation dm := (diagonalMovement fd).
Local Abbreviation hv := (hvalue fd endc).
Local Abbreviation Invariant := (Inv gn fd start endc gb).
Local Abbreviation tpath := (tree_path gn fd start gb).

Lemma node_ok_finite (s : Store) T c :
  node_ok gn fd start endc gb s T c -> finite (gval s c).
Proof.
  intros (_ & _ & (p & Hp) & _). destruct Hp as (_ & _ & _ & Hg & _).
  unfold gval. rewrite Hg. apply finite_path_cost.
Qed.

Lemma isWalkableAt_inside (gr : Grid) c : isWalkableAt gr c = true -> isInside gr c = true.
Proof. unfold isWalkableAt. intros Hw. apply andb_true_iff in Hw. tauto. Qed.

(** A touched node is recognised by its flags. *)
Lemma touched_of_flag (s : Store) open T pending (c : coord) :
  Invariant s open T pending -> isWalkableAt gb c = true ->
  opened (s c) = true \/ closed (s c) = true -> In c T.
Proof.
  intros HI Hw Hflag. destruct (in_dec coord_eq_dec c T) as [Hin|Hnin]; [assumption|].
  destruct (inv_fresh HI c Hnin Hw) as (Ho & Hc & _).
  destruct Hflag; congruence.
Qed.

(** The effect on the invariant of writing the relaxed node [n], a
    neighbour of the expanded node [u], either for the first time
    ([fresh]) or with a lower g. *)
Lemma Inv_relaxed (s s' : Store) (open T : list coord) (u n : coord) (fresh : bool) :
  Invariant s open T (Some u) ->
  In u T -> closed (s u) = true ->
  In n (gn gb u dm) -> closed (s n) = false ->
  (forall x, x <> n -> s' x = s x) ->
  opened (s' n) = true -> closed (s' n) = false ->
  parent (s' n) = Some u ->
  g (s' n) = Some (gval s u + step_cost u n)%js ->
  h (s' n) = Some (hv n) ->
  f (s' n) = Some (gval s u + step_cost u n + hv n)%js ->
  direction (s' n) = direction (s n) ->
  walkable (s' n) = walkable (s n) ->
  (if fresh then ~ In n T else In n T /\ nle (gval s' n) (gval s n)) ->
  Invariant s' (if fresh then open ++ [n] else open) (if fresh then T ++ [n] else T)
            (Some u).
Proof.
  intros HI HuT Hcu Hnb Hcn Hother Hon' Hcn' Hpar Hg Hh Hf Hdir Hwalk Hfresh.
  set (T' := if fresh then T ++ [n] else T).
  assert (Hincl : incl T T').
  { subst T'. destruct fresh; [apply incl_appl|]; apply incl_refl. }
  assert (HnT' : In n T').
  { subst T'. destruct fresh; [apply in_or_app; right; now left | tauto]. }
  assert (HT' : forall c, In c T' -> c <> n -> In c T).
  { subst T'. destruct fresh; [|auto]. intros c Hc Hne.
    apply in_app_or in Hc. destruct Hc as [Hc|[Hc|[]]]; [assumption|congruence]. }
  assert (Hclosed : forall c, closed (s' c) = closed (s c)).
  { intros c. destruct (coord_eq_dec c n) as [->|Hne]; [congruence|]. now rewrite Hother. }
  assert (Hgval : forall c, c <> n -> gval s' c = gval s c).
  { intros c Hne. unfold gval. now rewrite Hother. }
  assert (Hw := gn_walkable gn_ok _ _ _ _ Hnb).
  destruct (inv_nodes HI u HuT) as (_ & _ & (pu & Hpu) & _).
  assert (Hun : u <> n) by congruence.
  destruct (inv_start HI) as (Hsp & HsT & Hsc & Hsg).
  assert (Hsn : start <> n) by congruence.
  split.
  - rewrite (Hother start Hsn). auto.
  - intros c Hc. destruct (coord_eq_dec c n) as [->|Hne].
    + split; [now apply isWalkableAt_inside|]. split; [assumption|]. split.
      * exists (pu ++ [n]). eapply tree_path_extend; eauto.
      * intros _. split; [assumption|]. unfold gval at 1. rewrite Hg. exact Hf.
    + destruct (inv_nodes HI c (HT' c Hc Hne)) as (Hin & Hop & (p & Hp) & Hhf).
      split; [assumption|]. split; [now rewrite Hother|]. split.
      * exists p. apply tree_path_frame with (s := s) (T := T); auto.
        -- intros x Hx. rewrite Hother; [reflexivity|]. intros ->.
           rewrite (tree_path_closed Hp Hx) in Hcn; congruence.
        -- now rewrite Hother.
        -- intros x _ Hx. now rewrite Hclosed.
      * intros Hcs. rewrite (Hother c Hne), (Hgval c Hne). auto.
  - intros c Hc Hwc.
    assert (Hne : c <> n) by congruence.
    rewrite (Hother c Hne). apply (inv_fresh HI); [|assumption].
    intros Hin. apply Hc. now apply Hincl.
  - destruct (inv_open HI) as [Hnd Hopen]. split.
    + destruct fresh; [|assumption].
      apply NoDup_app; [assumption | repeat constructor; auto | ].
      intros x Hx [<-|[]]. apply Hopen in Hx. tauto.
    + intros c. rewrite Hclosed. subst T'. destruct fresh; [|apply Hopen].
      rewrite !in_app_iff, Hopen. simpl. intuition; subst; auto.
  - intros c q Hc Hcc Hq Hj. rewrite Hclosed in Hcc.
    assert (Hne : c <> n) by congruence.
    rewrite (Hgval c Hne). apply (inv_opt HI); auto.
  - intros u' m Hu' Hcu' Hpend Hm. rewrite Hclosed in Hcu'.
    assert (Hne : u' <> n) by congruence.
    destruct (inv_nb HI m (HT' u' Hu' Hne) Hcu' Hpend Hm) as [HmT Hle].
    split; [now apply Hincl|]. rewrite (Hgval u' Hne).
    destruct (coord_eq_dec m n) as [->|Hmn]; [|now rewrite (Hgval m Hmn)].
    destruct fresh; [contradiction|]. destruct Hfresh as [_ Himp].
    assert (Hfu' := node_ok_finite (inv_nodes HI u' (HT' u' Hu' Hne))).
    assert (Hfn := node_ok_finite (inv_nodes HI n HmT)).
    apply nle_trans with (b := gval s n); auto using finite_add, finite_step_cost.
    unfold gval at 1. rewrite Hg. cbn [toNumber].
    apply finite_add; [|apply finite_step_cost].
    exact (node_ok_finite (inv_nodes HI u HuT)).
  - intros He. rewrite Hclosed. destruct (coord_eq_dec endc n) as [->|Hne]; [assumption|].
    apply (inv_end HI). now apply HT'.
  - intros c. destruct (coord_eq_dec c n) as [->|Hne].
    + rewrite Hdir. apply (inv_dir HI).
    + rewrite Hother by assumption. apply (inv_dir HI).
  - intros c. destruct (coord_eq_dec c n) as [->|Hne].
    + rewrite Hwalk. apply (inv_walk HI).
    + rewrite Hother by assumption. apply (inv_walk HI).
Qed.

(** The invariant of the loop over the neighbours of [u]: [done] are the
    neighbours already relaxed. *)
Definition RInv (u : coord) (done : list coord) (rx : Relax) (T : list coord) : Prop :=
  rx_dirty rx = pairs T
  /\ Invariant (rx_nodes rx) (rx_open rx) T (Some u)
  /\ In u T /\ closed (rx_nodes rx u) = true
  /\ forall n, In n done ->
       In n T /\ nle (gval (rx_nodes rx) n) (gval (rx_nodes rx) u + step_cost u n)%js.

(** The cost of the tree path of [u] extended to its neighbour [n]. *)
Lemma extended_path (s : Store) T u pu n :
  tpath s T u pu -> In n (gn gb u dm) ->
  valid_path gn gb dm (pu ++ [n]) /\ joins start n (pu ++ [n])
  /\ path_cost (pu ++ [n]) = (gval s u + step_cost u n)%js.
Proof.
  intros ((Hhd & Hlast) & _ & Hv & Hg & _) Hnb.
  destruct pu as [|a p]; [discriminate|].
  assert (Ha : a = start) by (simpl in Hhd; congruence).
  rewrite <- Ha in Hlast. split; [|split].
  - now apply valid_path_snoc with (u := u).
  - split; [simpl; congruence | now rewrite last_last].
  - unfold path_cost, gval. rewrite cost_from_snoc, Hlast, Hg. reflexivity.
Qed.

Lemma relax_step (u : coord) (done : list coord) (rx : Relax) (T : list coord) (n : coord) :
  RInv u done rx T -> In n (gn gb u dm) ->
  exists T',
    RInv u (n :: done) (relax fd endc u rx n) T'
    /\ (exists l, T' = T ++ l)
    /\ forall c, closed (rx_nodes (relax fd endc u rx n) c) = closed (rx_nodes rx c).
Proof.
  intros (Hd & HI & HuT & Hcu & HP) Hnb.
  set (s := rx_nodes rx) in *.
  assert (Hw := gn_walkable gn_ok _ _ _ _ Hnb).
  assert (Hfu := node_ok_finite (inv_nodes HI u HuT)).
  assert (Hfs := finite_step_cost u n).
  destruct (inv_nodes HI u HuT) as (_ & _ & (pu & Hpu) & _).
  destruct (extended_path n Hpu Hnb) as (Hv & Hj & Hcost).
  destruct (closed (s n)) eqn:Hcn.
  - (* closed: skipped *)
    rewrite relax_closed by assumption. exists T.
    split; [|split; [exists []; now rewrite app_nil_r | reflexivity]].
    split; [assumption|]. split; [assumption|]. split; [assumption|]. split; [assumption|].
    intros m [<-|Hm]; [|auto].
    assert (HnT : In n T) by (eapply touched_of_flag; eauto).
    split; [assumption|]. fold s. rewrite <- Hcost. now apply (inv_opt HI).
  - assert (Hun : u <> n) by congruence.
    assert (HP' : forall s' : Store,
               (forall x, x <> n -> s' x = s x) ->
               g (s' n) = Some (gval s u + step_cost u n)%js ->
               forall T', incl T T' -> In n T' ->
               forall m, In m (n :: done) ->
                 In m T' /\ nle (gval s' m) (gval s' u + step_cost u m)%js).
    { intros s' Hother Hg T' Hincl HnT' m Hm.
      assert (Hgu : gval s' u = gval s u) by (unfold gval; now rewrite Hother).
      rewrite Hgu. destruct (coord_eq_dec m n) as [->|Hmn].
      - split; [assumption|]. unfold gval at 1. rewrite Hg. cbn [toNumber].
        apply nle_refl. auto using finite_add.
      - destruct Hm as [Hm|Hm]; [congruence|]. destruct (HP m Hm) as [HmT Hle].
        split; [auto|]. unfold gval at 1. rewrite Hother by assumption. exact Hle. }
    destruct (opened (s n)) eqn:Hon.
    + (* already in the open list *)
      assert (HnT : In n T) by (eapply touched_of_flag; eauto).
      destruct (inv_start HI) as (_ & _ & Hsc & _).
      assert (Hns : n <> start) by congruence.
      destruct (inv_nodes HI n HnT) as (_ & _ & _ & Hhf).
      destruct (Hhf Hns) as [Hh _].
      assert (Hfn := node_ok_finite (inv_nodes HI n HnT)).
      destruct (nlt (toNumber (g (s u)) + step_cost u n)%js (toNumber (g (s n)))) eqn:Hlt.
      * destruct (relax_improve fd no_staircase weight_one endc u n rx Hcn Hon Hh Hlt)
          as (pF & mF & Heq).
        rewrite Heq. cbn [rx_nodes]. change (rx_nodes rx) with s.
        exists T. split; [|split; [exists []; now rewrite app_nil_r | intros c]].
        -- split; [assumption|]. cbn [rx_nodes rx_open rx_dirty].
           assert (HI' : Invariant (modify s n (relaxed fd endc u n
                                     (toNumber (g (s u)) + step_cost u n)%js))
                                   (rx_open rx) T (Some u)).
           { apply (@Inv_relaxed s _ (rx_open rx) T u n false); auto.
             - intros x Hx. apply modify_other. congruence.
             - now rewrite modify_same.
             - now rewrite modify_same.
             - now rewrite modify_same.
             - now rewrite modify_same.
             - now rewrite modify_same.
             - now rewrite modify_same.
             - now rewrite modify_same.
             - now rewrite modify_same.
             - split; [assumption|]. unfold gval at 1. rewrite modify_same. cbn.
               apply nlt_nle; auto using finite_add. }
           split; [exact HI'|]. split; [assumption|].
           split; [rewrite modify_other by congruence; exact Hcu|].
           apply HP'; auto using incl_refl.
           ++ intros x Hx. apply modify_other. congruence.
           ++ now rewrite modify_same.
        -- destruct (coord_eq_dec n c) as [<-|Hne];
             [now rewrite modify_same | now rewrite modify_other].
      * rewrite (relax_keep fd no_staircase endc u n rx Hcn Hon Hlt).
        cbn [rx_nodes]. exists T.
        split; [|split; [exists []; now rewrite app_nil_r | reflexivity]].
        split; [assumption|]. split; [assumption|]. split; [assumption|].
        split; [assumption|].
        intros m [<-|Hm]; [|auto]. split; [assumption|]. exact Hlt.
    + (* discovered now *)
      assert (HnT : ~ In n T).
      { intros Hin. destruct (inv_nodes HI n Hin) as (_ & Ho & _). fold s in Ho. congruence. }
      destruct (inv_fresh HI n HnT Hw) as (_ & _ & Hh).
      destruct (relax_fresh fd no_staircase weight_one endc u n rx Hcn Hon Hh)
        as (pF & mF & Heq).
      rewrite Heq. cbn [rx_nodes]. change (rx_nodes rx) with s.
      exists (T ++ [n]). split; [|split; [now exists [n] | intros c]].
      * cbn [rx_nodes rx_open rx_dirty].
        split; [rewrite Hd; apply pairs_snoc|].
        set (s' := modify (modify s n (relaxed fd endc u n
                                         (toNumber (g (s u)) + step_cost u n)%js))
                          n (set_opened true)).
        assert (Hother : forall x, x <> n -> s' x = s x).
        { intros x Hx. unfold s'. rewrite !modify_other by congruence. reflexivity. }
        assert (Hsn : s' n = set_opened true
                               (relaxed fd endc u n
                                  (toNumber (g (s u)) + step_cost u n)%js (s n))).
        { unfold s'. now rewrite !modify_same. }
        assert (HI' : Invariant s' (rx_open rx ++ [n]) (T ++ [n]) (Some u)).
        { apply (@Inv_relaxed s s' (rx_open rx) T u n true); auto;
            rewrite Hsn; try reflexivity; assumption. }
        split; [exact HI'|]. split; [apply in_or_app; now left|].
        split; [rewrite Hother by congruence; exact Hcu|].
        cbn [rx_nodes]. apply (HP' s');
          [ exact Hother | now rewrite Hsn | apply incl_appl, incl_refl
          | apply in_or_app; right; now left ].
      * destruct (coord_eq_dec n c) as [<-|Hne].
        -- rewrite !modify_same. reflexivity.
        -- now rewrite !modify_other.
Qed.

(** The loop over the neighbours. *)
Lemma relax_fold (u : coord) (l : list coord) :
  forall done rx T,
    RInv u done rx T -> (forall n, In n l -> In n (gn gb u dm)) ->
    exists T',
      RInv u (rev l ++ done) (fold_left (relax fd endc u) l rx) T'
      /\ (exists l', T' = T ++ l')
      /\ forall c, closed (rx_nodes (fold_left (relax fd endc u) l rx) c)
                   = closed (rx_nodes rx c).
Proof.
  induction l as [|n l IH]; intros done rx T HR Hl.
  - exists T. split; [assumption|]. split; [exists []; now rewrite app_nil_r | reflexivity].
  - destruct (relax_step n HR) as (T1 & HR1 & (l1 & HT1) & Hc1); [apply Hl; now left|].
    destruct (IH (n :: done) _ T1 HR1) as (T2 & HR2 & (l2 & HT2) & Hc2);
      [intros m Hm; apply Hl; now right|].
    exists T2. cbn [fold_left rev]. rewrite <- app_assoc. split; [exact HR2|]. split.
    + exists (l1 ++ l2). now rewrite HT2, HT1, app_assoc.
    + intros c. now rewrite Hc2, Hc1.
Qed.

(** Once all the neighbours of [u] are relaxed nothing is pending. *)
Lemma Inv_clear_pending (s : Store) (open T : list coord) (u : coord) :
  Invariant s open T (Some u) ->
  (forall n, In n (gn gb u dm) ->
             In n T /\ nle (gval s n) (gval s u + step_cost u n)%js) ->
  Invariant s open T None.
Proof.
  intros HI HP. split; try apply HI.
  intros u' m Hu' Hcu' _ Hm. destruct (coord_eq_dec u' u) as [->|Hne]; [auto|].
  apply (inv_nb HI); auto. congruence.
Qed.
End RelaxStep.

(* ===================================================================== *)
(** ** The search with a consistent heuristic: popping the minimum *)
(* ===================================================================== *)

Section OpenList.
Context `{ExactArith}.

Definition fval (s : Store) (c : coord) : num := toNumber (f (s c)).

(** The node [heap_pop] extracts has the least f of the open list. *)
Lemma heap_min_spec (s : Store) (rest : list coord) :
  forall best seen,
    (forall c, In c (best :: rest ++ seen) -> finite (fval s c)) ->
    (forall c, In c seen -> nle (fval s best) (fval s c)) ->
    let m := heap_min s best rest in
    In m (best :: rest)
    /\ forall c, In c (best :: rest ++ seen) -> nle (fval s m) (fval s c).
Proof.
  induction rest as [|c rest IH]; intros best seen Hfin Hseen.
  - simpl. split; [now left|]. intros c [<-|Hc]; [|auto].
    apply nle_refl. apply Hfin. now left.
  - cbn [heap_min]. fold (fval s c). fold (fval s best).
    assert (Hfb : finite (fval s best)) by (apply Hfin; now left).
    assert (Hfc : finite (fval s c)) by (apply Hfin; right; now left).
    destruct (nlt (fval s c) (fval s best)) eqn:Hlt.
    + destruct (IH c (best :: seen)) as [Hin Hmin].
      * intros x Hx. apply Hfin. simpl in *. rewrite in_app_iff in *. simpl in Hx. tauto.
      * intros x [<-|Hx]; [now apply nlt_nle|].
        apply nle_trans with (b := fval s best); auto.
        -- apply Hfin. simpl. rewrite in_app_iff. tauto.
        -- now apply nlt_nle.
      * split; [simpl in *; tauto|]. intros x Hx. apply Hmin.
        simpl in *. rewrite in_app_iff in *. simpl. tauto.
    + destruct (IH best (c :: seen)) as [Hin Hmin].
      * intros x Hx. apply Hfin. simpl in *. rewrite in_app_iff in *. simpl in Hx. tauto.
      * intros x [<-|Hx]; [exact Hlt | auto].
      * split; [simpl in *; tauto|]. intros x Hx. apply Hmin.
        simpl in *. rewrite in_app_iff in *. simpl. tauto.
Qed.

Lemma In_remove_first (u : coord) (l : list coord) :
  NoDup l -> forall c, In c (remove_first u l) <-> In c l /\ c <> u.
Proof.
  induction l as [|d l IH]; intros Hnd c; [simpl; tauto|].
  inversion Hnd as [|? ? Hd Hl]; subst. cbn [remove_first].
  destruct (coord_eqb_spec u d) as [->|Hne].
  - simpl. split.
    + intros Hc. split; [now right|]. intros ->. contradiction.
    + intros [[->|Hc] Hcd]; [congruence|assumption].
  - simpl. rewrite (IH Hl). split.
    + intros [->|[Hc Hcu]]; split; auto.
    + intros [[->|Hc] Hcu]; auto.
Qed.

Lemma NoDup_remove_first (u : coord) (l : list coord) :
  NoDup l -> NoDup (remove_first u l).
Proof.
  induction l as [|d l IH]; intros Hnd; [constructor|].
  inversion Hnd as [|? ? Hd Hl]; subst. cbn [remove_first].
  destruct (coord_eqb u d); [assumption|].
  constructor; [|now apply IH]. rewrite (In_remove_first u Hl). tauto.
Qed.

Lemma heap_pop_spec (s : Store) (open : list coord) :
  NoDup open -> open <> [] ->
  (forall c, In c open -> finite (fval s c)) ->
  exists u open',
    heap_pop s open = Some (u, open')
    /\ In u open /\ NoDup open'
    /\ (forall c, In c open' <-> In c open /\ c <> u)
    /\ forall c, In c open -> nle (fval s u) (fval s c).
Proof.
  intros Hnd Hne Hfin. destruct open as [|b rest]; [congruence|].
  destruct (@heap_min_spec s rest b nil) as [Hin Hmin].
  - intros c Hc. apply Hfin. now rewrite app_nil_r in Hc.
  - intros c [].
  - exists (heap_min s b rest), (remove_first (heap_min s b rest) (b :: rest)).
    split; [reflexivity|]. split; [assumption|].
    split; [now apply NoDup_remove_first|]. split; [now apply In_remove_first|].
    intros c Hc. apply Hmin. now rewrite app_nil_r.
Qed.
End OpenList.

(* ===================================================================== *)
(** ** The search with a consistent heuristic: the popped node is optimal *)
(* ===================================================================== *)

Section PopOptimal.
Context `{ExactArith}.
Variable gn : Grid -> coord -> DiagonalMovement -> list coord.
Hypothesis gn_ok : neighbour_service gn.
Variable fd : Finder.
Variables start endc : coord.
Variable gb : Grid.
Hypothesis h_consistent : consistent gn fd gb endc.

Local Abbreviation dm := (diagonalMovement fd).
Local Abbreviation hv := (hvalue fd endc).
Local Abbreviation Invariant := (Inv gn fd start endc gb).

Lemma finite_hv (c : coord) : finite (hv c).
Proof. apply h_consistent. Qed.

(** Along a path the cost so far plus the estimate never decreases. *)
Lemma consistency_along (p : list coord) :
  forall v acc,
    valid_path gn gb dm (v :: p) -> finite acc ->
    nle (acc + hv v)%js (cost_from acc (v :: p) + hv (last (v :: p) v))%js.
Proof.
  induction p as [|w p IH]; intros v acc Hv Hacc.
  - simpl. apply nle_refl. auto using finite_add, finite_hv.
  - destruct Hv as [Hvw Hv].
    assert (Hs := finite_step_cost v w).
    change (cost_from acc (v :: w :: p)) with (cost_from (acc + step_cost v w)%js (w :: p)).
    change (last (v :: w :: p) v) with (last (w :: p) v).
    rewrite (last_cons_default w p v w).
    apply nle_trans with (b := (acc + step_cost v w + hv w)%js);
      auto 6 using finite_add, finite_hv, finite_cost_from.
    rewrite nadd_assoc by auto using finite_hv.
    apply nadd_le_mono_l; auto using finite_add, finite_hv.
    now apply h_consistent.
Qed.

Lemma fval_touched (s : Store) open T pending (c : coord) :
  Invariant s open T pending -> In c T -> c <> start ->
  fval s c = (gval s c + hv c)%js /\ finite (gval s c).
Proof.
  intros HI Hc Hne. assert (Hok := inv_nodes HI c Hc).
  split; [|exact (node_ok_finite Hok)].
  destruct Hok as (_ & _ & _ & Hhf). destruct (Hhf Hne) as [_ Hf].
  unfold fval. now rewrite Hf.
Qed.

(** From a touched point [v] of a path to the popped node [u], reached
    with an accumulated cost of at least the g of [v]: the f of [u] is at
    most the cost of the path plus the estimate at [u]. *)
Lemma walk_to_popped (s : Store) (open T : list coord) (u : coord) :
  Invariant s open T None ->
  In u open ->
  (forall c, In c open -> nle (fval s u) (fval s c)) ->
  forall p v acc,
    valid_path gn gb dm (v :: p) -> last (v :: p) v = u ->
    In v T -> finite acc -> nle (gval s v) acc ->
    nle (fval s u) (cost_from acc (v :: p) + hv u)%js.
Proof.
  intros HI Hu Hmin.
  destruct (inv_start HI) as (_ & _ & Hsc & _).
  assert (HuT : In u T /\ closed (s u) = false) by (now apply (inv_open HI)).
  assert (Hus : u <> start) by (intros ->; destruct HuT; congruence).
  destruct (fval_touched HI (proj1 HuT) Hus) as [Hfu Hgu].
  assert (Hffu : finite (fval s u)) by (rewrite Hfu; auto using finite_add, finite_hv).
  induction p as [|w p IH]; intros v acc Hv Hlast HvT Hacc Hle.
  - simpl in Hlast. subst v. simpl. rewrite Hfu.
    apply nadd_le_mono_r; auto using finite_hv.
  - destruct Hv as [Hvw Hv]. assert (Hs := finite_step_cost v w).
    change (cost_from acc (v :: w :: p)) with (cost_from (acc + step_cost v w)%js (w :: p)).
    destruct (closed (s v)) eqn:Hcv.
    + destruct (inv_nb HI w HvT Hcv) as [HwT Hgw]; [discriminate | assumption |].
      assert (Hfv := node_ok_finite (inv_nodes HI v HvT)).
      assert (Hfw := node_ok_finite (inv_nodes HI w HwT)).
      apply IH; auto using finite_add.
      * rewrite <- Hlast. exact (last_cons_default w p w v).
      * apply nle_trans with (b := (gval s v + step_cost v w)%js); auto using finite_add.
        apply nadd_le_mono_r; auto.
    + assert (Hvo : In v open) by (apply (inv_open HI); auto).
      assert (Hvs : v <> start) by congruence.
      destruct (fval_touched HI HvT Hvs) as [Hfv Hgv].
      assert (Hcons := consistency_along (w :: p) v acc (conj Hvw Hv) Hacc).
      rewrite Hlast in Hcons.
      change (cost_from acc (v :: w :: p))
        with (cost_from (acc + step_cost v w)%js (w :: p)) in Hcons.
      assert (Hfc : finite (cost_from (acc + step_cost v w)%js (w :: p)))
        by auto using finite_cost_from, finite_add.
      apply nle_trans with (b := fval s v); auto using finite_add, finite_hv.
      * rewrite Hfv. auto using finite_add, finite_hv.
      * rewrite Hfv.
        apply nle_trans with (b := (acc + hv v)%js); auto using finite_add, finite_hv.
        apply nadd_le_mono_r; auto using finite_hv.
Qed.

(** The g of the popped node is at most the cost of any path to it. *)
Lemma pop_optimal (s : Store) (open T : list coord) (u : coord) :
  Invariant s open T None ->
  In u open ->
  (forall c, In c open -> nle (fval s u) (fval s c)) ->
  forall q, valid_path gn gb dm q -> joins start u q ->
  nle (gval s u) (path_cost q).
Proof.
  intros HI Hu Hmin q Hq [Hhd Hlast].
  destruct q as [|a p]; [discriminate|].
  assert (Ha : a = start) by (simpl in Hhd; congruence). subst a.
  destruct (inv_start HI) as (_ & HsT & Hsc & Hsg).
  assert (HuT : In u T /\ closed (s u) = false) by (now apply (inv_open HI)).
  assert (Hus : u <> start) by (intros ->; destruct HuT; congruence).
  destruct (fval_touched HI (proj1 HuT) Hus) as [Hfu Hgu].
  assert (Hw := walk_to_popped HI Hu Hmin p start (acc := of_Z 0) Hq Hlast HsT
                               (finite_of_Z 0)).
  rewrite Hfu in Hw. apply nadd_le_cancel_r with (c := hv u);
    auto using finite_hv, finite_path_cost.
  apply Hw. unfold gval. rewrite Hsg. apply nle_refl, finite_of_Z.
Qed.
End PopOptimal.

(* ===================================================================== *)
(** ** The search with a consistent heuristic: closing a node *)
(* ===================================================================== *)

Lemma close_fields `{JsNumber} (s : Store) (u c : coord) :
  let s1 := modify s u (set_closed true) in
  parent (s1 c) = parent (s c) /\ g (s1 c) = g (s c) /\ h (s1 c) = h (s c)
  /\ f (s1 c) = f (s c) /\ opened (s1 c) = opened (s c)
  /\ direction (s1 c) = direction (s c) /\ walkable (s1 c) = walkable (s c)
  /\ closed (s1 c) = (if coord_eq_dec u c then true else closed (s c)).
Proof.
  intros s1. unfold s1. destruct (coord_eq_dec u c) as [->|Hne].
  - rewrite modify_same. repeat split.
  - rewrite (modify_other _ _ Hne). repeat split.
Qed.

Section CloseNode.
Context `{ExactArith}.
Variable gn : Grid -> coord -> DiagonalMovement -> list coord.
Variable tp : num.
Variable fd : Finder.
Variables start endc : coord.
Hypothesis start_not_end : start <> endc.
Variable gb : Grid.
Hypothesis h_consistent : consistent gn fd gb endc.

Local Abbreviation dm := (diagonalMovement fd).
Local Abbreviation hv := (hvalue fd endc).
Local Abbreviation Invariant := (Inv gn fd start endc gb).

(** Closing the node the open list yields keeps the invariant; its
    neighbours are now to be relaxed. *)
Lemma Inv_close (s : Store) (open open' T : list coord) (u : coord) :
  Invariant s open T None ->
  In u open ->
  (forall c, In c open -> nle (fval s u) (fval s c)) ->
  NoDup open' -> (forall c, In c open' <-> In c open /\ c <> u) ->
  u <> endc ->
  Invariant (modify s u (set_closed true)) open' T (Some u).
Proof.
  intros HI Hu Hmin Hnd Hopen' Hue.
  set (s1 := modify s u (set_closed true)).
  assert (Hf : forall c,
             parent (s1 c) = parent (s c) /\ g (s1 c) = g (s c) /\ h (s1 c) = h (s c)
             /\ f (s1 c) = f (s c) /\ opened (s1 c) = opened (s c)
             /\ direction (s1 c) = direction (s c) /\ walkable (s1 c) = walkable (s c)
             /\ closed (s1 c) = (if coord_eq_dec u c then true else closed (s c)))
    by (intros c; apply close_fields).
  assert (Hg : forall c, gval s1 c = gval s c)
    by (intros c; unfold gval; now rewrite (proj1 (proj2 (Hf c)))).
  assert (Hcl : forall c, closed (s c) = true -> closed (s1 c) = true).
  { intros c Hc. destruct (Hf c) as (_ & _ & _ & _ & _ & _ & _ & ->).
    now destruct (coord_eq_dec u c). }
  assert (Hcl' : forall c, closed (s1 c) = true -> c <> u -> closed (s c) = true).
  { intros c Hc Hne. destruct (Hf c) as (_ & _ & _ & _ & _ & _ & _ & Hcc).
    rewrite Hcc in Hc. destruct (coord_eq_dec u c); congruence. }
  assert (HuT : In u T /\ closed (s u) = false) by (now apply (inv_open HI)).
  constructor.
  - destruct (inv_start HI) as (Hp & HT & Hc & Hg0).
    destruct (Hf start) as (-> & -> & _). auto.
  - intros c Hc. destruct (inv_nodes HI c Hc) as (Hin & Hop & (p & Hp) & Hhf).
    destruct (Hf c) as (Hpar & Hgc & Hh & Hff & Hopn & _).
    repeat split; auto; try congruence.
    + exists p. apply tree_path_frame with (s := s) (T := T); auto.
      * intros x _. apply Hf.
      * apply incl_refl.
    + rewrite Hh. now apply Hhf.
    + rewrite Hff, Hg. now apply Hhf.
  - intros c Hc Hw. destruct (inv_fresh HI c Hc Hw) as (Ho & Hcc & Hh).
    destruct (Hf c) as (_ & _ & Hh' & _ & Ho' & _ & _ & Hc').
    repeat split; try congruence.
    rewrite Hc'. destruct (coord_eq_dec u c) as [->|]; [|assumption].
    now elim Hc.
  - split; [assumption|]. intros c. rewrite Hopen'.
    destruct (inv_open HI) as [_ Hio]. rewrite Hio.
    destruct (Hf c) as (_ & _ & _ & _ & _ & _ & _ & Hc').
    rewrite Hc'. destruct (coord_eq_dec u c) as [->|Hne].
    + split; [intros [_ Hn]; now elim Hn | intros [_ Hn]; discriminate].
    + intuition congruence.
  - intros c q Hc Hcc Hq Hj. rewrite Hg.
    destruct (coord_eq_dec c u) as [->|Hne].
    + exact (pop_optimal h_consistent HI Hu Hmin Hq Hj).
    + apply (inv_opt HI); auto.
  - intros a n Ha Hca Hpend Hn.
    assert (Hau : a <> u) by congruence.
    rewrite !Hg. apply (inv_nb HI); auto. discriminate.
  - intros He. destruct (Hf endc) as (_ & _ & _ & _ & _ & _ & _ & ->).
    destruct (coord_eq_dec u endc); [contradiction|]. now apply (inv_end HI).
  - intros c. destruct (Hf c) as (_ & _ & _ & _ & _ & -> & _). apply (inv_dir HI).
  - intros c. destruct (Hf c) as (_ & _ & _ & _ & _ & _ & -> & _). apply (inv_walk HI).
Qed.

(** The invariant when the start node has been popped and closed, on a
    grid whose other walkable cells carry no trace of a search. *)
Lemma Inv_first (s : Store) :
  isInside gb start = true ->
  parent (s start) = None -> opened (s start) = true -> closed (s start) = true ->
  g (s start) = Some (of_Z 0) ->
  (forall c, c <> start -> isWalkableAt gb c = true ->
             opened (s c) = false /\ closed (s c) = false /\ h (s c) = None) ->
  (forall c, encoded_direction (direction (s c)) = false) ->
  (forall c, walkable (s c) = walkable (nodes gb c)) ->
  Invariant s [] [start] (Some start).
Proof.
  intros Hin Hp Ho Hc Hg Hfresh Hdir Hwalk. constructor.
  - repeat split; auto. now left.
  - intros c [<-|[]]. split; [assumption|]. split; [assumption|]. split.
    + exists [start]. repeat split; simpl; auto; try (intros x []).
      constructor; [intros []|constructor].
    + intros Hne. now elim Hne.
  - intros c Hc' Hw. apply Hfresh; [|assumption]. intros ->. apply Hc'. now left.
  - split; [constructor|]. intros c. split; [intros []|].
    intros [[<-|[]] Hcc]. congruence.
  - intros c q [<-|[]] _ Hq Hj. unfold gval. rewrite Hg.
    apply cost_from_ge, finite_of_Z.
  - intros u n [<-|[]] _ Hneq. now elim Hneq.
  - intros [He|[]]. contradiction.
  - assumption.
  - assumption.
Qed.

(** With no direction recorded on any node, resolveTies finds no tie
    case to act upon, whichever branch calls it. *)
Lemma break_ties_noop (atStart : bool) (s : Store) (added : list coord)
      (minF : option num) :
  (forall c, encoded_direction (direction (s c)) = false) ->
  exists called, break_ties tp fd atStart s added minF = Ok (s, called).
Proof.
  intros Hdir. unfold break_ties.
  assert (Hr : resolveTies tp s added minF (preferences fd) = Ok s)
    by (apply resolveTies_unchanged; auto).
  destruct (truthy_flag (breakTies fd) && truthy_flag (ignoreStartTies fd) && negb atStart).
  - rewrite Hr. now exists true.
  - destruct (truthy_flag (breakTies fd)).
    + rewrite Hr. now exists true.
    + now exists false.
Qed.
End CloseNode.

(** *** Counting the cells that are not closed *)

Lemma In_zrange (n x : Z) : In x (zrange n) <-> 0 <= x < n.
Proof.
  unfold zrange. rewrite in_map_iff. split.
  - intros (k & <- & Hk). apply in_seq in Hk. lia.
  - intros Hx. exists (Z.to_nat x). split; [lia|]. apply in_seq. lia.
Qed.

Lemma In_all_cells `{JsNumber} (gr : Grid) (c : coord) :
  In c (all_cells gr) <-> isInside gr c = true.
Proof.
  unfold all_cells, isInside. rewrite in_flat_map. destruct c as [x y]. simpl. split.
  - intros (y' & Hy & Hx). apply in_map_iff in Hx. destruct Hx as (x' & Heq & Hx).
    injection Heq as -> ->. apply In_zrange in Hy, Hx. lia.
  - intros Hin. exists y. split; [apply In_zrange; lia|].
    apply in_map_iff. exists x. split; [reflexivity|]. apply In_zrange. lia.
Qed.

Lemma filter_length_lt {A : Type} (P Q : A -> bool) (l : list A) (u : A) :
  (forall x, Q x = true -> P x = true) ->
  In u l -> P u = true -> Q u = false ->
  (length (filter Q l) < length (filter P l))%nat.
Proof.
  intros Himp. 
  assert (Hle : forall l', (length (filter Q l') <= length (filter P l'))%nat).
  { induction l' as [|a l' IH]; simpl; [lia|].
    destruct (Q a) eqn:Hq.
    - rewrite (Himp a Hq). simpl. lia.
    - destruct (P a); simpl; lia. }
  induction l as [|a l IH]; intros Hu HP HQ; [destruct Hu|].
  simpl. destruct Hu as [->|Hu].
  - rewrite HP, HQ. simpl. specialize (Hle l). lia.
  - specialize (IH Hu HP HQ). destruct (Q a) eqn:Hq.
    + rewrite (Himp a Hq). simpl. lia.
    + destruct (P a); simpl; lia.
Qed.

(** The number of cells of the grid that the store does not mark closed. *)
Definition unclosed `{JsNumber} (gb : Grid) (s : Store) : nat :=
  length (filter (fun c => negb (closed (s c))) (all_cells gb)).

Lemma unclosed_ext `{JsNumber} (gb : Grid) (s s' : Store) :
  (forall c, closed (s' c) = closed (s c)) -> unclosed gb s' = unclosed gb s.
Proof.
  intros Heq. unfold unclosed. f_equal. apply filter_ext. intros c. now rewrite Heq.
Qed.

Lemma unclosed_close `{JsNumber} (gb : Grid) (s : Store) (u : coord) :
  isInside gb u = true -> closed (s u) = false ->
  (unclosed gb (modify s u (set_closed true)) < unclosed gb s)%nat.
Proof.
  intros Hin Hc. unfold unclosed. apply filter_length_lt with (u := u).
  - intros x. destruct (close_fields s u x) as (_ & _ & _ & _ & _ & _ & _ & ->).
    destruct (coord_eq_dec u x); [discriminate|auto].
  - now apply In_all_cells.
  - now rewrite Hc.
  - now rewrite modify_same.
Qed.

Lemma unclosed_bound `{JsNumber} (gb : Grid) (s : Store) :
  (unclosed gb s <= length (all_cells gb))%nat.
Proof. apply filter_length_le. Qed.

(* ===================================================================== *)
(** ** The search with a consistent heuristic: the loop *)
(* ===================================================================== *)

Section SearchLoop.
Context `{ExactArith}.
Variable gn : Grid -> coord -> DiagonalMovement -> list coord.
Hypothesis gn_ok : neighbour_service gn.
Variable tp : num.
Variable fd : Finder.
Hypothesis no_staircase : truthy_flag (avoidStaircase fd) = false.
Hypothesis weight_one : weight fd = of_Z 1.
Variables start endc : coord.
Hypothesis start_not_end : start <> endc.
Variable gb : Grid.
Hypothesis h_consistent : consistent gn fd gb endc.

Local Abbreviation dm := (diagonalMovement fd).
Local Abbreviation hv := (hvalue fd endc).
Local Abbreviation Invariant := (Inv gn fd start endc gb).

(** The state of the loop between two turns. *)
Definition SInv (st : Search) (T : list coord) : Prop :=
  width (st_grid st) = width gb /\ height (st_grid st) = height gb
  /\ st_dirty st = pairs T
  /\ Invariant (nodes (st_grid st)) (st_open st) T None.

(** One turn of the loop on a node other than the end node: its
    neighbours are relaxed and the loop goes on. *)
Lemma loop_turn (k : nat) (st : Search) (u : coord) (open' T : list coord) :
  heap_pop (nodes (st_grid st)) (st_open st) = Some (u, open') ->
  u <> endc ->
  width (st_grid st) = width gb -> height (st_grid st) = height gb ->
  st_dirty st = pairs T ->
  Invariant (modify (nodes (st_grid st)) u (set_closed true)) open' T (Some u) ->
  In u T ->
  exists st' l,
    search_loop gn tp (S k) fd endc st = search_loop gn tp k fd endc st'
    /\ SInv st' (T ++ l)
    /\ forall c, closed (nodes (st_grid st') c)
                 = closed (modify (nodes (st_grid st)) u (set_closed true) c).
Proof.
  intros Hpop Hue Hw Hh Hd HI HuT.
  set (s1 := modify (nodes (st_grid st)) u (set_closed true)) in *.
  set (gr := with_nodes (st_grid st) s1).
  assert (Hgn : gn gr u dm = gn gb u dm).
  { apply (gn_ext gn_ok); auto. intros c. apply (inv_walk HI). }
  assert (HR : RInv gn fd start endc gb u []
                    (mkRelax s1 open' (st_dirty st) [] None (st_minF st)) T).
  { unfold RInv. cbn [rx_dirty rx_nodes rx_open].
    split; [assumption|]. split; [assumption|]. split; [assumption|]. split.
    - unfold s1. now rewrite modify_same.
    - intros n []. }
  destruct (relax_fold gn_ok no_staircase weight_one (gn gb u dm) HR (fun n Hn => Hn))
    as (T' & HR' & (l & HT') & Hcl).
  set (rx := fold_left (relax fd endc u) (gn gb u dm)
                       (mkRelax s1 open' (st_dirty st) [] None (st_minF st))) in *.
  destruct HR' as (Hd' & HI' & HuT' & Hcu & Hdone).
  assert (HI2 : Invariant (rx_nodes rx) (rx_open rx) T' None).
  { apply (Inv_clear_pending HI'). intros n Hn. apply Hdone.
    rewrite app_nil_r. now apply in_rev in Hn. }
  destruct (break_ties_noop tp fd (st_atStartNode st) (rx_nodes rx) (rx_added rx)
                            (rx_minF rx) (inv_dir HI2)) as [called Hbt].
  eexists. exists l.
  split; [|split].
  - cbn [search_loop]. rewrite Hpop. rewrite (coord_eqb_neq Hue).
    fold s1. fold gr. rewrite Hgn. cbn [nodes gr with_nodes]. fold rx.
    rewrite Hbt. cbn [bind]. reflexivity.
  - unfold SInv. cbn [st_grid st_dirty st_open nodes with_nodes width height].
    subst T'. auto.
  - intros c. cbn [st_grid nodes with_nodes]. apply Hcl.
Qed.

(** With an empty open list every touched node is closed, and the
    neighbours of a closed node are touched: the end node, never closed
    during the loop, cannot be reached. *)
Lemma exhausted_no_path (s : Store) (T : list coord) (q : list coord) :
  Invariant s [] T None ->
  valid_path gn gb dm q -> joins start endc q -> False.
Proof.
  intros HI Hq [Hhd Hlast].
  assert (Hclosed : forall c, In c T -> closed (s c) = true).
  { intros c Hc. destruct (closed (s c)) eqn:Hcc; [reflexivity|].
    destruct (inv_open HI) as [_ Hio]. destruct (proj2 (Hio c) (conj Hc Hcc)). }
  assert (Hwalk : forall p v, valid_path gn gb dm (v :: p) -> In v T ->
                              In (last (v :: p) v) T).
  { induction p as [|w p IH]; intros v Hv HvT; [assumption|].
    destruct Hv as [Hvw Hv].
    change (last (v :: w :: p) v) with (last (w :: p) v).
    rewrite (last_cons_default w p v w). apply IH; [assumption|].
    apply (inv_nb HI w HvT); auto. discriminate. }
  destruct q as [|a p]; [discriminate|].
  assert (Ha : a = start) by (simpl in Hhd; congruence). subst a.
  destruct (inv_start HI) as (_ & HsT & _).
  assert (He := Hwalk p start Hq HsT). rewrite Hlast in He.
  specialize (Hclosed endc He). rewrite (inv_end HI He) in Hclosed. discriminate.
Qed.

(** What holds when the loop leaves with the end node: the end node was
    the best of the open list of a state that satisfies the invariant. *)
Definition found_post (T0 : list coord) (st' : Search) : Prop :=
  exists s open l,
    Invariant s open (T0 ++ l) None
    /\ In endc open
    /\ (forall c, In c open -> nle (fval s endc) (fval s c))
    /\ nodes (st_grid st') = modify s endc (set_closed true)
    /\ st_dirty st' = pairs (T0 ++ l)
    /\ width (st_grid st') = width gb /\ height (st_grid st') = height gb.

Definition loop_post (T0 : list coord) (exit : LoopExit) : Prop :=
  match exit with
  | Found st' => found_post T0 st'
  | Exhausted _ => forall q, valid_path gn gb dm q -> joins start endc q -> False
  end.

Lemma open_finite (s : Store) (open T : list coord) :
  Invariant s open T None -> forall c, In c open -> finite (fval s c).
Proof.
  intros HI c Hc. apply (inv_open HI) in Hc. destruct Hc as [HcT Hcc].
  destruct (inv_start HI) as (_ & _ & Hsc & _).
  assert (Hne : c <> start) by congruence.
  destruct (fval_touched HI HcT Hne) as [-> Hg].
  apply finite_add; [assumption|apply h_consistent].
Qed.

(** The loop ends, whatever the state it starts from, within as many
    turns as there are cells that are not closed. *)
Lemma search_loop_runs (fuel : nat) :
  forall st T,
    SInv st T -> (unclosed gb (nodes (st_grid st)) <= fuel)%nat ->
    exists exit,
      search_loop gn tp fuel fd endc st = Ok exit /\ loop_post T exit.
Proof.
  induction fuel as [|k IH]; intros st T (Hw & Hh & Hd & HI) Hfuel.
  - destruct (st_open st) as [|a open] eqn:Hopen.
    + exists (Exhausted st). split.
      * cbn [search_loop]. rewrite Hopen. reflexivity.
      * intros q. exact (exhausted_no_path HI).
    + exfalso.
      destruct (heap_pop_spec (nodes (st_grid st)) (proj1 (inv_open HI)))
        as (u & open' & Hpop & Hu & _); [discriminate | exact (open_finite HI) |].
      apply (inv_open HI) in Hu. destruct Hu as [HuT Huc].
      destruct (inv_nodes HI u HuT) as (Hin & _).
      assert (Hlt := unclosed_close gb (nodes (st_grid st)) u Hin Huc). lia.
  - destruct (st_open st) as [|a open] eqn:Hopen.
    + exists (Exhausted st). split.
      * cbn [search_loop]. rewrite Hopen. reflexivity.
      * intros q. exact (exhausted_no_path HI).
    + destruct (heap_pop_spec (nodes (st_grid st)) (proj1 (inv_open HI)))
        as (u & open' & Hpop & Hu & Hnd & Hopen' & Hmin);
        [discriminate | exact (open_finite HI) |].
      rewrite <- Hopen in *. clear Hopen a open.
      assert (Hu' := Hu). apply (inv_open HI) in Hu'. destruct Hu' as [HuT Huc].
      destruct (inv_nodes HI u HuT) as (Hin & _).
      assert (Hlt := unclosed_close gb (nodes (st_grid st)) u Hin Huc).
      destruct (coord_eq_dec u endc) as [->|Hue].
      * eexists. split.
        -- cbn [search_loop]. rewrite Hpop. rewrite coord_eqb_refl. reflexivity.
        -- cbn [loop_post]. exists (nodes (st_grid st)), (st_open st), [].
           rewrite app_nil_r. cbn [st_grid st_dirty nodes with_nodes width height].
           split; [exact HI|]. split; [exact Hu|]. split; [exact Hmin|].
           split; [reflexivity|]. auto.
      * assert (HI1 := Inv_close h_consistent HI Hu Hmin Hnd Hopen' Hue).
        destruct (loop_turn k st Hpop Hue Hw Hh Hd HI1 HuT)
          as (st' & l & Hstep & HS' & Hcl).
        destruct (IH st' (T ++ l) HS') as (exit & Hrun & Hpost).
        { rewrite (unclosed_ext gb _ _ Hcl). lia. }
        exists exit. split; [now rewrite Hstep|].
        destruct exit as [st2|st2]; [|exact Hpost].
        destruct Hpost as (s & open2 & l2 & Hpost).
        exists s, open2, (l ++ l2). now rewrite app_assoc.
Qed.
End SearchLoop.

(* ===================================================================== *)
(** ** The repeated searches of findPath: auxiliary facts *)
(* ===================================================================== *)

Section BacktraceLinked.
Context `{JsNumber}.

Lemma backtrace_loop_linked (s : Store) (tail : list coord) :
  forall c acc fuel,
    parent_linked s (c :: tail) -> parent (s (last (c :: tail) c)) = None ->
    (length tail <= fuel)%nat ->
    backtrace_loop s fuel c acc = Ok (acc ++ tail).
Proof.
  induction tail as [|b t IH]; intros c acc fuel Hl Hroot Hfuel.
  - simpl in Hroot. rewrite app_nil_r.
    destruct fuel; cbn [backtrace_loop]; now rewrite Hroot.
  - destruct Hl as [Hp Hl]. destruct fuel as [|k]; [simpl in Hfuel; lia|].
    cbn [backtrace_loop]. rewrite Hp.
    rewrite (IH b (acc ++ [b]) k Hl).
    + now rewrite <- app_assoc.
    + rewrite <- Hroot. f_equal. f_equal. exact (last_cons_default b t b c).
    + simpl in Hfuel. lia.
Qed.

(** Following the parent references from the last point of a linked path
    gives the path back. *)
Lemma backtrace_linked (s : Store) (a c : coord) (p : list coord) (fuel : nat) :
  hd_error p = Some a -> last p a = c ->
  parent_linked s (rev p) -> parent (s a) = None ->
  (length p <= S fuel)%nat ->
  backtrace s fuel c = Ok p.
Proof.
  intros Hhd Hlast Hl Hroot Hfuel.
  destruct p as [|x p]; [discriminate|].
  assert (Hx : x = a) by (simpl in Hhd; congruence). subst x.
  destruct (exists_last (l := a :: p)) as (l' & z & Hp); [discriminate|].
  rewrite Hp in *. rewrite last_last in Hlast. subst z.
  rewrite rev_app_distr in Hl. cbn [rev app] in Hl.
  unfold backtrace.
  rewrite backtrace_loop_linked with (tail := rev l').
  - cbn [bind]. cbn [app rev]. rewrite rev_involutive. reflexivity.
  - assumption.
  - assert (Hlast : last (c :: rev l') c = a).
    { change (c :: rev l') with (rev [c] ++ rev l'). rewrite <- rev_app_distr.
      rewrite <- Hp. apply last_rev_hd. }
    now rewrite Hlast.
  - rewrite length_rev. rewrite length_app in Hfuel. simpl in Hfuel. lia.
Qed.
End BacktraceLinked.

Section BestCandidate.
Context `{ExactArith}.

Local Abbreviation cf := (fun c : Candidate => toNumber (cand_f c)).


End BestCandidate.

(* ===================================================================== *)
(** ** The repeated searches of findPath: one search *)
(* ===================================================================== *)

Section FindPathTail.
Context `{JsNumber}.
Variable gn : Grid -> coord -> DiagonalMovement -> list coord.
Variable tp : num.

(** The state in which findPath enters its loop (lines 150-163). *)
Definition start_state (gr : Grid) (start : coord) : Search :=
  mkSearch (with_nodes gr (modify (nodes gr) start
             (fun n => set_opened true (set_f (Some (of_Z 0)) (set_g (Some (of_Z 0)) n)))))
           (heap_push [] start) [snd start; fst start] None true [].

(** What findPath does once its loop is left (lines 170-196 and 312-321). *)
Definition after_loop (depth fuel : nat) (fd : Finder) (start endc : coord)
           (paths : list Candidate) (iterations : Z) (exit : LoopExit) : outcome Run :=
  match exit with
  | Found st =>
      let ps := paths ++ [(nodes (st_grid st), endc)] in
      if (maxIterations fd <? of_Z (iterations + 1))%js
      then p <- backtrace_best fuel ps ;; Ok (mkRun p (st_ties st))
      else
        thisPath <- backtrace (nodes (st_grid st)) fuel endc ;;
        if (Z.of_nat (length thisPath) =? 2) then Ok (mkRun thisPath (st_ties st))
        else
          let firstTileTaken := nth_error thisPath 1 in
          let gr := cleanUp (st_grid st) (st_dirty st) firstTileTaken in
          match depth with
          | O => Timeout
          | S d =>
              r <- findPath gn tp d fuel fd start endc gr (Some ps) firstTileTaken
                            (Some (iterations + 1)) ;;
              Ok (mkRun (run_path r) (st_ties st ++ run_ties r))
          end
  | Exhausted st => p <- backtrace_best fuel paths ;; Ok (mkRun p (st_ties st))
  end.

(** The first call: no candidate yet, nothing to make unwalkable. *)
Lemma findPath_first (depth fuel : nat) (fd : Finder) (start endc : coord) (gr : Grid) :
  isInside gr start = true -> isInside gr endc = true ->
  findPath gn tp depth fuel fd start endc gr None None None
  = (exit <- search_loop gn tp fuel fd endc (start_state gr start) ;;
     after_loop depth fuel fd start endc [] 1 exit).
Proof.
  intros Hs He. unfold after_loop.
  destruct depth; cbn [findPath]; unfold getNodeAt; rewrite Hs, He; reflexivity.
Qed.

(** A later call: the second point of the last path is made unwalkable
    before the search. *)
Lemma findPath_again (depth fuel : nat) (fd : Finder) (start endc : coord) (gr : Grid)
      (ps : list Candidate) (t : coord) (n : Z) :
  isInside gr start = true -> isInside gr endc = true -> isInside gr t = true ->
  n <> 0 ->
  findPath gn tp depth fuel fd start endc gr (Some ps) (Some t) (Some n)
  = (exit <- search_loop gn tp fuel fd endc
               (start_state (with_nodes gr (modify (nodes gr) t (set_walkable false))) start) ;;
     after_loop depth fuel fd start endc ps n exit).
Proof.
  intros Hs He Ht Hn. unfold after_loop.
  assert (Hno : (n =? 0) = false) by now apply Z.eqb_neq.
  destruct depth; cbn [findPath]; unfold getNodeAt, setWalkableAt, no_iterations;
    rewrite Hs, He, Ht, Hno; reflexivity.
Qed.
End FindPathTail.

(* ===================================================================== *)
(** ** The repeated searches of findPath: each search is optimal *)
(* ===================================================================== *)

Section Iterations.
Context `{ExactArith}.
Variable gn : Grid -> coord -> DiagonalMovement -> list coord.
Hypothesis gn_ok : neighbour_service gn.
Variable tp : num.
Variable fd : Finder.
Hypothesis no_staircase : truthy_flag (avoidStaircase fd) = false.
Hypothesis weight_one : weight fd = of_Z 1.
Variables start endc : coord.
Hypothesis start_not_end : start <> endc.
Variable gr0 : Grid.
Hypothesis h_consistent : consistent gn fd gr0 endc.
Hypothesis start_inside : isInside gr0 start = true.
Hypothesis end_inside : isInside gr0 endc = true.

Local Abbreviation dm := (diagonalMovement fd).
Local Abbreviation hv := (hvalue fd endc).

(** The grid of a later search: the grid of the first one with some
    cells made unwalkable. *)
Definition subgrid (gr : Grid) : Prop :=
  width gr = width gr0 /\ height gr = height gr0
  /\ forall c, walkable (nodes gr c) = true -> walkable (nodes gr0 c) = true.

(** No search has left a trace on the walkable cells of the grid, the
    start node and the cell [t] excepted. *)
Definition clean (gr : Grid) (t : option coord) : Prop :=
  parent (nodes gr start) = None
  /\ (forall c, c <> start -> Some c <> t -> isWalkableAt gr c = true ->
                opened (nodes gr c) = false /\ closed (nodes gr c) = false
                /\ h (nodes gr c) = None)
  /\ forall c, encoded_direction (direction (nodes gr c)) = false.

Lemma subgrid_inside (gr : Grid) (c : coord) :
  subgrid gr -> isInside gr c = isInside gr0 c.
Proof. intros (Hw & Hh & _). unfold isInside. now rewrite Hw, Hh. Qed.

Lemma subgrid_cells (gr : Grid) : subgrid gr -> all_cells gr = all_cells gr0.
Proof. intros (Hw & Hh & _). unfold all_cells. now rewrite Hw, Hh. Qed.

Lemma subgrid_neighbours (gr : Grid) (a : coord) :
  subgrid gr -> incl (gn gr a dm) (gn gr0 a dm).
Proof. intros (Hw & Hh & Hwalk). apply (gn_mono gn_ok); auto. Qed.

Lemma valid_path_sub (gr : Grid) (p : list coord) :
  subgrid gr -> valid_path gn gr dm p -> valid_path gn gr0 dm p.
Proof.
  intros Hsub. induction p as [|a p IH]; [auto|].
  destruct p as [|b p]; [auto|]. intros [Hab Hv]. split; [|now apply IH].
  now apply (subgrid_neighbours a Hsub).
Qed.

Lemma consistent_sub (gr : Grid) : subgrid gr -> consistent gn fd gr endc.
Proof.
  intros Hsub. split; [apply h_consistent|].
  intros a b Hb. apply h_consistent. now apply (subgrid_neighbours a Hsub).
Qed.

(** The first turn of the loop closes the start node and relaxes its
    neighbours; from there on the invariant holds, and the loop ends. *)
Lemma search_from_start (gr : Grid) (fuel : nat) :
  subgrid gr -> clean gr None ->
  (S (length (all_cells gr0)) <= fuel)%nat ->
  exists exit,
    search_loop gn tp fuel fd endc (start_state gr start) = Ok exit
    /\ loop_post gn fd start endc gr [start] exit.
Proof.
  intros Hsub (Hpar & Hfresh & Hdir) Hfuel.
  destruct fuel as [|k]; [lia|].
  set (st := start_state gr start).
  set (s0 := nodes (st_grid st)).
  assert (Hpop : heap_pop s0 (st_open st) = Some (start, [])).
  { unfold st, start_state, heap_push. cbn [st_open app heap_pop heap_min remove_first].
    now rewrite coord_eqb_refl. }
  assert (Hs0 : forall c, c <> start -> s0 c = nodes gr c).
  { intros c Hc. unfold s0, st, start_state. cbn [st_grid nodes with_nodes].
    apply modify_other. congruence. }
  assert (Hs0s : s0 start = set_opened true (set_f (Some (of_Z 0))
                              (set_g (Some (of_Z 0)) (nodes gr start)))).
  { unfold s0, st, start_state. cbn [st_grid nodes with_nodes].
    now rewrite modify_same. }
  assert (Hcons := consistent_sub Hsub).
  assert (HI1 : Inv gn fd start endc gr (modify s0 start (set_closed true)) [] [start]
                    (Some start)).
  { apply Inv_first; auto.
    - rewrite (subgrid_inside start Hsub). exact start_inside.
    - rewrite modify_same, Hs0s. exact Hpar.
    - rewrite modify_same, Hs0s. reflexivity.
    - rewrite modify_same. reflexivity.
    - rewrite modify_same, Hs0s. reflexivity.
    - intros c Hc Hw. rewrite modify_other by congruence. rewrite (Hs0 c Hc).
      apply Hfresh; auto. discriminate.
    - intros c. destruct (close_fields s0 start c) as (_ & _ & _ & _ & _ & -> & _).
      destruct (coord_eq_dec c start) as [->|Hc].
      + rewrite Hs0s. apply Hdir.
      + rewrite (Hs0 c Hc). apply Hdir.
    - intros c. destruct (close_fields s0 start c) as (_ & _ & _ & _ & _ & _ & -> & _).
      destruct (coord_eq_dec c start) as [->|Hc].
      + rewrite Hs0s. reflexivity.
      + now rewrite (Hs0 c Hc). }
  destruct (loop_turn gn_ok tp no_staircase weight_one (gb := gr) k st (T := [start])
                      Hpop start_not_end eq_refl eq_refl eq_refl HI1 (or_introl eq_refl))
    as (st' & l & Hstep & HS' & Hcl).
  destruct (search_loop_runs gn_ok tp no_staircase weight_one Hcons (fuel := k) HS')
    as (exit & Hrun & Hpost).
  { assert (Hb := unclosed_bound gr (nodes (st_grid st'))).
    rewrite (subgrid_cells Hsub) in Hb. lia. }
  exists exit. split; [now rewrite Hstep|].
  destruct exit as [st2|st2]; [|exact Hpost].
  destruct Hpost as (s & open2 & l2 & Hpost).
  exists s, open2, (l ++ l2). now rewrite app_assoc.
Qed.
(** *** The candidate a search records *)

(** A path of least cost among those of the grid of the first search. *)
Definition best (p : list coord) : Prop :=
  valid_path gn gr0 dm p /\ joins start endc p
  /\ forall q, valid_path gn gr0 dm q -> joins start endc q ->
               nle (path_cost p) (path_cost q).




(** The path the search has found: it is the cheapest of the grid
    searched, and the end node records it. *)
Lemma found_path (gr : Grid) (st' : Search) :
  subgrid gr -> found_post gn fd start endc gr [start] st' ->
  exists p,
    valid_path gn gr dm p /\ joins start endc p /\ NoDup p
    /\ cand_f (nodes (st_grid st'), endc) = Some (path_cost p + hv endc)%js
    /\ (forall k, (length (all_cells gr0) <= k)%nat ->
                  backtrace (nodes (st_grid st')) k endc = Ok p)
    /\ forall q, valid_path gn gr dm q -> joins start endc q ->
                 nle (path_cost p) (path_cost q).
Proof.
  intros Hsub (s & open & l & HI & Hend & Hmin & Hnodes & _).
  assert (Hcons := consistent_sub Hsub).
  assert (HeT : In endc ([start] ++ l)) by (now apply (inv_open HI)).
  destruct (inv_nodes HI endc HeT) as (_ & _ & (p & Hp) & Hhf).
  assert (Hne : endc <> start) by congruence.
  destruct (Hhf Hne) as [_ Hf].
  destruct Hp as (Hj & Hl & Hv & Hg & Hnd & HT & _).
  assert (Hgv : gval s endc = path_cost p) by (unfold gval; now rewrite Hg).
  exists p. split; [assumption|]. split; [assumption|]. split; [assumption|]. split.
  { unfold cand_f. cbn [fst snd]. rewrite Hnodes.
    destruct (close_fields s endc endc) as (_ & _ & _ & -> & _).
    now rewrite Hf, Hgv. }
  split.
  - intros k Hk. rewrite Hnodes. destruct Hj as [Hhd Hlast].
    apply backtrace_linked with (a := start); auto.
    + apply parent_linked_frame with (s := s); [|assumption].
      intros x _. apply close_fields.
    + destruct (close_fields s endc start) as (-> & _). apply (inv_start HI).
    + assert (Hlen : (length p <= length (all_cells gr0))%nat).
      { apply NoDup_incl_length; [assumption|]. intros x Hx.
        apply In_all_cells. rewrite <- (subgrid_inside x Hsub).
        apply (inv_nodes HI x (HT x Hx)). }
      lia.
  - intros q Hq Hjq. rewrite <- Hgv. exact (pop_optimal Hcons HI Hend Hmin Hq Hjq).
Qed.

(** The second point of a path of more than two points. *)
Lemma second_point (gr : Grid) (p : list coord) :
  valid_path gn gr dm p -> joins start endc p -> NoDup p ->
  exists t rest,
    p = start :: t :: rest /\ isWalkableAt gr t = true /\ t <> start
    /\ (rest <> [] -> t <> endc).
Proof.
  intros Hv [Hhd Hlast] Hnd.
  destruct p as [|a p]; [discriminate|].
  assert (Ha : a = start) by (simpl in Hhd; congruence). subst a.
  destruct p as [|t rest]; [simpl in Hlast; congruence|].
  exists t, rest. split; [reflexivity|]. destruct Hv as [Ht _].
  split; [exact (gn_walkable gn_ok _ _ _ _ Ht)|].
  split.
  - intros ->. inversion Hnd as [|? ? Hn _]. apply Hn. now left.
  - intros Hrest ->. inversion Hnd as [|? ? _ Hnd']. inversion Hnd' as [|? ? Hn _].
    apply Hn. destruct rest as [|r0 rest]; [congruence|].
    change (last (r0 :: rest) start = endc) in Hlast. rewrite <- Hlast.
    destruct (exists_last (l := r0 :: rest)) as (l' & z & Hz); [discriminate|].
    rewrite Hz, last_last. apply in_or_app. right. now left.
Qed.

(** *** Between two searches *)

Lemma existsb_coord (c : coord) (l : list coord) :
  existsb (coord_eqb c) l = true <-> In c l.
Proof.
  rewrite existsb_exists. split.
  - intros (x & Hx & Heq). destruct (coord_eqb_spec c x); congruence.
  - intros Hc. exists c. split; [assumption|apply coord_eqb_refl].
Qed.


(** The grid in which a cell has been made unwalkable. *)
Definition blocked (gr : Grid) (t : coord) : Grid :=
  with_nodes gr (modify (nodes gr) t (set_walkable false)).

(** The number of walkable cells. *)
Definition walkable_count (gr : Grid) : nat :=
  length (filter (isWalkableAt gr) (all_cells gr0)).

Lemma blocked_walkable (gr : Grid) (t c : coord) :
  isWalkableAt (blocked gr t) c = if coord_eq_dec t c then false else isWalkableAt gr c.
Proof.
  unfold isWalkableAt, blocked, isInside. cbn [width height nodes with_nodes].
  destruct (coord_eq_dec t c) as [->|Hne].
  - rewrite modify_same. cbn [set_walkable walkable]. apply andb_false_r.
  - now rewrite (modify_other _ _ Hne).
Qed.

Lemma blocked_subgrid (gr : Grid) (t : coord) : subgrid gr -> subgrid (blocked gr t).
Proof.
  intros (Hw & Hh & Hsub). split; [exact Hw|]. split; [exact Hh|].
  intros c. unfold blocked. cbn [nodes with_nodes].
  destruct (coord_eq_dec t c) as [->|Hne].
  - rewrite modify_same. cbn [set_walkable walkable]. discriminate.
  - rewrite (modify_other _ _ Hne). apply Hsub.
Qed.


Lemma blocked_count (gr : Grid) (t : coord) :
  subgrid gr -> isWalkableAt gr t = true ->
  (walkable_count (blocked gr t) < walkable_count gr)%nat.
Proof.
  intros Hsub Ht. unfold walkable_count. apply filter_length_lt with (u := t).
  - intros c. rewrite blocked_walkable. destruct (coord_eq_dec t c); [discriminate|auto].
  - apply In_all_cells. rewrite <- (subgrid_inside t Hsub).
    now apply isWalkableAt_inside.
  - assumption.
  - rewrite blocked_walkable. now destruct (coord_eq_dec t t).
Qed.

Lemma walkable_count_ext (gr gr' : Grid) :
  (forall c, isWalkableAt gr' c = isWalkableAt gr c) ->
  walkable_count gr' = walkable_count gr.
Proof. intros Heq. unfold walkable_count. f_equal. now apply filter_ext. Qed.

Lemma walkable_count_pos (gr : Grid) (t : coord) :
  subgrid gr -> isWalkableAt gr t = true -> (0 < walkable_count gr)%nat.
Proof. intros Hsub Ht. assert (Hlt := @blocked_count gr t Hsub Ht). lia. Qed.

Lemma walkable_count_bound (gr : Grid) :
  (walkable_count gr <= length (all_cells gr0))%nat.
Proof. apply filter_length_le. Qed.
(** *** The searches, one after the other *)




End Iterations.

(* ===================================================================== *)
(** ** Paths and the default heuristic on the rationals *)
(* ===================================================================== *)

(** The last point of a path of two points or more is one the neighbour
    enumeration has yielded. *)
Lemma valid_path_last_walkable `{JsNumber}
      (gn : Grid -> coord -> DiagonalMovement -> list coord) (gr : Grid) dm
      (p : list coord) :
  neighbour_service gn ->
  forall a b, valid_path gn gr dm (a :: b :: p) ->
              isWalkableAt gr (last (a :: b :: p) a) = true.
Proof.
  intros Hgn. induction p as [|c p IH]; intros a b [Hab Hv].
  - simpl. exact (gn_walkable Hgn _ _ _ _ Hab).
  - change (last (a :: b :: c :: p) a) with (last (b :: c :: p) a).
    rewrite (last_cons_default b (c :: p) a b). now apply IH.
Qed.

(** *** The default finder on the rationals *)

Lemma rat_of_Z_le (a b : Z) :
  a <= b -> nle (H := RationalNumber) (of_Z a) (of_Z b).
Proof.
  intros Hle. apply rat_nle_iff.
  change (Qle (Qred (inject_Z a)) (Qred (inject_Z b))).
  rewrite !Qred_correct. now rewrite <- Zle_Qle.
Qed.

Lemma rat_of_Z_add (a b : Z) :
  nadd (JsNumber := RationalNumber) (of_Z a) (of_Z b) = of_Z (a + b).
Proof.
  change (Some (Q2Qc (inject_Z a) + Q2Qc (inject_Z b))%Qc = Some (Q2Qc (inject_Z (a + b)))).
  f_equal. apply Qc_is_canon.
  change (Qeq (Qred (Qred (inject_Z a) + Qred (inject_Z b))) (Qred (inject_Z (a + b)))).
  rewrite !Qred_correct. now rewrite inject_Z_plus.
Qed.

(** Without diagonal steps the Manhattan distance is consistent. *)
Lemma manhattan_consistent (gr : Grid (H := RationalNumber)) (endc : coord) :
  consistent Grid_getNeighbors (AStarFinder no_options) gr endc.
Proof.
  split.
  - intros c. exact I.
  - intros [x y] b Hb.
    change (diagonalMovement (AStarFinder (H := RationalNumber) no_options))
      with Never in Hb.
    apply In_Grid_getNeighbors in Hb. cbv zeta in Hb. cbn [diagonal_open andb] in Hb.
    assert (Hstep : step_cost (H := RationalNumber) (x, y) b = of_Z 1
                    /\ Z.abs (x - fst b) + Z.abs (y - snd b) = 1).
    { unfold step_cost.
      repeat destruct Hb as [Hb|Hb]; destruct Hb as [Hw ->]; try discriminate;
        cbn [fst snd].
      - replace (x - x =? 0) with true by (symmetry; apply Z.eqb_eq; lia).
        split; [reflexivity|lia].
      - replace (y - y =? 0) with true by (symmetry; apply Z.eqb_eq; lia).
        rewrite orb_true_r. split; [reflexivity|lia].
      - replace (x - x =? 0) with true by (symmetry; apply Z.eqb_eq; lia).
        split; [reflexivity|lia].
      - replace (y - y =? 0) with true by (symmetry; apply Z.eqb_eq; lia).
        rewrite orb_true_r. split; [reflexivity|lia]. }
    destruct Hstep as [-> Hd]. unfold hvalue.
    change (heuristic (AStarFinder (H := RationalNumber) no_options)) with
      (manhattan (H := RationalNumber)).
    unfold manhattan. rewrite !rat_of_Z_add. apply rat_of_Z_le.
    cbn [fst snd]. lia.
Qed.

(* ===================================================================== *)
(** ** interpolate: the shape of the line *)
(* ===================================================================== *)

(** The loop of interpolate, [rx] and [ry] being the steps still to take
    along each axis: on the longer axis a step is taken at every turn
    (the error term stays on the side that forces it), so the line has
    one point more than the longer axis has steps; every turn moves to a
    neighbouring cell, towards the target. *)
Lemma interpolate_loop_shape (fuel : nat) :
  forall x0 y0 x1 y1 sx sy dx dy err rx ry,
    sx = 1 \/ sx = -1 -> sy = 1 \/ sy = -1 ->
    x1 = x0 + sx * rx -> y1 = y0 + sy * ry ->
    0 <= rx <= dx -> 0 <= ry <= dy ->
    err = dx - dy + rx * dy - ry * dx ->
    (dx = dy /\ err = 0) \/ (dy < dx /\ - dy < 2 * err) \/ (dx < dy /\ 2 * err < dx) ->
    rx + ry <= Z.of_nat fuel ->
    exists l,
      interpolate_loop fuel x0 y0 x1 y1 sx sy dx dy err = Ok ((x0, y0) :: l)
      /\ last ((x0, y0) :: l) (x0, y0) = (x1, y1)
      /\ Z.of_nat (length l) = Z.max rx ry
      /\ neighbouring ((x0, y0) :: l)
      /\ Forall (in_box (x0, y0) (x1, y1)) ((x0, y0) :: l).
Proof.
  induction fuel as [|fuel IH];
    intros x0 y0 x1 y1 sx sy dx dy err rx ry Hsx Hsy Hx Hy Hrx Hry Herr Hmode Hf.
  - assert (rx = 0) by lia. assert (ry = 0) by lia. subst rx ry.
    assert (Hx0 : x1 = x0) by lia. assert (Hy0 : y1 = y0) by lia. clear Hx Hy.
    subst x1 y1. exists []. simpl. rewrite !Z.eqb_refl. simpl.
    repeat split; auto; try lia. constructor; [|constructor].
    unfold in_box; simpl; lia.
  - cbn [interpolate_loop].
    destruct ((x0 =? x1) && (y0 =? y1)) eqn:Hends.
    { apply andb_true_iff in Hends. destruct Hends as [Hex Hey].
      apply Z.eqb_eq in Hex, Hey.
      assert (rx = 0) by nia. assert (ry = 0) by nia. subst rx ry.
      clear Hx Hy. subst x1 y1.
      exists []. simpl. repeat split; auto; try lia. constructor; [|constructor].
      unfold in_box; simpl; lia. }
    assert (Hpos : 1 <= rx + ry).
    { apply andb_false_iff in Hends.
      destruct Hends as [Hne|Hne]; apply Z.eqb_neq in Hne; nia. }
    assert (Hxstep : - dy < 2 * err -> 1 <= rx).
    { intros Hlt. destruct (Z.eq_dec rx 0) as [->|]; [|lia].
      assert (0 <= (ry - 1) * dx) by nia. nia. }
    assert (Hystep : 2 * err < dx -> 1 <= ry).
    { intros Hlt. destruct (Z.eq_dec ry 0) as [->|]; [|lia].
      assert (0 <= (rx - 1) * dy) by nia. nia. }
    rewrite (Z.gtb_ltb (2 * err) (- dy)).
    destruct (Z.ltb_spec (- dy) (2 * err)) as [Hxs|Hxs];
      destruct (Z.ltb_spec (2 * err) dx) as [Hys|Hys]; try lia.
    + (* a step along both axes *)
      specialize (Hxstep Hxs). specialize (Hystep Hys).
      destruct (IH (x0 + sx) (y0 + sy) x1 y1 sx sy dx dy (err - dy + dx) (rx - 1) (ry - 1))
        as (l & Hl & Hlast & Hlen & Hnb & Hbox); auto; try nia.
      rewrite Hl. cbn [bind]. exists ((x0 + sx, y0 + sy) :: l).
      split; [reflexivity|].
      split; [change (last ((x0 + sx, y0 + sy) :: l) (x0, y0) = (x1, y1));
              now rewrite (last_cons_default (x0 + sx, y0 + sy) l (x0, y0) (x0 + sx, y0 + sy))|]. split; [simpl length; lia|].
      split.
      * cbn [neighbouring fst snd]. repeat split; try lia; [|exact Hnb].
        intros [= Hcx Hcy]. lia.
      * constructor; [unfold in_box; cbn [fst snd]; nia|].
        eapply Forall_impl; [|exact Hbox].
        intros c. unfold in_box. cbn [fst snd]. nia.
    + (* a step along x only *)
      specialize (Hxstep Hxs).
      assert (Hmajor : dy < dx /\ ry <= rx - 1).
      { destruct Hmode as [[Heq He0]|[[Hlt Hinv]|[Hlt Hinv]]]; try lia.
        split; [assumption|].
        destruct (Z_le_gt_dec ry (rx - 1)) as [|Hgt]; [assumption|].
        assert (ry * dx >= rx * dx) by nia.
        assert (rx * dy <= rx * dx) by nia. nia. }
      destruct Hmajor as [Hlt Hry'].
      destruct (IH (x0 + sx) y0 x1 y1 sx sy dx dy (err - dy) (rx - 1) ry)
        as (l & Hl & Hlast & Hlen & Hnb & Hbox); auto; try nia.
      rewrite Hl. cbn [bind]. exists ((x0 + sx, y0) :: l).
      split; [reflexivity|].
      split; [change (last ((x0 + sx, y0) :: l) (x0, y0) = (x1, y1));
              now rewrite (last_cons_default (x0 + sx, y0) l (x0, y0) (x0 + sx, y0))|]. split; [simpl length; lia|].
      split.
      * cbn [neighbouring fst snd]. repeat split; try lia; [|exact Hnb].
        intros [= Hcx]. lia.
      * constructor; [unfold in_box; cbn [fst snd]; nia|].
        eapply Forall_impl; [|exact Hbox].
        intros c. unfold in_box. cbn [fst snd]. nia.
    + (* a step along y only *)
      specialize (Hystep Hys).
      assert (Hmajor : dx < dy /\ rx <= ry - 1).
      { destruct Hmode as [[Heq He0]|[[Hlt Hinv]|[Hlt Hinv]]]; try lia.
        split; [assumption|].
        destruct (Z_le_gt_dec rx (ry - 1)) as [|Hgt]; [assumption|].
        assert (rx * dy >= ry * dy) by nia.
        assert (ry * dx <= ry * dy) by nia. nia. }
      destruct Hmajor as [Hlt Hrx'].
      destruct (IH x0 (y0 + sy) x1 y1 sx sy dx dy (err + dx) rx (ry - 1))
        as (l & Hl & Hlast & Hlen & Hnb & Hbox); auto; try nia.
      rewrite Hl. cbn [bind]. exists ((x0, y0 + sy) :: l).
      split; [reflexivity|].
      split; [change (last ((x0, y0 + sy) :: l) (x0, y0) = (x1, y1));
              now rewrite (last_cons_default (x0, y0 + sy) l (x0, y0) (x0, y0 + sy))|]. split; [simpl length; lia|].
      split.
      * cbn [neighbouring fst snd]. repeat split; try lia; [|exact Hnb].
        intros [= Hcy]. lia.
      * constructor; [unfold in_box; cbn [fst snd]; nia|].
        eapply Forall_impl; [|exact Hbox].
        intros c. unfold in_box. cbn [fst snd]. nia.
Qed.

Lemma interpolate_shape (a b : coord) :
  exists l,
    interpolate a b = Ok (a :: l)
    /\ last (a :: l) a = b
    /\ Z.of_nat (length l) = chebyshev a b
    /\ neighbouring (a :: l)
    /\ Forall (in_box a b) (a :: l).
Proof.
  destruct a as [x0 y0], b as [x1 y1]. unfold interpolate, chebyshev. cbn [fst snd].
  apply interpolate_loop_shape; try lia; case_ltb.
Qed.

(* ===================================================================== *)
(** ** The path utilities: lines, expansion, compression, smoothing *)
(* ===================================================================== *)

(** *** Subsequences *)

Lemma subseq_refl {A : Type} (l : list A) : subseq l l.
Proof. induction l; constructor; assumption. Qed.

Lemma subseq_app {A : Type} (l1 m1 l2 m2 : list A) :
  subseq l1 m1 -> subseq l2 m2 -> subseq (l1 ++ l2) (m1 ++ m2).
Proof.
  intros H1 H2. induction H1; simpl; try constructor; assumption.
Qed.

Lemma subseq_nil_l {A : Type} (m : list A) : subseq [] m.
Proof. induction m; constructor; assumption. Qed.

Lemma subseq_snoc_skip {A : Type} (l m : list A) (x : A) :
  subseq l m -> subseq l (m ++ [x]).
Proof.
  intros Hs. rewrite <- (app_nil_r l). apply subseq_app; [assumption|].
  apply subseq_nil_l.
Qed.

Lemma subseq_length {A : Type} (l m : list A) :
  subseq l m -> (length l <= length m)%nat.
Proof. induction 1; simpl; lia. Qed.

Lemma subseq_incl {A : Type} (l m : list A) : subseq l m -> incl l m.
Proof.
  induction 1; intros y Hy; simpl in *; [assumption | right; auto |].
  destruct Hy as [->|Hy]; [now left | right; auto].
Qed.

(** *** interpolate *)

(** X1. interpolate returns for every pair of cells; the line starts at
    the first and ends at the second, has one cell more than the longer
    of the two axis distances, moves at every step to a neighbouring
    cell, and stays in the rectangle the two cells span. *)
Theorem interpolate_line (a b : coord) :
  exists l,
    interpolate a b = Ok l
    /\ hd_error l = Some a
    /\ last l a = b
    /\ Z.of_nat (length l) = chebyshev a b + 1
    /\ neighbouring l
    /\ Forall (in_box a b) l.
Proof.
  destruct (interpolate_shape a b) as (l & Hrun & Hlast & Hlen & Hnb & Hbox).
  exists (a :: l). repeat split; auto; try apply Hbox.
  simpl length. lia.
Qed.

(** X2. Along a horizontal, vertical or diagonal segment of [n] steps
    the line consists of the [n + 1] cells of the segment, and of them
    only. *)
Theorem interpolate_straight (a b u : coord) (n : nat) :
  compass_segment a b u n ->
  interpolate a b = Ok (line_from a u n).
Proof.
  intros (Hu & Hn & Hx & Hy).
  replace b with (fst a + Z.of_nat n * fst u, snd a + Z.of_nat n * snd u)
    by (destruct b; simpl in *; congruence).
  now apply interpolate_compass.
Qed.

Lemma interpolate_straight_witness :
  interpolate (1, 1) (4, 4) = Ok (line_from (1, 1) (1, 1) 3).
Proof.
  apply (interpolate_straight (a := (1, 1)) (b := (4, 4)) (u := (1, 1)) (n := 3)).
  repeat split; simpl; try lia. discriminate.
Defined.

(** *** expandPath *)

Lemma last_app_cons {A : Type} (l1 l2 : list A) (x d : A) :
  last (l1 ++ x :: l2) d = last (x :: l2) d.
Proof.
  induction l1 as [|a l1 IH]; [reflexivity|].
  destruct l1 as [|c l1]; [exact IH|]. exact IH.
Qed.

Lemma neighbouring_app (l1 l2 : list coord) (b : coord) :
  neighbouring (l1 ++ [b]) -> neighbouring (b :: l2) -> neighbouring (l1 ++ b :: l2).
Proof.
  induction l1 as [|a l1 IH]; intros H1 H2; [exact H2|].
  destruct l1 as [|c l1].
  - simpl in *. tauto.
  - destruct H1 as (Hx & Hy & Hne & H1).
    change (neighbouring (a :: c :: (l1 ++ b :: l2))).
    split; [assumption|]. split; [assumption|]. split; [assumption|].
    apply IH; assumption.
Qed.

Lemma expand_segments_shape (p : list coord) (d : coord) :
  p <> [] ->
  exists e,
    expand_segments p = Ok e
    /\ hd_error e = hd_error p
    /\ last e d = last p d
    /\ Z.of_nat (length e) = king_length p + 1
    /\ neighbouring e
    /\ incl p e.
Proof.
  induction p as [|a p IH]; [congruence|]. intros _.
  destruct p as [|b p].
  - exists [a]. simpl. repeat split; auto. apply incl_refl.
  - destruct IH as (e' & He' & Hhd' & Hlast' & Hlen' & Hnb' & Hin'); [discriminate|].
    destruct (interpolate_shape a b) as (l & Hrun & Hlast & Hlen & Hnb & _).
    rewrite expand_segments_cons, Hrun, He'. cbn [bind].
    destruct e' as [|b' e'']; [discriminate|].
    assert (b' = b) by (simpl in Hhd'; congruence). subst b'.
    exists (removelast (a :: l) ++ b :: e'').
    split; [reflexivity|].
    change (last (a :: b :: p) d) with (last (b :: p) d).
    change (king_length (a :: b :: p)) with (chebyshev a b + king_length (b :: p)).
    destruct l as [|c l].
    + (* the two points are equal *)
      simpl in Hlast. subst b. cbn [removelast app].
      split; [reflexivity|]. split; [exact Hlast'|].
      split; [simpl length in *; lia|]. split; [exact Hnb'|].
      intros x [<-|Hx]; [now left | now apply Hin'].
    + destruct (exists_last (l := c :: l)) as (l' & z & Hz); [discriminate|].
      assert (Hzb : z = b).
      { change (last (c :: l) a = b) in Hlast. rewrite Hz, last_last in Hlast.
        exact Hlast. }
      subst z. rewrite Hz in *.
      change (a :: l' ++ [b]) with ((a :: l') ++ [b]). rewrite removelast_last.
      split; [reflexivity|].
      split.
      { rewrite <- Hlast'. cbn [app].
        change (last (a :: l' ++ b :: e'') d) with (last ((a :: l') ++ b :: e'') d).
        now rewrite last_app_cons. }
      split.
      { rewrite length_app in *. simpl length in *. lia. }
      split.
      { apply neighbouring_app; assumption. }
      intros x [<-|Hx]; [now left|].
      apply in_or_app. right. now apply Hin'.
Qed.

(** X3. For a path of two points or more expandPath returns a path with
    the same first and last point that passes through every point of the
    input, moves at every step to a neighbouring cell, and has one cell
    more than the king-move distances between the consecutive points of
    the input add up to. *)
Theorem expandPath_shape (p : list coord) (d : coord) :
  (2 <= length p)%nat ->
  exists e,
    expandPath p = Ok e
    /\ hd_error e = hd_error p
    /\ last e d = last p d
    /\ Z.of_nat (length e) = king_length p + 1
    /\ neighbouring e
    /\ incl p e.
Proof.
  intros Hlen. unfold expandPath.
  destruct (Z.ltb_spec (Z.of_nat (length p)) 2) as [Hlt|_]; [lia|].
  apply expand_segments_shape. intros ->. simpl in Hlen. lia.
Qed.

Lemma expandPath_shape_witness :
  exists e,
    expandPath [(0, 0); (3, 1); (3, 4)] = Ok e
    /\ hd_error e = Some (0, 0)
    /\ last e (0, 0) = (3, 4)
    /\ Z.of_nat (length e) = 7
    /\ neighbouring e
    /\ incl [(0, 0); (3, 1); (3, 4)] e.
Proof.
  apply (expandPath_shape [(0, 0); (3, 1); (3, 4)] (0, 0)). simpl. lia.
Defined.

(** *** compressPath *)

Section CompressShape.
Context `{JsSqrt}.

Lemma compress_loop_shape (rest : list coord) :
  forall p d acc acc0,
    subseq acc acc0 ->
    subseq (compress_loop p d rest acc) (acc0 ++ p :: rest)
    /\ (forall x, hd_error acc = Some x -> hd_error (compress_loop p d rest acc) = Some x)
    /\ forall x, last (compress_loop p d rest acc) x = last (p :: rest) x.
Proof.
  induction rest as [|q rest IH]; intros p d acc acc0 Hs.
  - cbn [compress_loop]. split; [|split].
    + apply subseq_app; [assumption | apply subseq_refl].
    + intros x Hx. destruct acc; [discriminate|assumption].
    + intros x. now rewrite last_last.
  - cbn [compress_loop].
    change (acc0 ++ p :: q :: rest) with (acc0 ++ [p] ++ q :: rest).
    rewrite app_assoc.
    destruct (dir_changed (normalize (fst q - fst p) (snd q - snd p)) d).
    + destruct (IH q (normalize (fst q - fst p) (snd q - snd p)) (acc ++ [p]) (acc0 ++ [p]))
        as (Hsub & Hhd & Hlast).
      { apply subseq_app; [assumption | apply subseq_refl]. }
      split; [exact Hsub|]. split; [|exact Hlast].
      intros x Hx. apply Hhd. destruct acc; [discriminate|assumption].
    + destruct (IH q (normalize (fst q - fst p) (snd q - snd p)) acc (acc0 ++ [p]))
        as (Hsub & Hhd & Hlast).
      { now apply subseq_snoc_skip. }
      split; [exact Hsub|]. split; [exact Hhd|exact Hlast].
Qed.

(** X4. compressPath, whatever the arithmetic of the directions gives,
    returns points of its input in the order of the input, the first and
    the last among them; a path of fewer than three points is returned
    as it is. *)
Theorem compressPath_subsequence (path : list coord) (d : coord) :
  subseq (compressPath path) path
  /\ hd_error (compressPath path) = hd_error path
  /\ last (compressPath path) d = last path d
  /\ ((length path < 3)%nat -> compressPath path = path).
Proof.
  destruct path as [|s [|p [|q rest]]];
    try (simpl; repeat split; auto using subseq_refl; fail).
  unfold compressPath.
  destruct (compress_loop_shape (q :: rest) p
              (normalize (fst p - fst s) (snd p - snd s)) (subseq_refl [s]))
    as (Hsub & Hhd & Hlast).
  split; [exact Hsub|]. split; [now apply Hhd|].
  split; [rewrite Hlast; reflexivity|].
  simpl. lia.
Qed.
End CompressShape.

(** *** smoothenPath *)

Section SmoothenShape.
Context `{JsNumber}.
Variable gr : Grid.

Lemma smoothen_loop_subseq (rest : list coord) :
  forall s prev np,
    exists m,
      smoothen_loop gr s prev rest np = Ok (np ++ m)
      /\ subseq m (removelast (prev :: rest)).
Proof.
  induction rest as [|c rest IH]; intros s prev np.
  - exists []. simpl. rewrite app_nil_r. split; [reflexivity|constructor].
  - destruct (interpolate_total s c) as [l Hl].
    cbn [smoothen_loop]. rewrite Hl. cbn [bind].
    change (removelast (prev :: c :: rest)) with (prev :: removelast (c :: rest)).
    destruct (line_blocked gr (s :: l)).
    + destruct (IH prev c (np ++ [prev])) as (m & Hrun & Hsub).
      exists (prev :: m). rewrite Hrun, <- app_assoc. split; [reflexivity|].
      now apply subseq_keep.
    + destruct (IH s c np) as (m & Hrun & Hsub).
      exists m. split; [exact Hrun|]. now apply subseq_skip.
Qed.

(** X5. smoothenPath throws on the empty path, whose first point it
    reads, and returns a path of one point doubled.  Of a path of two
    points or more it returns points of the input in the order of the
    input, at least two of them. *)
Theorem smoothenPath_subsequence (path : list coord) :
  match path with
  | [] => smoothenPath gr path = Throw TypeError
  | [p] => smoothenPath gr path = Ok [p; p]
  | _ => exists out, smoothenPath gr path = Ok out /\ subseq out path
                     /\ (2 <= length out <= length path)%nat
  end.
Proof.
  destruct path as [|p0 [|p1 rest]]; [reflexivity | reflexivity|].
  unfold smoothenPath.
  destruct (smoothen_loop_subseq rest p0 p1 [p0]) as (m & Hrun & Hsub).
  rewrite Hrun. cbn [bind].
  exists (([p0] ++ m) ++ [last (p0 :: p1 :: rest) p0]).
  split; [reflexivity|].
  assert (Hs : subseq (([p0] ++ m) ++ [last (p0 :: p1 :: rest) p0]) (p0 :: p1 :: rest)).
  { change (last (p0 :: p1 :: rest) p0) with (last (p1 :: rest) p0).
    rewrite (app_removelast_last p0 (l := p1 :: rest)) at 2 by discriminate.
    cbn [app]. apply subseq_keep. apply subseq_app; [assumption | apply subseq_refl]. }
  split; [exact Hs|]. split; [|exact (subseq_length Hs)].
  rewrite length_app. simpl. lia.
Qed.

(** On a grid all of whose cells are walkable no line is blocked. *)
Lemma smoothen_loop_open (rest : list coord) :
  (forall c, isInside gr c = true -> isWalkableAt gr c = true) ->
  forall s prev np,
    isInside gr s = true -> Forall (fun c => isInside gr c = true) rest ->
    smoothen_loop gr s prev rest np = Ok np.
Proof.
  intros Hopen. induction rest as [|c rest IH]; intros s prev np Hs Hrest; [reflexivity|].
  inversion Hrest as [|? ? Hc Hrest']; subst.
  destruct (interpolate_shape s c) as (l & Hrun & _ & _ & _ & Hbox).
  cbn [smoothen_loop]. rewrite Hrun. cbn [bind].
  assert (Hclear : line_blocked gr (s :: l) = false).
  { unfold line_blocked. cbn [tl]. apply not_true_is_false. intros Hex.
    apply existsb_exists in Hex. destruct Hex as (t & Ht & Hw).
    apply negb_true_iff in Hw.
    assert (Hin : in_box s c t).
    { inversion Hbox as [|? ? _ Hl]; subst.
      rewrite Forall_forall in Hl. now apply Hl. }
    rewrite Hopen in Hw; [discriminate|].
    unfold isInside in *. destruct Hin as [Hx Hy].
    apply andb_true_iff in Hs, Hc. destruct Hs as [Hs Hs4], Hc as [Hc Hc4].
    apply andb_true_iff in Hs, Hc. destruct Hs as [Hs Hs3], Hc as [Hc Hc3].
    apply andb_true_iff in Hs, Hc. destruct Hs as [Hs1 Hs2], Hc as [Hc1 Hc2].
    apply Z.leb_le in Hs1, Hs3, Hc1, Hc3. apply Z.ltb_lt in Hs2, Hs4, Hc2, Hc4.
    repeat (apply andb_true_iff; split);
      try (apply Z.leb_le; lia); apply Z.ltb_lt; lia. }
  rewrite Hclear. now apply IH.
Qed.

(** X6. On a grid without obstacles smoothenPath reduces every path
    whose points lie inside the grid to its first and its last point. *)
Theorem smoothenPath_open_grid (path : list coord) (d : coord) :
  (forall c, isInside gr c = true -> isWalkableAt gr c = true) ->
  Forall (fun c => isInside gr c = true) path ->
  path <> [] ->
  smoothenPath gr path = Ok [hd d path; last path d].
Proof.
  intros Hopen Hin Hne. destruct path as [|p0 [|p1 rest]]; [congruence|reflexivity|].
  inversion Hin as [|? ? Hp0 Ht]; subst. inversion Ht as [|? ? Hp1 Hrest]; subst.
  unfold smoothenPath. rewrite (smoothen_loop_open Hopen); auto. cbn [bind app hd].
  do 3 f_equal. exact (last_cons_default p0 (p1 :: rest) p0 d).
Qed.
End SmoothenShape.

Lemma smoothenPath_open_grid_witness :
  smoothenPath (new_Grid (H := FloatNumber) 4 4 [])
               [(0, 0); (1, 0); (1, 1); (2, 1); (2, 2); (3, 2)]
  = Ok [(0, 0); (3, 2)].
Proof.
  apply (@smoothenPath_open_grid FloatNumber (new_Grid 4 4 [])
           [(0, 0); (1, 0); (1, 1); (2, 1); (2, 2); (3, 2)] (0, 0)).
  - intros c Hc. unfold isWalkableAt. rewrite Hc. reflexivity.
  - repeat constructor.
  - discriminate.
Defined.

(** *** biBacktrace *)

(** X7. When the parent references lead from [nodeA] to a root in [dA]
    links and from [nodeB] to a root in [dB] links, biBacktrace returns
    the path from the root of [nodeA] to [nodeA] followed by the path
    from [nodeB] to its root: the two nodes are adjacent in the middle,
    and towards either end each point has the next one as its parent. *)
Theorem biBacktrace_joins `{JsNumber} (s : Store) (nodeA rootA nodeB rootB : coord)
        (dA dB fuel : nat) :
  chain s nodeA rootA dA -> chain s nodeB rootB dB ->
  (dA <= fuel)%nat -> (dB <= fuel)%nat ->
  exists pa pb,
    biBacktrace s fuel nodeA nodeB = Ok (pa ++ pb)
    /\ length pa = S dA /\ length pb = S dB
    /\ hd_error pa = Some rootA /\ last pa rootA = nodeA
    /\ hd_error pb = Some nodeB /\ last pb nodeB = rootB
    /\ parent_linked s (rev pa) /\ parent_linked s pb.
Proof.
  intros HA HB HfA HfB.
  destruct (backtrace_loop_chain HA [nodeA] HfA) as (ta & HrunA & HlenA & HlastA & HlinkA).
  destruct (backtrace_loop_chain HB [nodeB] HfB) as (tb & HrunB & HlenB & HlastB & HlinkB).
  exists (rev (nodeA :: ta)), (nodeB :: tb).
  unfold biBacktrace, backtrace. rewrite HrunA, HrunB. cbn [bind app].
  rewrite rev_involutive.
  split; [reflexivity|]. split; [rewrite length_rev; simpl; lia|].
  split; [simpl; lia|].
  split; [rewrite hd_error_rev_last with (d := nodeA) by discriminate; congruence|].
  split; [apply last_rev_hd|].
  split; [reflexivity|]. split; [assumption|].
  rewrite rev_involutive. split; assumption.
Qed.

Lemma biBacktrace_joins_witness :
  exists pa pb,
    biBacktrace chain_store 2 (2, 0) (1, 0) = Ok (pa ++ pb)
    /\ length pa = 3%nat /\ length pb = 2%nat
    /\ hd_error pa = Some (0, 0) /\ last pa (0, 0) = (2, 0)
    /\ hd_error pb = Some (1, 0) /\ last pb (1, 0) = (0, 0)
    /\ parent_linked chain_store (rev pa) /\ parent_linked chain_store pb.
Proof.
  apply (@biBacktrace_joins FloatNumber chain_store (2, 0) (0, 0) (1, 0) (0, 0) 2 1 2).
  - apply chain_step with (p := (1, 0)); [reflexivity|].
    apply chain_step with (p := (0, 0)); [reflexivity|].
    apply chain_root. reflexivity.
  - apply chain_step with (p := (0, 0)); [reflexivity|].
    apply chain_root. reflexivity.
  - lia.
  - lia.
Defined.

(** *** bestPath *)

Section BestFirst.
Context `{ExactArith}.

Local Abbreviation cf := (fun c : Candidate => toNumber (cand_f c)).

Lemma nlt_nle_trans (a b c : num) :
  finite a -> finite b -> finite c ->
  nlt a b = true -> nle b c -> nlt a c = true.
Proof.
  intros Ha Hb Hc Hab Hbc. destruct (nlt a c) eqn:Hac; [reflexivity|].
  assert (Hba : nle b a) by (apply nle_trans with (b := c); assumption).
  unfold nle in Hba. congruence.
Qed.

Lemma bestPath_loop_first (rest : list Candidate) :
  forall best l1 l2,
    (forall c, In c (l1 ++ best :: l2 ++ rest) -> finite (cf c)) ->
    (forall c, In c l1 -> nlt (cf best) (cf c) = true) ->
    (forall c, In c l2 -> nle (cf best) (cf c)) ->
    exists l1' l2',
      l1 ++ best :: l2 ++ rest = l1' ++ bestPath_loop best rest :: l2'
      /\ (forall c, In c l1' -> nlt (cf (bestPath_loop best rest)) (cf c) = true)
      /\ (forall c, In c l2' -> nle (cf (bestPath_loop best rest)) (cf c)).
Proof.
  induction rest as [|p rest IH]; intros best l1 l2 Hfin H1 H2.
  - exists l1, l2. rewrite app_nil_r. auto.
  - cbn [bestPath_loop].
    assert (Hfb : finite (cf best)) by (apply Hfin, in_or_app; right; now left).
    assert (Hfp : finite (cf p)).
    { apply Hfin, in_or_app. right. right. apply in_or_app. right. now left. }
    assert (Hf1 : forall c, In c l1 -> finite (cf c))
      by (intros c Hc; apply Hfin, in_or_app; now left).
    assert (Hf2 : forall c, In c l2 -> finite (cf c)).
    { intros c Hc. apply Hfin, in_or_app. right. right. apply in_or_app. now left. }
    destruct (nlt (cf p) (cf best)) eqn:Hlt.
    + destruct (IH p (l1 ++ best :: l2) []) as (l1' & l2' & Heq & H1' & H2').
      * intros c Hc. apply Hfin. rewrite <- app_assoc in Hc. exact Hc.
      * intros c Hc. apply in_app_or in Hc. destruct Hc as [Hc|[<-|Hc]].
        -- apply nlt_nle_trans with (b := cf best); auto.
           apply nlt_nle; auto.
        -- exact Hlt.
        -- apply nlt_nle_trans with (b := cf best); auto.
      * intros c [].
      * exists l1', l2'. rewrite <- Heq. rewrite <- app_assoc. auto.
    + destruct (IH best l1 (l2 ++ [p])) as (l1' & l2' & Heq & H1' & H2').
      * intros c Hc. apply Hfin. rewrite <- app_assoc in Hc. exact Hc.
      * exact H1.
      * intros c Hc. apply in_app_or in Hc. destruct Hc as [Hc|[<-|[]]]; [auto|exact Hlt].
      * exists l1', l2'. rewrite <- Heq. rewrite <- app_assoc. auto.
Qed.

(** X8. bestPath returns the first of the candidates whose f is the
    lowest: the candidates before it have a higher f, the candidates
    after it an f that is not lower. *)
Theorem bestPath_first_lowest (paths : list Candidate) :
  paths <> [] ->
  (forall c, In c paths -> finite (cf c)) ->
  exists b l1 l2,
    bestPath paths = Some b
    /\ paths = l1 ++ b :: l2
    /\ (forall c, In c l1 -> nlt (cf b) (cf c) = true)
    /\ (forall c, In c l2 -> nle (cf b) (cf c)).
Proof.
  intros Hne Hfin. destruct paths as [|p rest]; [congruence|].
  pose proof (bestPath_loop_first rest) as Hl. specialize (Hl p [] []).
  destruct Hl as (l1 & l2 & Heq & H1 & H2);
    [exact Hfin | intros c [] | intros c [] |].
  exists (bestPath_loop p rest), l1, l2. auto.
Qed.
End BestFirst.

(** Three end nodes with f = 3, 2 and 2. *)
Definition end_with_f (v : Z) : Candidate (H := RationalNumber) :=
  (fun _ => set_f (Some (of_Z v)) (fresh_node true), (0, 0)).

Lemma bestPath_first_lowest_witness :
  exists b l1 l2,
    bestPath [end_with_f 3; end_with_f 2; end_with_f 2] = Some b
    /\ [end_with_f 3; end_with_f 2; end_with_f 2] = l1 ++ b :: l2
    /\ (forall c, In c l1 ->
                  nlt (JsNumber := RationalNumber) (toNumber (cand_f b)) (toNumber (cand_f c))
                  = true)
    /\ (forall c, In c l2 ->
                  nle (H := RationalNumber) (toNumber (cand_f b)) (toNumber (cand_f c))).
Proof.
  apply (@bestPath_first_lowest RationalNumber RationalExact
           [end_with_f 3; end_with_f 2; end_with_f 2]).
  - discriminate.
  - intros c [<-|[<-|[<-|[]]]]; exact I.
Defined.

(* ===================================================================== *)
(** ** The search, whatever the costs: the parent references form a tree *)
(* ===================================================================== *)

(** What follows does not look at g, h or f: it holds for every
    arithmetic, rounding and NaN included, and for every setting of the
    finder. *)

Section Links.
Context `{JsNumber}.
Variable gn : Grid -> coord -> DiagonalMovement -> list coord.
Hypothesis gn_ok : neighbour_service gn.
Variable dm : DiagonalMovement.
Variables start endc : coord.
Variable gb : Grid.

(** [p] is the path from the start to [c] that the parent references
    describe; all its points but the last are closed. *)
Definition link_path (s : Store) (T : list coord) (c : coord) (p : list coord) : Prop :=
  joins start c p
  /\ parent_linked s (rev p)
  /\ valid_path gn gb dm p
  /\ NoDup p
  /\ (forall x, In x p -> In x T)
  /\ (forall x, In x (removelast p) -> closed (s x) = true).

(** The invariant of the search: [T] lists the nodes touched so far,
    [pending] is the closed node whose neighbours are being relaxed. *)
Record WInv (s : Store) (open T : list coord) (pending : option coord) : Prop := {
  w_start : parent (s start) = None /\ In start T /\ closed (s start) = true;
  w_nodes : forall c, In c T ->
            isInside gb c = true /\ opened (s c) = true /\ exists p, link_path s T c p;
  w_fresh : forall c, ~ In c T -> isWalkableAt gb c = true ->
            opened (s c) = false /\ closed (s c) = false;
  w_open : NoDup open /\ forall c, In c open <-> (In c T /\ closed (s c) = false);
  w_nb : forall u n, In u T -> closed (s u) = true -> Some u <> pending ->
         In n (gn gb u dm) -> In n T;
  w_end : In endc T -> closed (s endc) = false;
  w_dir : forall c, encoded_direction (direction (s c)) = false;
  w_walk : forall c, walkable (s c) = walkable (nodes gb c)
}.

Lemma link_path_frame (s s' : Store) (T T' : list coord) (c : coord) (p : list coord) :
  link_path s T c p ->
  (forall x, In x p -> parent (s' x) = parent (s x)) ->
  (forall x, In x (removelast p) -> closed (s x) = true -> closed (s' x) = true) ->
  incl T T' ->
  link_path s' T' c p.
Proof.
  intros (Hj & Hl & Hv & Hnd & HT & Hcl) Hpar Hclosed Hincl.
  split; [assumption|]. split.
  - apply parent_linked_frame with (s := s); [|assumption].
    intros x Hx. apply Hpar. now apply in_rev.
  - split; [assumption|]. split; [assumption|]. split; auto.
Qed.

Lemma link_path_closed (s : Store) T c p x :
  link_path s T c p -> In x p -> x <> c -> closed (s x) = true.
Proof.
  intros (Hj & _ & _ & _ & _ & Hcl) Hx Hne. apply Hcl.
  destruct Hj as [Hhd Hlast].
  destruct p as [|a p]; [contradiction|].
  destruct (exists_last (l := a :: p)) as (l' & z & Hp); [discriminate|].
  rewrite Hp in *. rewrite removelast_last.
  rewrite last_last in Hlast. subst z.
  apply in_app_or in Hx. destruct Hx as [Hx|[Hx|[]]]; [assumption|congruence].
Qed.

Lemma valid_path_snoc' (p : list coord) (a u n : coord) :
  valid_path gn gb dm (a :: p) ->
  last (a :: p) a = u -> In n (gn gb u dm) ->
  valid_path gn gb dm ((a :: p) ++ [n]).
Proof.
  revert a. induction p as [|b p IH]; intros a Hv Hlast Hn.
  - simpl in *. subst. auto.
  - destruct Hv as [Hab Hv]. split; [assumption|].
    apply IH; auto. rewrite <- Hlast. exact (last_cons_default b p b a).
Qed.

(** Extending the path of the expanded node [u] by a neighbour. *)
Lemma link_path_extend (s s' : Store) (T T' : list coord) (u n : coord) (p : list coord) :
  link_path s T u p ->
  closed (s u) = true -> closed (s n) = false ->
  In n (gn gb u dm) ->
  (forall x, x <> n -> parent (s' x) = parent (s x)) ->
  (forall x, closed (s' x) = closed (s x)) ->
  parent (s' n) = Some u ->
  incl T T' -> In n T' ->
  link_path s' T' n (p ++ [n]).
Proof.
  intros Hp Hcu Hcn Hnb Hother Hclosed Hpar Hincl HnT.
  assert (Hnp : ~ In n p).
  { intros Hin. destruct (coord_eqb_spec n u) as [->|Hne]; [congruence|].
    rewrite (link_path_closed Hp Hin Hne) in Hcn. discriminate. }
  assert (Hall : forall x, In x p -> closed (s x) = true).
  { intros x Hx. destruct (coord_eqb_spec x u) as [->|Hne]; [assumption|].
    exact (link_path_closed Hp Hx Hne). }
  destruct Hp as ((Hhd & Hlast) & Hl & Hv & Hnd & HT & Hcl).
  destruct p as [|a p]; [discriminate|].
  assert (Ha : a = start) by (simpl in Hhd; congruence).
  rewrite <- Ha in Hlast.
  assert (Hsame : forall x, In x (a :: p) -> parent (s' x) = parent (s x)).
  { intros x Hx. apply Hother. intros ->. contradiction. }
  split; [split; [assumption | now rewrite last_last]|].
  split.
  { rewrite rev_app_distr.
    change (rev [n] ++ rev (a :: p)) with (n :: rev (a :: p)).
    assert (Hrev : exists l, rev (a :: p) = u :: l).
    { destruct (rev (a :: p)) as [|z l] eqn:Hr.
      - apply (f_equal (@length _)) in Hr. rewrite length_rev in Hr. discriminate.
      - exists l. f_equal.
        rewrite <- Hlast, <- (rev_involutive (a :: p)), Hr. simpl. now rewrite last_last. }
    destruct Hrev as [l Hr]. rewrite Hr. split; [assumption|]. rewrite <- Hr.
    apply parent_linked_frame with (s := s); [|assumption].
    intros x Hx. apply Hsame. now apply in_rev. }
  split; [now apply valid_path_snoc' with (u := u)|].
  split.
  { apply NoDup_app; [assumption | repeat constructor; auto | ].
    intros x Hx [<-|[]]. contradiction. }
  split.
  - intros x Hx. apply in_app_or in Hx. destruct Hx as [Hx|[<-|[]]]; auto.
  - intros x Hx. rewrite removelast_last in Hx. rewrite Hclosed. auto.
Qed.

(** A touched node is recognised by its flags. *)
Lemma touched_by_flag (s : Store) open T pending (c : coord) :
  WInv s open T pending -> isWalkableAt gb c = true ->
  opened (s c) = true \/ closed (s c) = true -> In c T.
Proof.
  intros HI Hw Hflag. destruct (in_dec coord_eq_dec c T) as [Hin|Hnin]; [assumption|].
  destruct (w_fresh HI c Hnin Hw) as (Ho & Hc).
  destruct Hflag; congruence.
Qed.

(** A store that agrees on the references and the flags. *)
Lemma WInv_kept (s s' : Store) (open T : list coord) (pending : option coord) :
  WInv s open T pending ->
  (forall x, parent (s' x) = parent (s x) /\ opened (s' x) = opened (s x)
             /\ closed (s' x) = closed (s x) /\ walkable (s' x) = walkable (s x)
             /\ direction (s' x) = direction (s x)) ->
  WInv s' open T pending.
Proof.
  intros HI Hsame.
  assert (Hp : forall x, parent (s' x) = parent (s x)) by (intros x; apply Hsame).
  assert (Ho : forall x, opened (s' x) = opened (s x)) by (intros x; apply Hsame).
  assert (Hc : forall x, closed (s' x) = closed (s x)) by (intros x; apply Hsame).
  split.
  - rewrite Hp, Hc. apply (w_start HI).
  - intros c HcT. destruct (w_nodes HI c HcT) as (Hin & Hop & (p & Hpath)).
    split; [assumption|]. split; [now rewrite Ho|]. exists p.
    apply link_path_frame with (s := s) (T := T); auto using incl_refl.
    intros x _ Hx. now rewrite Hc.
  - intros c HcT Hw. rewrite Ho, Hc. now apply (w_fresh HI).
  - destruct (w_open HI) as [Hnd Hopen]. split; [assumption|].
    intros c. rewrite Hc. apply Hopen.
  - intros u n Hu Hcu. rewrite Hc in Hcu. now apply (w_nb HI).
  - intros He. rewrite Hc. now apply (w_end HI).
  - intros c. destruct (Hsame c) as (_ & _ & _ & _ & ->). apply (w_dir HI).
  - intros c. destruct (Hsame c) as (_ & _ & _ & -> & _). apply (w_walk HI).
Qed.

(** The effect of writing the relaxed node [n], a neighbour of the
    expanded node [u], for the first time ([fresh]) or again. *)
Lemma WInv_relaxed (s s' : Store) (open T : list coord) (u n : coord) (fresh : bool) :
  WInv s open T (Some u) ->
  In u T -> closed (s u) = true ->
  In n (gn gb u dm) -> closed (s n) = false ->
  (forall x, closed (s' x) = closed (s x) /\ walkable (s' x) = walkable (s x)
             /\ direction (s' x) = direction (s x)) ->
  (forall x, x <> n -> parent (s' x) = parent (s x) /\ opened (s' x) = opened (s x)) ->
  opened (s' n) = true -> parent (s' n) = Some u ->
  (if fresh then ~ In n T else In n T) ->
  WInv s' (if fresh then open ++ [n] else open) (if fresh then T ++ [n] else T) (Some u).
Proof.
  intros HI HuT Hcu Hnb Hcn Hflags Hother Hon' Hpar Hfresh.
  set (T' := if fresh then T ++ [n] else T).
  assert (Hincl : incl T T').
  { subst T'. destruct fresh; [apply incl_appl|]; apply incl_refl. }
  assert (HnT' : In n T').
  { subst T'. destruct fresh; [apply in_or_app; right; now left | tauto]. }
  assert (HT' : forall c, In c T' -> c <> n -> In c T).
  { subst T'. destruct fresh; [|auto]. intros c Hc Hne.
    apply in_app_or in Hc. destruct Hc as [Hc|[Hc|[]]]; [assumption|congruence]. }
  assert (Hclosed : forall c, closed (s' c) = closed (s c)) by (intros c; apply Hflags).
  assert (Hpo : forall x, x <> n -> parent (s' x) = parent (s x))
    by (intros x Hx; now apply Hother).
  assert (Hw := gn_walkable gn_ok _ _ _ _ Hnb).
  destruct (w_nodes HI u HuT) as (_ & _ & (pu & Hpu)).
  assert (Hun : u <> n) by congruence.
  destruct (w_start HI) as (Hsp & HsT & Hsc).
  assert (Hsn : start <> n) by congruence.
  split.
  - rewrite (Hpo start Hsn), Hclosed. auto.
  - intros c Hc. destruct (coord_eq_dec c n) as [->|Hne].
    + split; [now apply isWalkableAt_inside|]. split; [assumption|].
      exists (pu ++ [n]). eapply link_path_extend; eauto.
    + destruct (w_nodes HI c (HT' c Hc Hne)) as (Hin & Hop & (p & Hp)).
      split; [assumption|]. split; [now rewrite (proj2 (Hother c Hne))|].
      exists p. apply link_path_frame with (s := s) (T := T); auto.
      * intros x Hx. apply Hpo. intros ->.
        rewrite (link_path_closed Hp Hx) in Hcn; congruence.
      * intros x _ Hx. now rewrite Hclosed.
  - intros c Hc Hwc.
    assert (Hne : c <> n) by congruence.
    rewrite (proj2 (Hother c Hne)), Hclosed. apply (w_fresh HI); [|assumption].
    intros Hin. apply Hc. now apply Hincl.
  - destruct (w_open HI) as [Hnd Hopen]. split.
    + destruct fresh; [|assumption].
      apply NoDup_app; [assumption | repeat constructor; auto | ].
      intros x Hx [<-|[]]. apply Hopen in Hx. tauto.
    + intros c. rewrite Hclosed. subst T'. destruct fresh; [|apply Hopen].
      rewrite !in_app_iff, Hopen. simpl. intuition; subst; auto.
  - intros u' m Hu' Hcu' Hpend Hm. rewrite Hclosed in Hcu'.
    assert (Hne : u' <> n) by congruence.
    apply Hincl. exact (w_nb HI m (HT' u' Hu' Hne) Hcu' Hpend Hm).
  - intros He. rewrite Hclosed. destruct (coord_eq_dec endc n) as [->|Hne]; [assumption|].
    apply (w_end HI). now apply HT'.
  - intros c. destruct (Hflags c) as (_ & _ & ->). apply (w_dir HI).
  - intros c. destruct (Hflags c) as (_ & -> & _). apply (w_walk HI).
Qed.
End Links.

(** *** One neighbour, all neighbours, the next node *)

Section LinkSteps.
Context `{JsNumber}.
Variable gn : Grid -> coord -> DiagonalMovement -> list coord.
Hypothesis gn_ok : neighbour_service gn.
Variable dm : DiagonalMovement.
Variables start endc : coord.
Variable gb : Grid.

Local Abbreviation Linked := (WInv gn dm start endc gb).

(** What a turn of the loop over the neighbours of [u] does to the
    references and the flags when it looks at [n]: the closed flags, the
    walkability and the directions stay, so do the references and the
    opened flags of the other nodes, and [n] is either left alone, being
    closed or opened already, or, not being closed, gets [u] as its
    parent, and is queued if it was not opened. *)
Definition relaxed_to (u n : coord) (s : Store) (open : list coord)
           (s' : Store) (open' : list coord) : Prop :=
  (forall x, closed (s' x) = closed (s x) /\ walkable (s' x) = walkable (s x)
             /\ direction (s' x) = direction (s x))
  /\ (forall x, x <> n -> parent (s' x) = parent (s x) /\ opened (s' x) = opened (s x))
  /\ ((parent (s' n) = parent (s n) /\ opened (s' n) = opened (s n) /\ open' = open
       /\ (closed (s n) = true \/ opened (s n) = true))
      \/ (closed (s n) = false /\ parent (s' n) = Some u /\ opened (s' n) = true
          /\ ((opened (s n) = true /\ open' = open)
              \/ (opened (s n) = false /\ open' = open ++ [n])))).

Lemma WInv_step (s s' : Store) (open open' T : list coord) (u n : coord) :
  Linked s open T (Some u) -> In u T -> closed (s u) = true ->
  In n (gn gb u dm) ->
  relaxed_to u n s open s' open' ->
  exists l, open' = open ++ l /\ Linked s' open' (T ++ l) (Some u) /\ In n (T ++ l).
Proof.
  intros HI HuT Hcu Hnb (Hflags & Hother & Hcase).
  assert (Hw := gn_walkable gn_ok _ _ _ _ Hnb).
  destruct Hcase as [(Hp & Ho & -> & Hflag) | (Hcn & Hp & Ho & Hq)].
  - exists []. rewrite !app_nil_r. split; [reflexivity|]. split.
    + apply WInv_kept with (s := s); [assumption|]. intros x.
      destruct (Hflags x) as (Hc & Hwk & Hd).
      destruct (coord_eq_dec x n) as [->|Hne]; [auto|].
      destruct (Hother x Hne). auto.
    + eapply touched_by_flag; [exact HI | exact Hw | tauto].
  - destruct Hq as [[Hon ->] | [Hon ->]].
    + exists []. rewrite !app_nil_r. split; [reflexivity|].
      assert (HnT : In n T) by (eapply touched_by_flag; [exact HI | exact Hw | tauto]).
      split; [|assumption].
      exact (WInv_relaxed gn_ok s' false HI HuT Hcu Hnb Hcn Hflags Hother Ho Hp HnT).
    + exists [n]. split; [reflexivity|].
      assert (HnT : ~ In n T).
      { intros Hin. destruct (w_nodes HI n Hin) as (_ & Hop & _). congruence. }
      split; [|apply in_or_app; right; now left].
      exact (WInv_relaxed gn_ok s' true HI HuT Hcu Hnb Hcn Hflags Hother Ho Hp HnT).
Qed.

(** The loop over the neighbours, for any state of that loop that holds
    a store and an open list and whose turns are of the kind above. *)
Section Fold.
Variable St : Type.
Variable nodes_of : St -> Store.
Variable open_of : St -> list coord.
Variable step : St -> coord -> St.
Variable u : coord.
Hypothesis step_ok :
  forall st n, relaxed_to u n (nodes_of st) (open_of st)
                          (nodes_of (step st n)) (open_of (step st n)).

Lemma WInv_fold (l : list coord) :
  forall st T,
    Linked (nodes_of st) (open_of st) T (Some u) ->
    In u T -> closed (nodes_of st u) = true ->
    (forall n, In n l -> In n (gn gb u dm)) ->
    exists l',
      open_of (fold_left step l st) = open_of st ++ l'
      /\ Linked (nodes_of (fold_left step l st)) (open_of (fold_left step l st))
                (T ++ l') (Some u)
      /\ (forall n, In n l -> In n (T ++ l'))
      /\ forall c, closed (nodes_of (fold_left step l st) c) = closed (nodes_of st c).
Proof.
  induction l as [|n l IH]; intros st T HI HuT Hcu Hl.
  - exists []. rewrite !app_nil_r. cbn [fold_left].
    split; [reflexivity|]. split; [exact HI|]. split; [intros n []|reflexivity].
  - cbn [fold_left].
    assert (Hstep := step_ok st n).
    destruct (WInv_step HI HuT Hcu (Hl n (or_introl eq_refl)) Hstep)
      as (l1 & Hopen1 & HI1 & Hn1).
    destruct Hstep as (Hflags & _).
    destruct (IH (step st n) (T ++ l1)) as (l2 & Hopen2 & HI2 & Hin2 & Hcl2).
    + rewrite Hopen1 in HI1. rewrite Hopen1. exact HI1.
    + apply in_or_app. now left.
    + destruct (Hflags u) as (-> & _). exact Hcu.
    + intros m Hm. apply Hl. now right.
    + exists (l1 ++ l2). rewrite Hopen2, Hopen1, !app_assoc.
      split; [reflexivity|]. rewrite Hopen2, Hopen1, <- !app_assoc in HI2.
      rewrite <- !app_assoc. split; [exact HI2|]. split.
      * intros m [<-|Hm].
        -- rewrite app_assoc. apply in_or_app. now left.
        -- rewrite app_assoc. now apply Hin2.
      * intros c. rewrite Hcl2. apply Hflags.
Qed.
End Fold.

Lemma WInv_clear_pending (s : Store) (open T : list coord) (u : coord) :
  Linked s open T (Some u) ->
  (forall n, In n (gn gb u dm) -> In n T) ->
  Linked s open T None.
Proof.
  intros HI Hnb. split; try apply HI.
  intros u' n Hu' Hcu' _ Hn.
  destruct (coord_eq_dec u' u) as [->|Hne]; [now apply Hnb|].
  apply (w_nb HI n Hu' Hcu'); [congruence|assumption].
Qed.

(** Closing the node the open list yields. *)
Lemma WInv_close (s : Store) (open open' T : list coord) (u : coord) :
  Linked s open T None ->
  In u open ->
  NoDup open' -> (forall c, In c open' <-> In c open /\ c <> u) ->
  u <> endc ->
  Linked (modify s u (set_closed true)) open' T (Some u).
Proof.
  intros HI Hu Hnd Hopen' Hue.
  set (s1 := modify s u (set_closed true)).
  assert (Hf : forall c,
             parent (s1 c) = parent (s c) /\ g (s1 c) = g (s c) /\ h (s1 c) = h (s c)
             /\ f (s1 c) = f (s c) /\ opened (s1 c) = opened (s c)
             /\ direction (s1 c) = direction (s c) /\ walkable (s1 c) = walkable (s c)
             /\ closed (s1 c) = (if coord_eq_dec u c then true else closed (s c)))
    by (intros c; apply close_fields).
  assert (Hcl : forall c, closed (s c) = true -> closed (s1 c) = true).
  { intros c Hc. destruct (Hf c) as (_ & _ & _ & _ & _ & _ & _ & ->).
    now destruct (coord_eq_dec u c). }
  assert (HuT : In u T /\ closed (s u) = false) by (now apply (w_open HI)).
  split.
  - destruct (w_start HI) as (Hp & HT & Hc).
    destruct (Hf start) as (-> & _). auto.
  - intros c Hc. destruct (w_nodes HI c Hc) as (Hin & Hop & (p & Hp)).
    destruct (Hf c) as (_ & _ & _ & _ & Hopn & _).
    split; [assumption|]. split; [congruence|].
    exists p. apply link_path_frame with (s := s) (T := T); auto using incl_refl.
    intros x _. apply Hf.
  - intros c Hc Hw. destruct (w_fresh HI c Hc Hw) as (Ho & Hcc).
    destruct (Hf c) as (_ & _ & _ & _ & Ho' & _ & _ & Hc').
    split; [congruence|].
    rewrite Hc'. destruct (coord_eq_dec u c) as [->|]; [|assumption].
    now elim Hc.
  - split; [assumption|]. intros c. rewrite Hopen'.
    destruct (w_open HI) as [_ Hio]. rewrite Hio.
    destruct (Hf c) as (_ & _ & _ & _ & _ & _ & _ & Hc').
    rewrite Hc'. destruct (coord_eq_dec u c) as [->|Hne].
    + split; [intros [_ Hn]; now elim Hn | intros [_ Hn]; discriminate].
    + intuition congruence.
  - intros a n Ha Hca Hpend Hn.
    assert (Hau : a <> u) by congruence.
    apply (w_nb HI n Ha); auto; [|discriminate].
    destruct (Hf a) as (_ & _ & _ & _ & _ & _ & _ & Hc'). rewrite Hc' in Hca.
    destruct (coord_eq_dec u a); congruence.
  - intros He. destruct (Hf endc) as (_ & _ & _ & _ & _ & _ & _ & ->).
    destruct (coord_eq_dec u endc); [contradiction|]. now apply (w_end HI).
  - intros c. destruct (Hf c) as (_ & _ & _ & _ & _ & -> & _). apply (w_dir HI).
  - intros c. destruct (Hf c) as (_ & _ & _ & _ & _ & _ & -> & _). apply (w_walk HI).
Qed.

(** The start node popped and closed, on a grid whose other walkable
    cells carry no flag of a search. *)
Lemma WInv_first (s : Store) :
  start <> endc ->
  isInside gb start = true ->
  parent (s start) = None -> opened (s start) = true -> closed (s start) = true ->
  (forall c, c <> start -> isWalkableAt gb c = true ->
             opened (s c) = false /\ closed (s c) = false) ->
  (forall c, encoded_direction (direction (s c)) = false) ->
  (forall c, walkable (s c) = walkable (nodes gb c)) ->
  Linked s [] [start] (Some start).
Proof.
  intros Hse Hin Hp Ho Hc Hfresh Hdir Hwalk. split.
  - repeat split; auto. now left.
  - intros c [<-|[]]. split; [assumption|]. split; [assumption|].
    exists [start]. repeat split; simpl; auto; try (intros x []).
    constructor; [intros []|constructor].
  - intros c Hc' Hw. apply Hfresh; [|assumption]. intros ->. apply Hc'. now left.
  - split; [constructor|]. intros c. split; [intros []|].
    intros [[<-|[]] Hcc]. congruence.
  - intros u n [<-|[]] _ Hneq. now elim Hneq.
  - intros [He|[]]. contradiction.
  - assumption.
  - assumption.
Qed.

(** With an empty open list the end node cannot be reached. *)
Lemma WInv_exhausted (s : Store) (T : list coord) (q : list coord) :
  Linked s [] T None ->
  valid_path gn gb dm q -> joins start endc q -> False.
Proof.
  intros HI Hq [Hhd Hlast].
  assert (Hclosed : forall c, In c T -> closed (s c) = true).
  { intros c Hc. destruct (closed (s c)) eqn:Hcc; [reflexivity|].
    destruct (w_open HI) as [_ Hio]. destruct (proj2 (Hio c) (conj Hc Hcc)). }
  assert (Hwalk : forall p v, valid_path gn gb dm (v :: p) -> In v T ->
                              In (last (v :: p) v) T).
  { induction p as [|w p IH]; intros v Hv HvT; [assumption|].
    destruct Hv as [Hvw Hv].
    change (last (v :: w :: p) v) with (last (w :: p) v).
    rewrite (last_cons_default w p v w). apply IH; [assumption|].
    apply (w_nb HI w HvT); auto. discriminate. }
  destruct q as [|a p]; [discriminate|].
  assert (Ha : a = start) by (simpl in Hhd; congruence). subst a.
  destruct (w_start HI) as (_ & HsT & _).
  assert (He := Hwalk p start Hq HsT). rewrite Hlast in He.
  specialize (Hclosed endc He). rewrite (w_end HI He) in Hclosed. discriminate.
Qed.
End LinkSteps.

(** The open list yields one of its nodes, whatever their f. *)
Lemma heap_min_In `{JsNumber} (s : Store) (rest : list coord) :
  forall best, In (heap_min s best rest) (best :: rest).
Proof.
  induction rest as [|c rest IH]; intros best; [now left|].
  cbn [heap_min].
  destruct (nlt (toNumber (f (s c))) (toNumber (f (s best)))).
  - right. apply IH.
  - destruct (IH best) as [Hb|Hr]; [now left | right; now right].
Qed.

Lemma heap_pop_mem `{JsNumber} (s : Store) (open : list coord) :
  NoDup open -> open <> [] ->
  exists u open',
    heap_pop s open = Some (u, open')
    /\ In u open /\ NoDup open'
    /\ forall c, In c open' <-> In c open /\ c <> u.
Proof.
  intros Hnd Hne. destruct open as [|b rest]; [congruence|].
  exists (heap_min s b rest), (remove_first (heap_min s b rest) (b :: rest)).
  split; [reflexivity|]. split; [apply heap_min_In|].
  split; [now apply NoDup_remove_first | now apply In_remove_first].
Qed.

(** *** The relaxation of findPath is of that kind *)

Section RelaxLinks.
Context `{JsNumber}.

(** The references and the flags of a node. *)
Definition links_of (n : Node) : option coord * bool * bool * bool * option Z :=
  (parent n, opened n, closed n, walkable n, direction n).

Lemma links_of_eq (n m : Node) :
  links_of n = links_of m ->
  parent n = parent m /\ opened n = opened m /\ closed n = closed m
  /\ walkable n = walkable m /\ direction n = direction m.
Proof. unfold links_of. intros [= -> -> -> -> ->]. auto. Qed.

Lemma modify_links (s : Store) (c : coord) (fn : Node -> Node) :
  (forall n, links_of (fn n) = links_of n) ->
  forall x, links_of (modify s c fn x) = links_of (s x).
Proof.
  intros Hfn x. destruct (coord_eq_dec c x) as [->|Hne].
  - rewrite modify_same. apply Hfn.
  - now rewrite (modify_other _ _ Hne).
Qed.

(** The bookkeeping of turns leaves the references and the flags. *)
Lemma record_turn_links (s : Store) (node neighbor : coord) (turned : bool) :
  forall x, links_of (record_turn s node neighbor turned x) = links_of (s x).
Proof.
  intros x. unfold record_turn. destruct turned.
  - apply modify_links. reflexivity.
  - rewrite modify_links by reflexivity. apply modify_links. reflexivity.
Qed.

Lemma tentative_g_links (fd : Finder) (s : Store) (node neighbor : coord) :
  forall x, links_of (fst (tentative_g fd s node neighbor) x) = links_of (s x).
Proof.
  intros x. unfold tentative_g. destruct (truthy_flag (avoidStaircase fd)); [|reflexivity].
  cbn [fst]. apply record_turn_links.
Qed.

Lemma relax_relaxed_to (fd : Finder) (endc u : coord) (rx : Relax) (n : coord) :
  relaxed_to u n (rx_nodes rx) (rx_open rx)
             (rx_nodes (relax fd endc u rx n)) (rx_open (relax fd endc u rx n)).
Proof.
  unfold relax. destruct (closed (rx_nodes rx n)) eqn:Hcn.
  { split; [auto|]. split; [auto|]. left. auto. }
  assert (Hl := tentative_g_links fd (rx_nodes rx) u n).
  destruct (tentative_g fd (rx_nodes rx) u n) as [s ng]. cbn [fst] in Hl.
  assert (Hf : forall x, parent (s x) = parent (rx_nodes rx x)
                         /\ opened (s x) = opened (rx_nodes rx x)
                         /\ closed (s x) = closed (rx_nodes rx x)
                         /\ walkable (s x) = walkable (rx_nodes rx x)
                         /\ direction (s x) = direction (rx_nodes rx x))
    by (intros x; apply links_of_eq, Hl).
  destruct (Hf n) as (Hpn & Hon & Hcn' & Hwn & Hdn).
  destruct (negb (opened (s n)) || nlt ng (toNumber (g (s n)))) eqn:Hcond.
  - set (s2 := modify s n (fun m => set_parent (Some u)
                 (set_f (Some (ng + h_of fd endc s n)%js)
                    (set_h (Some (h_of fd endc s n)) (set_g (Some ng) m))))).
    assert (H2 : forall x, x <> n -> s2 x = s x)
      by (intros x Hx; apply modify_other; congruence).
    assert (H2n : s2 n = set_parent (Some u)
                    (set_f (Some (ng + h_of fd endc s n)%js)
                       (set_h (Some (h_of fd endc s n)) (set_g (Some ng) (s n)))))
      by (unfold s2; now rewrite modify_same).
    destruct (opened (s n)) eqn:Hop; cbn [negb rx_nodes rx_open].
    + (* opened already: the reference is replaced *)
      fold s2. split; [|split].
      * intros x. destruct (coord_eq_dec x n) as [->|Hne].
        -- rewrite H2n. cbn [set_parent closed walkable direction]. auto.
        -- rewrite (H2 x Hne). destruct (Hf x) as (_ & _ & ? & ? & ?). auto.
      * intros x Hne. rewrite (H2 x Hne). destruct (Hf x) as (? & ? & _). auto.
      * right. split; [assumption|]. rewrite H2n.
        cbn [set_parent parent opened]. split; [reflexivity|].
        split; [exact Hop|]. left. split; [congruence|reflexivity].
    + (* not opened: queued *)
      fold s2. split; [|split].
      * intros x. destruct (coord_eq_dec x n) as [->|Hne].
        -- rewrite modify_same, H2n. cbn [set_opened set_parent closed walkable direction].
           auto.
        -- rewrite modify_other by congruence. rewrite (H2 x Hne).
           destruct (Hf x) as (_ & _ & ? & ? & ?). auto.
      * intros x Hne. rewrite modify_other by congruence. rewrite (H2 x Hne).
        destruct (Hf x) as (? & ? & _). auto.
      * right. split; [assumption|]. rewrite modify_same, H2n.
        cbn [set_opened set_parent parent opened]. split; [reflexivity|].
        split; [reflexivity|]. right. split; [congruence|reflexivity].
  - cbn [rx_nodes rx_open]. split; [|split].
    + intros x. destruct (Hf x) as (_ & _ & ? & ? & ?). auto.
    + intros x _. destruct (Hf x) as (? & ? & _). auto.
    + left. split; [assumption|]. split; [assumption|]. split; [reflexivity|].
      right. apply orb_false_iff in Hcond. destruct Hcond as [Hop _].
      apply negb_false_iff in Hop. congruence.
Qed.

(** What is queued is recorded as dirty. *)
Lemma relax_dirty (fd : Finder) (endc u : coord) (rx : Relax) (n : coord) :
  exists l, rx_open (relax fd endc u rx n) = rx_open rx ++ l
            /\ rx_dirty (relax fd endc u rx n) = rx_dirty rx ++ pairs l.
Proof.
  unfold relax. destruct (closed (rx_nodes rx n)).
  { exists []. now rewrite !app_nil_r. }
  destruct (tentative_g fd (rx_nodes rx) u n) as [s ng].
  destruct (negb (opened (s n)) || nlt ng (toNumber (g (s n)))).
  - destruct (negb (opened (s n))); cbn [rx_open rx_dirty].
    + exists [n]. split; reflexivity.
    + exists []. now rewrite !app_nil_r.
  - exists []. cbn [rx_open rx_dirty]. now rewrite !app_nil_r.
Qed.

Lemma relax_fold_dirty (fd : Finder) (endc u : coord) (l : list coord) :
  forall rx,
    exists l', rx_open (fold_left (relax fd endc u) l rx) = rx_open rx ++ l'
               /\ rx_dirty (fold_left (relax fd endc u) l rx) = rx_dirty rx ++ pairs l'.
Proof.
  induction l as [|n l IH]; intros rx.
  - exists []. simpl. now rewrite !app_nil_r.
  - cbn [fold_left]. destruct (relax_dirty fd endc u rx n) as (l1 & Ho1 & Hd1).
    destruct (IH (relax fd endc u rx n)) as (l2 & Ho2 & Hd2).
    exists (l1 ++ l2). rewrite Ho2, Hd2, Ho1, Hd1. unfold pairs.
    rewrite flat_map_app, !app_assoc. auto.
Qed.
End RelaxLinks.

(** *** The loop of findPath ends, whatever the costs *)

Section SearchLinks.
Context `{JsNumber}.
Variable gn : Grid -> coord -> DiagonalMovement -> list coord.
Hypothesis gn_ok : neighbour_service gn.
Variable tp : num.
Variable fd : Finder.
Variables start endc : coord.
Variable gb : Grid.

Local Abbreviation dm := (diagonalMovement fd).
Local Abbreviation Linked := (WInv gn dm start endc gb).

(** The state of the loop between two turns. *)
Definition SLinked (st : Search) (T : list coord) : Prop :=
  width (st_grid st) = width gb /\ height (st_grid st) = height gb
  /\ st_dirty st = pairs T
  /\ Linked (nodes (st_grid st)) (st_open st) T None.

Lemma loop_turn_links (k : nat) (st : Search) (u : coord) (open' T : list coord) :
  heap_pop (nodes (st_grid st)) (st_open st) = Some (u, open') ->
  u <> endc ->
  width (st_grid st) = width gb -> height (st_grid st) = height gb ->
  st_dirty st = pairs T ->
  Linked (modify (nodes (st_grid st)) u (set_closed true)) open' T (Some u) ->
  In u T ->
  exists st' l,
    search_loop gn tp (S k) fd endc st = search_loop gn tp k fd endc st'
    /\ SLinked st' (T ++ l)
    /\ forall c, closed (nodes (st_grid st') c)
                 = closed (modify (nodes (st_grid st)) u (set_closed true) c).
Proof.
  intros Hpop Hue Hw Hh Hd HI HuT.
  set (s1 := modify (nodes (st_grid st)) u (set_closed true)) in *.
  set (gr := with_nodes (st_grid st) s1).
  assert (Hgn : gn gr u dm = gn gb u dm).
  { apply (gn_ext gn_ok); auto. intros c. apply (w_walk HI). }
  set (rx0 := mkRelax s1 open' (st_dirty st) [] None (st_minF st)).
  assert (Hcu : closed (rx_nodes rx0 u) = true)
    by (unfold rx0, s1; cbn [rx_nodes]; now rewrite modify_same).
  destruct (WInv_fold gn_ok rx_nodes rx_open (relax fd endc u)
                      (relax_relaxed_to fd endc u) (gn gb u dm) rx0 HI HuT Hcu
                      (fun n Hn => Hn))
    as (l & Hopen & HI' & Hdone & Hcl).
  destruct (relax_fold_dirty fd endc u (gn gb u dm) rx0) as (l2 & Hopen2 & Hdirty).
  set (rx := fold_left (relax fd endc u) (gn gb u dm) rx0) in *.
  assert (Hl : l2 = l).
  { rewrite Hopen in Hopen2. now apply app_inv_head in Hopen2. }
  subst l2.
  assert (HI2 : Linked (rx_nodes rx) (rx_open rx) (T ++ l) None).
  { apply (WInv_clear_pending HI'). exact Hdone. }
  destruct (break_ties_noop tp fd (st_atStartNode st) (rx_nodes rx) (rx_added rx)
                            (rx_minF rx) (w_dir HI2)) as [called Hbt].
  eexists. exists l.
  split; [|split].
  - cbn [search_loop]. rewrite Hpop. rewrite (coord_eqb_neq Hue).
    fold s1. fold gr. rewrite Hgn. cbn [nodes gr with_nodes]. fold rx0. fold rx.
    rewrite Hbt. cbn [bind]. reflexivity.
  - unfold SLinked. cbn [st_grid st_dirty st_open nodes with_nodes width height].
    split; [assumption|]. split; [assumption|]. split; [|exact HI2].
    rewrite Hdirty. unfold rx0. cbn [rx_dirty]. rewrite Hd. unfold pairs.
    now rewrite flat_map_app.
  - intros c. cbn [st_grid nodes with_nodes]. rewrite Hcl. reflexivity.
Qed.

(** What holds when the loop leaves with the end node. *)
Definition found_links (T0 : list coord) (st' : Search) : Prop :=
  exists s open l,
    Linked s open (T0 ++ l) None
    /\ In endc open
    /\ nodes (st_grid st') = modify s endc (set_closed true)
    /\ st_dirty st' = pairs (T0 ++ l)
    /\ width (st_grid st') = width gb /\ height (st_grid st') = height gb.

Definition loop_links (T0 : list coord) (exit : LoopExit) : Prop :=
  match exit with
  | Found st' => found_links T0 st'
  | Exhausted _ => forall q, valid_path gn gb dm q -> joins start endc q -> False
  end.

Lemma search_loop_links (fuel : nat) :
  forall st T,
    SLinked st T -> (unclosed gb (nodes (st_grid st)) <= fuel)%nat ->
    exists exit,
      search_loop gn tp fuel fd endc st = Ok exit /\ loop_links T exit.
Proof.
  induction fuel as [|k IH]; intros st T (Hw & Hh & Hd & HI) Hfuel.
  - destruct (st_open st) as [|a open] eqn:Hopen.
    + exists (Exhausted st). split.
      * cbn [search_loop]. rewrite Hopen. reflexivity.
      * intros q. exact (WInv_exhausted HI).
    + exfalso.
      destruct (heap_pop_mem (nodes (st_grid st)) (proj1 (w_open HI)))
        as (u & open' & Hpop & Hu & _); [discriminate|].
      apply (w_open HI) in Hu. destruct Hu as [HuT Huc].
      destruct (w_nodes HI u HuT) as (Hin & _).
      assert (Hlt := unclosed_close gb (nodes (st_grid st)) u Hin Huc). lia.
  - destruct (st_open st) as [|a open] eqn:Hopen.
    + exists (Exhausted st). split.
      * cbn [search_loop]. rewrite Hopen. reflexivity.
      * intros q. exact (WInv_exhausted HI).
    + destruct (heap_pop_mem (nodes (st_grid st)) (proj1 (w_open HI)))
        as (u & open' & Hpop & Hu & Hnd & Hopen'); [discriminate|].
      rewrite <- Hopen in *. clear Hopen a open.
      assert (Hu' := Hu). apply (w_open HI) in Hu'. destruct Hu' as [HuT Huc].
      destruct (w_nodes HI u HuT) as (Hin & _).
      assert (Hlt := unclosed_close gb (nodes (st_grid st)) u Hin Huc).
      destruct (coord_eq_dec u endc) as [->|Hue].
      * eexists. split.
        -- cbn [search_loop]. rewrite Hpop. rewrite coord_eqb_refl. reflexivity.
        -- cbn [loop_links]. exists (nodes (st_grid st)), (st_open st), [].
           rewrite app_nil_r. cbn [st_grid st_dirty nodes with_nodes width height].
           split; [exact HI|]. split; [exact Hu|]. split; [reflexivity|]. auto.
      * assert (HI1 := WInv_close HI Hu Hnd Hopen' Hue).
        destruct (loop_turn_links k st Hpop Hue Hw Hh Hd HI1 HuT)
          as (st' & l & Hstep & HS' & Hcl).
        destruct (IH st' (T ++ l) HS') as (exit & Hrun & Hpost).
        { rewrite (unclosed_ext gb _ _ Hcl). lia. }
        exists exit. split; [now rewrite Hstep|].
        destruct exit as [st2|st2]; [|exact Hpost].
        destruct Hpost as (s & open2 & l2 & Hpost).
        exists s, open2, (l ++ l2). now rewrite app_assoc.
Qed.
End SearchLinks.

(** *** The searches of findPath, one after the other, whatever the costs *)

Section Searches.
Context `{JsNumber}.
Variable gn : Grid -> coord -> DiagonalMovement -> list coord.
Hypothesis gn_ok : neighbour_service gn.
Variable tp : num.
Variable fd : Finder.
Variables start endc : coord.
Hypothesis start_not_end : start <> endc.
Variable gr0 : Grid.
Hypothesis start_inside : isInside gr0 start = true.
Hypothesis end_inside : isInside gr0 endc = true.

Local Abbreviation dm := (diagonalMovement fd).

(** No search has left a flag on the walkable cells of the grid, the
    start node and the cell [t] excepted. *)
Definition tidy (gr : Grid) (t : option coord) : Prop :=
  parent (nodes gr start) = None
  /\ (forall c, c <> start -> Some c <> t -> isWalkableAt gr c = true ->
                opened (nodes gr c) = false /\ closed (nodes gr c) = false)
  /\ forall c, encoded_direction (direction (nodes gr c)) = false.

(** A path from the start to the end on the grid of the first search
    that visits no cell twice. *)
Definition route (p : list coord) : Prop :=
  valid_path gn gr0 dm p /\ joins start endc p /\ NoDup p.

(** A candidate from which backtrace reads such a path. *)
Definition kept (c : Candidate) : Prop :=
  exists p, route p
            /\ forall k, (length (all_cells gr0) <= k)%nat ->
                         backtrace (fst c) k (snd c) = Ok p.

Lemma search_from_start_links (gr : Grid) (fuel : nat) :
  subgrid gr0 gr -> tidy gr None ->
  (S (length (all_cells gr0)) <= fuel)%nat ->
  exists exit,
    search_loop gn tp fuel fd endc (start_state gr start) = Ok exit
    /\ loop_links gn fd start endc gr [start] exit.
Proof.
  intros Hsub (Hpar & Hfresh & Hdir) Hfuel.
  destruct fuel as [|k]; [lia|].
  set (st := start_state gr start).
  set (s0 := nodes (st_grid st)).
  assert (Hpop : heap_pop s0 (st_open st) = Some (start, [])).
  { unfold st, start_state, heap_push. cbn [st_open app heap_pop heap_min remove_first].
    now rewrite coord_eqb_refl. }
  assert (Hs0 : forall c, c <> start -> s0 c = nodes gr c).
  { intros c Hc. unfold s0, st, start_state. cbn [st_grid nodes with_nodes].
    apply modify_other. congruence. }
  assert (Hs0s : s0 start = set_opened true (set_f (Some (of_Z 0))
                              (set_g (Some (of_Z 0)) (nodes gr start)))).
  { unfold s0, st, start_state. cbn [st_grid nodes with_nodes].
    now rewrite modify_same. }
  assert (HI1 : WInv gn dm start endc gr (modify s0 start (set_closed true)) [] [start]
                     (Some start)).
  { apply WInv_first; auto.
    - rewrite (subgrid_inside start Hsub). exact start_inside.
    - rewrite modify_same, Hs0s. exact Hpar.
    - rewrite modify_same, Hs0s. reflexivity.
    - rewrite modify_same. reflexivity.
    - intros c Hc Hw. rewrite modify_other by congruence. rewrite (Hs0 c Hc).
      apply Hfresh; auto. discriminate.
    - intros c. destruct (close_fields s0 start c) as (_ & _ & _ & _ & _ & -> & _).
      destruct (coord_eq_dec c start) as [->|Hc].
      + rewrite Hs0s. apply Hdir.
      + rewrite (Hs0 c Hc). apply Hdir.
    - intros c. destruct (close_fields s0 start c) as (_ & _ & _ & _ & _ & _ & -> & _).
      destruct (coord_eq_dec c start) as [->|Hc].
      + rewrite Hs0s. reflexivity.
      + now rewrite (Hs0 c Hc). }
  destruct (loop_turn_links gn_ok tp fd (gb := gr) k st (T := [start])
                            Hpop start_not_end eq_refl eq_refl eq_refl HI1
                            (or_introl eq_refl))
    as (st' & l & Hstep & HS' & Hcl).
  destruct (search_loop_links gn_ok tp (fuel := k) HS') as (exit & Hrun & Hpost).
  { assert (Hb := unclosed_bound gr (nodes (st_grid st'))).
    rewrite (subgrid_cells Hsub) in Hb. lia. }
  exists exit. split; [now rewrite Hstep|].
  destruct exit as [st2|st2]; [|exact Hpost].
  destruct Hpost as (s & open2 & l2 & Hpost).
  exists s, open2, (l ++ l2). now rewrite app_assoc.
Qed.

(** The path the search has found, which the end node records. *)
Lemma found_route (gr : Grid) (st' : Search) :
  subgrid gr0 gr -> found_links gn fd start endc gr [start] st' ->
  exists p,
    valid_path gn gr dm p /\ joins start endc p /\ NoDup p
    /\ forall k, (length (all_cells gr0) <= k)%nat ->
                 backtrace (nodes (st_grid st')) k endc = Ok p.
Proof.
  intros Hsub (s & open & l & HI & Hend & Hnodes & _).
  assert (HeT : In endc ([start] ++ l)) by (now apply (w_open HI)).
  destruct (w_nodes HI endc HeT) as (_ & _ & (p & Hp)).
  destruct Hp as (Hj & Hl & Hv & Hnd & HT & _).
  exists p. split; [assumption|]. split; [assumption|]. split; [assumption|].
  intros k Hk. rewrite Hnodes. destruct Hj as [Hhd Hlast].
  apply backtrace_linked with (a := start); auto.
  - apply parent_linked_frame with (s := s); [|assumption].
    intros x _. apply close_fields.
  - destruct (close_fields s endc start) as (-> & _). apply (w_start HI).
  - assert (Hlen : (length p <= length (all_cells gr0))%nat).
    { apply NoDup_incl_length; [assumption|]. intros x Hx.
      apply In_all_cells. rewrite <- (subgrid_inside x Hsub).
      apply (w_nodes HI x (HT x Hx)). }
    lia.
Qed.

(** cleanUp resets what the search has touched, the start node and the
    second point of the path excepted; the walkability is as before. *)
Lemma found_tidy (gr : Grid) (st' : Search) (t : coord) :
  subgrid gr0 gr -> found_links gn fd start endc gr [start] st' ->
  let gr' := cleanUp (st_grid st') (st_dirty st') (Some t) in
  subgrid gr0 gr' /\ tidy gr' (Some t)
  /\ forall c, isWalkableAt gr' c = isWalkableAt gr c.
Proof.
  intros Hsub (s & open & l & HI & Hend & Hnodes & Hdirty & Hw & Hh) gr'.
  assert (Hn : forall c,
             nodes gr' c
             = if existsb (coord_eqb c) l && negb (coord_eqb t c)
               then reset_node (modify s endc (set_closed true) c)
               else modify s endc (set_closed true) c).
  { intros c. unfold gr', cleanUp. cbn [nodes with_nodes protected].
    rewrite Hdirty, dirty_coords_pairs, Hnodes. reflexivity. }
  assert (Hwalk : forall c, walkable (nodes gr' c) = walkable (nodes gr c)).
  { intros c. rewrite Hn. rewrite <- (w_walk HI c).
    destruct (close_fields s endc c) as (_ & _ & _ & _ & _ & _ & Hwc & _).
    destruct (existsb (coord_eqb c) l && negb (coord_eqb t c)); cbn [reset_node walkable];
      exact Hwc. }
  assert (Hdims : width gr' = width gr /\ height gr' = height gr).
  { unfold gr', cleanUp. cbn [width height with_nodes]. auto. }
  assert (Hwa : forall c, isWalkableAt gr' c = isWalkableAt gr c).
  { intros c. unfold isWalkableAt, isInside. destruct Hdims as [-> ->].
    now rewrite Hwalk. }
  destruct Hsub as (Hw0 & Hh0 & Hsubw).
  split; [|split; [|exact Hwa]].
  - destruct Hdims as [Hw' Hh']. split; [congruence|]. split; [congruence|].
    intros c. rewrite Hwalk. apply Hsubw.
  - split; [|split].
    + rewrite Hn.
      destruct (existsb (coord_eqb start) l && negb (coord_eqb t start));
        [reflexivity|].
      destruct (close_fields s endc start) as (-> & _). apply (w_start HI).
    + intros c Hcs Hct Hwc. rewrite Hn.
      assert (Htc : coord_eqb t c = false) by (apply coord_eqb_neq; congruence).
      rewrite Htc. cbn [negb]. rewrite andb_true_r.
      destruct (existsb (coord_eqb c) l) eqn:Hex; [cbn [reset_node opened closed]; auto|].
      assert (HcT : ~ In c ([start] ++ l)).
      { cbn [app]. intros [Hc|Hc]; [congruence|]. apply existsb_coord in Hc. congruence. }
      rewrite Hwa in Hwc.
      destruct (w_fresh HI c HcT Hwc) as (Ho & Hc).
      assert (Hce : endc <> c).
      { intros <-. apply HcT. now apply (w_open HI). }
      rewrite (modify_other _ _ Hce). auto.
    + intros c. rewrite Hn.
      destruct (close_fields s endc c) as (_ & _ & _ & _ & _ & Hd & _).
      destruct (existsb (coord_eqb c) l && negb (coord_eqb t c));
        cbn [reset_node direction]; rewrite Hd; apply (w_dir HI).
Qed.

Lemma blocked_tidy (gr : Grid) (t : coord) :
  t <> start -> tidy gr (Some t) -> tidy (blocked gr t) None.
Proof.
  intros Hts (Hpar & Hfresh & Hdir).
  split; [|split].
  - unfold blocked. cbn [nodes with_nodes]. now rewrite (modify_other _ _ Hts).
  - intros c Hcs _ Hwc. rewrite blocked_walkable in Hwc.
    destruct (coord_eq_dec t c) as [->|Hne]; [discriminate|].
    unfold blocked. cbn [nodes with_nodes]. rewrite (modify_other _ _ Hne).
    apply Hfresh; congruence.
  - intros c. unfold blocked. cbn [nodes with_nodes].
    destruct (coord_eq_dec t c) as [->|Hne].
    + rewrite modify_same. cbn [set_walkable direction]. apply Hdir.
    + rewrite (modify_other _ _ Hne). apply Hdir.
Qed.

Lemma bestPath_loop_In (rest : list Candidate) :
  forall best, In (bestPath_loop best rest) (best :: rest).
Proof.
  induction rest as [|p rest IH]; intros best; [now left|].
  cbn [bestPath_loop].
  destruct (nlt (toNumber (cand_f p)) (toNumber (cand_f best))).
  - right. apply IH.
  - destruct (IH best) as [Hb|Hr]; [now left | right; now right].
Qed.

Lemma backtrace_best_kept (ps : list Candidate) (fuel : nat) :
  ps <> [] -> (forall c, In c ps -> kept c) ->
  (length (all_cells gr0) <= fuel)%nat ->
  exists p, backtrace_best fuel ps = Ok p /\ route p.
Proof.
  intros Hne Hall Hfuel. destruct ps as [|c0 rest]; [congruence|].
  destruct (Hall _ (bestPath_loop_In rest c0)) as (p & Hp & Hbt).
  exists p. split; [|assumption].
  unfold backtrace_best. cbn [bestPath]. now apply Hbt.
Qed.

(** What is expected of the nested call of findPath at depth [d]. *)
Definition rec_links (d fuel : nat) : Prop :=
  forall gr ps t n,
    subgrid gr0 gr -> tidy gr (Some t) -> isWalkableAt gr t = true ->
    t <> start -> t <> endc -> ps <> [] -> (forall c, In c ps -> kept c) -> 0 < n ->
    (walkable_count gr0 gr <= S d)%nat ->
    exists r,
      findPath gn tp d fuel fd start endc gr (Some ps) (Some t) (Some n) = Ok r
      /\ route (run_path r).

Lemma after_search_links (depth fuel : nat) (gr : Grid) (ps : list Candidate) (n : Z)
      (exit : LoopExit) :
  subgrid gr0 gr -> (S (length (all_cells gr0)) <= fuel)%nat ->
  loop_links gn fd start endc gr [start] exit ->
  (ps = [] -> exists q, valid_path gn gr dm q /\ joins start endc q) ->
  (forall c, In c ps -> kept c) ->
  0 < n ->
  (walkable_count gr0 gr <= depth)%nat ->
  (forall d, depth = S d -> rec_links d fuel) ->
  exists r,
    after_loop gn tp depth fuel fd start endc ps n exit = Ok r /\ route (run_path r).
Proof.
  intros Hsub Hfuel Hpost Hfirst Hkept Hn Hcount Hrec.
  assert (Hfuel' : (length (all_cells gr0) <= fuel)%nat) by lia.
  destruct exit as [st'|st'].
  - cbn [loop_links] in Hpost.
    destruct (found_route Hsub Hpost) as (p & Hv & Hj & Hnd & Hbt).
    set (cnew := (nodes (st_grid st'), endc)) in *.
    assert (Hv0 : valid_path gn gr0 dm p) by now apply (valid_path_sub gn_ok fd p Hsub).
    assert (Hcn : kept cnew) by (exists p; split; [split; [|split]|]; auto).
    assert (Hcs : forall c, In c (ps ++ [cnew]) -> kept c).
    { intros c Hc. apply in_app_or in Hc. destruct Hc as [Hc|[<-|[]]]; auto. }
    assert (Hne : ps ++ [cnew] <> []) by (destruct ps; discriminate).
    cbn [after_loop]. fold cnew.
    destruct (nlt (maxIterations fd) (of_Z (n + 1))) eqn:Hmax.
    + destruct (backtrace_best_kept Hne Hcs Hfuel') as (pb & Hpb & Hroute).
      rewrite Hpb. cbn [bind]. eexists. split; [reflexivity|exact Hroute].
    + rewrite (Hbt fuel Hfuel'). cbn [bind].
      destruct (Z.of_nat (length p) =? 2) eqn:Hlen.
      * eexists. split; [reflexivity|]. cbn [run_path]. split; [|split]; assumption.
      * apply Z.eqb_neq in Hlen.
        destruct (second_point gn_ok fd start_not_end gr Hv Hj Hnd)
          as (t & rest & Hp & Htw & Hts & Hte).
        assert (Hrest : rest <> []) by (intros ->; subst p; simpl in Hlen; lia).
        specialize (Hte Hrest).
        assert (Hnth : nth_error p 1 = Some t) by (subst p; reflexivity).
        rewrite Hnth.
        destruct depth as [|d].
        { assert (Hpos := walkable_count_pos t Hsub Htw). lia. }
        destruct (@found_tidy gr st' t Hsub Hpost) as (Hsub' & Htidy' & Hwa').
        destruct (Hrec d eq_refl _ (ps ++ [cnew]) t (n + 1) Hsub' Htidy')
          as (r & Hr & Hroute); auto; try lia.
        { now rewrite Hwa'. }
        { rewrite (walkable_count_ext gr0 _ _ Hwa'). lia. }
        rewrite Hr. cbn [bind]. eexists. split; [reflexivity|exact Hroute].
  - cbn [loop_links] in Hpost. cbn [after_loop].
    destruct ps as [|c0 ps'].
    + destruct Hfirst as (q & Hq & Hjq); [reflexivity|].
      destruct (Hpost q Hq Hjq).
    + destruct (backtrace_best_kept (ps := c0 :: ps') (fuel := fuel)) as (pb & Hpb & Hroute);
        [discriminate | assumption | assumption |].
      rewrite Hpb. cbn [bind]. eexists. split; [reflexivity|exact Hroute].
Qed.

Lemma findPath_rec_links (fuel : nat) :
  (S (length (all_cells gr0)) <= fuel)%nat -> forall d, rec_links d fuel.
Proof.
  intros Hfuel.
  assert (Hstep : forall d, (forall d', d = S d' -> rec_links d' fuel) -> rec_links d fuel).
  { intros d Hrec gr ps t n Hsub Htidy Ht Hts Hte Hps Hkept Hn Hcount.
    rewrite findPath_again.
    - fold (blocked gr t).
      destruct (search_from_start_links (gr := blocked gr t) (fuel := fuel))
        as (exit & Hrun & Hpost);
        [now apply blocked_subgrid | now apply blocked_tidy | assumption |].
      rewrite Hrun. cbn [bind].
      apply after_search_links with (gr := blocked gr t); auto.
      + now apply blocked_subgrid.
      + intros ->. congruence.
      + assert (Hlt := blocked_count t Hsub Ht). lia.
    - rewrite (subgrid_inside start Hsub). exact start_inside.
    - rewrite (subgrid_inside endc Hsub). exact end_inside.
    - now apply isWalkableAt_inside.
    - lia. }
  induction d as [|d IH]; apply Hstep.
  - intros d' Hd'. discriminate.
  - intros d' Hd'. injection Hd' as <-. exact IH.
Qed.

(** The first call, on a grid without flags, when the end can be
    reached. *)
Lemma findPath_route (depth fuel : nat) :
  tidy gr0 None ->
  (exists q, valid_path gn gr0 dm q /\ joins start endc q) ->
  (length (all_cells gr0) <= depth)%nat ->
  (S (length (all_cells gr0)) <= fuel)%nat ->
  exists r,
    findPath gn tp depth fuel fd start endc gr0 None None None = Ok r
    /\ route (run_path r).
Proof.
  intros Htidy Hq Hdepth Hfuel.
  assert (Hsub : subgrid gr0 gr0) by (split; [|split]; auto).
  rewrite findPath_first by assumption.
  destruct (search_from_start_links (gr := gr0) (fuel := fuel)) as (exit & Hrun & Hpost);
    auto.
  rewrite Hrun. cbn [bind].
  apply after_search_links with (gr := gr0); auto.
  - intros c [].
  - lia.
  - assert (Hb := walkable_count_bound gr0 gr0). lia.
  - intros d _. now apply findPath_rec_links.
Qed.

(** The first call when the end cannot be reached: the open list
    empties and there is no candidate to read. *)
Lemma findPath_no_route (depth fuel : nat) :
  tidy gr0 None ->
  (forall q, valid_path gn gr0 dm q -> joins start endc q -> False) ->
  (S (length (all_cells gr0)) <= fuel)%nat ->
  findPath gn tp depth fuel fd start endc gr0 None None None = Throw TypeError.
Proof.
  intros Htidy Hno Hfuel.
  assert (Hsub : subgrid gr0 gr0) by (split; [|split]; auto).
  rewrite findPath_first by assumption.
  destruct (search_from_start_links (gr := gr0) (fuel := fuel)) as (exit & Hrun & Hpost);
    auto.
  rewrite Hrun. cbn [bind].
  destruct exit as [st'|st'].
  - exfalso. destruct (found_route Hsub Hpost) as (p & Hv & Hj & _).
    exact (Hno p Hv Hj).
  - reflexivity.
Qed.
End Searches.

(* ===================================================================== *)
(** ** findPath, for every finder and every arithmetic *)
(* ===================================================================== *)

(** X9. Whatever the options of the finder and whatever the arithmetic
    (binary64 with its rounding and its NaN included): on a grid no
    search has touched, for distinct start and end cells, the start
    inside the grid, if some path joins the start to the end then
    findPath, given as many nested calls as the grid has cells and one
    loop turn more, returns a path that starts at the start, ends at the
    end, goes from each cell to one of its neighbours as the grid
    enumerates them, and visits no cell twice. *)
Theorem findPath_returns_route `{JsNumber}
        (gn : Grid -> coord -> DiagonalMovement -> list coord) (tp : num)
        (fd : Finder) (start endc : coord) (gr : Grid) (depth fuel : nat)
        (q0 : list coord) :
  neighbour_service gn ->
  start <> endc ->
  isInside gr start = true ->
  untouched gr ->
  valid_path gn gr (diagonalMovement fd) q0 -> joins start endc q0 ->
  (length (all_cells gr) <= depth)%nat ->
  (S (length (all_cells gr)) <= fuel)%nat ->
  exists r,
    findPath gn tp depth fuel fd start endc gr None None None = Ok r
    /\ valid_path gn gr (diagonalMovement fd) (run_path r)
    /\ joins start endc (run_path r)
    /\ NoDup (run_path r).
Proof.
  intros Hgn Hne Hstart Hfresh Hq0 Hj0 Hdepth Hfuel.
  assert (Hend : isInside gr endc = true).
  { destruct Hj0 as [Hhd Hlast]. destruct q0 as [|a q0]; [discriminate|].
    assert (a = start) by (simpl in Hhd; congruence). subst a.
    destruct q0 as [|b q0]; [simpl in Hlast; congruence|].
    apply isWalkableAt_inside. rewrite <- Hlast.
    now apply (valid_path_last_walkable (gn := gn) (dm := diagonalMovement fd)). }
  assert (Htidy : tidy start gr None).
  { split; [apply Hfresh|]. split; [|apply Hfresh].
    intros c _ _ _. destruct (Hfresh c) as (Ho & Hc & _). auto. }
  destruct (findPath_route Hgn tp fd Hne Hstart Hend Htidy
                           (ex_intro _ q0 (conj Hq0 Hj0)) Hdepth Hfuel)
    as (r & Hrun & Hv & Hj & Hnd).
  exists r. auto.
Qed.

(** The finder with the staircase avoidance and the momentum set, in
    binary64, on the grid of two rows. *)
Lemma findPath_returns_route_witness :
  exists r,
    findPath (H := FloatNumber) Grid_getNeighbors lit_0_001 16 17 momentum_finder
             (0, 0) (7, 0) two_routes None None None = Ok r
    /\ valid_path Grid_getNeighbors (two_routes (H := FloatNumber))
                  (diagonalMovement momentum_finder) (run_path r)
    /\ joins (0, 0) (7, 0) (run_path r)
    /\ NoDup (run_path r).
Proof.
  apply (@findPath_returns_route FloatNumber Grid_getNeighbors lit_0_001 momentum_finder
           (0, 0) (7, 0) two_routes 16 17 straight_row).
  - exact Grid_getNeighbors_service.
  - discriminate.
  - reflexivity.
  - intros c. repeat split.
  - simpl. repeat split; vm_compute; auto.
  - split; reflexivity.
  - vm_compute. apply le_n.
  - vm_compute. apply le_n.
Defined.

(** X10. Whatever the options and the arithmetic: on a grid no search
    has touched, for distinct start and end cells inside the grid, if no
    path joins the start to the end then findPath, given a loop turn
    more than the grid has cells, throws a TypeError: the open list
    empties, no candidate has been recorded, and backtrace is handed
    [undefined]. *)
Theorem findPath_unreachable_throws `{JsNumber}
        (gn : Grid -> coord -> DiagonalMovement -> list coord) (tp : num)
        (fd : Finder) (start endc : coord) (gr : Grid) (depth fuel : nat) :
  neighbour_service gn ->
  start <> endc ->
  isInside gr start = true -> isInside gr endc = true ->
  untouched gr ->
  (forall q, valid_path gn gr (diagonalMovement fd) q -> joins start endc q -> False) ->
  (S (length (all_cells gr)) <= fuel)%nat ->
  findPath gn tp depth fuel fd start endc gr None None None = Throw TypeError.
Proof.
  intros Hgn Hne Hstart Hend Hfresh Hno Hfuel.
  apply findPath_no_route; auto.
  split; [apply Hfresh|]. split; [|apply Hfresh].
  intros c _ _ _. destruct (Hfresh c) as (Ho & Hc & _). auto.
Qed.

(** A wall across a grid of three columns. *)
Definition walled : Grid (H := FloatNumber) := new_Grid 3 2 [(1, 0); (1, 1)].

Lemma walled_left (dm : DiagonalMovement) (p : list coord) :
  forall a, fst a = 0 -> valid_path Grid_getNeighbors walled dm (a :: p) ->
            fst (last (a :: p) a) = 0.
Proof.
  induction p as [|b p IH]; intros a Ha Hv; [assumption|].
  destruct Hv as [Hab Hv].
  change (last (a :: b :: p) a) with (last (b :: p) a).
  rewrite (last_cons_default b p a b). apply IH; [|assumption].
  assert (Hw := Grid_getNeighbors_walkable _ _ _ _ Hab).
  assert (Hadj := Grid_getNeighbors_adjacent _ _ _ _ Hab).
  destruct a as [ax ay], b as [bx by_]. cbn [fst snd] in *. subst ax.
  assert (Hbx : bx = -1 \/ bx = 0 \/ bx = 1) by lia.
  destruct Hbx as [-> | [-> | ->]]; [|reflexivity|].
  - unfold isWalkableAt, isInside in Hw. cbn [fst snd] in Hw. discriminate.
  - assert (Hby : by_ < 0 \/ by_ = 0 \/ by_ = 1 \/ 1 < by_) by lia.
    destruct Hby as [Hlt | [-> | [-> | Hgt]]]; try (vm_compute in Hw; discriminate).
    + unfold isWalkableAt, isInside in Hw. cbn [fst snd] in Hw.
      destruct (Z.leb_spec 0 by_); [lia|]. rewrite !andb_false_r in Hw. discriminate.
    + unfold isWalkableAt, isInside in Hw. cbn [fst snd walled new_Grid height] in Hw.
      destruct (Z.ltb_spec by_ 2); [lia|]. rewrite !andb_false_r in Hw. discriminate.
Qed.

Lemma findPath_unreachable_throws_witness :
  findPath (H := FloatNumber) Grid_getNeighbors lit_0_001 0 7 momentum_finder
           (0, 0) (2, 1) walled None None None = Throw TypeError.
Proof.
  apply (@findPath_unreachable_throws FloatNumber Grid_getNeighbors lit_0_001
           momentum_finder (0, 0) (2, 1) walled 0 7).
  - exact Grid_getNeighbors_service.
  - discriminate.
  - reflexivity.
  - reflexivity.
  - intros c. repeat split.
  - intros q Hq [Hhd Hlast]. destruct q as [|a p]; [discriminate|].
    injection Hhd as ->.
    assert (H0 : fst ((2, 1) : coord) = 0).
    { rewrite <- Hlast.
      apply (walled_left (diagonalMovement momentum_finder)); [reflexivity|exact Hq]. }
    discriminate.
  - vm_compute. apply le_n.
Defined.

(** The nested call that is handed [undefined] as the cell to block. *)
Lemma findPath_nothing_to_block `{JsNumber}
      (gn : Grid -> coord -> DiagonalMovement -> list coord) (tp : num)
      (depth fuel : nat) (fd : Finder) (start endc : coord) (gr : Grid)
      (ps : list Candidate) (its : option Z) :
  isInside gr start = true -> isInside gr endc = true ->
  findPath gn tp depth fuel fd start endc gr (Some ps) None its = Throw TypeError.
Proof.
  intros Hs He. destruct depth; cbn [findPath]; unfold getNodeAt; rewrite Hs, He;
    reflexivity.
Qed.

(** The bound of the constructor is never below 2. *)
Lemma maxIterations_not_below_2 (opt : Options (H := FloatNumber)) :
  nlt (maxIterations (AStarFinder opt)) (of_Z 2) = false.
Proof.
  destruct opt as [a1 a2 a3 a4 a5 a6 a7 a8 a9 bt ist a12].
  destruct bt as [[|]|], ist as [[|]|]; vm_compute; reflexivity.
Qed.

(** X11. In binary64, for every options object: when the start cell is
    also the end cell (inside the grid, and never given a parent),
    findPath throws a TypeError instead of returning the path of one
    point: the path found has no second point to block, and the nested
    call reads the first component of [undefined]. *)
Theorem findPath_same_cell_throws
        (gn : Grid -> coord -> DiagonalMovement -> list coord)
        (tp : num (JsNumber := FloatNumber)) (opt : Options) (c : coord) (gr : Grid)
        (depth fuel : nat) :
  isInside gr c = true ->
  parent (nodes gr c) = None ->
  findPath gn tp (S depth) (S fuel) (AStarFinder opt) c c gr None None None
  = Throw TypeError.
Proof.
  intros Hin Hpar. rewrite findPath_first by assumption.
  unfold start_state, heap_push. cbn [search_loop st_grid st_open nodes with_nodes app].
  cbn [heap_pop heap_min remove_first]. rewrite !coord_eqb_refl. cbn [bind after_loop].
  change (1 + 1) with 2. rewrite maxIterations_not_below_2.
  cbn [st_grid nodes with_nodes].
  unfold backtrace. cbn [backtrace_loop].
  rewrite !modify_same. cbn [set_closed set_opened set_f set_g parent]. rewrite Hpar.
  cbn [bind rev app length Z.of_nat Z.eqb nth_error Pos.of_succ_nat Pos.eqb].
  rewrite findPath_nothing_to_block; [reflexivity | exact Hin | exact Hin].
Qed.

Lemma findPath_same_cell_throws_witness :
  findPath (H := FloatNumber) Grid_getNeighbors lit_0_001 1 1 (AStarFinder no_options)
           (1, 1) (1, 1) (new_Grid 3 3 []) None None None
  = Throw TypeError.
Proof.
  apply (@findPath_same_cell_throws Grid_getNeighbors lit_0_001 no_options (1, 1)
           (new_Grid 3 3 []) 0 0); reflexivity.
Defined.

(* ===================================================================== *)
(** ** The single-pass finder *)
(* ===================================================================== *)

Section SinglePassLinks.
Context `{JsNumber}.
Variable gn : Grid -> coord -> DiagonalMovement -> list coord.
Hypothesis gn_ok : neighbour_service gn.
Variable fd : Finder.
Variables start endc : coord.
Variable gb : Grid.

Local Abbreviation dm := (diagonalMovement fd).
Local Abbreviation Linked := (WInv gn dm start endc gb).

(** The relaxation of the single-pass finder handles the references and
    the flags as [relaxed_to] says. *)
Lemma sp_relax_relaxed_to (u : coord) (st : Store * list coord) (n : coord) :
  relaxed_to u n (fst st) (snd st)
             (fst (SinglePass.relax fd endc u st n))
             (snd (SinglePass.relax fd endc u st n)).
Proof.
  destruct st as [s open]. unfold SinglePass.relax. cbv zeta. cbn [fst snd].
  destruct (closed (s n)) eqn:Hcn.
  { cbn [fst snd]. split; [auto|]. split; [auto|]. left. auto. }
  match goal with
  | |- context [nlt ?x (toNumber (g (s n)))] => generalize x
  end.
  intros ng.
  destruct (negb (opened (s n)) || nlt ng (toNumber (g (s n)))) eqn:Hcond.
  - set (s2 := modify s n (fun m => set_parent (Some u)
                 (set_f (Some (ng + h_of fd endc s n)%js)
                    (set_h (Some (h_of fd endc s n)) (set_g (Some ng) m))))).
    assert (H2 : forall x, x <> n -> s2 x = s x)
      by (intros x Hx; apply modify_other; congruence).
    assert (H2n : s2 n = set_parent (Some u)
                    (set_f (Some (ng + h_of fd endc s n)%js)
                       (set_h (Some (h_of fd endc s n)) (set_g (Some ng) (s n)))))
      by (unfold s2; now rewrite modify_same).
    destruct (opened (s n)) eqn:Hop; cbn [negb fst snd].
    + split; [|split].
      * intros x. destruct (coord_eq_dec x n) as [->|Hne].
        -- rewrite H2n. cbn [set_parent closed walkable direction]. auto.
        -- rewrite (H2 x Hne). auto.
      * intros x Hne. rewrite (H2 x Hne). auto.
      * right. split; [assumption|]. rewrite H2n.
        cbn [set_parent parent opened]. split; [reflexivity|].
        split; [exact Hop|]. left. split; [exact Hop|reflexivity].
    + split; [|split].
      * intros x. destruct (coord_eq_dec x n) as [->|Hne].
        -- rewrite modify_same, H2n. cbn [set_opened set_parent closed walkable direction].
           auto.
        -- rewrite modify_other by congruence. rewrite (H2 x Hne). auto.
      * intros x Hne. rewrite modify_other by congruence. rewrite (H2 x Hne). auto.
      * right. split; [assumption|]. rewrite modify_same, H2n.
        cbn [set_opened set_parent parent opened]. split; [reflexivity|].
        split; [reflexivity|]. right. split; [exact Hop|reflexivity].
  - cbn [fst snd]. split; [auto|]. split; [auto|].
    left. split; [reflexivity|]. split; [reflexivity|]. split; [reflexivity|].
    right. apply orb_false_iff in Hcond. destruct Hcond as [Hop _].
    now apply negb_false_iff in Hop.
Qed.

(** A turn of the loop for a node that is not the end node. *)
Lemma sp_turn (k bfuel : nat) (gr : Grid) (open open' T : list coord) (u : coord) :
  heap_pop (nodes gr) open = Some (u, open') ->
  u <> endc ->
  width gr = width gb -> height gr = height gb ->
  Linked (modify (nodes gr) u (set_closed true)) open' T (Some u) ->
  In u T ->
  exists gr' open2 l,
    SinglePass.search_loop gn (S k) bfuel fd endc gr open
    = SinglePass.search_loop gn k bfuel fd endc gr' open2
    /\ width gr' = width gb /\ height gr' = height gb
    /\ Linked (nodes gr') open2 (T ++ l) None
    /\ forall c, closed (nodes gr' c) = closed (modify (nodes gr) u (set_closed true) c).
Proof.
  intros Hpop Hue Hw Hh HI1 HuT.
  set (s1 := modify (nodes gr) u (set_closed true)) in *.
  set (gr1 := with_nodes gr s1).
  assert (Hgn : gn gr1 u dm = gn gb u dm).
  { apply (gn_ext gn_ok); auto. intros c. apply (w_walk HI1). }
  assert (Hcu : closed (fst (s1, open') u) = true)
    by (unfold s1; cbn [fst]; now rewrite modify_same).
  destruct (WInv_fold gn_ok fst snd (SinglePass.relax fd endc u)
                      (sp_relax_relaxed_to u) (gn gb u dm) (s1, open')
                      HI1 HuT Hcu (fun n Hn => Hn))
    as (l & Hopen2 & HI' & Hdone & Hcl).
  set (st' := fold_left (SinglePass.relax fd endc u) (gn gb u dm) (s1, open')) in *.
  exists (with_nodes gr1 (fst st')), (snd st'), l.
  split; [|split; [|split; [|split]]].
  - cbn [SinglePass.search_loop]. rewrite Hpop. rewrite (coord_eqb_neq Hue).
    fold s1. fold gr1. rewrite Hgn. reflexivity.
  - exact Hw.
  - exact Hh.
  - cbn [nodes with_nodes]. apply (WInv_clear_pending HI'). exact Hdone.
  - intros c. cbn [nodes with_nodes]. rewrite Hcl. reflexivity.
Qed.

(** The loop ends: with the empty array when no path joins the start to
    the end, and with what backtrace reads at the end node otherwise. *)
Lemma sp_loop_links (bfuel fuel : nat) :
  forall gr open T,
    width gr = width gb -> height gr = height gb ->
    Linked (nodes gr) open T None ->
    (unclosed gb (nodes gr) <= fuel)%nat ->
    (SinglePass.search_loop gn fuel bfuel fd endc gr open = Ok []
     /\ forall q, valid_path gn gb dm q -> joins start endc q -> False)
    \/ exists s open' T',
         Linked s open' T' None /\ In endc open'
         /\ SinglePass.search_loop gn fuel bfuel fd endc gr open
            = backtrace (modify s endc (set_closed true)) bfuel endc.
Proof.
  induction fuel as [|k IH]; intros gr open T Hw Hh HI Hfuel.
  - destruct open as [|a open].
    + left. split; [reflexivity|]. intros q. exact (WInv_exhausted HI).
    + exfalso.
      destruct (heap_pop_mem (nodes gr) (proj1 (w_open HI)))
        as (u & open' & Hpop & Hu & _); [discriminate|].
      apply (w_open HI) in Hu. destruct Hu as [HuT Huc].
      destruct (w_nodes HI u HuT) as (Hin & _).
      assert (Hlt := unclosed_close gb (nodes gr) u Hin Huc). lia.
  - destruct open as [|a open0] eqn:Hopen.
    + left. split; [reflexivity|]. intros q. exact (WInv_exhausted HI).
    + rewrite <- Hopen in *.
      destruct (heap_pop_mem (nodes gr) (proj1 (w_open HI)))
        as (u & open' & Hpop & Hu & Hnd & Hopen'); [congruence|].
      clear Hopen a open0.
      assert (Hu' := Hu). apply (w_open HI) in Hu'. destruct Hu' as [HuT Huc].
      destruct (w_nodes HI u HuT) as (Hin & _).
      assert (Hlt := unclosed_close gb (nodes gr) u Hin Huc).
      destruct (coord_eq_dec u endc) as [->|Hue].
      * right. exists (nodes gr), open, T.
        split; [exact HI|]. split; [exact Hu|].
        cbn [SinglePass.search_loop]. rewrite Hpop. rewrite coord_eqb_refl.
        reflexivity.
      * assert (HI1 := WInv_close HI Hu Hnd Hopen' Hue).
        destruct (@sp_turn k bfuel gr open open' T u Hpop Hue Hw Hh HI1 HuT)
          as (gr' & open2 & l & Hstep & Hw' & Hh' & HI2 & Hcl).
        rewrite Hstep. apply (IH _ _ (T ++ l)); auto.
        rewrite (unclosed_ext gb _ _ Hcl). lia.
Qed.

(** What backtrace reads at the end node once the loop has popped it. *)
Lemma sp_found_route (s : Store) (open T : list coord) (k : nat) :
  Linked s open T None -> In endc open ->
  (length (all_cells gb) <= S k)%nat ->
  exists p,
    backtrace (modify s endc (set_closed true)) k endc = Ok p
    /\ valid_path gn gb dm p /\ joins start endc p /\ NoDup p.
Proof.
  intros HI Hend Hk.
  assert (HeT : In endc T) by (now apply (w_open HI)).
  destruct (w_nodes HI endc HeT) as (_ & _ & (p & Hp)).
  destruct Hp as (Hj & Hl & Hv & Hnd & HT & _).
  exists p. split; [|auto].
  destruct Hj as [Hhd Hlast].
  apply backtrace_linked with (a := start); auto.
  - apply parent_linked_frame with (s := s); [|assumption].
    intros x _. apply close_fields.
  - destruct (close_fields s endc start) as (-> & _). apply (w_start HI).
  - assert (Hlen : (length p <= length (all_cells gb))%nat).
    { apply NoDup_incl_length; [assumption|]. intros x Hx.
      apply In_all_cells. apply (w_nodes HI x (HT x Hx)). }
    lia.
Qed.
End SinglePassLinks.

Section SinglePassRuns.
Context `{JsNumber}.
Variable gn : Grid -> coord -> DiagonalMovement -> list coord.
Hypothesis gn_ok : neighbour_service gn.
Variable fd : Finder.
Variables start endc : coord.
Variable gr : Grid.

Local Abbreviation dm := (diagonalMovement fd).

(** The whole call, for distinct cells of a grid no search has touched:
    the empty array when no path exists, a path otherwise. *)
Lemma sp_findPath_links (fuel : nat) :
  start <> endc ->
  isInside gr start = true -> isInside gr endc = true ->
  untouched gr ->
  (S (length (all_cells gr)) <= fuel)%nat ->
  (SinglePass.findPath gn fuel fd start endc gr = Ok []
   /\ forall q, valid_path gn gr dm q -> joins start endc q -> False)
  \/ exists p,
       SinglePass.findPath gn fuel fd start endc gr = Ok p
       /\ valid_path gn gr dm p /\ joins start endc p /\ NoDup p.
Proof.
  intros Hne Hs He Hfresh Hfuel.
  unfold SinglePass.findPath, getNodeAt. rewrite Hs, He. cbn [bind].
  destruct fuel as [|k]; [lia|].
  set (s0 := modify (nodes gr) start
               (fun n => set_opened true (set_f (Some (of_Z 0)) (set_g (Some (of_Z 0)) n)))).
  set (gr0 := with_nodes gr s0).
  assert (Hpop : heap_pop (nodes gr0) (heap_push [] start) = Some (start, [])).
  { unfold heap_push. cbn [app heap_pop heap_min remove_first].
    now rewrite coord_eqb_refl. }
  assert (Hs0 : forall c, c <> start -> s0 c = nodes gr c).
  { intros c Hc. unfold s0. apply modify_other. congruence. }
  assert (Hs0s : s0 start = set_opened true (set_f (Some (of_Z 0))
                              (set_g (Some (of_Z 0)) (nodes gr start)))).
  { unfold s0. now rewrite modify_same. }
  assert (HI1 : WInv gn dm start endc gr (modify (nodes gr0) start (set_closed true))
                     [] [start] (Some start)).
  { cbn [gr0 nodes with_nodes]. apply WInv_first; auto.
    - rewrite modify_same, Hs0s. apply Hfresh.
    - rewrite modify_same, Hs0s. reflexivity.
    - rewrite modify_same. reflexivity.
    - intros c Hc Hw. rewrite modify_other by congruence. rewrite (Hs0 c Hc).
      destruct (Hfresh c) as (Ho & Hcl & _). auto.
    - intros c. destruct (close_fields s0 start c) as (_ & _ & _ & _ & _ & -> & _).
      destruct (coord_eq_dec c start) as [->|Hc].
      + rewrite Hs0s. apply Hfresh.
      + rewrite (Hs0 c Hc). apply Hfresh.
    - intros c. destruct (close_fields s0 start c) as (_ & _ & _ & _ & _ & _ & -> & _).
      destruct (coord_eq_dec c start) as [->|Hc].
      + rewrite Hs0s. reflexivity.
      + now rewrite (Hs0 c Hc). }
  destruct (@sp_turn H gn gn_ok fd start endc gr k (S k) gr0 (heap_push [] start) []
                     [start] start Hpop Hne eq_refl eq_refl HI1 (or_introl eq_refl))
    as (gr' & open2 & l & Hstep & Hw' & Hh' & HI2 & Hcl).
  rewrite Hstep.
  destruct (@sp_loop_links H gn gn_ok fd start endc gr (S k) k gr' open2 ([start] ++ l)
                           Hw' Hh' HI2)
    as [[Hrun Hno] | (s & open' & T' & HI & Hend & Hrun)].
  - assert (Hb := unclosed_bound gr (nodes gr')). lia.
  - left. split; assumption.
  - right. rewrite Hrun.
    eapply sp_found_route; [exact HI | exact Hend | lia].
Qed.
End SinglePassRuns.

(** *** Without the staircase avoidance the single-pass loop is the loop
        of the repeated finder *)

Section SinglePassSim.
Context `{JsNumber}.
Variable gn : Grid -> coord -> DiagonalMovement -> list coord.
Variable tp : num.
Variable fd : Finder.
Hypothesis no_staircase : truthy_flag (avoidStaircase fd) = false.
Variable endc : coord.

Lemma sp_relax_sim (u : coord) (rx : Relax) (n : coord) :
  SinglePass.relax fd endc u (rx_nodes rx, rx_open rx) n
  = (rx_nodes (relax fd endc u rx n), rx_open (relax fd endc u rx n)).
Proof.
  unfold SinglePass.relax, relax, tentative_g. rewrite no_staircase.
  cbv beta iota zeta.
  destruct (closed (rx_nodes rx n)); [reflexivity|].
  destruct (negb (opened (rx_nodes rx n)) || _); [|reflexivity].
  destruct (negb (opened (rx_nodes rx n))); reflexivity.
Qed.

Lemma sp_fold_sim (u : coord) (l : list coord) :
  forall rx,
    fold_left (SinglePass.relax fd endc u) l (rx_nodes rx, rx_open rx)
    = (rx_nodes (fold_left (relax fd endc u) l rx),
       rx_open (fold_left (relax fd endc u) l rx)).
Proof.
  induction l as [|n l IH]; intros rx; [reflexivity|].
  cbn [fold_left]. rewrite sp_relax_sim. apply IH.
Qed.

Lemma relax_fold_direction (u : coord) (l : list coord) :
  forall rx c,
    direction (rx_nodes (fold_left (relax fd endc u) l rx) c)
    = direction (rx_nodes rx c).
Proof.
  induction l as [|n l IH]; intros rx c; [reflexivity|].
  cbn [fold_left]. rewrite IH.
  destruct (relax_relaxed_to fd endc u rx n) as (Hflags & _).
  apply Hflags.
Qed.

Lemma sp_loop_sim (bfuel fuel : nat) :
  forall st,
    (forall c, encoded_direction (direction (nodes (st_grid st) c)) = false) ->
    SinglePass.search_loop gn fuel bfuel fd endc (st_grid st) (st_open st)
    = match search_loop gn tp fuel fd endc st with
      | Ok (Found st') => backtrace (nodes (st_grid st')) bfuel endc
      | Ok (Exhausted _) => Ok []
      | Throw e => Throw e
      | Timeout => Timeout
      end.
Proof.
  induction fuel as [|k IH]; intros st Hdir.
  - cbn [search_loop SinglePass.search_loop].
    destruct (heap_pop (nodes (st_grid st)) (st_open st)) as [[u open']|]; reflexivity.
  - cbn [search_loop SinglePass.search_loop].
    destruct (heap_pop (nodes (st_grid st)) (st_open st)) as [[u open']|];
      [|reflexivity].
    destruct (coord_eqb u endc); [reflexivity|].
    cbn [nodes with_nodes].
    set (s1 := modify (nodes (st_grid st)) u (set_closed true)).
    set (rx0 := mkRelax s1 open' (st_dirty st) [] None (st_minF st)).
    change (s1, open') with (rx_nodes rx0, rx_open rx0).
    rewrite sp_fold_sim. cbn [fst snd].
    set (rx := fold_left (relax fd endc u) (gn (with_nodes (st_grid st) s1) u
                                               (diagonalMovement fd)) rx0).
    assert (Hdir' : forall c, encoded_direction (direction (rx_nodes rx c)) = false).
    { intros c. unfold rx. rewrite relax_fold_direction. unfold rx0. cbn [rx_nodes].
      unfold s1.
      destruct (close_fields (nodes (st_grid st)) u c) as (_ & _ & _ & _ & _ & -> & _).
      apply Hdir. }
    destruct (break_ties_noop tp fd (st_atStartNode st) (rx_nodes rx) (rx_added rx)
                              (rx_minF rx) Hdir') as [called Hbt].
    rewrite Hbt. cbn [bind fst snd].
    rewrite <- IH; [reflexivity|].
    cbn [st_grid nodes with_nodes]. exact Hdir'.
Qed.
End SinglePassSim.

(* ===================================================================== *)
(** ** What the single-pass finder returns *)
(* ===================================================================== *)

(** The end of a path of two points or more is inside the grid. *)
Lemma path_end_inside `{JsNumber}
      (gn : Grid -> coord -> DiagonalMovement -> list coord) (gr : Grid)
      (dm : DiagonalMovement) (start endc : coord) (q : list coord) :
  neighbour_service gn -> start <> endc ->
  valid_path gn gr dm q -> joins start endc q ->
  isInside gr endc = true.
Proof.
  intros Hgn Hne Hq [Hhd Hlast]. destruct q as [|a q]; [discriminate|].
  assert (a = start) by (simpl in Hhd; congruence). subst a.
  destruct q as [|b q]; [simpl in Hlast; congruence|].
  apply isWalkableAt_inside. rewrite <- Hlast.
  now apply (valid_path_last_walkable (gn := gn) (dm := dm)).
Qed.

(** X12. The single-pass finder, whatever its options and whatever the
    arithmetic: on a grid no search has touched, for distinct start and
    end cells, the start inside the grid, if some path joins the start to
    the end then findPath, given a loop turn more than the grid has
    cells, returns a path that starts at the start, ends at the end, goes
    from each cell to one of its neighbours as the grid enumerates them,
    and visits no cell twice. *)
Theorem single_pass_returns_route `{JsNumber}
        (gn : Grid -> coord -> DiagonalMovement -> list coord)
        (fd : Finder) (start endc : coord) (gr : Grid) (fuel : nat)
        (q0 : list coord) :
  neighbour_service gn ->
  start <> endc ->
  isInside gr start = true ->
  untouched gr ->
  valid_path gn gr (diagonalMovement fd) q0 -> joins start endc q0 ->
  (S (length (all_cells gr)) <= fuel)%nat ->
  exists p,
    SinglePass.findPath gn fuel fd start endc gr = Ok p
    /\ valid_path gn gr (diagonalMovement fd) p
    /\ joins start endc p
    /\ NoDup p.
Proof.
  intros Hgn Hne Hstart Hfresh Hq0 Hj0 Hfuel.
  assert (Hend := @path_end_inside _ gn gr _ start endc q0 Hgn Hne Hq0 Hj0).
  destruct (@sp_findPath_links _ gn Hgn fd start endc gr fuel Hne Hstart Hend Hfresh Hfuel)
    as [[_ Hno] | Hp]; [|exact Hp].
  destruct (Hno q0 Hq0 Hj0).
Qed.

(** The finder with the staircase avoidance set, in binary64, on the
    grid of two rows. *)
Lemma single_pass_returns_route_witness :
  exists p,
    SinglePass.findPath (H := FloatNumber) Grid_getNeighbors 17 momentum_finder
                        (0, 0) (7, 0) two_routes = Ok p
    /\ valid_path Grid_getNeighbors (two_routes (H := FloatNumber))
                  (diagonalMovement momentum_finder) p
    /\ joins (0, 0) (7, 0) p
    /\ NoDup p.
Proof.
  apply (@single_pass_returns_route FloatNumber Grid_getNeighbors momentum_finder
           (0, 0) (7, 0) two_routes 17 straight_row).
  - exact Grid_getNeighbors_service.
  - discriminate.
  - reflexivity.
  - intros c. repeat split.
  - simpl. repeat split; vm_compute; auto.
  - split; reflexivity.
  - vm_compute. apply le_n.
Defined.

(** X13. The single-pass finder, whatever its options and whatever the
    arithmetic: on a grid no search has touched, for distinct start and
    end cells inside the grid, if no path joins the start to the end then
    findPath, given a loop turn more than the grid has cells, returns the
    empty array. *)
Theorem single_pass_unreachable_empty `{JsNumber}
        (gn : Grid -> coord -> DiagonalMovement -> list coord)
        (fd : Finder) (start endc : coord) (gr : Grid) (fuel : nat) :
  neighbour_service gn ->
  start <> endc ->
  isInside gr start = true -> isInside gr endc = true ->
  untouched gr ->
  (forall q, valid_path gn gr (diagonalMovement fd) q -> joins start endc q -> False) ->
  (S (length (all_cells gr)) <= fuel)%nat ->
  SinglePass.findPath gn fuel fd start endc gr = Ok [].
Proof.
  intros Hgn Hne Hstart Hend Hfresh Hno Hfuel.
  destruct (@sp_findPath_links _ gn Hgn fd start endc gr fuel Hne Hstart Hend Hfresh Hfuel)
    as [[Hrun _] | (p & _ & Hv & Hj & _)]; [exact Hrun|].
  destruct (Hno p Hv Hj).
Qed.

Lemma single_pass_unreachable_empty_witness :
  SinglePass.findPath (H := FloatNumber) Grid_getNeighbors 7 momentum_finder
                      (0, 0) (2, 1) walled = Ok [].
Proof.
  apply (@single_pass_unreachable_empty FloatNumber Grid_getNeighbors momentum_finder
           (0, 0) (2, 1) walled 7).
  - exact Grid_getNeighbors_service.
  - discriminate.
  - reflexivity.
  - reflexivity.
  - intros c. repeat split.
  - intros q Hq [Hhd Hlast]. destruct q as [|a p]; [discriminate|].
    injection Hhd as ->.
    assert (H0 : fst ((2, 1) : coord) = 0).
    { rewrite <- Hlast.
      apply (walled_left (diagonalMovement momentum_finder)); [reflexivity|exact Hq]. }
    discriminate.
  - vm_compute. apply le_n.
Defined.

(** X14. The single-pass finder asked for the path from a cell to
    itself, the cell inside the grid and without a parent reference:
    whatever the options, the arithmetic and the rest of the grid, it
    returns the path of that one cell. *)
Theorem single_pass_same_cell `{JsNumber}
        (gn : Grid -> coord -> DiagonalMovement -> list coord)
        (fd : Finder) (c : coord) (gr : Grid) (fuel : nat) :
  isInside gr c = true ->
  parent (nodes gr c) = None ->
  SinglePass.findPath gn (S fuel) fd c c gr = Ok [c].
Proof.
  intros Hin Hpar. unfold SinglePass.findPath, getNodeAt. rewrite Hin. cbn [bind].
  unfold heap_push. cbn [SinglePass.search_loop nodes with_nodes app].
  cbn [heap_pop heap_min remove_first]. rewrite !coord_eqb_refl.
  cbn [nodes with_nodes].
  unfold backtrace. cbn [backtrace_loop].
  rewrite !modify_same. cbn [set_closed set_opened set_f set_g parent]. rewrite Hpar.
  reflexivity.
Qed.

Lemma single_pass_same_cell_witness :
  SinglePass.findPath (H := FloatNumber) Grid_getNeighbors 1 (AStarFinder no_options)
                      (1, 1) (1, 1) (new_Grid 3 3 []) = Ok [(1, 1)].
Proof.
  apply (@single_pass_same_cell FloatNumber Grid_getNeighbors (AStarFinder no_options)
           (1, 1) (new_Grid 3 3 []) 0); reflexivity.
Defined.

(** The single-pass finder in exact arithmetic, with the staircase
    avoidance off, weight 1 and a heuristic that is finite and
    consistent, returns a path of least cost. *)
Lemma single_pass_exact `{ExactArith}
        (gn : Grid -> coord -> DiagonalMovement -> list coord)
        (fd : Finder) (start endc : coord) (gr : Grid) (fuel : nat)
        (q0 : list coord) :
  neighbour_service gn ->
  truthy_flag (avoidStaircase fd) = false ->
  weight fd = of_Z 1 ->
  consistent gn fd gr endc ->
  start <> endc ->
  isInside gr start = true ->
  untouched gr ->
  valid_path gn gr (diagonalMovement fd) q0 -> joins start endc q0 ->
  (S (length (all_cells gr)) <= fuel)%nat ->
  exists p,
    SinglePass.findPath gn fuel fd start endc gr = Ok p
    /\ valid_path gn gr (diagonalMovement fd) p
    /\ joins start endc p
    /\ forall q, valid_path gn gr (diagonalMovement fd) q -> joins start endc q ->
                 nle (path_cost p) (path_cost q).
Proof.
  intros Hgn Hstair Hweight Hcons Hne Hstart Hfresh Hq0 Hj0 Hfuel.
  assert (Hend := @path_end_inside _ gn gr _ start endc q0 Hgn Hne Hq0 Hj0).
  assert (Hsub : subgrid gr gr) by (split; [reflexivity|]; split; auto).
  assert (Hclean : clean start gr None).
  { split; [apply Hfresh|]. split; [|apply Hfresh].
    intros c _ _ _. destruct (Hfresh c) as (Ho & Hc & Hh & _). auto. }
  unfold SinglePass.findPath, getNodeAt. rewrite Hstart, Hend. cbn [bind].
  destruct (search_from_start Hgn (of_Z 0) Hstair Hweight Hne Hcons Hstart Hsub Hclean
                              Hfuel) as (exit & Hrun & Hpost).
  assert (Hsim := @sp_loop_sim _ gn (of_Z 0) fd Hstair endc fuel fuel
                               (start_state gr start)).
  rewrite Hrun in Hsim.
  assert (Hdir : forall c, encoded_direction
                   (direction (nodes (st_grid (start_state gr start)) c)) = false).
  { intros c. unfold start_state. cbn [st_grid nodes with_nodes].
    destruct (coord_eq_dec start c) as [->|Hc].
    - rewrite modify_same. apply Hfresh.
    - rewrite (modify_other _ _ Hc). apply Hfresh. }
  specialize (Hsim Hdir).
  destruct exit as [st'|st'].
  - destruct (found_path Hgn Hne Hcons Hsub Hpost)
      as (p & Hv & Hj & _ & _ & Hback & Hbest).
    exists p. split; [|auto].
    rewrite <- (Hback fuel) by lia. rewrite <- Hsim. reflexivity.
  - destruct (Hpost q0 Hq0 Hj0).
Qed.


(* ===================================================================== *)
(** ** A path of cells, compressed and expanded again *)
(* ===================================================================== *)

(** A path of neighbouring cells is a path of runs. *)
Lemma neighbouring_runs (p : list coord) :
  forall a t, p = a :: t -> neighbouring p ->
  exists runs, wf_runs None runs /\ p = a :: cells_after a runs.
Proof.
  induction p as [|a' p IH]; intros a t Hp Hn; [discriminate|].
  injection Hp as -> ->.
  destruct t as [|b t].
  - exists []. split; simpl; auto.
  - destruct Hn as (Hx & Hy & Hab & Hn).
    destruct (IH b t eq_refl Hn) as (runs & Hwf & Hruns).
    set (u := (fst b - fst a, snd b - snd a)).
    assert (Hu : compass u).
    { unfold compass, u. cbn [fst snd]. split; [lia|]. split; [lia|].
      intros Heq. injection Heq as H1 H2. apply Hab.
      destruct a, b; cbn [fst snd] in *. f_equal; lia. }
    assert (Hb : shift a u = b).
    { unfold shift, u. destruct a, b; cbn [fst snd]. f_equal; lia. }
    destruct runs as [|[v n] rest].
    + exists [(u, 1%nat)]. split.
      * cbn [wf_runs]. split; [assumption|]. split; [lia|]. split; [discriminate|exact I].
      * rewrite Hruns. cbn [cells_after steps app]. now rewrite Hb.
    + destruct Hwf as (Hv & Hn1 & _ & Hrest).
      destruct (coord_eq_dec u v) as [Heq|Huv].
      * subst v. exists ((u, S n) :: rest). split.
        -- cbn [wf_runs]. split; [assumption|]. split; [lia|].
           split; [discriminate|assumption].
        -- rewrite Hruns. cbn [cells_after steps app].
           rewrite <- shift_n_S, Hb. reflexivity.
      * exists ((u, 1%nat) :: (v, n) :: rest). split.
        -- cbn [wf_runs]. split; [assumption|]. split; [lia|].
           split; [discriminate|]. split; [assumption|]. split; [assumption|].
           split; [congruence|assumption].
        -- rewrite Hruns. cbn [cells_after steps app].
           rewrite shift_n_1, Hb. reflexivity.
Qed.

(** X16. In binary64, for every path of two cells or more in which each
    cell is a neighbour of the one before, diagonal neighbours included
    (the paths findPath returns are such): expandPath applied to the
    result of compressPath gives the path back. *)
Theorem expand_compress_cells (p : list coord) :
  (2 <= length p)%nat ->
  neighbouring p ->
  expandPath (compressPath (H := FloatNumber) p) = Ok p.
Proof.
  intros Hlen Hn. destruct p as [|a t]; [simpl in Hlen; lia|].
  destruct (neighbouring_runs (t := t) eq_refl Hn) as (runs & Hwf & Hp).
  assert (Hne : runs <> []).
  { intros ->. rewrite Hp in Hlen. simpl in Hlen. lia. }
  rewrite Hp. rewrite (compressPath_cells a Hne Hwf).
  unfold expandPath.
  destruct (Z.ltb_spec (Z.of_nat (length (vertices a runs))) 2) as [Hlt|_].
  - destruct runs as [|[u n] rest]; [congruence|].
    cbn [vertices] in Hlt.
    destruct (vertices_hd (shift_n a u n) rest) as [t' Ht']. rewrite Ht' in Hlt.
    cbn [length] in Hlt. lia.
  - now apply expand_segments_vertices with (prev := None).
Qed.

(** Two cells to the right, one down, one down to the right. *)
Lemma expand_compress_cells_witness :
  expandPath (compressPath (H := FloatNumber) [(0, 0); (1, 0); (2, 0); (2, 1); (3, 2)])
  = Ok [(0, 0); (1, 0); (2, 0); (2, 1); (3, 2)].
Proof.
  apply (expand_compress_cells [(0, 0); (1, 0); (2, 0); (2, 1); (3, 2)]).
  - simpl. lia.
  - simpl. repeat split; try lia; discriminate.
Defined.

(* ===================================================================== *)
(** ** The numbers of a finder *)
(* ===================================================================== *)

(** X17. In binary64, whatever the options handed to the constructor:
    the weight, the turn penalty and the momentum of the finder are
    neither 0 nor NaN; an option that is 0 or NaN is replaced by the
    default 1, 0.001 or 0.0001 as an omitted one is. *)
Theorem AStarFinder_numbers_truthy (opt : Options (H := FloatNumber)) :
  ntruthy (weight (AStarFinder opt)) = true
  /\ ntruthy (turnPenalty (AStarFinder opt)) = true
  /\ ntruthy (momentum (AStarFinder opt)) = true
  /\ (forall w, opt_weight opt = Some w -> ntruthy w = false ->
                weight (AStarFinder opt) = of_Z 1)
  /\ (forall t, opt_turnPenalty opt = Some t -> ntruthy t = false ->
                turnPenalty (AStarFinder opt) = lit_0_001)
  /\ (forall m, opt_momentum opt = Some m -> ntruthy m = false ->
                momentum (AStarFinder opt) = lit_0_0001).
Proof.
  assert (Hor : forall (v : option (num (JsNumber := FloatNumber))) d,
             ntruthy d = true -> ntruthy (num_or v d) = true).
  { intros [a|] d Hd; cbn [num_or]; [|assumption].
    destruct (ntruthy a) eqn:Ha; assumption. }
  unfold AStarFinder. cbn [weight turnPenalty momentum].
  split; [apply Hor; reflexivity|]. split; [apply Hor; reflexivity|].
  split; [apply Hor; reflexivity|].
  split; [|split]; intros x Hx Hf; rewrite Hx; cbn [num_or]; now rewrite Hf.
Qed.

Lemma AStarFinder_numbers_truthy_witness :
  weight (AStarFinder (H := FloatNumber)
            (mkOptions None None None (Some (of_Z 0)) None None (Some NaN) None
                       (Some (of_Z 0)) None None None)) = of_Z 1.
Proof.
  apply (AStarFinder_numbers_truthy
           (mkOptions None None None (Some (of_Z 0)) None None (Some NaN) None
                      (Some (of_Z 0)) None None None)) with (w := of_Z 0);
    reflexivity.
Defined.

(* ===================================================================== *)
(** ** Two arithmetics, one search

    The same search run on two number systems: as long as the values the
    search compares are ordered alike in both, the two runs pop, close
    and relax the same nodes and record the same parents. *)
(* ===================================================================== *)

(** The weighted estimate findPath stores as the h of a node. *)
Definition estimate `{JsNumber} (fd : Finder) (endc c : coord) : num :=
  (weight fd * hvalue fd endc c)%js.

(** A path from the start along neighbouring cells that visits no cell
    twice. *)
Definition simple_from `{JsNumber}
           (gn : Grid -> coord -> DiagonalMovement -> list coord)
           (gr : Grid) (dm : DiagonalMovement) (start : coord) (p : list coord) : Prop :=
  hd_error p = Some start /\ valid_path gn gr dm p /\ NoDup p.

Section SearchValues.
Variables A B : JsNumber.
Variable gn : Grid (H := A) -> coord -> DiagonalMovement -> list coord.
Variable fdA : Finder (H := A).
Variable fdB : Finder (H := B).
Variables start endc : coord.
Variable gr0 : Grid (H := A).

(** The values a search compares, in the two number systems: the cost of
    a simple path from the start, and that cost plus the estimate at the
    last cell of the path. *)
Inductive search_value : num (JsNumber := A) -> num (JsNumber := B) -> Prop :=
| sv_cost : forall p,
    simple_from gn gr0 (diagonalMovement fdA) start p ->
    search_value (path_cost (H := A) p) (path_cost (H := B) p)
| sv_total : forall p,
    simple_from gn gr0 (diagonalMovement fdA) start p ->
    search_value (path_cost (H := A) p + estimate fdA endc (last p start))%js
                 (path_cost (H := B) p + estimate fdB endc (last p start))%js.

(** The first number system orders the values of the search as the
    second one does. *)
Definition same_order : Prop :=
  forall x y x' y',
    search_value x y -> search_value x' y' ->
    nlt (JsNumber := A) x x' = nlt (JsNumber := B) y y'.
End SearchValues.

Arguments sv_cost {A B gn fdA} fdB {start} endc {gr0 p} _.
Arguments sv_total {A B gn fdA} fdB {start} endc {gr0 p} _.

(** Two nodes that agree on everything but their numbers. *)
Definition nsync {A B : JsNumber} (n : Node (H := A)) (m : Node (H := B)) : Prop :=
  walkable n = walkable m /\ opened n = opened m /\ closed n = closed m
  /\ parent n = parent m /\ direction n = direction m.

Lemma in_removelast_or_last {X : Type} (l : list X) (d x : X) :
  In x l -> In x (removelast l) \/ x = last l d.
Proof.
  induction l as [|a l IH]; [intros []|].
  destruct l as [|b l].
  - intros [<-|[]]. now right.
  - intros [<-|Hin].
    + left. now left.
    + destruct (IH Hin) as [H1|H1].
      * left. now right.
      * right. exact H1.
Qed.

(** The h findPath gives a node whose h is unset or already the
    estimate. *)
Lemma h_of_estimate `{JsNumber} (fd : Finder) (endc : coord) (s : Store) (n : coord) :
  h (s n) = None \/ h (s n) = Some (estimate fd endc n) ->
  h_of fd endc s n = estimate fd endc n.
Proof.
  unfold h_of. intros [->| ->]; [reflexivity|].
  cbv zeta. destruct (ntruthy (estimate fd endc n)); reflexivity.
Qed.

(** The cost of a path from the start extended by one step. *)
Lemma path_cost_snoc `{JsNumber} (p : list coord) (start u n : coord) :
  hd_error p = Some start -> last p start = u ->
  path_cost (p ++ [n]) = (path_cost p + step_cost u n)%js.
Proof.
  destruct p as [|a p]; [discriminate|]. intros _ Hlast.
  unfold path_cost. rewrite cost_from_snoc.
  rewrite <- Hlast. f_equal. f_equal.
  destruct p as [|b p]; [reflexivity|]. apply last_cons_default.
Qed.

Lemma remove_first_incl (c : coord) (l : list coord) : incl (remove_first c l) l.
Proof.
  induction l as [|d l IH]; [intros x []|]. cbn [remove_first].
  destruct (coord_eqb c d).
  - intros x Hx. now right.
  - intros x [<-|Hx]; [now left|right; now apply IH].
Qed.

Lemma heap_pop_some `{JsNumber} (s : Store) (open : list coord) u open' :
  heap_pop s open = Some (u, open') -> In u open /\ incl open' open.
Proof.
  destruct open as [|b rest]; [discriminate|]. cbn [heap_pop]. cbv zeta.
  intros Heq. injection Heq as <- <-. split; [apply heap_min_In|exact (@remove_first_incl (heap_min s b rest) (b :: rest))].
Qed.

(** With no direction recorded on any node, the calls of resolveTies
    leave the store as it is. *)
Lemma break_ties_value `{JsNumber} (tp : num) (fd : Finder) (atStart : bool) (s : Store)
      (added : list coord) (minF : option num) :
  (forall c, encoded_direction (direction (s c)) = false) ->
  break_ties tp fd atStart s added minF = Ok (s, truthy_flag (breakTies fd)).
Proof.
  intros Hdir. unfold break_ties.
  rewrite (resolveTies_unchanged tp s added minF (preferences fd)) by auto.
  destruct (truthy_flag (breakTies fd)); cbn [andb bind].
  - destruct (truthy_flag (ignoreStartTies fd) && negb atStart); reflexivity.
  - reflexivity.
Qed.

(** Two outcomes of the same kind, their results related. *)
Definition out_sync {X Y : Type} (R : X -> Y -> Prop) (oA : outcome X) (oB : outcome Y)
  : Prop :=
  match oA, oB with
  | Ok a, Ok b => R a b
  | Throw e, Throw e' => e = e'
  | Timeout, Timeout => True
  | _, _ => False
  end.

Section Lockstep.
Variables A B : JsNumber.
Variable gnA : Grid (H := A) -> coord -> DiagonalMovement -> list coord.
Variable gnB : Grid (H := B) -> coord -> DiagonalMovement -> list coord.
Hypothesis gnA_ok : neighbour_service gnA.
Hypothesis gn_same :
  forall (grA : Grid (H := A)) (grB : Grid (H := B)) a dm,
    width grA = width grB -> height grA = height grB ->
    (forall c, walkable (nodes grA c) = walkable (nodes grB c)) ->
    gnA grA a dm = gnB grB a dm.
Variable tpA : num (JsNumber := A).
Variable tpB : num (JsNumber := B).
Variable fdA : Finder (H := A).
Variable fdB : Finder (H := B).
Hypothesis stairA : truthy_flag (avoidStaircase fdA) = false.
Hypothesis stairB : truthy_flag (avoidStaircase fdB) = false.
Hypothesis same_dm : diagonalMovement fdA = diagonalMovement fdB.
Hypothesis same_ties : truthy_flag (breakTies fdA) = truthy_flag (breakTies fdB).
Variables start endc : coord.
Variable gr0 : Grid (H := A).
Hypothesis order : same_order gnA fdA fdB start endc gr0.

Local Abbreviation dm := (diagonalMovement fdA).
Local Abbreviation costA := (path_cost (H := A)).
Local Abbreviation costB := (path_cost (H := B)).
Local Abbreviation estA := (estimate fdA endc).
Local Abbreviation estB := (estimate fdB endc).
Local Abbreviation StoreA := (Store (H := A)).
Local Abbreviation StoreB := (Store (H := B)).

Section OneSearch.
(** The grid of the search under way: the first grid with some cells
    made unwalkable. *)
Variable gb : Grid (H := A).
Hypothesis gb_width : width gb = width gr0.
Hypothesis gb_height : height gb = height gr0.
Hypothesis gb_walk : forall c, walkable (nodes gb c) = true -> walkable (nodes gr0 c) = true.

Lemma gb_valid (p : list coord) : valid_path gnA gb dm p -> valid_path gnA gr0 dm p.
Proof.
  induction p as [|a p IH]; [auto|].
  destruct p as [|b p]; [auto|]. intros [Hab Hv]. split; [|now apply IH].
  revert Hab. apply (gn_mono gnA_ok); auto.
Qed.

(** The node [c] has been reached along the simple path [p], and both
    stores hold the numbers of that path. *)
Definition reached (sA : StoreA) (sB : StoreB) (c : coord) (p : list coord) : Prop :=
  simple_from gnA gb dm start p /\ last p start = c
  /\ (forall x, In x (removelast p) -> closed (sA x) = true)
  /\ g (sA c) = Some (costA p) /\ g (sB c) = Some (costB p)
  /\ (c <> start ->
      h (sA c) = Some (estA c) /\ h (sB c) = Some (estB c)
      /\ f (sA c) = Some (costA p + estA c)%js
      /\ f (sB c) = Some (costB p + estB c)%js)
  /\ (c = start ->
      p = [start] /\ f (sA c) = Some (of_Z 0) /\ f (sB c) = Some (of_Z 0)).

(** The two stores in step: [T] lists the nodes the search has opened. *)
Record Sync (sA : StoreA) (sB : StoreB) (T : list coord) : Prop := {
  sy_node : forall c, nsync (sA c) (sB c);
  sy_dir : forall c, encoded_direction (direction (sA c)) = false;
  sy_walk : forall c, walkable (sA c) = walkable (nodes gb c);
  sy_T : forall c, In c T -> opened (sA c) = true /\ exists p, reached sA sB c p;
  sy_fresh : forall c, ~ In c T -> isWalkableAt gb c = true ->
             opened (sA c) = false /\ h (sA c) = None /\ h (sB c) = None
}.

Lemma reached_simple0 sA sB c p :
  reached sA sB c p -> simple_from gnA gr0 dm start p.
Proof.
  intros ((Hhd & Hv & Hnd) & _). split; [exact Hhd|]. split; [now apply gb_valid|exact Hnd].
Qed.

(** The f of an opened node, in the two number systems, is a value of
    the search. *)
Lemma fval_search_value sA sB T c :
  Sync sA sB T -> In c T ->
  search_value gnA fdA fdB start endc gr0 (toNumber (f (sA c))) (toNumber (f (sB c))).
Proof.
  intros HS Hc. destruct (sy_T HS c Hc) as (_ & p & Hr).
  assert (Hs0 := reached_simple0 Hr).
  destruct Hr as (Hsim & Hlast & _ & _ & _ & Hne & Heq).
  destruct (coord_eq_dec c start) as [He|Hn].
  - destruct (Heq He) as (Hp & -> & ->). subst p. cbn [toNumber].
    exact (sv_cost fdB endc Hs0).
  - destruct (Hne Hn) as (_ & _ & -> & ->). cbn [toNumber]. rewrite <- Hlast.
    exact (sv_total fdB endc Hs0).
Qed.

(** The queue yields the same node in both runs. *)
Lemma heap_min_sync sA sB T :
  Sync sA sB T ->
  forall rest best,
    (forall c, In c (best :: rest) -> In c T) ->
    heap_min sA best rest = heap_min sB best rest.
Proof.
  intros HS. induction rest as [|c rest IH]; intros best Hin; [reflexivity|].
  cbn [heap_min].
  rewrite (order (@fval_search_value _ _ _ c HS (Hin c (or_intror (or_introl eq_refl))))
                 (@fval_search_value _ _ _ best HS (Hin best (or_introl eq_refl)))).
  destruct (nlt (toNumber (f (sB c))) (toNumber (f (sB best)))).
  - apply IH. intros x [<-|Hx]; apply Hin; simpl; auto.
  - apply IH. intros x [<-|Hx]; apply Hin; simpl; auto.
Qed.

Lemma heap_pop_sync sA sB T open :
  Sync sA sB T -> (forall c, In c open -> In c T) ->
  heap_pop sA open = heap_pop sB open.
Proof.
  intros HS Hin. destruct open as [|c rest]; [reflexivity|].
  cbn [heap_pop]. cbv zeta. now rewrite (@heap_min_sync _ _ _ HS rest c).
Qed.

(** Closing a node keeps the stores in step. *)
Lemma Sync_close sA sB T u :
  Sync sA sB T ->
  Sync (modify sA u (set_closed true)) (modify sB u (set_closed true)) T.
Proof.
  intros HS.
  assert (Hfield : forall c,
    walkable (modify sA u (set_closed true) c) = walkable (sA c)
    /\ opened (modify sA u (set_closed true) c) = opened (sA c)
    /\ parent (modify sA u (set_closed true) c) = parent (sA c)
    /\ direction (modify sA u (set_closed true) c) = direction (sA c)
    /\ g (modify sA u (set_closed true) c) = g (sA c)
    /\ h (modify sA u (set_closed true) c) = h (sA c)
    /\ f (modify sA u (set_closed true) c) = f (sA c)
    /\ (closed (sA c) = true -> closed (modify sA u (set_closed true) c) = true)).
  { intros c. destruct (coord_eq_dec u c) as [->|Hn].
    - rewrite modify_same. destruct (sA c); cbn; auto 10.
    - rewrite modify_other by assumption. auto 10. }
  assert (HfieldB : forall c,
    walkable (modify sB u (set_closed true) c) = walkable (sB c)
    /\ opened (modify sB u (set_closed true) c) = opened (sB c)
    /\ parent (modify sB u (set_closed true) c) = parent (sB c)
    /\ direction (modify sB u (set_closed true) c) = direction (sB c)
    /\ g (modify sB u (set_closed true) c) = g (sB c)
    /\ h (modify sB u (set_closed true) c) = h (sB c)
    /\ f (modify sB u (set_closed true) c) = f (sB c)).
  { intros c. destruct (coord_eq_dec u c) as [->|Hn].
    - rewrite modify_same. destruct (sB c); cbn; auto 10.
    - rewrite modify_other by assumption. auto 10. }
  constructor.
  - intros c. destruct (sy_node HS c) as (Hw & Ho & Hc & Hp & Hd). unfold nsync.
    destruct (Hfield c) as (-> & -> & -> & -> & _).
    destruct (HfieldB c) as (-> & -> & -> & -> & _).
    repeat split; auto.
    destruct (coord_eq_dec u c) as [->|Hn].
    + rewrite !modify_same. destruct (sA c), (sB c); reflexivity.
    + rewrite !modify_other by assumption. exact Hc.
  - intros c. destruct (Hfield c) as (_ & _ & _ & -> & _). apply (sy_dir HS).
  - intros c. destruct (Hfield c) as (-> & _). apply (sy_walk HS).
  - intros c Hc. destruct (sy_T HS c Hc) as (Ho & p & Hr).
    destruct (Hfield c) as (_ & -> & _ & _ & Hg & Hh & Hf & _).
    destruct (HfieldB c) as (_ & _ & _ & _ & HgB & HhB & HfB).
    split; [exact Ho|]. exists p.
    destruct Hr as (Hsim & Hlast & Hcl & HgA & HgB' & Hne & Heq).
    unfold reached. rewrite Hg, Hh, Hf, HgB, HhB, HfB.
    repeat split; auto.
    + apply Hsim.
    + apply Hsim.
    + apply Hsim.
    + intros x Hx. apply Hfield. now apply Hcl.
    + now apply Hne.
    + now apply Hne.
    + now apply Hne.
    + now apply Hne.
    + now apply Heq.
    + now apply Heq.
    + now apply Heq.
  - intros c Hc Hw. destruct (sy_fresh HS c Hc Hw) as (Ho & Hh & HhB).
    destruct (Hfield c) as (_ & -> & _ & _ & _ & -> & _).
    destruct (HfieldB c) as (_ & _ & _ & _ & _ & -> & _). auto.
Qed.

(** Writing the numbers of a simple path to [n] into the node [n] keeps
    the stores in step. *)
Lemma Sync_update sA sB T (sA' : StoreA) (sB' : StoreB) n p T' :
  Sync sA sB T ->
  (forall c, c <> n -> sA' c = sA c) -> (forall c, c <> n -> sB' c = sB c) ->
  nsync (sA' n) (sB' n) ->
  direction (sA' n) = direction (sA n) -> walkable (sA' n) = walkable (sA n) ->
  closed (sA' n) = closed (sA n) -> opened (sA' n) = true ->
  n <> start ->
  simple_from gnA gb dm start p -> last p start = n ->
  (forall x, In x (removelast p) -> closed (sA x) = true) ->
  g (sA' n) = Some (costA p) -> g (sB' n) = Some (costB p) ->
  h (sA' n) = Some (estA n) -> h (sB' n) = Some (estB n) ->
  f (sA' n) = Some (costA p + estA n)%js -> f (sB' n) = Some (costB p + estB n)%js ->
  (forall c, In c T' <-> In c T \/ c = n) ->
  Sync sA' sB' T'.
Proof.
  intros HS HoA HoB Hns Hdir Hwalk Hcl Hop Hne Hsim Hlast Hpre HgA HgB HhA HhB HfA HfB HT.
  assert (Hclosed : forall x, closed (sA' x) = closed (sA x)).
  { intros x. destruct (coord_eq_dec x n) as [->|Hx]; [exact Hcl|now rewrite HoA]. }
  constructor.
  - intros c. destruct (coord_eq_dec c n) as [->|Hc]; [exact Hns|].
    rewrite HoA, HoB by assumption. apply (sy_node HS).
  - intros c. destruct (coord_eq_dec c n) as [->|Hc].
    + rewrite Hdir. apply (sy_dir HS).
    + rewrite HoA by assumption. apply (sy_dir HS).
  - intros c. destruct (coord_eq_dec c n) as [->|Hc].
    + rewrite Hwalk. apply (sy_walk HS).
    + rewrite HoA by assumption. apply (sy_walk HS).
  - intros c Hc. destruct (coord_eq_dec c n) as [->|Hcn].
    + split; [exact Hop|]. exists p. unfold reached.
      split; [exact Hsim|]. split; [exact Hlast|].
      split; [intros x Hx; rewrite Hclosed; now apply Hpre|].
      split; [exact HgA|]. split; [exact HgB|].
      split; [intros _; auto|]. intros He. contradiction.
    + apply HT in Hc. destruct Hc as [Hc|Hc]; [|contradiction].
      destruct (sy_T HS c Hc) as (Ho & pc & Hr).
      rewrite HoA by assumption. split; [exact Ho|]. exists pc.
      unfold reached in *. rewrite HoA, HoB by assumption.
      destruct Hr as (H1 & H2 & H3 & H4).
      split; [exact H1|]. split; [exact H2|].
      split; [intros x Hx; rewrite Hclosed; now apply H3|exact H4].
  - intros c Hc Hw.
    assert (Hcn : c <> n) by (intros ->; apply Hc, HT; now right).
    assert (HcT : ~ In c T) by (intros Hin; apply Hc, HT; now left).
    rewrite HoA, HoB by assumption. now apply (sy_fresh HS).
Qed.

(** What a turn of the loop over the neighbours keeps in step. *)
Definition rx_sync (rA : Relax (H := A)) (rB : Relax (H := B)) (T : list coord) : Prop :=
  Sync (rx_nodes rA) (rx_nodes rB) T
  /\ rx_open rA = rx_open rB /\ rx_dirty rA = rx_dirty rB /\ rx_added rA = rx_added rB.

Lemma relax_sync (u n : coord) rA rB T :
  rx_sync rA rB T ->
  In u T -> closed (rx_nodes rA u) = true ->
  In n (gnA gb u dm) ->
  exists l,
    rx_sync (relax fdA endc u rA n) (relax fdB endc u rB n) (T ++ l)
    /\ rx_open (relax fdA endc u rA n) = rx_open rA ++ l
    /\ rx_dirty (relax fdA endc u rA n) = rx_dirty rA ++ pairs l
    /\ closed (rx_nodes (relax fdA endc u rA n) u) = true.
Proof.
  intros (HS & Hopen & Hdirty & Hadded) Hu Hcu Hn.
  destruct (sy_node HS n) as (Hwn & Hon & Hcn & Hpn & Hdn).
  unfold relax. rewrite <- Hcn.
  destruct (closed (rx_nodes rA n)) eqn:Hcl.
  { exists []. change (pairs []) with (@nil Z). rewrite !app_nil_r.
    unfold rx_sync. auto 10. }
  unfold tentative_g. rewrite stairA, stairB. cbv beta iota zeta.
  destruct (sy_T HS u Hu) as (_ & pu & Hru).
  destruct Hru as ((Hhd & Hval & Hnd) & Hlast & Hpre & HgA & HgB & _).
  rewrite HgA, HgB. cbn [toNumber].
  rewrite <- (path_cost_snoc (H := A) pu n Hhd Hlast).
  rewrite <- (path_cost_snoc (H := B) pu n Hhd Hlast).
  assert (Hall : forall x, In x pu -> closed (rx_nodes rA x) = true).
  { intros x Hx. destruct (in_removelast_or_last pu start x Hx) as [H1|H1].
    - now apply Hpre.
    - rewrite H1, Hlast. exact Hcu. }
  assert (Hne : n <> start).
  { intros ->. destruct pu as [|a pu]; [discriminate|].
    assert (a = start) by (simpl in Hhd; congruence). subst a.
    rewrite (Hall start (or_introl eq_refl)) in Hcl. discriminate. }
  assert (Hsim : simple_from gnA gb dm start (pu ++ [n])).
  { split; [|split].
    - destruct pu; [discriminate|exact Hhd].
    - destruct pu as [|a pu]; [discriminate|].
      clear - Hval Hlast Hn. revert a Hval Hlast.
      induction pu as [|b pu IH]; intros a Hv Hl.
      + simpl in *. subst. auto.
      + destruct Hv as [Hab Hv]. split; [assumption|].
        apply IH; [exact Hv|exact Hl].
    - apply NoDup_app; [exact Hnd|repeat constructor; auto|].
      intros x Hx [Heq|[]]. subst x. rewrite (Hall n Hx) in Hcl. discriminate. }
  assert (Hlast' : last (pu ++ [n]) start = n) by apply last_last.
  assert (Hpre' : forall x, In x (removelast (pu ++ [n])) -> closed (rx_nodes rA x) = true).
  { intros x. rewrite removelast_last. apply Hall. }
  rewrite <- Hon.
  destruct (opened (rx_nodes rA n)) eqn:Hop.
  - (* the neighbour is in the open list already *)
    assert (HnT : In n T).
    { destruct (in_dec coord_eq_dec n T) as [Hin|Hnin]; [assumption|].
      destruct (sy_fresh HS n Hnin (gn_walkable gnA_ok _ _ _ _ Hn)) as (Ho & _).
      congruence. }
    cbn [negb orb].
    destruct (sy_T HS n HnT) as (_ & pn & Hrn).
    assert (Hs0n := reached_simple0 Hrn).
    destruct Hrn as (Hsimn & Hlastn & Hpren & HgAn & HgBn & Hnen & _).
    destruct (Hnen Hne) as (HhA & HhB & _).
    rewrite HgAn, HgBn. cbn [toNumber].
    assert (Hs0 : simple_from gnA gr0 dm start (pu ++ [n])).
    { destruct Hsim as (H1 & H2 & H3). split; [exact H1|]. split; [now apply gb_valid|exact H3]. }
    rewrite (order (sv_cost fdB endc Hs0) (sv_cost fdB endc Hs0n)).
    destruct (nlt (costB (pu ++ [n])) (costB pn)).
    + exists []. change (pairs []) with (@nil Z). rewrite !app_nil_r.
      unfold rx_sync. cbn [rx_nodes rx_open rx_dirty rx_added].
      rewrite (h_of_estimate fdA endc (rx_nodes rA) n (or_intror HhA)).
      rewrite (h_of_estimate fdB endc (rx_nodes rB) n (or_intror HhB)).
      split; [|split; [reflexivity|split; [reflexivity|]]].
      * split; [|auto].
        apply (@Sync_update (rx_nodes rA) (rx_nodes rB) T _ _ n (pu ++ [n]) T HS);
          try (intros c Hc; apply modify_other; congruence);
          rewrite ?modify_same; cbn; auto.
        -- unfold nsync. cbn. repeat split; auto; congruence.
        -- intros c. split; [auto|]. intros [Hc| ->]; assumption.
      * destruct (coord_eq_dec n u) as [->|Hnu]; [congruence|].
        rewrite modify_other by assumption. exact Hcu.
    + exists []. change (pairs []) with (@nil Z). rewrite !app_nil_r.
      cbn [rx_nodes rx_open rx_dirty rx_added]. unfold rx_sync. auto 10.
  - (* the neighbour is met for the first time *)
    cbn [negb orb].
    assert (HnT : ~ In n T).
    { intros Hin. destruct (sy_T HS n Hin) as (Ho & _). congruence. }
    destruct (sy_fresh HS n HnT (gn_walkable gnA_ok _ _ _ _ Hn)) as (_ & HhA & HhB).
    rewrite (h_of_estimate fdA endc (rx_nodes rA) n (or_introl HhA)).
    rewrite (h_of_estimate fdB endc (rx_nodes rB) n (or_introl HhB)).
    exists [n]. unfold rx_sync. cbn [rx_nodes rx_open rx_dirty rx_added].
    split; [|split; [reflexivity|split]].
    + split; [|cbn [rx_open rx_dirty rx_added]; rewrite Hopen, Hdirty, Hadded; auto].
      apply (@Sync_update (rx_nodes rA) (rx_nodes rB) T _ _ n (pu ++ [n]) (T ++ [n]) HS);
        try (intros c Hc; rewrite !modify_other by congruence; reflexivity);
        rewrite ?modify_same; cbn; auto.
      * unfold nsync. cbn. repeat split; auto; congruence.
      * intros c. rewrite in_app_iff. simpl. intuition congruence.
    + unfold pairs. simpl. reflexivity.
    + destruct (coord_eq_dec n u) as [->|Hnu]; [congruence|].
      rewrite !modify_other by assumption. exact Hcu.
Qed.

Lemma fold_sync (u : coord) (ns : list coord) :
  forall rA rB T,
    rx_sync rA rB T -> In u T -> closed (rx_nodes rA u) = true ->
    (forall n, In n ns -> In n (gnA gb u dm)) ->
    exists l,
      rx_sync (fold_left (relax fdA endc u) ns rA) (fold_left (relax fdB endc u) ns rB)
              (T ++ l)
      /\ rx_open (fold_left (relax fdA endc u) ns rA) = rx_open rA ++ l
      /\ rx_dirty (fold_left (relax fdA endc u) ns rA) = rx_dirty rA ++ pairs l.
Proof.
  induction ns as [|n ns IH]; intros rA rB T Hrx Hu Hcu Hns.
  - exists []. change (pairs []) with (@nil Z). rewrite !app_nil_r. auto.
  - cbn [fold_left].
    destruct (@relax_sync u n rA rB T Hrx Hu Hcu (Hns n (or_introl eq_refl)))
      as (l1 & Hrx1 & Hopen1 & Hdirty1 & Hcu1).
    destruct (IH _ _ _ Hrx1 (in_or_app _ _ _ (or_introl Hu)) Hcu1
                 (fun m Hm => Hns m (or_intror Hm)))
      as (l2 & Hrx2 & Hopen2 & Hdirty2).
    exists (l1 ++ l2). rewrite app_assoc. split; [exact Hrx2|].
    rewrite Hopen2, Hopen1, Hdirty2, Hdirty1. unfold pairs.
    rewrite flat_map_app, !app_assoc. auto.
Qed.

(** The states of the two loops in step. *)
Definition st_sync (stA : Search (H := A)) (stB : Search (H := B)) (T : list coord) : Prop :=
  width (st_grid stA) = width gb /\ height (st_grid stA) = height gb
  /\ width (st_grid stB) = width gb /\ height (st_grid stB) = height gb
  /\ Sync (nodes (st_grid stA)) (nodes (st_grid stB)) T
  /\ st_open stA = st_open stB /\ (forall c, In c (st_open stA) -> In c T)
  /\ st_dirty stA = pairs T /\ st_dirty stB = pairs T
  /\ st_atStartNode stA = st_atStartNode stB /\ st_ties stA = st_ties stB
  /\ hd_error T = Some start.

(** The two loops are left the same way. *)
Definition exit_sync (eA : LoopExit (H := A)) (eB : LoopExit (H := B)) : Prop :=
  match eA, eB with
  | Found a, Found b => exists T, st_sync a b T /\ In endc T
  | Exhausted a, Exhausted b => st_ties a = st_ties b
  | _, _ => False
  end.

Lemma loop_sync (fuel : nat) :
  forall stA stB T,
    st_sync stA stB T ->
    out_sync exit_sync (search_loop gnA tpA fuel fdA endc stA)
                       (search_loop gnB tpB fuel fdB endc stB).
Proof.
  induction fuel as [|k IH]; intros stA stB T
    (HwA & HhA & HwB & HhB & HS & Hopen & HopT & HdA & HdB & Hat & Hties & HTs).
  - cbn [search_loop]. rewrite <- Hopen, <- (@heap_pop_sync _ _ T (st_open stA) HS HopT).
    destruct (heap_pop (nodes (st_grid stA)) (st_open stA)) as [[u open']|];
      cbn [out_sync exit_sync]; auto.
  - cbn [search_loop]. rewrite <- Hopen, <- (@heap_pop_sync _ _ T (st_open stA) HS HopT).
    destruct (heap_pop (nodes (st_grid stA)) (st_open stA)) as [[u open']|] eqn:Hpop;
      [|cbn [out_sync exit_sync]; auto].
    destruct (@heap_pop_some _ _ _ _ _ Hpop) as (Hu & Hincl).
    assert (HuT : In u T) by auto.
    assert (HS1 := @Sync_close _ _ _ u HS).
    cbv zeta. destruct (coord_eqb u endc) eqn:Hue.
    + cbn [out_sync exit_sync]. exists T. split.
      * unfold st_sync.
        cbn [st_grid st_open st_dirty st_atStartNode st_ties with_nodes width height nodes].
        split; [exact HwA|]. split; [exact HhA|]. split; [exact HwB|]. split; [exact HhB|].
        split; [exact HS1|]. split; [reflexivity|]. split; [intros c Hc; auto|]. auto 10.
      * destruct (coord_eqb_spec u endc); [now subst|discriminate].
    + set (grA1 := with_nodes (st_grid stA)
                     (modify (nodes (st_grid stA)) u (set_closed true))).
      set (grB1 := with_nodes (st_grid stB)
                     (modify (nodes (st_grid stB)) u (set_closed true))).
      assert (HnA : gnA grA1 u dm = gnA gb u dm).
      { apply (gn_ext gnA_ok); cbn; auto. intros c. apply (sy_walk HS1). }
      assert (HnB : gnB grB1 u (diagonalMovement fdB) = gnA gb u dm).
      { rewrite <- same_dm, <- HnA. symmetry. apply gn_same; cbn; try congruence.
        intros c. apply (sy_node HS1). }
      rewrite HnA, HnB.
      assert (Hcu : closed (modify (nodes (st_grid stA)) u (set_closed true) u) = true).
      { rewrite modify_same. reflexivity. }
      destruct (@fold_sync u (gnA gb u dm)
                  (mkRelax (nodes grA1) open' (st_dirty stA) [] None (st_minF stA))
                  (mkRelax (nodes grB1) open' (st_dirty stB) [] None (st_minF stB)) T)
        as (l & (HS2 & Hop2 & Hdi2 & Had2) & Hopen2 & Hdirty2); auto.
      { unfold rx_sync. cbn [rx_nodes rx_open rx_dirty rx_added grA1 grB1 with_nodes nodes].
        split; [exact HS1|]. split; [reflexivity|]. split; [congruence|reflexivity]. }
      rewrite (@break_ties_value A tpA fdA _ _ _ _ (sy_dir HS2)).
      assert (HdirB : forall c, encoded_direction
                (direction (rx_nodes (fold_left (relax fdB endc u) (gnA gb u dm)
                   (mkRelax (nodes grB1) open' (st_dirty stB) [] None (st_minF stB))) c))
                = false).
      { intros c. destruct (sy_node HS2 c) as (_ & _ & _ & _ & <-). apply (sy_dir HS2). }
      rewrite (@break_ties_value B tpB fdB _ _ _ _ HdirB). cbn [bind].
      apply (IH _ _ (T ++ l)).
      unfold st_sync. cbn [st_grid st_open st_dirty st_atStartNode st_ties with_nodes
                           width height nodes].
      split; [exact HwA|]. split; [exact HhA|]. split; [exact HwB|]. split; [exact HhB|].
      split; [exact HS2|]. split; [exact Hop2|].
      split.
      { intros c. rewrite Hopen2. cbn [rx_open]. rewrite !in_app_iff.
        intros [Hc|Hc]; auto. }
      split.
      { rewrite Hdirty2. cbn [rx_dirty]. rewrite HdA. unfold pairs.
        now rewrite flat_map_app. }
      split.
      { rewrite <- Hdi2, Hdirty2. cbn [rx_dirty]. rewrite HdA. unfold pairs.
        now rewrite flat_map_app. }
      split; [reflexivity|].
      split; [rewrite same_ties, Hties, Hat, Had2; reflexivity|].
      destruct T; [discriminate|exact HTs].
Qed.
End OneSearch.

(** *** The searches one after the other *)

Variable N : Z.
Hypothesis same_max :
  forall n, 0 <= n <= N ->
            nlt (maxIterations fdA) (of_Z n) = nlt (maxIterations fdB) (of_Z n).
Hypothesis start_inside : isInside gr0 start = true.
Hypothesis end_inside : isInside gr0 endc = true.

Lemma backtrace_sync (sA : StoreA) (sB : StoreB) (fuel : nat) (node : coord) :
  (forall c, parent (sA c) = parent (sB c)) ->
  backtrace sA fuel node = backtrace sB fuel node.
Proof.
  intros Hp. unfold backtrace. f_equal. generalize [node]. revert node.
  induction fuel as [|k IH]; intros node path; cbn [backtrace_loop]; rewrite Hp;
    destruct (parent (sB node)); auto.
Qed.




Lemma isInside_size (grA : Grid (H := A)) (grB : Grid (H := B)) (c : coord) :
  width grA = width grB -> height grA = height grB -> isInside grA c = isInside grB c.
Proof. intros Hw Hh. unfold isInside. now rewrite Hw, Hh. Qed.

Lemma isInside_gr0 (gr : Grid (H := A)) (c : coord) :
  width gr = width gr0 -> height gr = height gr0 -> isInside gr c = isInside gr0 c.
Proof. intros Hw Hh. unfold isInside. now rewrite Hw, Hh. Qed.

(** The grids of the two runs before a search; [t] is the cell about to
    be made unwalkable, if any. *)
Definition ready (grA : Grid (H := A)) (grB : Grid (H := B)) (t : option coord) : Prop :=
  width grA = width gr0 /\ height grA = height gr0
  /\ width grB = width gr0 /\ height grB = height gr0
  /\ (forall c, nsync (nodes grA c) (nodes grB c))
  /\ (forall c, walkable (nodes grA c) = true -> walkable (nodes gr0 c) = true)
  /\ (forall c, encoded_direction (direction (nodes grA c)) = false)
  /\ (forall c, c <> start -> Some c <> t -> isWalkableAt grA c = true ->
                opened (nodes grA c) = false
                /\ h (nodes grA c) = None /\ h (nodes grB c) = None).


Lemma start_sync grA grB :
  ready grA grB None ->
  st_sync grA (start_state grA start) (start_state grB start) [start].
Proof.
  intros (HwA & HhA & HwB & HhB & Hn & Hw & Hd & Hc).
  unfold st_sync, start_state.
  cbn [st_grid st_open st_dirty st_atStartNode st_ties with_nodes width height nodes].
  split; [reflexivity|]. split; [reflexivity|].
  split; [congruence|]. split; [congruence|].
  split; [|split; [reflexivity|split; [|auto 10]]].
  - constructor.
    + intros c. destruct (coord_eq_dec start c) as [<-|Hsc].
      * rewrite !modify_same. destruct (Hn start) as (H1 & H2 & H3 & H4 & H5).
        unfold nsync. cbn. auto.
      * rewrite !modify_other by assumption. apply Hn.
    + intros c. destruct (coord_eq_dec start c) as [<-|Hsc].
      * rewrite modify_same. cbn. apply Hd.
      * rewrite modify_other by assumption. apply Hd.
    + intros c. destruct (coord_eq_dec start c) as [<-|Hsc].
      * rewrite modify_same. reflexivity.
      * rewrite modify_other by assumption. reflexivity.
    + intros c [<-|[]]. rewrite !modify_same. cbn. split; [reflexivity|].
      exists [start]. unfold reached. rewrite !modify_same. cbn.
      split; [split; [reflexivity|split; [exact I|repeat constructor; auto]]|].
      split; [reflexivity|]. split; [intros x []|].
      split; [reflexivity|]. split; [reflexivity|].
      split; [intros Hne; now destruct Hne|auto].
    + intros c Hnin Hwalk.
      assert (Hcs : c <> start) by (intros ->; apply Hnin; now left).
      rewrite !modify_other by congruence. apply Hc; auto. discriminate.
  - intros c Hin. exact Hin.
Qed.



(** The single-pass finder agrees in the two runs as well. *)
Lemma single_pass_sync (fuel : nat) grA grB :
  ready grA grB None ->
  SinglePass.findPath gnA fuel fdA start endc grA
  = SinglePass.findPath gnB fuel fdB start endc grB.
Proof.
  intros Hready.
  assert (Hr := Hready).
  destruct Hr as (HwA & HhA & HwB & HhB & Hnodes & Hwalk & Hdir & Hclean).
  assert (HsA : isInside grA start = true) by (rewrite isInside_gr0; auto).
  assert (HeA : isInside grA endc = true) by (rewrite isInside_gr0; auto).
  assert (HsB : isInside grB start = true).
  { rewrite <- (isInside_size grA grB) by congruence. exact HsA. }
  assert (HeB : isInside grB endc = true).
  { rewrite <- (isInside_size grA grB) by congruence. exact HeA. }
  unfold SinglePass.findPath, getNodeAt. rewrite HsA, HeA, HsB, HeB. cbn [bind].
  assert (Hst := start_sync Hready).
  assert (HS := Hst).
  destruct HS as (_ & _ & _ & _ & HS & _).
  assert (HdirB : forall c, encoded_direction
                    (direction (nodes (st_grid (start_state grB start)) c)) = false).
  { intros c. destruct (sy_node HS c) as (_ & _ & _ & _ & <-). apply (sy_dir HS). }
  assert (HsimA := @sp_loop_sim A gnA tpA fdA stairA endc fuel fuel
                                (start_state grA start) (sy_dir HS)).
  assert (HsimB := @sp_loop_sim B gnB tpB fdB stairB endc fuel fuel
                                (start_state grB start) HdirB).
  unfold start_state in HsimA, HsimB.
  cbn [st_grid st_open] in HsimA, HsimB. rewrite HsimA, HsimB.
  assert (Hloop := @loop_sync grA HwA HhA Hwalk fuel _ _ _ Hst).
  unfold start_state in Hloop.
  destruct (search_loop gnA tpA fuel fdA endc _) as [eA|eA|],
           (search_loop gnB tpB fuel fdB endc _) as [eB|eB|];
    cbn [out_sync] in Hloop; try contradiction.
  - destruct eA as [a|a], eB as [b|b]; try contradiction; [|reflexivity].
    destruct Hloop as (T & (_ & _ & _ & _ & HS' & _) & _).
    apply backtrace_sync. intros c. apply (sy_node HS').
  - now subst.
  - reflexivity.
Qed.

Section Recursion.
Variable fuel : nat.




End Recursion.
End Lockstep.

(* ===================================================================== *)
(** ** The program next to its run on exact numbers *)
(* ===================================================================== *)

(** The grid in another number system: its size, the walkability and the
    flags of its nodes, no number set. *)
Definition grid_as (A B : JsNumber) (gr : Grid (H := A)) : Grid (H := B) :=
  mkGrid (width gr) (height gr)
    (fun c => mkNode (walkable (nodes gr c)) None None None
                     (opened (nodes gr c)) (closed (nodes gr c)) (parent (nodes gr c))
                     (lastTurn (nodes gr c)) (lastTurnX (nodes gr c))
                     (lastTurnY (nodes gr c)) (direction (nodes gr c))).

(** The neighbour enumeration on the grids of another number system. *)
Definition neighbours_as (A B : JsNumber)
           (gn : Grid (H := A) -> coord -> DiagonalMovement -> list coord)
  : Grid (H := B) -> coord -> DiagonalMovement -> list coord :=
  fun gr => gn (grid_as A gr).

Arguments grid_as {A} B gr.
Arguments neighbours_as {A} B gn.

(** [fdx] is the finder [fd] on the rationals: the same movement policy
    and the same switches, with numbers of its own. *)
Definition exact_twin `{JsNumber} (fd : Finder) (fdx : Finder (H := RationalNumber)) : Prop :=
  diagonalMovement fd = diagonalMovement fdx
  /\ truthy_flag (avoidStaircase fdx) = false
  /\ truthy_flag (breakTies fd) = truthy_flag (breakTies fdx)
  /\ weight fdx = of_Z 1.

(** The heuristic of the exact finder is defined everywhere and
    consistent on the grid: its estimate at a cell is at most the cost of
    a step to a neighbour plus the estimate there. *)
Definition exact_consistent `{JsNumber}
           (gn : Grid -> coord -> DiagonalMovement -> list coord)
           (fd : Finder) (fdx : Finder (H := RationalNumber))
           (gr : Grid) (endc : coord) : Prop :=
  (forall c, rat_finite (hvalue fdx endc c))
  /\ forall a b,
      In b (gn gr a (diagonalMovement fd)) ->
      nle (H := RationalNumber) (hvalue fdx endc a)
          (step_cost a b + hvalue fdx endc b)%js.

Section ExactTwin.
Context {A : JsNumber}.
Variable gn : Grid (H := A) -> coord -> DiagonalMovement -> list coord.
Hypothesis gn_ok : neighbour_service gn.

Local Abbreviation gnx := (neighbours_as RationalNumber gn).

Lemma neighbours_as_service : neighbour_service gnx.
Proof.
  constructor.
  - intros gr a dm b Hb. exact (gn_walkable gn_ok _ _ _ _ Hb).
  - intros gr gr' a dm Hw Hh Hwalk. unfold neighbours_as.
    apply (gn_ext gn_ok); auto.
  - intros gr gr' a dm Hw Hh Hwalk. unfold neighbours_as.
    apply (gn_mono gn_ok); auto.
Qed.

Lemma neighbours_as_same (grA : Grid (H := A)) (grB : Grid (H := RationalNumber)) a dm :
  width grA = width grB -> height grA = height grB ->
  (forall c, walkable (nodes grA c) = walkable (nodes grB c)) ->
  gn grA a dm = gnx grB a dm.
Proof.
  intros Hw Hh Hwalk. unfold neighbours_as. apply (gn_ext gn_ok); auto.
Qed.

Lemma valid_path_as (gr : Grid (H := A)) dm (p : list coord) :
  valid_path gn gr dm p <-> valid_path gnx (grid_as RationalNumber gr) dm p.
Proof.
  assert (Hn : forall a, gn gr a dm = gnx (grid_as RationalNumber gr) a dm).
  { intros a. apply neighbours_as_same; reflexivity. }
  induction p as [|a p IH]; [tauto|].
  destruct p as [|b p]; [simpl; tauto|].
  change (In b (gn gr a dm) /\ valid_path gn gr dm (b :: p)
          <-> In b (gnx (grid_as RationalNumber gr) a dm)
              /\ valid_path gnx (grid_as RationalNumber gr) dm (b :: p)).
  rewrite <- Hn. tauto.
Qed.
End ExactTwin.


(* ===================================================================== *)
(** ** Whole numbers

    Without diagonal steps and with whole estimates every value of the
    search is a whole number; a number system that adds and compares the
    whole numbers up to the largest of them as the integers do orders
    the values of the search as every other such system. *)
(* ===================================================================== *)

(** Sums and comparisons of the whole numbers up to [M] are those of the
    integers. *)
Record whole_upto `{JsNumber} (M : Z) : Prop := {
  whole_add : forall a b, 0 <= a -> 0 <= b -> a + b <= M ->
                          (of_Z a + of_Z b)%js = of_Z (a + b);
  whole_lt : forall a b, 0 <= a <= M -> 0 <= b <= M ->
                         nlt (of_Z a) (of_Z b) = (a <? b)
}.

Lemma rat_of_Z_lt (a b : Z) :
  nlt (JsNumber := RationalNumber) (of_Z a) (of_Z b) = (a <? b).
Proof.
  destruct (Z.ltb_spec a b) as [Hlt|Hge].
  - apply rat_nlt_iff. change (Qlt (Qred (inject_Z a)) (Qred (inject_Z b))).
    rewrite !Qred_correct. now rewrite <- Zlt_Qlt.
  - apply (rat_of_Z_le Hge).
Qed.

Lemma rat_whole (M : Z) : whole_upto (H := RationalNumber) M.
Proof.
  constructor.
  - intros a b _ _ _. apply rat_of_Z_add.
  - intros a b _ _. apply rat_of_Z_lt.
Qed.

Lemma last_In {X : Type} (l : list X) (d : X) : l <> [] -> In (last l d) l.
Proof.
  induction l as [|a l IH]; [congruence|]. intros _.
  destruct l as [|b l]; [now left|]. right. apply IH. discriminate.
Qed.

Section WholeValues.
Variables A B : JsNumber.
Variable gn : Grid (H := A) -> coord -> DiagonalMovement -> list coord.
Hypothesis gn_ok : neighbour_service gn.
Variable fdA : Finder (H := A).
Variable fdB : Finder (H := B).
Variables start endc : coord.
Variable gr : Grid (H := A).
Variable M : Z.
Variable e : coord -> Z.
Hypothesis start_inside : isInside gr start = true.
Hypothesis wholeA : whole_upto (H := A) M.
Hypothesis wholeB : whole_upto (H := B) M.
Hypothesis orthogonal :
  forall a b, In b (gn gr a (diagonalMovement fdA)) ->
              (fst b - fst a =? 0) || (snd b - snd a =? 0) = true.
Hypothesis whole_estimate :
  forall c, isInside gr c = true ->
            0 <= e c /\ Z.of_nat (length (all_cells gr)) + e c <= M
            /\ estimate fdA endc c = of_Z (e c) /\ estimate fdB endc c = of_Z (e c).

Local Abbreviation dm := (diagonalMovement fdA).

Lemma valid_path_cells (p : list coord) :
  forall a, isInside gr a = true -> valid_path gn gr dm (a :: p) ->
            forall x, In x (a :: p) -> isInside gr x = true.
Proof.
  induction p as [|b p IH]; intros a Ha Hv x Hx.
  - destruct Hx as [<-|[]]. exact Ha.
  - destruct Hv as [Hab Hv]. destruct Hx as [<-|Hx]; [exact Ha|].
    apply (IH b); auto. apply isWalkableAt_inside. exact (gn_walkable gn_ok _ _ _ _ Hab).
Qed.

Lemma simple_length (p : list coord) :
  simple_from gn gr dm start p ->
  (1 <= length p <= length (all_cells gr))%nat /\ isInside gr (last p start) = true.
Proof.
  intros (Hhd & Hv & Hnd). destruct p as [|a p]; [discriminate|].
  assert (a = start) by (simpl in Hhd; congruence). subst a.
  assert (Hin := valid_path_cells start_inside Hv).
  split; [split; [simpl; lia|]|].
  - apply NoDup_incl_length; [exact Hnd|]. intros x Hx. apply In_all_cells. now apply Hin.
  - apply Hin. apply last_In. discriminate.
Qed.

(** The cost of a path of steps along the axes counts its steps. *)
Lemma cost_from_whole (H : JsNumber) (p : list coord) :
  whole_upto (H := H) M ->
  forall a k,
    valid_path gn gr dm (a :: p) -> 0 <= k -> k + Z.of_nat (length p) <= M ->
    cost_from (H := H) (of_Z k) (a :: p) = of_Z (k + Z.of_nat (length p)).
Proof.
  intros Hw. induction p as [|b p IH]; intros a k Hv Hk HM.
  - simpl. now rewrite Z.add_0_r.
  - destruct Hv as [Hab Hv].
    change (cost_from (of_Z k + step_cost a b)%js (b :: p)
            = of_Z (k + Z.of_nat (length (b :: p)))).
    unfold step_cost. rewrite (orthogonal _ _ Hab).
    change (length (b :: p)) with (S (length p)) in *.
    rewrite (whole_add Hw) by lia.
    rewrite IH by (auto; lia). f_equal. lia.
Qed.

(** Every value of the search is the same whole number in both number
    systems. *)
Lemma search_value_whole x y :
  search_value gn fdA fdB start endc gr x y ->
  exists k, 0 <= k <= M /\ x = of_Z k /\ y = of_Z k.
Proof.
  assert (Hcells : 0 <= e start /\ Z.of_nat (length (all_cells gr)) + e start <= M)
    by (destruct (whole_estimate start start_inside) as (H1 & H2 & _); auto).
  assert (Hcost : forall p, simple_from gn gr dm start p ->
            path_cost (H := A) p = of_Z (Z.of_nat (length p) - 1)
            /\ path_cost (H := B) p = of_Z (Z.of_nat (length p) - 1)).
  { intros p Hs. destruct (simple_length Hs) as ((H1 & H2) & _).
    destruct Hs as (Hhd & Hv & _). destruct p as [|a p]; [discriminate|].
    unfold path_cost. change (length (a :: p)) with (S (length p)) in *.
    rewrite !cost_from_whole by (auto; lia).
    split; f_equal; lia. }
  intros [p Hs|p Hs].
  - destruct (Hcost p Hs) as (-> & ->). destruct (simple_length Hs) as ((H1 & H2) & _).
    exists (Z.of_nat (length p) - 1). split; [lia|auto].
  - destruct (Hcost p Hs) as (-> & ->).
    destruct (simple_length Hs) as ((H1 & H2) & Hin).
    destruct (whole_estimate _ Hin) as (He0 & HeM & -> & ->).
    exists (Z.of_nat (length p) - 1 + e (last p start)).
    rewrite (whole_add wholeA), (whole_add wholeB) by lia.
    split; [lia|auto].
Qed.

Lemma same_order_whole : same_order gn fdA fdB start endc gr.
Proof.
  intros x y x' y' Hv Hv'.
  destruct (search_value_whole Hv) as (k & Hk & -> & ->).
  destruct (search_value_whole Hv') as (k' & Hk' & -> & ->).
  now rewrite (whole_lt wholeA), (whole_lt wholeB).
Qed.
End WholeValues.

(** *** binary64 on the whole numbers up to 24 *)

Lemma Z_cases (n : nat) (P : Z -> Prop) :
  (forall k, (k <= n)%nat -> P (Z.of_nat k)) ->
  forall a, 0 <= a <= Z.of_nat n -> P a.
Proof.
  intros HP a Ha. rewrite <- (Z2Nat.id a) by lia. apply HP. lia.
Qed.

(** Settles a goal [forall k, (k <= n)%nat -> P (Z.of_nat k)] case by
    case, for the [n] cases of [k]. *)
Tactic Notation "each_case" integer(n) tactic3(tac) :=
  let k := fresh "k" in
  let Hk := fresh "Hk" in
  intros k Hk; do n (destruct k as [|k]; [tac|]); exfalso; lia.

Lemma float_whole_24 : whole_upto (H := FloatNumber) 24.
Proof.
  constructor.
  - intros a b Ha Hb Hab.
    assert (Ha' : 0 <= a <= Z.of_nat 24) by lia.
    assert (Hb' : 0 <= b <= Z.of_nat 24) by lia.
    clear Ha Hb Hab. revert b Hb'. pattern a. revert a Ha'. apply Z_cases.
    each_case 25 (intros b Hb; pattern b; revert b Hb; apply Z_cases;
                  each_case 25 (vm_compute; reflexivity)).
  - intros a b Ha Hb.
    assert (Ha' : 0 <= a <= Z.of_nat 24) by lia.
    assert (Hb' : 0 <= b <= Z.of_nat 24) by lia.
    clear Ha Hb. revert b Hb'. pattern a. revert a Ha'. apply Z_cases.
    each_case 25 (intros b Hb; pattern b; revert b Hb; apply Z_cases;
                  each_case 25 (vm_compute; reflexivity)).
Qed.

(** Without diagonal movement the grid yields neighbours along the axes
    only. *)
Lemma never_orthogonal `{JsNumber} (gr : Grid) (a b : coord) :
  In b (Grid_getNeighbors gr a Never) ->
  (fst b - fst a =? 0) || (snd b - snd a =? 0) = true.
Proof.
  destruct a as [x y]. intros Hb.
  apply In_Grid_getNeighbors in Hb. cbv zeta in Hb. cbn [diagonal_open andb] in Hb.
  repeat destruct Hb as [Hb|Hb]; destruct Hb as [Hw ->]; try discriminate;
    cbn [fst snd]; apply orb_true_iff;
    [left|right|left|right]; apply Z.eqb_eq; lia.
Qed.

(** *** The default finder in binary64 on the grid of two rows

    From (0, 0) to (7, 0) every value of the search is a whole number
    below 24. *)

Lemma two_routes_consistent :
  exact_consistent Grid_getNeighbors (AStarFinder (H := FloatNumber) no_options)
                   (AStarFinder (H := RationalNumber) no_options) two_routes (7, 0).
Proof.
  split; [intros c; exact I|]. intros a b Hb.
  apply (manhattan_consistent (grid_as RationalNumber two_routes) (7, 0)).
  destruct a as [x y]. exact Hb.
Qed.

Lemma two_routes_same_order :
  same_order Grid_getNeighbors (AStarFinder (H := FloatNumber) no_options)
             (AStarFinder (H := RationalNumber) no_options) (0, 0) (7, 0) two_routes.
Proof.
  apply (@same_order_whole FloatNumber RationalNumber Grid_getNeighbors
           Grid_getNeighbors_service (AStarFinder no_options)
           (AStarFinder (H := RationalNumber) no_options) (0, 0) (7, 0) two_routes 24
           (fun c => Z.abs (fst c - 7) + Z.abs (snd c - 0))).
  - reflexivity.
  - exact float_whole_24.
  - apply rat_whole.
  - intros a b. apply never_orthogonal.
  - intros c Hc. apply In_all_cells in Hc. vm_compute in Hc.
    repeat destruct Hc as [Hc|Hc]; try contradiction; subst c;
      (split; [vm_compute; discriminate|]);
      (split; [vm_compute; discriminate|]);
      split; vm_compute; reflexivity.
Qed.



(* ===================================================================== *)
(** ** The single-pass finder beside its run on exact numbers *)
(* ===================================================================== *)

(** X15. The single-pass finder [fd] beside its twin [fdx] on the
    rationals, with the staircase avoidance off, a twin of weight 1 whose
    heuristic is consistent on the grid, and numbers that order the
    values the search compares as the rationals order those of the twin:
    on a grid no search has touched, for distinct start and end cells,
    the start inside the grid, if some path joins the start to the end
    then findPath, given a loop turn more than the grid has cells,
    returns a path from the start to the end along neighbouring cells
    whose exact cost is at most the exact cost of any such path. *)
Theorem single_pass_optimal `{JsNumber}
        (gn : Grid -> coord -> DiagonalMovement -> list coord)
        (fd : Finder) (fdx : Finder (H := RationalNumber))
        (start endc : coord) (gr : Grid) (fuel : nat) (q0 : list coord) :
  neighbour_service gn ->
  truthy_flag (avoidStaircase fd) = false ->
  exact_twin fd fdx ->
  exact_consistent gn fd fdx gr endc ->
  same_order gn fd fdx start endc gr ->
  start <> endc ->
  isInside gr start = true ->
  untouched gr ->
  valid_path gn gr (diagonalMovement fd) q0 -> joins start endc q0 ->
  (S (length (all_cells gr)) <= fuel)%nat ->
  exists p,
    SinglePass.findPath gn fuel fd start endc gr = Ok p
    /\ valid_path gn gr (diagonalMovement fd) p
    /\ joins start endc p
    /\ forall q, valid_path gn gr (diagonalMovement fd) q -> joins start endc q ->
                 nle (H := RationalNumber) (path_cost p) (path_cost q).
Proof.
  intros Hgn Hstair (Hdm & HstairX & Hties & Hweight) (Hfin & Hcons) Horder
         Hne Hstart Hfresh Hq0 Hj0 Hfuel.
  set (grx := grid_as RationalNumber gr).
  assert (Hend : isInside gr endc = true).
  { destruct Hj0 as [Hhd Hlast]. destruct q0 as [|a q0]; [discriminate|].
    assert (a = start) by (simpl in Hhd; congruence). subst a.
    destruct q0 as [|b q0]; [simpl in Hlast; congruence|].
    apply isWalkableAt_inside. rewrite <- Hlast.
    now apply (valid_path_last_walkable (gn := gn) (dm := diagonalMovement fd)). }
  assert (Hgnx := neighbours_as_service Hgn).
  assert (HconsX : consistent (neighbours_as RationalNumber gn) fdx grx endc).
  { split; [exact Hfin|]. intros a b Hb. apply Hcons.
    rewrite Hdm. revert Hb. unfold neighbours_as, grx.
    rewrite (gn_ext Hgn (grid_as _ (grid_as RationalNumber gr)) gr a
                    (diagonalMovement fdx)); auto. }
  assert (HfreshX : untouched grx).
  { intros c. destruct (Hfresh c) as (Ho & Hc & Hh & Hp & Hd). cbn. auto. }
  assert (Hq0X : valid_path (neighbours_as RationalNumber gn) grx (diagonalMovement fdx) q0).
  { rewrite <- Hdm. exact (proj1 (valid_path_as Hgn gr (diagonalMovement fd) q0) Hq0). }
  destruct (@single_pass_exact RationalNumber RationalExact
              (neighbours_as RationalNumber gn) fdx start endc grx fuel q0
              Hgnx HstairX Hweight HconsX Hne Hstart HfreshX Hq0X Hj0 Hfuel)
    as (p & Hrun & Hv & Hj & Hopt).
  assert (Hready : ready start gr gr grx None).
  { unfold ready, grx. cbn [grid_as width height nodes].
    split; [reflexivity|]. split; [reflexivity|]. split; [reflexivity|].
    split; [reflexivity|].
    split; [intros c; unfold nsync; cbn; auto|].
    split; [auto|]. split; [intros c; apply Hfresh|].
    intros c _ _ _. destruct (Hfresh c) as (Ho & _ & Hh & _). auto. }
  exists p. split.
  - rewrite <- Hrun.
    exact (@single_pass_sync _ RationalNumber gn (neighbours_as RationalNumber gn) Hgn
             (neighbours_as_same Hgn) (of_Z 0) (of_Z 0) fd fdx Hstair HstairX Hdm Hties
             start endc gr Horder Hstart Hend fuel gr grx Hready).
  - split; [|split; [exact Hj|]].
    + apply (proj2 (valid_path_as Hgn gr (diagonalMovement fd) p)).
      rewrite Hdm. exact Hv.
    + intros q Hq Hjq. apply Hopt; [|exact Hjq].
      rewrite <- Hdm. exact (proj1 (valid_path_as Hgn gr (diagonalMovement fd) q) Hq).
Qed.

(** The default finder in binary64 on the grid of two rows, from (0, 0)
    to (7, 0), which the upper row joins. *)
Lemma single_pass_optimal_witness :
  exists p,
    SinglePass.findPath (H := FloatNumber) Grid_getNeighbors 17
                        (AStarFinder no_options) (0, 0) (7, 0) two_routes = Ok p
    /\ valid_path Grid_getNeighbors (two_routes (H := FloatNumber))
                  (diagonalMovement (AStarFinder (H := FloatNumber) no_options)) p
    /\ joins (0, 0) (7, 0) p
    /\ forall q, valid_path Grid_getNeighbors (two_routes (H := FloatNumber))
                            (diagonalMovement (AStarFinder (H := FloatNumber) no_options))
                            q ->
                 joins (0, 0) (7, 0) q ->
                 nle (H := RationalNumber) (path_cost p) (path_cost q).
Proof.
  apply (@single_pass_optimal FloatNumber Grid_getNeighbors
           (AStarFinder no_options) (AStarFinder (H := RationalNumber) no_options)
           (0, 0) (7, 0) two_routes 17 straight_row).
  - exact Grid_getNeighbors_service.
  - reflexivity.
  - repeat split; reflexivity.
  - exact two_routes_consistent.
  - exact two_routes_same_order.
  - discriminate.
  - reflexivity.
  - intros c. repeat split.
  - simpl. repeat split; vm_compute; auto.
  - split; reflexivity.
  - vm_compute. apply le_n.
Defined.

(* ===================================================================== *)
(** ** Where binary64 does not order the values as the rationals do *)
(* ===================================================================== *)

(** The heuristic that is 2^60 everywhere: consistent, and so large that
    binary64 rounds every cost of the grid away when it is added. *)
Definition remote `{JsNumber} (dx dy : num) : num := of_Z (2 ^ 60).

Definition remote_options `{JsNumber} : Options :=
  mkOptions None None (Some remote) None (Some OnlyWhenNoObstacles)
            None None None None None None None.

(** Four rows of six cells with a wall of four cells. *)
Definition walled_field `{JsNumber} : Grid :=
  new_Grid 6 4 [(1, 1); (2, 1); (2, 2); (3, 1)].

Definition slanted : list coord :=
  [(5, 0); (5, 1); (4, 2); (3, 3); (2, 3); (1, 3); (0, 2)].




(** The single-pass finder returns the same path there. *)
Lemma single_pass_rounds_costs_away :
  SinglePass.findPath (H := FloatNumber) Grid_getNeighbors 25
                      (AStarFinder remote_options) (5, 0) (0, 2) walled_field
  = Ok slanted.
Proof. vm_compute. reflexivity. Qed.
